(** * The managed heap of the Primordial Soup VM: a shallow embedding

    This development embeds [vm/heap.h] and [vm/heap.cc] — the bump
    allocator, the Cheney scavenger with ephemerons and weak arrays, the
    class table and [BecomeForward] — and proves properties of them.

    The embedding follows the DEBUG build: a failing [ASSERT] or
    [DEBUG_ASSERT], a read through a dangling reference and signed
    overflow are the outcome [Trap]; [FATAL] is the outcome [Fatal];
    [from_.MarkUnallocated()] at the end of a scavenge empties from-space.
    Loops whose trip count the code does not bound take fuel and give
    [Timeout] when it runs out. *)

From Stdlib Require Import ZArith Lia Sorted.
From stdpp Require Import gmap list.

Local Open Scope Z_scope.

(** ** Constants of [vm/globals.h] and [vm/object.h]

    Modelled from the spec: the declarations are not part of the two files
    embedded here; the values are those of a 64-bit build. The mark bit
    and the heap-object tag share bit 0, objects are aligned to two words
    and new-space objects sit one word off that alignment. *)

Definition kWordSize : Z := 8.
Definition kObjectAlignment : Z := 2 * kWordSize.
Definition kObjectAlignmentMask : Z := kObjectAlignment - 1.
Definition kNewObjectAlignmentOffset : Z := kWordSize.
Definition MB : Z := 1048576.
Definition kInitialSemispaceSize : Z := kWordSize * MB.
Definition kMaxSemispaceSize : Z := 16 * kWordSize * MB.
Definition kIntptrMax : Z := 2 ^ 63 - 1.

Definition kIllegalCid : Z := 0.
Definition kForwardingCorpseCid : Z := 1.
Definition kFreeListElementCid : Z := 2.
Definition kFirstLegalCid : Z := 3.
Definition kArrayCid : Z := 10.
Definition kWeakArrayCid : Z := 11.
Definition kEphemeronCid : Z := 12.
Definition kFirstRegularObjectCid : Z := 15.

(** Index of [nil] in the object store and of [id] in a [Behavior]. *)
Definition kNilIndex : nat := 0.
Definition kBehaviorIdIndex : nat := 2.

(** ** Object model

    Modelled from the spec: [vm/object.h] is not among the embedded files.
    An [Object*] is a tagged word: a small integer or the address of a heap
    object. A heap object carries its header fields, the slots that
    [Pointers()] ranges over, the intrusive [next] link of weak arrays and
    ephemerons, and its untraced payload. *)

Inductive ObjectPtr : Type :=
| SmallInteger (value : Z)
| HeapObject (addr : Z).

Global Instance ObjectPtr_eq_dec : EqDecision ObjectPtr.
Proof. solve_decision. Defined.

Record Object : Type := mkObject {
  cid : Z;
  heap_size : Z;
  identity_hash : Z;
  slots : list ObjectPtr;
  next : option Z;
  payload : list Z
}.

Global Instance Object_eq_dec : EqDecision Object.
Proof. solve_decision. Defined.

(** What the memory at an object address holds: an object with a regular
    header, a forwarding corpse left by [BecomeForward] (the stale body
    stays in memory behind the corpse's fields), or a header overwritten by
    [SetForwarded] during a scavenge (mark bit set). *)
Inductive Cell : Type :=
| Live (o : Object)
| Corpse (stale : Object) (target : ObjectPtr)
| Forwarded (new_addr : Z).

Global Instance Cell_eq_dec : EqDecision Cell.
Proof. solve_decision. Defined.

Definition set_slots (o : Object) (s : list ObjectPtr) : Object :=
  mkObject (cid o) (heap_size o) (identity_hash o) s (next o) (payload o).
Definition set_next (o : Object) (n : option Z) : Object :=
  mkObject (cid o) (heap_size o) (identity_hash o) (slots o) n (payload o).
Definition set_cid (o : Object) (c : Z) : Object :=
  mkObject c (heap_size o) (identity_hash o) (slots o) (next o) (payload o).
Definition set_identity_hash (o : Object) (x : Z) : Object :=
  mkObject (cid o) (heap_size o) x (slots o) (next o) (payload o).

Definition IsImmediateObject (p : ObjectPtr) : bool :=
  match p with SmallInteger _ => true | HeapObject _ => false end.

Definition IsImmediateOrOldObject (p : ObjectPtr) : bool :=
  match p with
  | SmallInteger _ => true
  | HeapObject a =>
      negb (Z.land a kObjectAlignmentMask =? kNewObjectAlignmentOffset)
  end.

(** ** Semispaces and the heap *)

Record Semispace : Type := mkSemispace {
  base : Z;
  size : Z;
  cells : gmap Z Cell
}.

Definition limit (s : Semispace) : Z := base s + size s.
Definition object_start (s : Semispace) : Z :=
  base s + kNewObjectAlignmentOffset.

Record Heap : Type := mkHeap {
  top_ : Z;
  end_ : Z;
  to_ : Semispace;
  from_ : Semispace;
  ephemeron_list_ : option Z;
  weak_list_ : option Z;
  class_table_ : list ObjectPtr;
  class_table_top_ : Z;
  class_table_free_ : Z;
  object_store_ : ObjectPtr;
  current_activation_ : ObjectPtr;
  handles_ : list ObjectPtr;
  recycle_list_ : option Z;
  lookup_cache_ : list Z;
  vm_brk : Z
}.

(** [handles_] holds the current contents of the registered slots, one
    entry per [HandleScope]; [handles_top_] is its length.
    [class_table_capacity_] is the length of [class_table_].
    [vm_brk] is the state of [VirtualMemory]: the address at which the next
    mapping is placed. *)

Definition with_top (h : Heap) (t : Z) : Heap :=
  mkHeap t (end_ h) (to_ h) (from_ h) (ephemeron_list_ h) (weak_list_ h)
    (class_table_ h) (class_table_top_ h) (class_table_free_ h)
    (object_store_ h) (current_activation_ h) (handles_ h)
    (recycle_list_ h) (lookup_cache_ h) (vm_brk h).
Definition with_to_cells (h : Heap) (m : gmap Z Cell) : Heap :=
  mkHeap (top_ h) (end_ h) (mkSemispace (base (to_ h)) (size (to_ h)) m)
    (from_ h) (ephemeron_list_ h) (weak_list_ h)
    (class_table_ h) (class_table_top_ h) (class_table_free_ h)
    (object_store_ h) (current_activation_ h) (handles_ h)
    (recycle_list_ h) (lookup_cache_ h) (vm_brk h).
Definition with_from_cells (h : Heap) (m : gmap Z Cell) : Heap :=
  mkHeap (top_ h) (end_ h) (to_ h)
    (mkSemispace (base (from_ h)) (size (from_ h)) m)
    (ephemeron_list_ h) (weak_list_ h)
    (class_table_ h) (class_table_top_ h) (class_table_free_ h)
    (object_store_ h) (current_activation_ h) (handles_ h)
    (recycle_list_ h) (lookup_cache_ h) (vm_brk h).
Definition with_ephemeron_list (h : Heap) (l : option Z) : Heap :=
  mkHeap (top_ h) (end_ h) (to_ h) (from_ h) l (weak_list_ h)
    (class_table_ h) (class_table_top_ h) (class_table_free_ h)
    (object_store_ h) (current_activation_ h) (handles_ h)
    (recycle_list_ h) (lookup_cache_ h) (vm_brk h).
Definition with_weak_list (h : Heap) (l : option Z) : Heap :=
  mkHeap (top_ h) (end_ h) (to_ h) (from_ h) (ephemeron_list_ h) l
    (class_table_ h) (class_table_top_ h) (class_table_free_ h)
    (object_store_ h) (current_activation_ h) (handles_ h)
    (recycle_list_ h) (lookup_cache_ h) (vm_brk h).
Definition with_class_table (h : Heap) (t : list ObjectPtr) (free : Z) : Heap :=
  mkHeap (top_ h) (end_ h) (to_ h) (from_ h) (ephemeron_list_ h)
    (weak_list_ h) t (class_table_top_ h) free
    (object_store_ h) (current_activation_ h) (handles_ h)
    (recycle_list_ h) (lookup_cache_ h) (vm_brk h).
Definition with_roots (h : Heap) (os act : ObjectPtr) (hs : list ObjectPtr)
    : Heap :=
  mkHeap (top_ h) (end_ h) (to_ h) (from_ h) (ephemeron_list_ h)
    (weak_list_ h) (class_table_ h) (class_table_top_ h) (class_table_free_ h)
    os act hs (recycle_list_ h) (lookup_cache_ h) (vm_brk h).
Definition with_caches (h : Heap) (r : option Z) (c : list Z) : Heap :=
  mkHeap (top_ h) (end_ h) (to_ h) (from_ h) (ephemeron_list_ h)
    (weak_list_ h) (class_table_ h) (class_table_top_ h) (class_table_free_ h)
    (object_store_ h) (current_activation_ h) (handles_ h) r c (vm_brk h).
Definition with_spaces (h : Heap) (t e : Z) (to from : Semispace) (brk : Z)
    : Heap :=
  mkHeap t e to from (ephemeron_list_ h) (weak_list_ h)
    (class_table_ h) (class_table_top_ h) (class_table_free_ h)
    (object_store_ h) (current_activation_ h) (handles_ h)
    (recycle_list_ h) (lookup_cache_ h) brk.

(** [Heap::Size()], called [used()] in the scavenger. *)
Definition used (h : Heap) : Z := top_ h - object_start (to_ h).
Definition Capacity (h : Heap) : Z := size (to_ h).

(** ** Outcomes and the heap monad *)

Inductive Outcome (A : Type) : Type :=
| Ok (a : A)
| Fatal
| Trap
| Timeout.
Arguments Ok {A} a.
Arguments Fatal {A}.
Arguments Trap {A}.
Arguments Timeout {A}.

Definition M (A : Type) : Type := Heap -> Outcome (A * Heap).

Definition ret {A} (a : A) : M A := fun h => Ok (a, h).
Definition bind {A B} (m : M A) (k : A -> M B) : M B :=
  fun h => match m h with
           | Ok (a, h') => k a h'
           | Fatal => Fatal
           | Trap => Trap
           | Timeout => Timeout
           end.
Definition trap {A} : M A := fun _ => Trap.
Definition fatal {A} : M A := fun _ => Fatal.
Definition timeout {A} : M A := fun _ => Timeout.
Definition get : M Heap := fun h => Ok (h, h).
Definition modify (f : Heap -> Heap) : M unit := fun h => Ok (tt, f h).
Definition ASSERT (b : bool) : M unit := if b then ret tt else trap.
Definition lift {A} (o : option A) : M A :=
  match o with Some a => ret a | None => trap end.

Notation "'let*' x := m 'in' k" := (bind m (fun x => k))
  (at level 10, x name, m at level 100, k at level 200).
Notation "m ;;; k" := (bind m (fun _ => k))
  (at level 100, right associativity).

Fixpoint mapM {A B} (f : A -> M B) (l : list A) : M (list B) :=
  match l with
  | [] => ret []
  | a :: l' => let* b := f a in let* bs := mapM f l' in ret (b :: bs)
  end.

(** ** Memory access *)

Definition InFromSpace (h : Heap) (a : Z) : bool :=
  (base (from_ h) <=? a) && (a <? limit (from_ h)).
Definition InToSpace (h : Heap) (a : Z) : bool :=
  (base (to_ h) <=? a) && (a <? limit (to_ h)).

Definition read_to (a : Z) : M Cell :=
  fun h => lift (cells (to_ h) !! a) h.
Definition write_to (a : Z) (c : Cell) : M unit :=
  modify (fun h => with_to_cells h (<[a := c]> (cells (to_ h)))).
Definition read_from (a : Z) : M Cell :=
  fun h => (ASSERT (InFromSpace h a) ;;; lift (cells (from_ h) !! a)) h.
Definition write_from (a : Z) (c : Cell) : M unit :=
  modify (fun h => with_from_cells h (<[a := c]> (cells (from_ h)))).

Definition read_object (a : Z) : M Object :=
  let* c := read_to a in
  match c with Live o => ret o | _ => trap end.

Definition HeapSize (c : Cell) : M Z :=
  match c with
  | Live o => ret (heap_size o)
  | Corpse o _ => ret (heap_size o)
  | Forwarded _ => trap
  end.

Definition cell_cid (c : Cell) : M Z :=
  match c with
  | Live o => ret (cid o)
  | Corpse _ _ => ret kForwardingCorpseCid
  | Forwarded _ => trap
  end.

(** [object_store()->nil_obj()] *)
Definition nil_obj : M ObjectPtr :=
  let* h := get in
  match object_store_ h with
  | SmallInteger _ => trap
  | HeapObject a => let* o := read_object a in lift (slots o !! kNilIndex)
  end.

(** ** Allocation: [Heap::TryAllocate] (heap.h) *)

Definition IsAligned (x n : Z) : bool := x mod n =? 0.

Definition TryAllocate (size : Z) : M Z :=
  ASSERT (IsAligned size kObjectAlignment) ;;;
  let* h := get in
  let result := top_ h in
  let remaining := end_ h - top_ h in
  if remaining <? size then ret 0
  else
    ASSERT (Z.land result kObjectAlignmentMask =? kNewObjectAlignmentOffset) ;;;
    modify (fun h => with_top h (top_ h + size)) ;;;
    ret result.

(** ** The scavenger (heap.cc) *)

(** [IsForwarded], [ForwardingTarget], [SetForwarded] act on from-space
    headers. *)
Definition IsForwarded (a : Z) : M bool :=
  let* c := read_from a in
  ret (match c with Forwarded _ => true | _ => false end).

Definition SetForwarded (old_addr new_addr : Z) : M unit :=
  write_from old_addr (Forwarded new_addr).

(** The copying branch shared by [ScavengePointer] and [ScavengeClass]:
    allocate, [memcpy], [SetForwarded]. *)
Definition copy_to_space (old_target_addr : Z) (c : Cell) : M Z :=
  let* size := HeapSize c in
  let* new_target_addr := TryAllocate size in
  ASSERT (negb (new_target_addr =? 0)) ;;;
  write_to new_target_addr c ;;;
  SetForwarded old_target_addr new_target_addr ;;;
  ret new_target_addr.

(** [DEBUG_ASSERT(InToSpace(new_target))] *)
Definition ASSERT_InToSpace (p : ObjectPtr) : M unit :=
  let* h := get in
  ASSERT (match p with
          | HeapObject a => InToSpace h a
          | SmallInteger _ => false
          end).

(** [Heap::ScavengePointer(Object** ptr)]: takes [*ptr] and returns the value
    the code stores back into [*ptr]. *)
Definition ScavengePointer (old_target : ObjectPtr) : M ObjectPtr :=
  match old_target with
  | SmallInteger _ => ret old_target
  | HeapObject old_target_addr =>
      if IsImmediateOrOldObject old_target then ret old_target
      else
        let* c := read_from old_target_addr in
        let* new_target :=
          match c with
          | Forwarded new_addr => ret (HeapObject new_addr)
          | _ =>
              let* new_target_addr := copy_to_space old_target_addr c in
              ret (HeapObject new_target_addr)
          end in
        ASSERT_InToSpace new_target ;;;
        ret new_target
  end.

(** [Heap::ScavengeClass(intptr_t cid)] *)
Definition ScavengeClass (cid : Z) : M unit :=
  let* h := get in
  ASSERT (cid <? class_table_top_ h) ;;;
  ASSERT (0 <=? cid) ;;;
  let* old_target := lift (class_table_ h !! Z.to_nat cid) in
  match old_target with
  | SmallInteger _ => ret tt
  | HeapObject old_target_addr =>
      if IsImmediateOrOldObject old_target then ret tt
      else
        let* c := read_from old_target_addr in
        match c with
        | Forwarded _ => ret tt
        | _ => copy_to_space old_target_addr c ;;; ret tt
        end
  end.

(** [Heap::ProcessRoots] *)
Definition ProcessRoots : M unit :=
  let* h := get in
  let* os := ScavengePointer (object_store_ h) in
  modify (fun h => with_roots h os (current_activation_ h) (handles_ h)) ;;;
  let* act := ScavengePointer (current_activation_ h) in
  modify (fun h => with_roots h (object_store_ h) act (handles_ h)) ;;;
  let* hs := mapM ScavengePointer (handles_ h) in
  modify (fun h => with_roots h (object_store_ h) (current_activation_ h) hs).

Definition AddToWeakList (survivor : Z) : M unit :=
  let* h := get in
  ASSERT (InToSpace h survivor) ;;;
  let* o := read_object survivor in
  write_to survivor (Live (set_next o (weak_list_ h))) ;;;
  modify (fun h => with_weak_list h (Some survivor)).

Definition AddToEphemeronList (survivor : Z) : M unit :=
  let* h := get in
  ASSERT (InToSpace h survivor) ;;;
  let* o := read_object survivor in
  write_to survivor (Live (set_next o (ephemeron_list_ h))) ;;;
  modify (fun h => with_ephemeron_list h (Some survivor)).

(** [Heap::ProcessToSpace(uword scan)]; the [for] loop over
    [obj->Pointers()] scavenges every slot in order and stores it back. *)
Fixpoint ProcessToSpace (fuel : nat) (scan : Z) : M Z :=
  let* h := get in
  if scan <? top_ h then
    match fuel with
    | O => timeout
    | S fuel' =>
        let* obj := read_object scan in
        ScavengeClass (cid obj) ;;;
        (if cid obj =? kWeakArrayCid then AddToWeakList scan
         else if cid obj =? kEphemeronCid then AddToEphemeronList scan
         else
           ASSERT (negb (cid obj =? kForwardingCorpseCid)) ;;;
           let* new_slots := mapM ScavengePointer (slots obj) in
           write_to scan (Live (set_slots obj new_slots))) ;;;
        ProcessToSpace fuel' (scan + heap_size obj)
    end
  else ret scan.

(** [Heap::ProcessEphemeronList] *)
Definition key_is_live (key : ObjectPtr) : M bool :=
  match key with
  | SmallInteger _ => ret true
  | HeapObject a =>
      if IsImmediateOrOldObject key then ret true else IsForwarded a
  end.

Fixpoint ProcessEphemeronList_loop (fuel : nat) (survivor : option Z)
    : M unit :=
  match survivor with
  | None => ret tt
  | Some e =>
      match fuel with
      | O => timeout
      | S fuel' =>
          let* o := read_object e in
          ASSERT (cid o =? kEphemeronCid) ;;;
          let next_ := next o in
          write_to e (Live (set_next o None)) ;;;
          match slots o with
          | key :: value :: finalizer :: rest =>
              let* live := key_is_live key in
              (if live then
                 let* key' := ScavengePointer key in
                 let* value' := ScavengePointer value in
                 let* finalizer' := ScavengePointer finalizer in
                 write_to e (Live (set_slots (set_next o None)
                                     (key' :: value' :: finalizer' :: rest)))
               else AddToEphemeronList e) ;;;
              ProcessEphemeronList_loop fuel' next_
          | _ => trap
          end
      end
  end.

Definition ProcessEphemeronList (fuel : nat) : M unit :=
  let* h := get in
  modify (fun h => with_ephemeron_list h None) ;;;
  ProcessEphemeronList_loop fuel (ephemeron_list_ h).

(** [Heap::MournEphemeronList] *)
Fixpoint MournEphemeronList_loop (fuel : nat) (nil : ObjectPtr)
    (survivor : option Z) : M unit :=
  match survivor with
  | None => ret tt
  | Some e =>
      match fuel with
      | O => timeout
      | S fuel' =>
          let* o := read_object e in
          ASSERT (cid o =? kEphemeronCid) ;;;
          match slots o with
          | key :: value :: finalizer :: rest =>
              let* h := get in
              ASSERT (match key with
                      | HeapObject a => InFromSpace h a
                      | SmallInteger _ => false
                      end) ;;;
              write_to e (Live (set_slots o (nil :: nil :: nil :: rest))) ;;;
              MournEphemeronList_loop fuel' nil (next o)
          | _ => trap
          end
      end
  end.

Definition MournEphemeronList (fuel : nat) : M unit :=
  let* nil := nil_obj in
  let* h := get in
  modify (fun h => with_ephemeron_list h None) ;;;
  MournEphemeronList_loop fuel nil (ephemeron_list_ h).

(** [Heap::MournWeakPointer(Object** ptr)] *)
Definition MournWeakPointer (old_target : ObjectPtr) : M ObjectPtr :=
  match old_target with
  | SmallInteger _ => ret old_target
  | HeapObject old_target_addr =>
      if IsImmediateOrOldObject old_target then ret old_target
      else
        let* c := read_from old_target_addr in
        let* new_target :=
          match c with
          | Forwarded new_addr => ret (HeapObject new_addr)
          | _ => nil_obj
          end in
        ASSERT_InToSpace new_target ;;;
        ret new_target
  end.

(** [Heap::MournWeakList] *)
Fixpoint MournWeakList_loop (fuel : nat) (survivor : option Z) : M unit :=
  match survivor with
  | None => ret tt
  | Some w =>
      match fuel with
      | O => timeout
      | S fuel' =>
          let* o := read_object w in
          ASSERT (cid o =? kWeakArrayCid) ;;;
          let* new_slots := mapM MournWeakPointer (slots o) in
          write_to w (Live (set_slots o new_slots)) ;;;
          MournWeakList_loop fuel' (next o)
      end
  end.

Definition MournWeakList (fuel : nat) : M unit :=
  let* h := get in
  modify (fun h => with_weak_list h None) ;;;
  MournWeakList_loop fuel (weak_list_ h).

(** [Heap::MournClassTable]: the loop body for entry [i], then the loop over
    [n] entries starting at index [i]. *)
Definition MournClassTable_entry (i : Z) : M unit :=
  let* h := get in
  let* old_target := lift (class_table_ h !! Z.to_nat i) in
  if IsImmediateOrOldObject old_target then ret tt
  else
    match old_target with
    | SmallInteger _ => ret tt
    | HeapObject old_target_addr =>
        let* c := read_from old_target_addr in
        match c with
        | Forwarded new_addr =>
            ASSERT_InToSpace (HeapObject new_addr) ;;;
            modify (fun h =>
              with_class_table h
                (<[Z.to_nat i := HeapObject new_addr]> (class_table_ h))
                (class_table_free_ h))
        | _ =>
            modify (fun h =>
              with_class_table h
                (<[Z.to_nat i := SmallInteger (class_table_free_ h)]>
                   (class_table_ h))
                i)
        end
    end.

Fixpoint MournClassTable_loop (n : nat) (i : Z) : M unit :=
  match n with
  | O => ret tt
  | S n' => MournClassTable_entry i ;;; MournClassTable_loop n' (i + 1)
  end.

Definition MournClassTable : M unit :=
  let* h := get in
  MournClassTable_loop (Z.to_nat (class_table_top_ h - kFirstLegalCid))
    kFirstLegalCid.

(** [Heap::ClearCaches] with [LOOKUP_CACHE] and [RECYCLE_ACTIVATIONS]. *)
Definition ClearCaches : M unit :=
  modify (fun h => with_caches h None []).

(** [VirtualMemory::Allocate]: a fresh mapping of [size] bytes.
    Modelled from the spec: mappings are handed out at increasing
    addresses and never overlap. *)
Definition Semispace_Allocate (sz : Z) (brk : Z) : Semispace * Z :=
  (mkSemispace brk sz ∅, brk + sz).

(** [Heap::FlipSpaces] *)
Definition FlipSpaces : M unit :=
  let* h := get in
  let temp := to_ h in
  let to := from_ h in
  let from := temp in
  let '(to, brk) :=
    if size to <? size from then Semispace_Allocate (size from) (vm_brk h)
    else (to, vm_brk h) in
  modify (fun h => with_spaces h (object_start to) (limit to) to from brk) ;;;
  ASSERT (Z.land (object_start to) kObjectAlignmentMask
          =? kNewObjectAlignmentOffset).

(** [from_.MarkUnallocated()] *)
Definition MarkUnallocated_from : M unit :=
  modify (fun h => with_from_cells h ∅).

(** The body of [Heap::Scavenge] up to the early-growth test. [fuel] bounds
    every loop of the collection. *)
Fixpoint Scavenge_loop (fuel : nat) (n : nat) (scan : Z) : M unit :=
  let* h := get in
  if scan <? top_ h then
    match n with
    | O => timeout
    | S n' =>
        let* scan' := ProcessToSpace fuel scan in
        ProcessEphemeronList fuel ;;;
        Scavenge_loop fuel n' scan'
    end
  else ret tt.

Definition scavenge_fuel (h : Heap) : nat :=
  S (Z.to_nat (Z.max (size (to_ h)) (size (from_ h)))).

Definition Scavenge_collect : M unit :=
  let* h0 := get in
  let fuel := scavenge_fuel h0 in
  FlipSpaces ;;;
  ProcessRoots ;;;
  let* h := get in
  Scavenge_loop fuel fuel (object_start (to_ h)) ;;;
  MournEphemeronList fuel ;;;
  MournWeakList fuel ;;;
  MournClassTable ;;;
  ClearCaches ;;;
  MarkUnallocated_from.

(** [Heap::Grow], given the scavenge it ends with. Doubling an [intptr_t]
    past its range is undefined. *)
Fixpoint Grow_new_size (fuel : nat) (current_size size_requested new_size : Z)
    : Outcome Z :=
  if new_size - current_size <? size_requested then
    match fuel with
    | O => Timeout
    | S fuel' =>
        if new_size * 2 >? kIntptrMax then Trap
        else Grow_new_size fuel' current_size size_requested (new_size * 2)
    end
  else Ok new_size.

Definition Grow_with (scavenge : M unit) (size_requested : Z) : M unit :=
  let* h := get in
  let current_size := size (to_ h) in
  ASSERT (current_size * 2 <=? kIntptrMax) ;;;
  match Grow_new_size 64 current_size size_requested (current_size * 2) with
  | Ok new_size =>
      if new_size >? kMaxSemispaceSize then fatal
      else
        modify (fun h =>
          let '(from, brk) := Semispace_Allocate new_size (vm_brk h) in
          with_spaces h (top_ h) (end_ h) (to_ h) from brk) ;;;
        scavenge
  | Fatal => fatal
  | Trap => trap
  | Timeout => timeout
  end.

(** [Heap::Scavenge]: the collection, then the early-growth heuristic, whose
    [Grow] scavenges again; [depth] bounds that recursion. *)
Fixpoint Scavenge_rec (depth : nat) : M unit :=
  Scavenge_collect ;;;
  let* h := get in
  if used h >? 7 * size (to_ h) / 8 then
    match depth with
    | O => timeout
    | S depth' => Grow_with (Scavenge_rec depth') (size (to_ h))
    end
  else ret tt.

Definition Scavenge : M unit := Scavenge_rec 64.
Definition Grow (size_requested : Z) : M unit :=
  Grow_with Scavenge size_requested.

(** [Heap::Allocate] *)
Definition Allocate (size : Z) : M Z :=
  ASSERT (Z.land size kObjectAlignmentMask =? 0) ;;;
  let* raw := TryAllocate size in
  if raw =? 0 then
    Scavenge ;;;
    let* raw := TryAllocate size in
    if raw =? 0 then
      Grow size ;;;
      let* raw := TryAllocate size in
      if raw =? 0 then fatal else ret raw
    else ret raw
  else ret raw.

(** ** Walking to-space: [CountInstances], [CollectInstances] *)

Fixpoint CountInstances_loop (fuel : nat) (cid : Z) (instances scan : Z)
    : M Z :=
  let* h := get in
  if scan <? top_ h then
    match fuel with
    | O => timeout
    | S fuel' =>
        let* obj := read_to scan in
        let* c := cell_cid obj in
        let* sz := HeapSize obj in
        CountInstances_loop fuel' cid
          (if c =? cid then instances + 1 else instances) (scan + sz)
    end
  else ret instances.

Definition walk_fuel (h : Heap) : nat :=
  Z.to_nat (top_ h - object_start (to_ h)).

Definition CountInstances (cid : Z) : M Z :=
  let* h := get in
  CountInstances_loop (walk_fuel h) cid 0 (object_start (to_ h)).

(** [Array::set_element]: a store past the last element is undefined. *)
Definition set_element (array : Z) (index : Z) (value : ObjectPtr) : M unit :=
  let* o := read_object array in
  ASSERT (0 <=? index) ;;;
  ASSERT (index <? Z.of_nat (length (slots o))) ;;;
  write_to array (Live (set_slots o (<[Z.to_nat index := value]> (slots o)))).

Fixpoint CollectInstances_loop (fuel : nat) (cid : Z) (array : Z)
    (instances scan : Z) : M Z :=
  let* h := get in
  if scan <? top_ h then
    match fuel with
    | O => timeout
    | S fuel' =>
        let* obj := read_to scan in
        let* c := cell_cid obj in
        (if c =? cid then set_element array instances (HeapObject scan)
         else ret tt) ;;;
        let* obj := read_to scan in
        let* sz := HeapSize obj in
        CollectInstances_loop fuel' cid array
          (if c =? cid then instances + 1 else instances) (scan + sz)
    end
  else ret instances.

Definition CollectInstances (cid : Z) (array : Z) : M Z :=
  let* h := get in
  CollectInstances_loop (walk_fuel h) cid array 0 (object_start (to_ h)).

(** ** [BecomeForward] and its forwarding passes *)

Definition IsForwardingCorpse (p : ObjectPtr) : M bool :=
  match p with
  | SmallInteger _ => ret false
  | HeapObject a =>
      let* c := read_to a in
      let* k := cell_cid c in
      ret (k =? kForwardingCorpseCid)
  end.

(** [reinterpret_cast<ForwardingCorpse*>(p)->target()] *)
Definition corpse_target (p : ObjectPtr) : M ObjectPtr :=
  match p with
  | SmallInteger _ => trap
  | HeapObject a =>
      let* c := read_to a in
      match c with Corpse _ t => ret t | _ => trap end
  end.

(** [Behavior::id()]; through a corpse it reads the stale body. *)
Definition Behavior_id (p : ObjectPtr) : M ObjectPtr :=
  match p with
  | SmallInteger _ => trap
  | HeapObject a =>
      let* c := read_to a in
      match c with
      | Live o => lift (slots o !! kBehaviorIdIndex)
      | Corpse o _ => lift (slots o !! kBehaviorIdIndex)
      | Forwarded _ => trap
      end
  end.

Definition Behavior_set_id (p : ObjectPtr) (id : ObjectPtr) : M unit :=
  match p with
  | SmallInteger _ => trap
  | HeapObject a =>
      let* o := read_object a in
      ASSERT (Nat.ltb kBehaviorIdIndex (length (slots o))) ;;;
      write_to a (Live (set_slots o (<[kBehaviorIdIndex := id]> (slots o))))
  end.

Definition IsSmallInteger (p : ObjectPtr) : bool := IsImmediateObject p.

(** [ForwardClass(heap, object)] *)
Definition ForwardClass (object : Z) : M unit :=
  let* o := read_object object in
  let* h := get in
  ASSERT (cid o >? kIllegalCid) ;;;
  ASSERT (cid o <? class_table_top_ h) ;;;
  let* old_class := lift (class_table_ h !! Z.to_nat (cid o)) in
  let* corpse := IsForwardingCorpse old_class in
  if corpse then
    let* new_class := corpse_target old_class in
    let* new_corpse := IsForwardingCorpse new_class in
    ASSERT (negb new_corpse) ;;;
    let* new_id := Behavior_id new_class in
    let* nil := nil_obj in
    (if bool_decide (new_id = nil) then
       let* old_id := Behavior_id old_class in
       ASSERT (IsSmallInteger old_id) ;;;
       Behavior_set_id new_class old_id
     else ret tt) ;;;
    let* new_id := Behavior_id new_class in
    match new_id with
    | SmallInteger v =>
        let* o := read_object object in
        write_to object (Live (set_cid o v))
    | HeapObject _ => trap
    end
  else ret tt.

(** [ForwardPointer(Object** ptr)]: takes [*ptr], returns what is stored
    back. *)
Definition ForwardPointer (old_target : ObjectPtr) : M ObjectPtr :=
  let* corpse := IsForwardingCorpse old_target in
  if corpse then
    let* new_target := corpse_target old_target in
    let* new_corpse := IsForwardingCorpse new_target in
    ASSERT (negb new_corpse) ;;;
    ret new_target
  else ret old_target.

(** [Heap::ForwardRoots] *)
Definition ForwardRoots : M unit :=
  let* h := get in
  let* os := ForwardPointer (object_store_ h) in
  let* act := ForwardPointer (current_activation_ h) in
  let* hs := mapM ForwardPointer (handles_ h) in
  modify (fun h => with_roots h os act hs).

(** [Heap::ForwardToSpace] *)
Fixpoint ForwardToSpace_loop (fuel : nat) (scan : Z) : M unit :=
  let* h := get in
  if scan <? top_ h then
    match fuel with
    | O => timeout
    | S fuel' =>
        let* corpse := IsForwardingCorpse (HeapObject scan) in
        (if corpse then ret tt
         else
           ForwardClass scan ;;;
           let* o := read_object scan in
           let* new_slots := mapM ForwardPointer (slots o) in
           write_to scan (Live (set_slots o new_slots))) ;;;
        let* obj := read_to scan in
        let* sz := HeapSize obj in
        ForwardToSpace_loop fuel' (scan + sz)
    end
  else ret tt.

Definition ForwardToSpace : M unit :=
  let* h := get in
  ForwardToSpace_loop (walk_fuel h) (object_start (to_ h)).

(** [Heap::ForwardClassTable]: [n] entries starting at index [i]. *)
Fixpoint ForwardClassTable_loop (n : nat) (nil : ObjectPtr) (i : Z)
    : M unit :=
  match n with
  | O => ret tt
  | S n' =>
      let* h := get in
      let* old_class := lift (class_table_ h !! Z.to_nat i) in
      let* corpse := IsForwardingCorpse old_class in
      (if negb corpse then ret tt
       else
         let* new_class := corpse_target old_class in
         let* new_corpse := IsForwardingCorpse new_class in
         ASSERT (negb new_corpse) ;;;
         let* old_id := Behavior_id old_class in
         let* new_id := Behavior_id new_class in
         ASSERT (IsSmallInteger old_id) ;;;
         ASSERT (IsSmallInteger new_id || bool_decide (new_id = nil)) ;;;
         if bool_decide (old_id = new_id) then
           modify (fun h =>
             with_class_table h
               (<[Z.to_nat i := new_class]> (class_table_ h))
               (class_table_free_ h))
         else
           modify (fun h =>
             with_class_table h
               (<[Z.to_nat i := SmallInteger (class_table_free_ h)]>
                  (class_table_ h))
               i)) ;;;
      ForwardClassTable_loop n' nil (i + 1)
  end.

Definition ForwardClassTable : M unit :=
  let* nil := nil_obj in
  let* h := get in
  ForwardClassTable_loop (Z.to_nat (class_table_top_ h - kFirstLegalCid))
    nil kFirstLegalCid.

(** [Array::element(i)] *)
Definition element (array : Z) (i : nat) : M ObjectPtr :=
  let* o := read_object array in
  lift (slots o !! i).

(** The first loop of [BecomeForward]: does any pair hold an immediate? *)
Fixpoint has_immediate (olds neus : list ObjectPtr) : bool :=
  match olds, neus with
  | forwarder :: olds', forwardee :: neus' =>
      if IsImmediateObject forwarder || IsImmediateObject forwardee then true
      else has_immediate olds' neus'
  | _, _ => false
  end.

(** The second loop: one iteration for index [i]. *)
Definition become_install (old neu : Z) (i : nat) : M unit :=
  let* forwarder := element old i in
  let* forwardee := element neu i in
  let* c1 := IsForwardingCorpse forwarder in
  ASSERT (negb c1) ;;;
  let* c2 := IsForwardingCorpse forwardee in
  ASSERT (negb c2) ;;;
  match forwarder, forwardee with
  | HeapObject a, HeapObject b =>
      let* fo := read_object a in
      let* bo := read_object b in
      write_to b (Live (set_identity_hash bo (identity_hash fo))) ;;;
      let* fo := read_object a in
      write_to a (Corpse fo forwardee)
  | _, _ => trap
  end.

Fixpoint become_install_loop (old neu : Z) (n : nat) (i : nat) : M unit :=
  match n with
  | O => ret tt
  | S n' => become_install old neu i ;;; become_install_loop old neu n' (S i)
  end.

(** [Heap::BecomeForward(Array* old, Array* neu)] *)
Definition BecomeForward (old neu : Z) : M bool :=
  let* old_o := read_object old in
  let* neu_o := read_object neu in
  if negb (length (slots old_o) =? length (slots neu_o))%nat then ret false
  else if has_immediate (slots old_o) (slots neu_o) then ret false
  else
    become_install_loop old neu (length (slots old_o)) 0 ;;;
    ForwardRoots ;;;
    ForwardToSpace ;;;
    ForwardClassTable ;;;
    ClearCaches ;;;
    ret true.

(** * Reasoning about the heap monad *)

Lemma bind_Ok {A B} (m : M A) (k : A -> M B) h b h' :
  bind m k h = Ok (b, h') ->
  exists a h1, m h = Ok (a, h1) /\ k a h1 = Ok (b, h').
Proof.
  unfold bind. destruct (m h) as [[a h1]| | |]; try discriminate. eauto.
Qed.

Lemma ret_Ok {A} (a b : A) h h' : ret a h = Ok (b, h') -> b = a /\ h' = h.
Proof. unfold ret. intros H. injection H as <- <-. done. Qed.

Lemma get_Ok h a h' : get h = Ok (a, h') -> a = h /\ h' = h.
Proof. unfold get. intros H. injection H as <- <-. done. Qed.

Lemma modify_Ok f h u h' : modify f h = Ok (u, h') -> h' = f h.
Proof. unfold modify. intros H. injection H as _ <-. done. Qed.

Lemma ASSERT_Ok b h u h' : ASSERT b h = Ok (u, h') -> b = true /\ h' = h.
Proof.
  unfold ASSERT. destruct b; [|discriminate].
  intros H. apply ret_Ok in H as [_ ->]. done.
Qed.

Lemma lift_Ok {A} (o : option A) h a h' :
  lift o h = Ok (a, h') -> o = Some a /\ h' = h.
Proof.
  unfold lift. destruct o; [|discriminate].
  intros H. apply ret_Ok in H as [-> ->]. done.
Qed.

Lemma trap_Ok {A} h (r : A * Heap) : trap h = Ok r -> False.
Proof. discriminate. Qed.

Lemma fatal_Ok {A} h (r : A * Heap) : fatal h = Ok r -> False.
Proof. discriminate. Qed.

Lemma timeout_Ok {A} h (r : A * Heap) : timeout h = Ok r -> False.
Proof. discriminate. Qed.

(** Inversion of a successful run, one monadic step at a time. *)
Ltac minv :=
  repeat match goal with
  | H : bind _ _ _ = Ok (_, _) |- _ =>
      let a := fresh "a" in let h := fresh "h" in let H1 := fresh "H" in
      apply bind_Ok in H as (a & h & H1 & H)
  | H : ret _ _ = Ok (_, _) |- _ => apply ret_Ok in H as [? ?]; subst
  | H : get _ = Ok (_, _) |- _ => apply get_Ok in H as [? ?]; subst
  | H : modify _ _ = Ok (_, _) |- _ => apply modify_Ok in H; subst
  | H : ASSERT _ _ = Ok (_, _) |- _ => apply ASSERT_Ok in H as [? ?]; subst
  | H : lift _ _ = Ok (_, _) |- _ => apply lift_Ok in H as [? ?]; subst
  | H : trap _ = Ok _ |- _ => destruct (trap_Ok _ _ H)
  | H : fatal _ = Ok _ |- _ => destruct (fatal_Ok _ _ H)
  | H : timeout _ = Ok _ |- _ => destruct (timeout_Ok _ _ H)
  end.

(** * Allocation *)

Definition aligned_top (h : Heap) : Prop :=
  Z.land (top_ h) kObjectAlignmentMask = kNewObjectAlignmentOffset.

Lemma TryAllocate_fits size h :
  size mod kObjectAlignment = 0 -> aligned_top h ->
  size <= end_ h - top_ h ->
  TryAllocate size h = Ok (top_ h, with_top h (top_ h + size)).
Proof.
  intros Hs Ht Hfit. unfold TryAllocate, IsAligned, bind, get.
  rewrite Hs. simpl.
  destruct (Z.ltb_spec (end_ h - top_ h) size); [lia|].
  unfold aligned_top in Ht. rewrite Ht. reflexivity.
Qed.

Lemma TryAllocate_full size h :
  size mod kObjectAlignment = 0 ->
  end_ h - top_ h < size ->
  TryAllocate size h = Ok (0, h).
Proof.
  intros Hs Hfull. unfold TryAllocate, IsAligned, bind, get.
  rewrite Hs. simpl.
  destruct (Z.ltb_spec (end_ h - top_ h) size); [reflexivity|lia].
Qed.

Lemma TryAllocate_Ok size h raw h' :
  TryAllocate size h = Ok (raw, h') ->
  size mod kObjectAlignment = 0 /\
  ((end_ h - top_ h < size /\ raw = 0 /\ h' = h) \/
   (size <= end_ h - top_ h /\ raw = top_ h /\ aligned_top h /\
    h' = with_top h (top_ h + size))).
Proof.
  unfold TryAllocate, IsAligned. intros H. minv.
  apply Z.eqb_eq in H0. split; [done|].
  destruct (Z.ltb_spec (end_ h - top_ h) size); minv.
  - left. done.
  - right. apply Z.eqb_eq in H. done.
Qed.

Lemma land_mask_mod x : Z.land x kObjectAlignmentMask = x mod kObjectAlignment.
Proof.
  change kObjectAlignmentMask with (Z.ones 4).
  change kObjectAlignment with (2 ^ 4). apply Z.land_ones. lia.
Qed.

(** * Growth *)

Lemma Grow_new_size_Ok fuel cur req n0 r :
  Grow_new_size fuel cur req n0 = Ok r ->
  exists j : nat,
    r = n0 * 2 ^ Z.of_nat j /\ req <= r - cur /\
    forall i : nat, (i < j)%nat -> n0 * 2 ^ Z.of_nat i - cur < req.
Proof.
  revert n0. induction fuel as [|fuel IH]; intros n0; simpl.
  - destruct (Z.ltb_spec (n0 - cur) req) as [Hlt|Hge]; [discriminate|].
    intros [= <-]. exists 0%nat. simpl. split; [lia|]. split; [lia|].
    intros i Hi. lia.
  - destruct (Z.ltb_spec (n0 - cur) req) as [Hlt|Hge].
    + destruct (n0 * 2 >? kIntptrMax); [discriminate|].
      intros H. apply IH in H as (j & -> & Hreq & Hmin).
      exists (S j). rewrite Nat2Z.inj_succ, Z.pow_succ_r by lia.
      split; [lia|]. split; [lia|].
      intros [|i] Hi; [simpl; lia|].
      rewrite Nat2Z.inj_succ, Z.pow_succ_r by lia.
      specialize (Hmin i ltac:(lia)). lia.
    + intros [= <-]. exists 0%nat. simpl. split; [lia|]. split; [lia|].
      intros i Hi. lia.
Qed.

Lemma Grow_new_size_Timeout fuel cur req n0 :
  n0 <= kIntptrMax ->
  Grow_new_size fuel cur req n0 = Timeout ->
  n0 * 2 ^ Z.of_nat fuel <= kIntptrMax.
Proof.
  revert n0. induction fuel as [|fuel IH]; intros n0 Hn0; simpl.
  - intros _. lia.
  - destruct (n0 - cur <? req); [|discriminate].
    destruct (Z.gtb_spec (n0 * 2) kIntptrMax) as [Hgt|Hle]; [discriminate|].
    intros H. apply IH in H; [|done].
    rewrite Nat2Z.inj_succ, Z.pow_succ_r by lia. lia.
Qed.

Lemma Grow_new_size_not_Fatal fuel cur req n0 :
  Grow_new_size fuel cur req n0 <> Fatal.
Proof.
  revert n0. induction fuel as [|fuel IH]; intros n0; simpl.
  - destruct (n0 - cur <? req); discriminate.
  - destruct (n0 - cur <? req); [|discriminate].
    destruct (n0 * 2 >? kIntptrMax); [discriminate|apply IH].
Qed.

(** The mapping [Grow] installs as from-space before it scavenges. *)
Definition Grow_realloc (h : Heap) (new_size : Z) : Heap :=
  with_spaces h (top_ h) (end_ h) (to_ h)
    (mkSemispace (vm_brk h) new_size ∅) (vm_brk h + new_size).

Lemma FlipSpaces_Ok h u h' :
  FlipSpaces h = Ok (u, h') ->
  let realloc := size (from_ h) <? size (to_ h) in
  let to := if realloc then mkSemispace (vm_brk h) (size (to_ h)) ∅
            else from_ h in
  h' = with_spaces h (object_start to) (limit to) to (to_ h)
         (if realloc then vm_brk h + size (to_ h) else vm_brk h).
Proof.
  unfold FlipSpaces. intros H.
  apply bind_Ok in H as (? & ? & Hg & H). apply get_Ok in Hg as [-> ->].
  unfold Semispace_Allocate in H.
  destruct (size (from_ h) <? size (to_ h)); simpl in *;
    apply bind_Ok in H as (? & ? & Hm & H); apply modify_Ok in Hm;
    apply ASSERT_Ok in H as [_ ->]; subst; reflexivity.
Qed.

Lemma Grow_with_eq scavenge size_requested h new_size :
  size (to_ h) * 2 <= kIntptrMax ->
  Grow_new_size 64 (size (to_ h)) size_requested (size (to_ h) * 2)
    = Ok new_size ->
  Grow_with scavenge size_requested h =
  if new_size >? kMaxSemispaceSize then Fatal
  else scavenge (Grow_realloc h new_size).
Proof.
  intros Hfit Hn. unfold Grow_with, bind, get, ASSERT.
  rewrite (proj2 (Z.leb_le _ _) Hfit). unfold ret. cbv beta iota.
  rewrite Hn. destruct (new_size >? kMaxSemispaceSize); reflexivity.
Qed.

(** C8 as the claim states it: after [Grow] both semispaces have the chosen
    size, the scavenge having reallocated the old to-space to match. *)
Definition Grow_reallocates_both (size_requested : Z) (h : Heap) : Prop :=
  forall new_size h',
    Grow_new_size 64 (size (to_ h)) size_requested (size (to_ h) * 2)
      = Ok new_size ->
    Grow size_requested h = Ok (tt, h') ->
    size (to_ h') = new_size /\ size (from_ h') = new_size.

(** * [BecomeForward]: the failure path *)

Lemma read_object_Live a o h :
  cells (to_ h) !! a = Some (Live o) -> read_object a h = Ok (o, h).
Proof.
  intros H. unfold read_object, read_to, bind, lift. rewrite H. reflexivity.
Qed.

Lemma has_immediate_true olds neus i x y :
  olds !! i = Some x -> neus !! i = Some y ->
  IsImmediateObject x = true \/ IsImmediateObject y = true ->
  has_immediate olds neus = true.
Proof.
  revert neus i. induction olds as [|o olds IH]; intros [|n neus] [|i];
    simpl; try discriminate.
  - intros [= ->] [= ->] [-> | ->]; [reflexivity|].
    by rewrite orb_true_r.
  - intros Hx Hy Himm.
    destruct (IsImmediateObject o || IsImmediateObject n); [reflexivity|].
    eapply IH; eauto.
Qed.

(** C4. [BecomeForward] failure atomicity: when the two arrays differ in
    length, or some pair [old[i]], [neu[i]] holds an immediate, the call
    returns [false] and the heap — identity hashes, cells, roots, class
    table, caches — is the heap it was called on. *)
Theorem BecomeForward_failure_atomic (h : Heap) (old neu : Z)
    (old_o neu_o : Object)
    (Hold : cells (to_ h) !! old = Some (Live old_o))
    (Hneu : cells (to_ h) !! neu = Some (Live neu_o))
    (Hfail : length (slots old_o) <> length (slots neu_o) \/
             exists (i : nat) (x y : ObjectPtr),
               slots old_o !! i = Some x /\ slots neu_o !! i = Some y /\
               (IsImmediateObject x = true \/ IsImmediateObject y = true)) :
  BecomeForward old neu h = Ok (false, h).
Proof.
  unfold BecomeForward, bind.
  rewrite (read_object_Live _ _ _ Hold), (read_object_Live _ _ _ Hneu).
  destruct (Nat.eqb_spec (length (slots old_o)) (length (slots neu_o)))
    as [Hlen|Hlen]; simpl; [|reflexivity].
  destruct Hfail as [Hne|(i & x & y & Hx & Hy & Himm)]; [done|].
  by rewrite (has_immediate_true _ _ _ _ _ Hx Hy Himm).
Qed.

(** * Example heaps *)

Module Examples.

Definition obj (c sz hsh : Z) (sl : list ObjectPtr) : Cell :=
  Live (mkObject c sz hsh sl None []).

(** To-space at 1024 and from-space at 2048, 512 bytes each. The object
    store holds [nil], a weak array [w] and an object [x]; [w] holds [x] and
    an object [y] that nothing else refers to. *)
Definition weak_cells : gmap Z Cell :=
  list_to_map [
    (1032, obj kArrayCid 32 0 [HeapObject 1064; HeapObject 1080; HeapObject 1112]);
    (1064, obj 16 16 7 []);
    (1080, obj kWeakArrayCid 32 0 [HeapObject 1112; HeapObject 1128]);
    (1112, obj 16 16 5 [SmallInteger 3]);
    (1128, obj 16 16 6 [SmallInteger 4])
  ].

Definition weak_heap : Heap :=
  mkHeap 1144 1536 (mkSemispace 1024 512 weak_cells) (mkSemispace 2048 512 ∅)
    None None (replicate 20 (SmallInteger 0)) 20 0
    (HeapObject 1032) (SmallInteger 0) [] None [] 4096.

Definition weak_heap_after : Heap :=
  Eval vm_compute in
    match Scavenge weak_heap with Ok (_, h) => h | _ => weak_heap end.

Definition weak_heap_after2 : Heap :=
  Eval vm_compute in
    match Scavenge weak_heap_after with
    | Ok (_, h) => h
    | _ => weak_heap
    end.

(** The object store holds [nil], three ephemerons and the key [k1] of the
    first. The value of [e1] is the key [k2] of [e2], which nothing else
    refers to; the key [k3] of [e3] is referred to only by the value [v3] of
    [e3] itself. *)
Definition eph_cells : gmap Z Cell :=
  list_to_map [
    (1032, obj kArrayCid 48 0
             [HeapObject 1080; HeapObject 1096; HeapObject 1128;
              HeapObject 1160; HeapObject 1192]);
    (1080, obj 16 16 7 []);
    (1096, obj kEphemeronCid 32 1
             [HeapObject 1192; HeapObject 1208; HeapObject 1080]);
    (1128, obj kEphemeronCid 32 2
             [HeapObject 1208; HeapObject 1224; HeapObject 1080]);
    (1160, obj kEphemeronCid 32 3
             [HeapObject 1240; HeapObject 1256; HeapObject 1080]);
    (1192, obj 16 16 11 []);
    (1208, obj 16 16 12 []);
    (1224, obj 16 16 13 []);
    (1240, obj 16 16 14 []);
    (1256, obj 16 16 15 [HeapObject 1240])
  ].

Definition eph_heap : Heap :=
  mkHeap 1272 1536 (mkSemispace 1024 512 eph_cells) (mkSemispace 2048 512 ∅)
    None None (replicate 20 (SmallInteger 0)) 20 0
    (HeapObject 1032) (SmallInteger 0) [] None [] 4096.

Definition eph_heap_after : Heap :=
  Eval vm_compute in
    match Scavenge eph_heap with Ok (_, h) => h | _ => eph_heap end.

(** To-space at 1024, 1024 bytes. The object store holds [nil], the arrays
    [old] and [neu], an instance of the class [D], and the class [C]. [old]
    holds the classes [C] (cid 16, no instance) and [D] (cid 18); [neu]
    holds their replacements [C'] and [D'], whose id is [nil]. The current
    activation refers to [C]. Further arrays serve [BecomeForward] with
    unusual arguments: [dup] holds [C'] twice; [self_old] holds [p] and
    itself, and [self_neu] holds [self_old] and [q]; [old4] holds the class
    [E] (cid 17, one instance, allocated last) and [x], and [neu4] holds
    [E'], whose id slot refers to [x], and [nil]. *)
Definition become_cells : gmap Z Cell :=
  list_to_map [
    (1032, obj kArrayCid 48 0
             [HeapObject 1080; HeapObject 1096; HeapObject 1128;
              HeapObject 1160; HeapObject 1176]);
    (1080, obj 20 16 7 []);
    (1096, obj kArrayCid 32 0 [HeapObject 1176; HeapObject 1208]);
    (1128, obj kArrayCid 32 0 [HeapObject 1240; HeapObject 1272]);
    (1160, obj 18 16 100 [HeapObject 1176]);
    (1176, obj 19 32 31 [HeapObject 1080; HeapObject 1080; SmallInteger 16]);
    (1208, obj 19 32 32 [HeapObject 1080; HeapObject 1080; SmallInteger 18]);
    (1240, obj 19 32 33 [HeapObject 1080; HeapObject 1080; HeapObject 1080]);
    (1272, obj 19 32 34 [HeapObject 1080; HeapObject 1080; HeapObject 1080]);
    (1304, obj kArrayCid 32 0 [HeapObject 1240; HeapObject 1240]);
    (1336, obj 20 16 41 []);
    (1352, obj 20 16 42 []);
    (1368, obj kArrayCid 32 43 [HeapObject 1336; HeapObject 1368]);
    (1400, obj kArrayCid 32 0 [HeapObject 1368; HeapObject 1352]);
    (1432, obj 20 16 51 []);
    (1448, obj 19 32 52 [HeapObject 1080; HeapObject 1080; SmallInteger 17]);
    (1480, obj 19 32 53 [HeapObject 1080; HeapObject 1080; HeapObject 1432]);
    (1512, obj kArrayCid 32 0 [HeapObject 1448; HeapObject 1432]);
    (1544, obj kArrayCid 32 0 [HeapObject 1480; HeapObject 1080]);
    (1576, obj 17 16 54 [])
  ].

Definition become_tiling : list Z :=
  [1032; 1080; 1096; 1128; 1160; 1176; 1208; 1240; 1272; 1304; 1336; 1352;
   1368; 1400; 1432; 1448; 1480; 1512; 1544; 1576].

Definition become_class_table : list ObjectPtr :=
  <[18%nat := HeapObject 1208]>
    (<[17%nat := HeapObject 1448]>
       (<[16%nat := HeapObject 1176]> (replicate 24 (SmallInteger 0)))).

Definition become_heap : Heap :=
  mkHeap 1592 2048 (mkSemispace 1024 1024 become_cells)
    (mkSemispace 2048 1024 ∅)
    None None become_class_table 24 0
    (HeapObject 1032) (HeapObject 1176) [] None [] 4096.

(** [become_heap] in the middle of [BecomeForward 1096 1128], before the
    class-table pass. *)
Definition become_heap_forwarded : Heap :=
  Eval vm_compute in
    match (become_install_loop 1096 1128 2 0 ;;; ForwardRoots ;;;
           ForwardToSpace) become_heap with
    | Ok (_, h) => h
    | _ => become_heap
    end.

Definition become_heap_after : Heap :=
  Eval vm_compute in
    match BecomeForward 1096 1128 become_heap with
    | Ok (_, h) => h
    | _ => become_heap
    end.

Definition become_heap_after_dup : Heap :=
  Eval vm_compute in
    match BecomeForward 1096 1304 become_heap with
    | Ok (_, h) => h
    | _ => become_heap
    end.

Definition become_heap_after_self : Heap :=
  Eval vm_compute in
    match BecomeForward 1368 1400 become_heap with
    | Ok (_, h) => h
    | _ => become_heap
    end.

Definition become_heap_after_adopt : Heap :=
  Eval vm_compute in
    match BecomeForward 1512 1544 become_heap with
    | Ok (_, h) => h
    | _ => become_heap
    end.

(** [become_heap] in the middle of [BecomeForward 1096 1128], when the
    corpses are installed and the roots forwarded: before the to-space
    pass. *)
Definition become_heap_installed : Heap :=
  Eval vm_compute in
    match (become_install_loop 1096 1128 2 0 ;;; ForwardRoots)
            become_heap with
    | Ok (_, h) => h
    | _ => become_heap
    end.

(** ... and after [ForwardClass] on the instance of [D]. *)
Definition become_heap_adopted : Heap :=
  Eval vm_compute in
    match ForwardClass 1160 become_heap_installed with
    | Ok (_, h) => h
    | _ => become_heap
    end.

End Examples.

Lemma Grow_reallocates_both_counterexample :
  ~ Grow_reallocates_both 16 Examples.weak_heap.
Proof.
  intros H.
  destruct (Grow 16 Examples.weak_heap) as [[[] h']| | |] eqn:E;
    try (vm_compute in E; discriminate).
  destruct (H 1024 h' eq_refl E) as [_ Hfrom].
  assert (Hsz : size (from_ h') = 512).
  { vm_compute in E. injection E as <-. reflexivity. }
  rewrite Hsz in Hfrom. discriminate.
Qed.

Lemma BecomeForward_failure_atomic_witness :
  BecomeForward 1032 1080 Examples.weak_heap = Ok (false, Examples.weak_heap).
Proof.
  eapply (BecomeForward_failure_atomic Examples.weak_heap 1032 1080);
    [reflexivity|reflexivity|left; vm_compute; lia].
Defined.

(** * The scavenger: reachability, forwarding and the scan invariant *)

Definition cell_heap_size (c : Cell) : Z :=
  match c with
  | Live o => heap_size o
  | Corpse o _ => heap_size o
  | Forwarded _ => 0
  end.

Definition not_forwarded (c : Cell) : Prop :=
  match c with Forwarded _ => False | _ => True end.

(** The new-space address a reference designates; [None] for what
    [IsImmediateOrOldObject] accepts. *)
Definition ptr_target (p : ObjectPtr) : option Z :=
  match p with
  | HeapObject a => if IsImmediateOrOldObject p then None else Some a
  | SmallInteger _ => None
  end.

(** Reachability in a heap at rest, as the scavenger traces it: from the
    roots, through the slots of objects that are neither weak arrays nor
    ephemerons, through the class-table entry of every reached object, and
    through the three slots of a reached ephemeron whose key is an immediate
    or itself reached. *)
Inductive Reach (h : Heap) : Z -> Prop :=
| Reach_store a :
    ptr_target (object_store_ h) = Some a -> Reach h a
| Reach_activation a :
    ptr_target (current_activation_ h) = Some a -> Reach h a
| Reach_handle p a :
    p ∈ handles_ h -> ptr_target p = Some a -> Reach h a
| Reach_slot a o p b :
    Reach h a -> cells (to_ h) !! a = Some (Live o) ->
    cid o <> kWeakArrayCid -> cid o <> kEphemeronCid ->
    p ∈ slots o -> ptr_target p = Some b -> Reach h b
| Reach_class a o p b :
    Reach h a -> cells (to_ h) !! a = Some (Live o) -> 0 <= cid o ->
    class_table_ h !! Z.to_nat (cid o) = Some p ->
    ptr_target p = Some b -> Reach h b
| Reach_ephemeron e o k v f rest p b :
    Reach h e -> cells (to_ h) !! e = Some (Live o) ->
    cid o = kEphemeronCid -> slots o = k :: v :: f :: rest ->
    (forall ka, ptr_target k = Some ka -> Reach h ka) ->
    p ∈ [k; v; f] -> ptr_target p = Some b -> Reach h b.

(** Reachability along strong references only: no ephemeron slot is
    followed. *)
Inductive StrongReach (h : Heap) : Z -> Prop :=
| StrongReach_store a :
    ptr_target (object_store_ h) = Some a -> StrongReach h a
| StrongReach_activation a :
    ptr_target (current_activation_ h) = Some a -> StrongReach h a
| StrongReach_handle p a :
    p ∈ handles_ h -> ptr_target p = Some a -> StrongReach h a
| StrongReach_slot a o p b :
    StrongReach h a -> cells (to_ h) !! a = Some (Live o) ->
    cid o <> kWeakArrayCid -> cid o <> kEphemeronCid ->
    p ∈ slots o -> ptr_target p = Some b -> StrongReach h b
| StrongReach_class a o p b :
    StrongReach h a -> cells (to_ h) !! a = Some (Live o) -> 0 <= cid o ->
    class_table_ h !! Z.to_nat (cid o) = Some p ->
    ptr_target p = Some b -> StrongReach h b.

(** [reloc F p p']: [p'] is [p] followed through the forwarding headers
    of the from-space [F]. *)
Definition reloc (F : gmap Z Cell) (p p' : ObjectPtr) : Prop :=
  match ptr_target p with
  | None => p' = p
  | Some a => exists n, F !! a = Some (Forwarded n) /\ p' = HeapObject n
  end.

(** [mourned F nil p p']: what [MournWeakPointer] leaves in a slot. *)
Definition mourned (F : gmap Z Cell) (nil p p' : ObjectPtr) : Prop :=
  match ptr_target p with
  | None => p' = p
  | Some a =>
      (exists n, F !! a = Some (Forwarded n) /\ p' = HeapObject n) \/
      ((forall n, F !! a <> Some (Forwarded n)) /\ p' = nil)
  end.

(** Forwarding headers only accumulate. *)
Definition fwd_mono (F F' : gmap Z Cell) : Prop :=
  forall a n, F !! a = Some (Forwarded n) -> F' !! a = Some (Forwarded n).

(** From-space cells are the initial ones or forwarding headers over
    them. *)
Definition from_evolved (F0 F : gmap Z Cell) : Prop :=
  forall a, F !! a = F0 !! a \/
            exists n, F !! a = Some (Forwarded n) /\ is_Some (F0 !! a).

Definition wf_cells (m : gmap Z Cell) : Prop :=
  forall a c, m !! a = Some c -> not_forwarded c /\ 0 < cell_heap_size c.

(** [Tiled m a l b]: the cells of [m] at the addresses [l] lie back to back
    from [a] to [b]. *)
Fixpoint Tiled (m : gmap Z Cell) (a : Z) (l : list Z) (b : Z) : Prop :=
  match l with
  | [] => a = b
  | x :: l' =>
      x = a /\
      exists c, m !! a = Some c /\ not_forwarded c /\ 0 < cell_heap_size c /\
                Tiled m (a + cell_heap_size c) l' b
  end.

(** [Chain m hd l]: the intrusive list starting at [hd] links exactly the
    objects at [l]. *)
Fixpoint Chain (m : gmap Z Cell) (hd : option Z) (l : list Z) : Prop :=
  match l with
  | [] => hd = None
  | a :: l' =>
      hd = Some a /\ exists o, m !! a = Some (Live o) /\ Chain m (next o) l'
  end.

Lemma reloc_mono F F' p p' : fwd_mono F F' -> reloc F p p' -> reloc F' p p'.
Proof.
  unfold reloc. intros Hm. destruct (ptr_target p); [|done].
  intros (n & Hn & ->). eauto.
Qed.

Lemma Forall2_reloc_mono F F' l l' :
  fwd_mono F F' -> Forall2 (reloc F) l l' -> Forall2 (reloc F') l l'.
Proof.
  intros Hm H. eapply Forall2_impl; [exact H|].
  intros. by eapply reloc_mono.
Qed.

Lemma fwd_mono_refl F : fwd_mono F F.
Proof. intros a n. done. Qed.

Lemma fwd_mono_trans F1 F2 F3 :
  fwd_mono F1 F2 -> fwd_mono F2 F3 -> fwd_mono F1 F3.
Proof. intros H1 H2 a n H. eauto. Qed.

Lemma Tiled_le m a l b : Tiled m a l b -> a <= b.
Proof.
  revert a. induction l as [|x l IH]; simpl; intros a.
  - lia.
  - intros (-> & c & _ & _ & Hpos & Ht). apply IH in Ht. lia.
Qed.

Lemma Tiled_bounds m a l b x : Tiled m a l b -> x ∈ l -> a <= x < b.
Proof.
  revert a. induction l as [|y l IH]; simpl; intros a Ht Hx.
  - by apply elem_of_nil in Hx.
  - destruct Ht as (-> & c & _ & _ & Hpos & Ht).
    apply elem_of_cons in Hx as [->|Hx].
    + apply Tiled_le in Ht. lia.
    + specialize (IH _ Ht Hx). lia.
Qed.

Lemma Tiled_lookup m a l b x :
  Tiled m a l b -> x ∈ l ->
  exists c, m !! x = Some c /\ not_forwarded c /\ 0 < cell_heap_size c.
Proof.
  revert a. induction l as [|y l IH]; simpl; intros a Ht Hx.
  - by apply elem_of_nil in Hx.
  - destruct Ht as (-> & c & Hc & Hnf & Hpos & Ht).
    apply elem_of_cons in Hx as [->|Hx]; eauto.
Qed.

Lemma Tiled_app m a l1 b l2 c :
  Tiled m a l1 b -> Tiled m b l2 c -> Tiled m a (l1 ++ l2) c.
Proof.
  revert a. induction l1 as [|x l1 IH]; simpl; intros a.
  - intros ->. done.
  - intros (-> & c0 & Hc & Hnf & Hpos & Ht) H2. split; [done|].
    exists c0. eauto.
Qed.

Lemma Tiled_ext m m' a l b :
  (forall x c, x ∈ l -> m !! x = Some c ->
     exists c', m' !! x = Some c' /\ not_forwarded c' /\
                cell_heap_size c' = cell_heap_size c) ->
  Tiled m a l b -> Tiled m' a l b.
Proof.
  revert a. induction l as [|x l IH]; simpl; intros a Hext; [done|].
  intros (-> & c & Hc & Hnf & Hpos & Ht).
  destruct (Hext a c) as (c' & Hc' & Hnf' & Hsz); [by left|done|].
  split; [done|]. exists c'. rewrite Hsz. repeat split; try done.
  apply IH; [|done]. intros y cy Hy. apply Hext. by right.
Qed.

Lemma Chain_ext m m' hd l :
  (forall x, x ∈ l -> m' !! x = m !! x) -> Chain m hd l -> Chain m' hd l.
Proof.
  revert hd. induction l as [|x l IH]; simpl; intros hd Hext; [done|].
  intros (-> & o & Ho & Hc). split; [done|]. exists o.
  rewrite Hext by (by left). split; [done|].
  apply IH; [|done]. intros y Hy. apply Hext. by right.
Qed.

Section ScanInvariant.

(** [h0] is the heap at rest on which the collection starts; its to-space
    is the from-space of the collection. [start] is where the new to-space
    begins. *)
Variable h0 : Heap.
Variable start : Z.

Definition class_kept (F : gmap Z Cell) (c : Z) : Prop :=
  0 <= c < class_table_top_ h0 /\
  exists p, class_table_ h0 !! Z.to_nat c = Some p /\
    match ptr_target p with
    | None => True
    | Some b => exists m, F !! b = Some (Forwarded m)
    end.

(** A to-space cell [c] at [n] that the scan has passed, against the object
    [o0] it was copied from. *)
Definition black_rel (F : gmap Z Cell) (E W : list Z) (n : Z) (o0 : Object)
    (c : Cell) : Prop :=
  class_kept F (cid o0) /\
  if decide (cid o0 = kWeakArrayCid) then
    (n ∈ W /\ exists nx, c = Live (set_next o0 nx))
  else if decide (cid o0 = kEphemeronCid) then
    ((n ∈ E /\ exists nx, c = Live (set_next o0 nx)) \/
     ((n ∉ E) /\ exists k v f rest k' v' f',
        slots o0 = k :: v :: f :: rest /\
        c = Live (set_next (set_slots o0 (k' :: v' :: f' :: rest)) None) /\
        reloc F k k' /\ reloc F v v' /\ reloc F f f'))
  else
    (exists sl, c = Live (set_slots o0 sl) /\
                Forall2 (reloc F) (slots o0) sl).

Record Inv (T F : gmap Z Cell) (top scan : Z) (E W : list Z) : Prop := {
  inv_evolved : from_evolved (cells (to_ h0)) F;
  inv_tiled : exists bl gl,
    Tiled T start bl scan /\ Tiled T scan gl top /\
    forall n, is_Some (T !! n) -> n ∈ bl ++ gl;
  inv_origin : forall n c, T !! n = Some c ->
    exists a c0, F !! a = Some (Forwarded n) /\
      cells (to_ h0) !! a = Some c0 /\
      (scan <= n -> c = c0) /\
      (n < scan -> exists o0, c0 = Live o0 /\ black_rel F E W n o0 c);
  inv_inj : forall a a' n,
    F !! a = Some (Forwarded n) -> F !! a' = Some (Forwarded n) -> a = a';
  inv_range : forall a n, F !! a = Some (Forwarded n) -> is_Some (T !! n);
  inv_sound : forall a n, F !! a = Some (Forwarded n) -> Reach h0 a;
  inv_E : forall e, e ∈ E -> e < scan;
  inv_W : forall w, w ∈ W -> w < scan;
  inv_new : forall n, is_Some (T !! n) -> ptr_target (HeapObject n) = Some n
}.

Lemma class_kept_mono F F' c :
  fwd_mono F F' -> class_kept F c -> class_kept F' c.
Proof.
  intros Hm (Hc & p & Hp & Hk). split; [done|]. exists p. split; [done|].
  destruct (ptr_target p); [|done]. destruct Hk as [m Hm']. eauto.
Qed.

Lemma black_rel_mono F F' E W n o0 c :
  fwd_mono F F' -> black_rel F E W n o0 c -> black_rel F' E W n o0 c.
Proof.
  intros Hm [Hk H]. split; [by eapply class_kept_mono|].
  repeat case_decide; [done| |].
  - destruct H as [H|(Hn & k & v & f & rest & k' & v' & f' & ? & ? & ? & ? & ?)];
      [by left|right].
    split; [done|]. exists k, v, f, rest, k', v', f'.
    eauto 10 using reloc_mono.
  - destruct H as (sl & ? & ?). exists sl. eauto using Forall2_reloc_mono.
Qed.

Lemma Inv_top_fresh T F top scan E W :
  Inv T F top scan E W -> T !! top = None.
Proof.
  intros [_ (bl & gl & Hb & Hg & Hdom) _ _ _ _ _ _ _].
  destruct (T !! top) eqn:Ht; [|done].
  assert (Hin : top ∈ bl ++ gl) by (apply Hdom; eauto).
  apply elem_of_app in Hin as [Hin|Hin].
  - pose proof (Tiled_bounds _ _ _ _ _ Hb Hin).
    pose proof (Tiled_le _ _ _ _ Hg). lia.
  - pose proof (Tiled_bounds _ _ _ _ _ Hg Hin). lia.
Qed.

Lemma Inv_scan_le_top T F top scan E W : Inv T F top scan E W -> scan <= top.
Proof.
  intros [_ (bl & gl & Hb & Hg & Hdom) _ _ _ _ _ _ _]. by eapply Tiled_le.
Qed.

(** Copying the unforwarded from-space cell at [a] to [top]. *)
Lemma Inv_copy T F top scan E W a c :
  wf_cells (cells (to_ h0)) ->
  Inv T F top scan E W ->
  F !! a = Some c -> not_forwarded c -> Reach h0 a ->
  ptr_target (HeapObject top) = Some top ->
  Inv (<[top := c]> T) (<[a := Forwarded top]> F)
      (top + cell_heap_size c) scan E W.
Proof.
  intros Hwf HI Ha Hnf Hreach Haligned.
  pose proof (Inv_top_fresh _ _ _ _ _ _ HI) as Hfresh.
  pose proof (Inv_scan_le_top _ _ _ _ _ _ HI) as Hle.
  assert (Hc0 : cells (to_ h0) !! a = Some c).
  { destruct (inv_evolved _ _ _ _ _ _ HI a) as [<-|(n & Hn & _)]; [done|].
    rewrite Ha in Hn. injection Hn as ->. done. }
  assert (Hmono : fwd_mono F (<[a := Forwarded top]> F)).
  { intros x n Hx. rewrite lookup_insert_ne; [done|].
    intros <-. rewrite Ha in Hx. injection Hx as ->. done. }
  destruct (Hwf _ _ Hc0) as [_ Hpos].
  destruct HI as [Hev (bl & gl & Hb & Hg & Hdom) Hor Hinj Hrg Hsnd HE HW Hnew].
  split.
  - intros x. destruct (decide (x = a)) as [->|Hne].
    + right. exists top. rewrite lookup_insert_eq. split; [done|]. eauto.
    + rewrite lookup_insert_ne by done. apply Hev.
  - exists bl, (gl ++ [top]). split; [|split].
    + eapply Tiled_ext; [|exact Hb]. intros x cx Hx Hcx.
      rewrite lookup_insert_ne.
      * pose proof (Tiled_lookup _ _ _ _ _ Hb Hx) as (c' & Hc' & ? & ?).
        rewrite Hcx in Hc'. injection Hc' as <-. eauto.
      * intros <-. congruence.
    + eapply Tiled_app.
      * eapply Tiled_ext; [|exact Hg]. intros x cx Hx Hcx.
        rewrite lookup_insert_ne.
        -- pose proof (Tiled_lookup _ _ _ _ _ Hg Hx) as (c' & Hc' & ? & ?).
           rewrite Hcx in Hc'. injection Hc' as <-. eauto.
        -- intros <-. congruence.
      * simpl. split; [done|]. exists c. rewrite lookup_insert_eq. done.
    + intros n Hn. destruct (decide (n = top)) as [->|Hne].
      * rewrite app_assoc. apply elem_of_app. right. by apply list_elem_of_singleton.
      * rewrite lookup_insert_ne in Hn by done. apply Hdom in Hn.
        rewrite app_assoc. apply elem_of_app. by left.
  - intros n cn Hn. destruct (decide (n = top)) as [->|Hne].
    + rewrite lookup_insert_eq in Hn. injection Hn as <-.
      exists a, c. rewrite lookup_insert_eq. repeat split; try done. lia.
    + rewrite lookup_insert_ne in Hn by done.
      destruct (Hor _ _ Hn) as (a1 & c1 & Hf & Hc1 & Hgrey & Hblack).
      exists a1, c1. split; [by apply Hmono|]. split; [done|]. split; [done|].
      intros Hlt. destruct (Hblack Hlt) as (o0 & ? & ?). exists o0.
      eauto using black_rel_mono.
  - intros x x' n Hx Hx'.
    destruct (decide (x = a)) as [->|Hne]; destruct (decide (x' = a)) as [->|Hne'];
      [done| | |].
    + rewrite lookup_insert_eq in Hx. injection Hx as <-.
      rewrite lookup_insert_ne in Hx' by done.
      apply Hrg in Hx' as [? ?]. congruence.
    + rewrite lookup_insert_eq in Hx'. injection Hx' as <-.
      rewrite lookup_insert_ne in Hx by done.
      apply Hrg in Hx as [? ?]. congruence.
    + rewrite lookup_insert_ne in Hx, Hx' by done. eauto.
  - intros x n Hx. destruct (decide (x = a)) as [->|Hne].
    + rewrite lookup_insert_eq in Hx. injection Hx as <-.
      rewrite lookup_insert_eq. eauto.
    + rewrite lookup_insert_ne in Hx by done. apply Hrg in Hx.
      destruct (decide (top = n)) as [->|?].
      * rewrite lookup_insert_eq. eauto.
      * by rewrite lookup_insert_ne.
  - intros x n Hx. destruct (decide (x = a)) as [->|Hne]; [done|].
    rewrite lookup_insert_ne in Hx by done. eauto.
  - done.
  - done.
  - intros n Hn. destruct (decide (n = top)) as [->|Hne]; [done|].
    rewrite lookup_insert_ne in Hn by done. by apply Hnew.
Qed.

Lemma black_rel_lists F E W E' W' n o0 c :
  (n ∈ E <-> n ∈ E') -> (n ∈ W -> n ∈ W') ->
  black_rel F E W n o0 c -> black_rel F E' W' n o0 c.
Proof.
  intros HE HW [Hk H]. split; [done|].
  repeat case_decide; [| |done].
  - destruct H as [? ?]. auto.
  - destruct H as [[Hin ?]|[Hin ?]]; [left|right]; split; try done.
    + by apply HE.
    + intros Hin'. by apply HE in Hin'.
Qed.

(** The scan passes the cell at [scan], leaving [c'] there. *)
Lemma Inv_blacken T F top scan E W E' W' o c' :
  Inv T F top scan E W -> scan < top ->
  T !! scan = Some (Live o) ->
  cell_heap_size c' = heap_size o -> not_forwarded c' ->
  black_rel F E' W' scan o c' ->
  (forall n, n <> scan -> (n ∈ E <-> n ∈ E')) ->
  (forall n, n ∈ W -> n ∈ W') ->
  (forall n, n ∈ E' -> n <= scan) -> (forall n, n ∈ W' -> n <= scan) ->
  Inv (<[scan := c']> T) F top (scan + heap_size o) E' W'.
Proof.
  intros [Hev (bl & gl & Hb & Hg & Hdom) Hor Hinj Hrg Hsnd HE HW Hnew]
    Hlt Hscan Hsz Hnf Hblack HE' HW' HbE HbW.
  destruct gl as [|x gl]; simpl in Hg; [lia|].
  destruct Hg as (-> & c & Hc & Hnfc & Hpos & Hg).
  rewrite Hscan in Hc. injection Hc as <-. simpl in Hpos, Hg.
  assert (Hnotbl : scan ∉ bl).
  { intros Hin. pose proof (Tiled_bounds _ _ _ _ _ Hb Hin). lia. }
  assert (Hnotgl : scan ∉ gl).
  { intros Hin. pose proof (Tiled_bounds _ _ _ _ _ Hg Hin). lia. }
  assert (Hkeep : forall l a b, scan ∉ l -> Tiled T a l b ->
            Tiled (<[scan := c']> T) a l b).
  { intros l a b Hl Ht. eapply Tiled_ext; [|exact Ht]. intros y cy Hy Hcy.
    rewrite lookup_insert_ne by (intros ->; done).
    pose proof (Tiled_lookup _ _ _ _ _ Ht Hy) as (c2 & Hc2 & ? & ?).
    rewrite Hcy in Hc2. injection Hc2 as <-. eauto. }
  split.
  - done.
  - exists (bl ++ [scan]), gl. split; [|split].
    + eapply Tiled_app; [by apply Hkeep|]. simpl. split; [done|].
      exists c'. rewrite lookup_insert_eq, Hsz. done.
    + by apply Hkeep.
    + intros n Hn. rewrite <- app_assoc. simpl.
      destruct (decide (n = scan)) as [->|Hne].
      * apply elem_of_app. right. by left.
      * rewrite lookup_insert_ne in Hn by done. by apply Hdom.
  - intros n cn Hn. destruct (decide (n = scan)) as [->|Hne].
    + rewrite lookup_insert_eq in Hn. injection Hn as <-.
      destruct (Hor _ _ Hscan) as (a & c0 & Hf & Hc0 & Hgrey & _).
      exists a, c0. repeat split; try done; [lia|].
      intros _. exists o. split; [|done]. symmetry. apply Hgrey. lia.
    + rewrite lookup_insert_ne in Hn by done.
      destruct (Hor _ _ Hn) as (a & c0 & Hf & Hc0 & Hgrey & Hbl).
      exists a, c0. split; [done|]. split; [done|].
      assert (Hin : n ∈ bl ++ scan :: gl) by (apply Hdom; eauto).
      apply elem_of_app in Hin as [Hin|Hin].
      * pose proof (Tiled_bounds _ _ _ _ _ Hb Hin). split; [lia|].
        intros _. destruct Hbl as (o0 & ? & ?); [lia|]. exists o0.
        split; [done|]. eapply black_rel_lists; [| |done]; auto.
      * apply elem_of_cons in Hin as [->|Hin]; [done|].
        pose proof (Tiled_bounds _ _ _ _ _ Hg Hin). split; [|lia].
        intros _. apply Hgrey. lia.
  - done.
  - intros a n Hf. apply Hrg in Hf.
    destruct (decide (scan = n)) as [->|?].
    + rewrite lookup_insert_eq. eauto.
    + by rewrite lookup_insert_ne.
  - done.
  - intros e He. apply HbE in He. lia.
  - intros w Hw. apply HbW in Hw. lia.
  - intros n Hn. apply Hnew. destruct (decide (n = scan)) as [->|Hne]; [eauto|].
    by rewrite lookup_insert_ne in Hn.
Qed.

(** A cell the scan has passed is rewritten in place. *)
Lemma Inv_rewrite_black T F top scan E W E' W' e c c' :
  Inv T F top scan E W -> e < scan ->
  T !! e = Some c ->
  cell_heap_size c' = cell_heap_size c -> not_forwarded c' ->
  (forall o0, black_rel F E W e o0 c -> black_rel F E' W' e o0 c') ->
  (forall n, n <> e -> (n ∈ E <-> n ∈ E')) ->
  (forall n, n ∈ W -> n ∈ W') ->
  (forall n, n ∈ E' -> n < scan) -> (forall n, n ∈ W' -> n < scan) ->
  Inv (<[e := c']> T) F top scan E' W'.
Proof.
  intros [Hev (bl & gl & Hb & Hg & Hdom) Hor Hinj Hrg Hsnd HE HW Hnew]
    Hlt He Hsz Hnf Hblack HE' HW' HbE HbW.
  assert (Hkeep : forall l a b, Tiled T a l b ->
            Tiled (<[e := c']> T) a l b).
  { intros l a b Ht. eapply Tiled_ext; [|exact Ht]. intros y cy Hy Hcy.
    pose proof (Tiled_lookup _ _ _ _ _ Ht Hy) as (c2 & Hc2 & ? & ?).
    rewrite Hcy in Hc2. injection Hc2 as <-.
    destruct (decide (e = y)) as [->|Hne].
    - rewrite lookup_insert_eq. exists c'. split; [done|]. split; [done|].
      congruence.
    - rewrite lookup_insert_ne by done. eauto. }
  split.
  - done.
  - exists bl, gl. split; [by apply Hkeep|]. split; [by apply Hkeep|].
    intros n Hn. destruct (decide (n = e)) as [->|Hne].
    + apply Hdom. eauto.
    + rewrite lookup_insert_ne in Hn by done. by apply Hdom.
  - intros n cn Hn. destruct (decide (n = e)) as [->|Hne].
    + rewrite lookup_insert_eq in Hn. injection Hn as <-.
      destruct (Hor _ _ He) as (a & c0 & Hf & Hc0 & _ & Hbl).
      exists a, c0. repeat split; try done; [lia|].
      intros _. destruct Hbl as (o0 & ? & ?); [done|]. exists o0. auto.
    + rewrite lookup_insert_ne in Hn by done.
      destruct (Hor _ _ Hn) as (a & c0 & Hf & Hc0 & Hgrey & Hbl).
      exists a, c0. repeat split; try done.
      intros Hn'. destruct Hbl as (o0 & ? & ?); [done|]. exists o0.
      split; [done|]. eapply black_rel_lists; [| |done]; auto.
  - done.
  - intros a n Hf. apply Hrg in Hf.
    destruct (decide (e = n)) as [->|?].
    + rewrite lookup_insert_eq. eauto.
    + by rewrite lookup_insert_ne.
  - done.
  - done.
  - done.
  - intros n Hn. apply Hnew. destruct (decide (n = e)) as [->|Hne]; [eauto|].
    by rewrite lookup_insert_ne in Hn.
Qed.

End ScanInvariant.

(** ** The scavenger's primitives against the invariant *)

Definition layout (h : Heap) :=
  (end_ h, base (to_ h), size (to_ h), base (from_ h), size (from_ h),
   class_table_ h, class_table_top_ h, class_table_free_ h,
   recycle_list_ h, lookup_cache_ h, vm_brk h).
Definition roots (h : Heap) :=
  (object_store_ h, current_activation_ h, handles_ h).
Definition lists (h : Heap) := (ephemeron_list_ h, weak_list_ h).

(** What a run of copying steps may change: [top_], new to-space cells past
    the old ones, forwarding headers in from-space. *)
Record copy_step (h h' : Heap) : Prop := {
  cs_layout : layout h' = layout h;
  cs_roots : roots h' = roots h;
  cs_lists : lists h' = lists h;
  cs_mono : fwd_mono (cells (from_ h)) (cells (from_ h'));
  cs_top : top_ h <= top_ h';
  cs_same : top_ h' = top_ h -> cells (from_ h') = cells (from_ h);
  cs_to : forall n, is_Some (cells (to_ h) !! n) ->
                    cells (to_ h') !! n = cells (to_ h) !! n
}.

Lemma copy_step_refl h : copy_step h h.
Proof. split; try done. apply fwd_mono_refl. Qed.

Lemma copy_step_trans h1 h2 h3 :
  copy_step h1 h2 -> copy_step h2 h3 -> copy_step h1 h3.
Proof.
  intros [L1 R1 I1 M1 T1 S1 C1] [L2 R2 I2 M2 T2 S2 C2]. split.
  - congruence.
  - congruence.
  - congruence.
  - by eapply fwd_mono_trans.
  - lia.
  - intros Heq. rewrite S2 by lia. apply S1. lia.
  - intros n Hn. rewrite C2; [by apply C1|]. rewrite C1; done.
Qed.

Definition HInv (h0 h : Heap) (scan : Z) (E W : list Z) : Prop :=
  (class_table_ h = class_table_ h0 /\
   class_table_top_ h = class_table_top_ h0) /\
  Inv h0 (object_start (to_ h)) (cells (to_ h)) (cells (from_ h)) (top_ h)
    scan E W.

Lemma layout_start h h' :
  layout h' = layout h -> object_start (to_ h') = object_start (to_ h).
Proof. unfold layout, object_start. intros [= ? -> ?]. done. Qed.

Lemma layout_class_table h h' :
  layout h' = layout h -> class_table_ h' = class_table_ h.
Proof. unfold layout. intros [= ]. done. Qed.

Lemma read_from_Ok a h c h' :
  read_from a h = Ok (c, h') ->
  h' = h /\ cells (from_ h) !! a = Some c /\ InFromSpace h a = true.
Proof.
  unfold read_from. intros H.
  apply bind_Ok in H as ([] & ? & H1 & H). apply ASSERT_Ok in H1 as [? ->].
  apply lift_Ok in H as [? ->]. done.
Qed.

Lemma read_to_Ok a h c h' :
  read_to a h = Ok (c, h') -> h' = h /\ cells (to_ h) !! a = Some c.
Proof. unfold read_to. intros H. apply lift_Ok in H as [? ->]. done. Qed.

Lemma read_object_Ok a h o h' :
  read_object a h = Ok (o, h') -> h' = h /\ cells (to_ h) !! a = Some (Live o).
Proof.
  unfold read_object. intros H.
  apply bind_Ok in H as (c & ? & H1 & H). apply read_to_Ok in H1 as [-> Hc].
  destruct c; try (destruct (trap_Ok _ _ H)).
  apply ret_Ok in H as [-> ->]. done.
Qed.

Lemma HeapSize_Ok c h sz h' :
  HeapSize c h = Ok (sz, h') ->
  h' = h /\ sz = cell_heap_size c /\ not_forwarded c.
Proof.
  destruct c; simpl; intros H; try (destruct (trap_Ok _ _ H));
    apply ret_Ok in H as [-> ->]; done.
Qed.

Lemma copy_to_space_Ok a c h n h' :
  copy_to_space a c h = Ok (n, h') ->
  not_forwarded c /\ n = top_ h /\ aligned_top h /\
  h' = with_from_cells
         (with_to_cells (with_top h (top_ h + cell_heap_size c))
            (<[top_ h := c]> (cells (to_ h))))
         (<[a := Forwarded (top_ h)]> (cells (from_ h))).
Proof.
  unfold copy_to_space. intros H.
  apply bind_Ok in H as (sz & ? & H1 & H).
  apply HeapSize_Ok in H1 as (-> & -> & Hnf).
  apply bind_Ok in H as (raw & h1 & H1 & H).
  apply TryAllocate_Ok in H1 as [_ [(_ & -> & ->)|(_ & -> & Hal & ->)]].
  { apply bind_Ok in H as ([] & ? & H1 & H). apply ASSERT_Ok in H1 as [? _].
    discriminate. }
  apply bind_Ok in H as ([] & ? & H1 & H). apply ASSERT_Ok in H1 as [_ ->].
  apply bind_Ok in H as ([] & ? & H1 & H). apply modify_Ok in H1 as ->.
  apply bind_Ok in H as ([] & ? & H1 & H). apply modify_Ok in H1 as ->.
  apply ret_Ok in H as [-> ->]. done.
Qed.

Lemma copy_to_space_spec h0 h scan E W a c n h' :
  wf_cells (cells (to_ h0)) -> HInv h0 h scan E W ->
  cells (from_ h) !! a = Some c -> Reach h0 a ->
  copy_to_space a c h = Ok (n, h') ->
  HInv h0 h' scan E W /\ copy_step h h' /\
  cells (from_ h') !! a = Some (Forwarded n).
Proof.
  intros Hwf [Hct HI] Ha Hreach H.
  apply copy_to_space_Ok in H as (Hnf & -> & Hal & ->).
  assert (Hnew : ptr_target (HeapObject (top_ h)) = Some (top_ h)).
  { unfold ptr_target, IsImmediateOrOldObject. unfold aligned_top in Hal.
    rewrite Hal. reflexivity. }
  assert (Hc0 : cells (to_ h0) !! a = Some c).
  { destruct (inv_evolved _ _ _ _ _ _ _ _ HI a) as [<-|(n & Hn & _)]; [done|].
    rewrite Ha in Hn. injection Hn as ->. done. }
  destruct (Hwf _ _ Hc0) as [_ Hpos].
  pose proof (Inv_top_fresh _ _ _ _ _ _ _ _ HI) as Hfresh.
  split; [|split].
  - split; [done|]. simpl. by apply Inv_copy.
  - split; simpl; try done.
    + intros x m Hx. rewrite lookup_insert_ne; [done|].
      intros <-. rewrite Ha in Hx. injection Hx as ->. done.
    + lia.
    + lia.
    + intros m [cm Hm]. rewrite lookup_insert_ne; [done|]. congruence.
  - simpl. by rewrite lookup_insert_eq.
Qed.

Lemma ptr_target_Some p a :
  ptr_target p = Some a <-> p = HeapObject a /\ IsImmediateOrOldObject p = false.
Proof.
  destruct p as [v|b]; simpl; [split; [done|intros [? _]; done]|].
  destruct (negb _); split.
  - done.
  - intros [_ ?]. done.
  - intros [= ->]. done.
  - intros [[= ->] _]. done.
Qed.

Lemma ASSERT_InToSpace_Ok p h u h' :
  ASSERT_InToSpace p h = Ok (u, h') ->
  h' = h /\ exists a, p = HeapObject a /\ InToSpace h a = true.
Proof.
  unfold ASSERT_InToSpace. intros H.
  apply bind_Ok in H as (? & ? & H1 & H). apply get_Ok in H1 as [-> ->].
  apply ASSERT_Ok in H as [H ->]. split; [done|].
  destruct p; [discriminate|]. eauto.
Qed.

Lemma ScavengePointer_spec h0 h scan E W p p' h' :
  wf_cells (cells (to_ h0)) -> HInv h0 h scan E W ->
  (forall a, ptr_target p = Some a -> Reach h0 a) ->
  ScavengePointer p h = Ok (p', h') ->
  HInv h0 h' scan E W /\ copy_step h h' /\ reloc (cells (from_ h')) p p'.
Proof.
  intros Hwf HI Hreach H. unfold ScavengePointer in H. unfold reloc.
  destruct p as [v|a].
  { apply ret_Ok in H as [-> ->]. simpl. auto using copy_step_refl. }
  change (ptr_target (HeapObject a)) with
    (if IsImmediateOrOldObject (HeapObject a) then None else Some a) in *.
  destruct (IsImmediateOrOldObject (HeapObject a)).
  { apply ret_Ok in H as [-> ->]. auto using copy_step_refl. }
  apply bind_Ok in H as (c & ? & H1 & H).
  apply read_from_Ok in H1 as (-> & Hc & _).
  apply bind_Ok in H as (q & h1 & H1 & H).
  apply bind_Ok in H as ([] & ? & H2 & H).
  apply ASSERT_InToSpace_Ok in H2 as [-> _].
  apply ret_Ok in H as [-> ->].
  destruct c as [o|o t|n].
  - apply bind_Ok in H1 as (n & ? & H1 & H).
    apply ret_Ok in H as [-> ->].
    eapply copy_to_space_spec in H1 as (? & ? & ?); eauto.
  - apply bind_Ok in H1 as (n & ? & H1 & H).
    apply ret_Ok in H as [-> ->].
    eapply copy_to_space_spec in H1 as (? & ? & ?); eauto.
  - apply ret_Ok in H1 as [-> ->]. eauto using copy_step_refl.
Qed.

Lemma mapM_ScavengePointer_spec h0 scan E W ps :
  forall h ps' h',
  wf_cells (cells (to_ h0)) -> HInv h0 h scan E W ->
  (forall p a, p ∈ ps -> ptr_target p = Some a -> Reach h0 a) ->
  mapM ScavengePointer ps h = Ok (ps', h') ->
  HInv h0 h' scan E W /\ copy_step h h' /\
  Forall2 (reloc (cells (from_ h'))) ps ps'.
Proof.
  induction ps as [|p ps IH]; intros h ps' h' Hwf HI Hreach H; simpl in H.
  - apply ret_Ok in H as [-> ->]. auto using copy_step_refl.
  - apply bind_Ok in H as (q & h1 & H1 & H).
    apply bind_Ok in H as (qs & h2 & H2 & H).
    apply ret_Ok in H as [-> ->].
    eapply ScavengePointer_spec in H1 as (HI1 & Hs1 & Hr1); eauto;
      [|intros a; apply Hreach; by left].
    eapply IH in H2 as (HI2 & Hs2 & Hr2); eauto;
      [|intros q' a Hq; apply Hreach; by right].
    split; [done|]. split; [by eapply copy_step_trans|].
    constructor; [|done]. eapply reloc_mono; [|done]. apply Hs2.
Qed.

Lemma ScavengeClass_spec h0 h scan E W a0 o0 h' :
  wf_cells (cells (to_ h0)) -> HInv h0 h scan E W ->
  Reach h0 a0 -> cells (to_ h0) !! a0 = Some (Live o0) ->
  ScavengeClass (cid o0) h = Ok (tt, h') ->
  HInv h0 h' scan E W /\ copy_step h h' /\
  class_kept h0 (cells (from_ h')) (cid o0).
Proof.
  intros Hwf HI Hreach Ho0 H. unfold ScavengeClass in H.
  apply bind_Ok in H as (? & ? & H1 & H). apply get_Ok in H1 as [-> ->].
  apply bind_Ok in H as ([] & ? & H1 & H). apply ASSERT_Ok in H1 as [Hlt ->].
  apply Z.ltb_lt in Hlt.
  apply bind_Ok in H as ([] & ? & H1 & H). apply ASSERT_Ok in H1 as [Hc ->].
  apply Z.leb_le in Hc.
  apply bind_Ok in H as (p & ? & H1 & H). apply lift_Ok in H1 as [Hp ->].
  destruct HI as [[Hct Htt] HI]. rewrite Hct in Hp. rewrite Htt in Hlt.
  assert (Hjust : forall b, ptr_target p = Some b -> Reach h0 b).
  { intros b Hb. eapply Reach_class; eauto. }
  unfold class_kept.
  destruct p as [v|b].
  { apply ret_Ok in H as [_ ->]. split; [done|]. split; [apply copy_step_refl|].
    split; [done|]. exists (SmallInteger v). done. }
  change (ptr_target (HeapObject b)) with
    (if IsImmediateOrOldObject (HeapObject b) then None else Some b) in *.
  destruct (IsImmediateOrOldObject (HeapObject b)) eqn:Hold.
  { apply ret_Ok in H as [_ ->]. split; [done|]. split; [apply copy_step_refl|].
    split; [done|]. exists (HeapObject b). split; [done|].
    unfold ptr_target. by rewrite Hold. }
  apply bind_Ok in H as (c & ? & H1 & H).
  apply read_from_Ok in H1 as (-> & Hcell & _).
  assert (Hkept : forall h2 m, cells (from_ h2) !! b = Some (Forwarded m) ->
            0 <= cid o0 < class_table_top_ h0 /\
            exists p, class_table_ h0 !! Z.to_nat (cid o0) = Some p /\
              match ptr_target p with
              | None => True
              | Some b => exists m, cells (from_ h2) !! b = Some (Forwarded m)
              end).
  { intros h2 m Hm. split; [done|]. exists (HeapObject b). split; [done|].
    unfold ptr_target. rewrite Hold. eauto. }
  assert (HI' : HInv h0 h scan E W) by (by split).
  destruct c as [o|o t|n].
  - apply bind_Ok in H as (n & ? & H1 & H). apply ret_Ok in H as [_ ->].
    pose proof (copy_to_space_spec _ _ _ _ _ _ _ _ _ Hwf HI' Hcell
                  (Hjust _ eq_refl) H1) as (? & ? & ?).
    eauto.
  - apply bind_Ok in H as (n & ? & H1 & H). apply ret_Ok in H as [_ ->].
    pose proof (copy_to_space_spec _ _ _ _ _ _ _ _ _ Hwf HI' Hcell
                  (Hjust _ eq_refl) H1) as (? & ? & ?).
    eauto.
  - apply ret_Ok in H as [_ ->]. split; [done|].
    split; [apply copy_step_refl|]. eauto.
Qed.

(** The invariant together with the two intrusive lists. *)
Definition GInv (h0 h : Heap) (scan : Z) (E W : list Z) : Prop :=
  HInv h0 h scan E W /\
  Chain (cells (to_ h)) (ephemeron_list_ h) E /\
  Chain (cells (to_ h)) (weak_list_ h) W /\
  NoDup E /\ NoDup W /\ (forall x, x ∈ E -> x ∉ W).

(** What a scan may change besides the lists and to-space cells. *)
Record scan_step (h h' : Heap) : Prop := {
  ss_layout : layout h' = layout h;
  ss_roots : roots h' = roots h;
  ss_mono : fwd_mono (cells (from_ h)) (cells (from_ h'));
  ss_top : top_ h <= top_ h'
}.

Lemma scan_step_refl h : scan_step h h.
Proof. split; try done. apply fwd_mono_refl. Qed.

Lemma scan_step_trans h1 h2 h3 :
  scan_step h1 h2 -> scan_step h2 h3 -> scan_step h1 h3.
Proof.
  intros [L1 R1 M1 T1] [L2 R2 M2 T2]. split.
  - congruence.
  - congruence.
  - by eapply fwd_mono_trans.
  - lia.
Qed.

Lemma copy_step_scan_step h h' : copy_step h h' -> scan_step h h'.
Proof. intros [L R _ M T _ _]. by split. Qed.

Lemma Chain_lookup m hd l x :
  Chain m hd l -> x ∈ l -> exists o, m !! x = Some (Live o).
Proof.
  revert hd. induction l as [|y l IH]; simpl; intros hd Hc Hx.
  - by apply elem_of_nil in Hx.
  - destruct Hc as (-> & o & Ho & Hc).
    apply elem_of_cons in Hx as [->|Hx]; eauto.
Qed.

Lemma Chain_copy_step h h' hd l :
  copy_step h h' -> Chain (cells (to_ h)) hd l -> Chain (cells (to_ h')) hd l.
Proof.
  intros Hs Hc. eapply Chain_ext; [|exact Hc].
  intros x Hx. apply (cs_to _ _ Hs).
  destruct (Chain_lookup _ _ _ _ Hc Hx) as [o Ho]. eauto.
Qed.

Lemma Chain_insert_other m hd l x c :
  x ∉ l -> Chain m hd l -> Chain (<[x := c]> m) hd l.
Proof.
  intros Hx. apply Chain_ext. intros y Hy.
  rewrite lookup_insert_ne; [done|]. intros ->. done.
Qed.

Lemma GInv_copy_step h0 h h' scan E W :
  GInv h0 h scan E W -> copy_step h h' -> HInv h0 h' scan E W ->
  GInv h0 h' scan E W.
Proof.
  intros (_ & HE & HW & ? & ? & ?) Hs HI. split; [done|].
  pose proof (cs_lists _ _ Hs) as Hl. unfold lists in Hl.
  injection Hl as -> ->.
  split; [by eapply Chain_copy_step|]. split; [by eapply Chain_copy_step|].
  done.
Qed.

Lemma AddToWeakList_Ok s h u h' :
  AddToWeakList s h = Ok (u, h') ->
  exists o, cells (to_ h) !! s = Some (Live o) /\
    h' = with_weak_list
           (with_to_cells h
              (<[s := Live (set_next o (weak_list_ h))]> (cells (to_ h))))
           (Some s).
Proof.
  unfold AddToWeakList. intros H.
  apply bind_Ok in H as (? & ? & H1 & H). apply get_Ok in H1 as [-> ->].
  apply bind_Ok in H as ([] & ? & H1 & H). apply ASSERT_Ok in H1 as [_ ->].
  apply bind_Ok in H as (o & ? & H1 & H).
  apply read_object_Ok in H1 as [-> Ho].
  apply bind_Ok in H as ([] & ? & H1 & H). apply modify_Ok in H1 as ->.
  apply modify_Ok in H as ->. eauto.
Qed.

Lemma AddToEphemeronList_Ok s h u h' :
  AddToEphemeronList s h = Ok (u, h') ->
  exists o, cells (to_ h) !! s = Some (Live o) /\
    h' = with_ephemeron_list
           (with_to_cells h
              (<[s := Live (set_next o (ephemeron_list_ h))]> (cells (to_ h))))
           (Some s).
Proof.
  unfold AddToEphemeronList. intros H.
  apply bind_Ok in H as (? & ? & H1 & H). apply get_Ok in H1 as [-> ->].
  apply bind_Ok in H as ([] & ? & H1 & H). apply ASSERT_Ok in H1 as [_ ->].
  apply bind_Ok in H as (o & ? & H1 & H).
  apply read_object_Ok in H1 as [-> Ho].
  apply bind_Ok in H as ([] & ? & H1 & H). apply modify_Ok in H1 as ->.
  apply modify_Ok in H as ->. eauto.
Qed.

Lemma GInv_blacken_weak h0 h scan E W o :
  GInv h0 h scan E W -> scan < top_ h ->
  cells (to_ h) !! scan = Some (Live o) -> cid o = kWeakArrayCid ->
  class_kept h0 (cells (from_ h)) (cid o) ->
  GInv h0
    (with_weak_list
       (with_to_cells h
          (<[scan := Live (set_next o (weak_list_ h))]> (cells (to_ h))))
       (Some scan))
    (scan + heap_size o) E (scan :: W).
Proof.
  intros ([Hct HI] & HE & HW & HndE & HndW & Hdis) Hlt Ho Hcid Hk.
  assert (HnE : scan ∉ E).
  { intros Hin. apply (inv_E _ _ _ _ _ _ _ _ HI) in Hin. lia. }
  assert (HnW : scan ∉ W).
  { intros Hin. apply (inv_W _ _ _ _ _ _ _ _ HI) in Hin. lia. }
  split; [split; [done|]|].
  - simpl. eapply (Inv_blacken h0 _ _ _ _ _ E W); eauto; try done.
    + split; [done|]. rewrite decide_True by done.
      split; [by left|eauto].
    + intros n Hn. by right.
    + intros n Hn. apply (inv_E _ _ _ _ _ _ _ _ HI) in Hn. lia.
    + intros n Hn. apply elem_of_cons in Hn as [->|Hn]; [lia|].
      apply (inv_W _ _ _ _ _ _ _ _ HI) in Hn. lia.
  - simpl. split; [by apply Chain_insert_other|].
    split; [|split; [done|split; [by apply NoDup_cons|]]].
    + split; [done|]. eexists. rewrite lookup_insert_eq. split; [done|].
      simpl. by apply Chain_insert_other.
    + intros x Hx Hin. apply elem_of_cons in Hin as [->|Hin]; [done|].
      by apply (Hdis x).
Qed.

Lemma GInv_blacken_ephemeron h0 h scan E W o :
  GInv h0 h scan E W -> scan < top_ h ->
  cells (to_ h) !! scan = Some (Live o) ->
  cid o <> kWeakArrayCid -> cid o = kEphemeronCid ->
  class_kept h0 (cells (from_ h)) (cid o) ->
  GInv h0
    (with_ephemeron_list
       (with_to_cells h
          (<[scan := Live (set_next o (ephemeron_list_ h))]> (cells (to_ h))))
       (Some scan))
    (scan + heap_size o) (scan :: E) W.
Proof.
  intros ([Hct HI] & HE & HW & HndE & HndW & Hdis) Hlt Ho Hnw Hcid Hk.
  assert (HnE : scan ∉ E).
  { intros Hin. apply (inv_E _ _ _ _ _ _ _ _ HI) in Hin. lia. }
  assert (HnW : scan ∉ W).
  { intros Hin. apply (inv_W _ _ _ _ _ _ _ _ HI) in Hin. lia. }
  split; [split; [done|]|].
  - simpl. eapply (Inv_blacken h0 _ _ _ _ _ E W); eauto; try done.
    + split; [done|]. rewrite decide_False by done.
      rewrite decide_True by done. left. split; [by left|eauto].
    + intros n Hn. split; [by right|].
      intros Hin. apply elem_of_cons in Hin as [->|Hin]; done.
    + intros n Hn. apply elem_of_cons in Hn as [->|Hn]; [lia|].
      apply (inv_E _ _ _ _ _ _ _ _ HI) in Hn. lia.
    + intros n Hn. apply (inv_W _ _ _ _ _ _ _ _ HI) in Hn. lia.
  - simpl. split; [|split; [by apply Chain_insert_other|]].
    + split; [done|]. eexists. rewrite lookup_insert_eq. split; [done|].
      simpl. by apply Chain_insert_other.
    + split; [by apply NoDup_cons|]. split; [done|].
      intros x Hx. apply elem_of_cons in Hx as [->|Hx]; [done|].
      by apply Hdis.
Qed.

Lemma GInv_blacken_plain h0 h scan E W o sl :
  GInv h0 h scan E W -> scan < top_ h ->
  cells (to_ h) !! scan = Some (Live o) ->
  cid o <> kWeakArrayCid -> cid o <> kEphemeronCid ->
  class_kept h0 (cells (from_ h)) (cid o) ->
  Forall2 (reloc (cells (from_ h))) (slots o) sl ->
  GInv h0
    (with_to_cells h (<[scan := Live (set_slots o sl)]> (cells (to_ h))))
    (scan + heap_size o) E W.
Proof.
  intros ([Hct HI] & HE & HW & HndE & HndW & Hdis) Hlt Ho Hnw Hne Hk Hsl.
  assert (HnE : scan ∉ E).
  { intros Hin. apply (inv_E _ _ _ _ _ _ _ _ HI) in Hin. lia. }
  assert (HnW : scan ∉ W).
  { intros Hin. apply (inv_W _ _ _ _ _ _ _ _ HI) in Hin. lia. }
  split; [split; [done|]|].
  - simpl. eapply (Inv_blacken h0 _ _ _ _ _ E W); eauto; try done.
    + split; [done|]. rewrite !decide_False by done. eauto.
    + intros n Hn. apply (inv_E _ _ _ _ _ _ _ _ HI) in Hn. lia.
    + intros n Hn. apply (inv_W _ _ _ _ _ _ _ _ HI) in Hn. lia.
  - simpl. split; [by apply Chain_insert_other|].
    split; [by apply Chain_insert_other|done].
Qed.

Lemma GInv_grey_origin h0 h scan E W n o :
  GInv h0 h scan E W -> scan <= n ->
  cells (to_ h) !! n = Some (Live o) ->
  exists a, cells (from_ h) !! a = Some (Forwarded n) /\
            cells (to_ h0) !! a = Some (Live o) /\ Reach h0 a.
Proof.
  intros ([_ HI] & _) Hle Ho.
  destruct (inv_origin _ _ _ _ _ _ _ _ HI _ _ Ho) as (a & c0 & Hf & Hc0 & Hg & _).
  exists a. rewrite Hc0, <- (Hg Hle). split; [done|]. split; [done|].
  by eapply inv_sound.
Qed.

Lemma ProcessToSpace_spec h0 fuel :
  forall scan h E W scan' h',
  wf_cells (cells (to_ h0)) -> GInv h0 h scan E W ->
  ProcessToSpace fuel scan h = Ok (scan', h') ->
  exists E' W', GInv h0 h' scan' E' W' /\ scan' = top_ h' /\ scan_step h h'.
Proof.
  induction fuel as [|fuel IH]; intros scan h E W scan' h' Hwf HG H;
    simpl in H; apply bind_Ok in H as (? & ? & H1 & H);
    apply get_Ok in H1 as [-> ->];
    (destruct (Z.ltb_spec scan (top_ h)) as [Hlt|Hge];
     [|apply ret_Ok in H as [-> ->]; exists E, W; split; [done|];
       split; [|apply scan_step_refl];
       destruct HG as ([_ HI] & _); apply Inv_scan_le_top in HI; lia]).
  - destruct (timeout_Ok _ _ H).
  - apply bind_Ok in H as (o & ? & H1 & H).
    apply read_object_Ok in H1 as [-> Ho].
    destruct (GInv_grey_origin _ _ _ _ _ _ _ HG (Z.le_refl _) Ho)
      as (a & Hfa & Ha0 & Hreach).
    apply bind_Ok in H as ([] & h1 & H1 & H).
    destruct HG as (HI & HG').
    pose proof (ScavengeClass_spec _ _ _ _ _ _ _ _ Hwf HI Hreach Ha0 H1)
      as (HI1 & Hs1 & Hk1).
    assert (HG1 : GInv h0 h1 scan E W) by (eapply GInv_copy_step; eauto; by split).
    assert (Ho1 : cells (to_ h1) !! scan = Some (Live o)).
    { rewrite (cs_to _ _ Hs1); eauto. }
    pose proof (cs_top _ _ Hs1) as Htop1.
    apply bind_Ok in H as ([] & h2 & H2 & H).
    destruct (Z.eqb_spec (cid o) kWeakArrayCid) as [Hw|Hnw].
    { apply AddToWeakList_Ok in H2 as (o' & Ho' & ->).
      rewrite Ho1 in Ho'. injection Ho' as <-.
      eapply IH in H as (E' & W' & HG2 & ? & Hs2); [|done|].
      2:{ apply GInv_blacken_weak; eauto. lia. }
      exists E', W'. split; [done|]. split; [done|].
      eapply scan_step_trans; [by apply copy_step_scan_step|].
      destruct Hs2 as [L R M T]. split; try done. }
    destruct (Z.eqb_spec (cid o) kEphemeronCid) as [He|Hne].
    { apply AddToEphemeronList_Ok in H2 as (o' & Ho' & ->).
      rewrite Ho1 in Ho'. injection Ho' as <-.
      eapply IH in H as (E' & W' & HG2 & ? & Hs2); [|done|].
      2:{ apply GInv_blacken_ephemeron; eauto. lia. }
      exists E', W'. split; [done|]. split; [done|].
      eapply scan_step_trans; [by apply copy_step_scan_step|].
      destruct Hs2 as [L R M T]. split; try done. }
    apply bind_Ok in H2 as ([] & ? & H3 & H2). apply ASSERT_Ok in H3 as [_ ->].
    apply bind_Ok in H2 as (sl & h3 & H3 & H2).
    apply modify_Ok in H2 as ->.
    destruct HG1 as (HI1' & HG1').
    eapply mapM_ScavengePointer_spec in H3 as (HI3 & Hs3 & Hsl); eauto.
    2:{ intros p b Hp Hb. eapply Reach_slot; eauto. }
    assert (HG3 : GInv h0 h3 scan E W) by (eapply GInv_copy_step; eauto; by split).
    assert (Ho3 : cells (to_ h3) !! scan = Some (Live o)).
    { rewrite (cs_to _ _ Hs3); eauto. }
    pose proof (cs_top _ _ Hs3) as Htop3.
    eapply IH in H as (E' & W' & HG4 & ? & Hs4); [|done|].
    2:{ apply GInv_blacken_plain; eauto; [lia|].
        eapply class_kept_mono; [apply Hs3|done]. }
    exists E', W'. split; [done|]. split; [done|].
    eapply scan_step_trans; [by apply copy_step_scan_step|].
    eapply scan_step_trans; [by apply copy_step_scan_step|].
    destruct Hs4 as [L R M T]. split; try done.
Qed.

(** ** Ephemerons *)

(** The key of the ephemeron at [e] designates a from-space object that has
    not been forwarded. *)
Definition pending_key (h : Heap) (e : Z) : Prop :=
  exists o k rest a,
    cells (to_ h) !! e = Some (Live o) /\ slots o = k :: rest /\
    ptr_target k = Some a /\
    forall n, cells (from_ h) !! a <> Some (Forwarded n).

Lemma key_is_live_Ok k h b h' :
  key_is_live k h = Ok (b, h') ->
  h' = h /\
  (b = true -> forall ka, ptr_target k = Some ka ->
     exists n, cells (from_ h) !! ka = Some (Forwarded n)) /\
  (b = false -> exists ka, ptr_target k = Some ka /\
     forall n, cells (from_ h) !! ka <> Some (Forwarded n)).
Proof.
  unfold key_is_live. destruct k as [v|a].
  { intros H. apply ret_Ok in H as [-> ->]. repeat split; try done. }
  change (ptr_target (HeapObject a)) with
    (if IsImmediateOrOldObject (HeapObject a) then None else Some a).
  destruct (IsImmediateOrOldObject (HeapObject a)).
  { intros H. apply ret_Ok in H as [-> ->]. repeat split; try done. }
  unfold IsForwarded. intros H.
  apply bind_Ok in H as (c & ? & H1 & H).
  apply read_from_Ok in H1 as (-> & Hc & _).
  apply ret_Ok in H as [-> ->]. split; [done|]. split.
  - intros Hb ka [= <-]. destruct c; try discriminate. eauto.
  - intros Hb. exists a. split; [done|]. intros n Hn.
    rewrite Hc in Hn. injection Hn as ->. discriminate.
Qed.

Lemma HInv_rewrite_black h0 h scan E W E' e c c' :
  HInv h0 h scan E W -> e < scan ->
  cells (to_ h) !! e = Some c ->
  cell_heap_size c' = cell_heap_size c -> not_forwarded c' ->
  (forall o0, black_rel h0 (cells (from_ h)) E W e o0 c ->
              black_rel h0 (cells (from_ h)) E' W e o0 c') ->
  (forall n, n <> e -> (n ∈ E <-> n ∈ E')) ->
  (forall n, n ∈ E' -> n < scan) ->
  HInv h0 (with_to_cells h (<[e := c']> (cells (to_ h)))) scan E' W.
Proof.
  intros [Hct HI] Hlt He Hsz Hnf Hb HE HbE. split; [done|]. simpl.
  eapply Inv_rewrite_black; eauto.
  intros n Hn. by eapply inv_W.
Qed.

Lemma black_rel_pending h0 F E W e o0 o :
  black_rel h0 F E W e o0 (Live o) -> cid o = kEphemeronCid -> e ∈ E ->
  cid o0 = kEphemeronCid /\ exists nx, o = set_next o0 nx.
Proof.
  intros [_ H] Hcid He. repeat case_decide.
  - destruct H as (_ & nx & [= ->]). simpl in Hcid.
    unfold kWeakArrayCid, kEphemeronCid in *. lia.
  - destruct H as [(_ & nx & [= ->])|(Hn & _)]; [eauto|done].
  - destruct H as (sl & [= ->] & _). simpl in Hcid. done.
Qed.

Lemma layout_with_to_cells h m : layout (with_to_cells h m) = layout h.
Proof. reflexivity. Qed.

Lemma scan_step_with_to_cells h m : scan_step h (with_to_cells h m).
Proof. split; first [done | apply fwd_mono_refl | simpl; lia]. Qed.

Lemma scan_step_with_lists h m l :
  scan_step h (with_ephemeron_list (with_to_cells h m) l).
Proof. split; first [done | apply fwd_mono_refl | simpl; lia]. Qed.

Lemma HInv_black_origin h0 h scan E W e o :
  HInv h0 h scan E W -> e < scan ->
  cells (to_ h) !! e = Some (Live o) ->
  exists a o0, cells (from_ h) !! a = Some (Forwarded e) /\
    cells (to_ h0) !! a = Some (Live o0) /\ Reach h0 a /\
    black_rel h0 (cells (from_ h)) E W e o0 (Live o).
Proof.
  intros [_ HI] Hlt Ho.
  destruct (inv_origin _ _ _ _ _ _ _ _ HI _ _ Ho)
    as (a & c0 & Hf & Hc0 & _ & Hb).
  destruct (Hb Hlt) as (o0 & -> & Hrel). exists a, o0.
  split; [done|]. split; [done|]. split; [by eapply inv_sound|done].
Qed.

(** Rewriting the link of a pending ephemeron, or moving it between the
    lists that make up the pending set. *)
Lemma HInv_relink h0 h scan E E' W e o nx :
  HInv h0 h scan E W ->
  cells (to_ h) !! e = Some (Live o) -> cid o = kEphemeronCid ->
  e ∈ E -> (forall n, n ∈ E <-> n ∈ E') ->
  HInv h0 (with_to_cells h (<[e := Live (set_next o nx)]> (cells (to_ h))))
    scan E' W.
Proof.
  intros HI Ho Hcid He HE.
  assert (Hlt : e < scan) by (destruct HI as [_ HI]; by eapply inv_E).
  eapply HInv_rewrite_black; eauto; try done.
  - intros o0 Hb.
    destruct (black_rel_pending _ _ _ _ _ _ _ Hb Hcid He) as (Hc0 & nx0 & ->).
    destruct Hb as [Hk _]. split; [done|].
    rewrite decide_False by (rewrite Hc0; done).
    rewrite decide_True by done. left. split; [by apply HE|].
    exists nx. done.
  - intros n Hn. destruct HI as [_ HI]. apply HE in Hn. by eapply inv_E.
Qed.

(** A pending ephemeron whose key turned out live has its three slots
    scavenged and leaves the pending set. *)
Lemma HInv_processed h0 h scan E1 W e o k v f rest k' v' f' :
  HInv h0 h scan (e :: E1) W -> e ∉ E1 ->
  cells (to_ h) !! e = Some (Live o) -> cid o = kEphemeronCid ->
  next o = None -> slots o = k :: v :: f :: rest ->
  reloc (cells (from_ h)) k k' -> reloc (cells (from_ h)) v v' ->
  reloc (cells (from_ h)) f f' ->
  HInv h0
    (with_to_cells h
       (<[e := Live (set_slots o (k' :: v' :: f' :: rest))]> (cells (to_ h))))
    scan E1 W.
Proof.
  intros HI Hne Ho Hcid Hnx Hsl Hk Hv Hf.
  assert (He : e ∈ e :: E1) by (by left).
  assert (Hlt : e < scan) by (destruct HI as [_ HI]; by eapply inv_E).
  eapply HInv_rewrite_black; eauto; try done.
  - intros o0 Hb.
    destruct (black_rel_pending _ _ _ _ _ _ _ Hb Hcid He) as (Hc0 & nx0 & ->).
    destruct Hb as [Hkept _]. split; [done|].
    rewrite decide_False by (rewrite Hc0; done).
    rewrite decide_True by done. right. split; [done|].
    simpl in Hsl, Hnx. subst nx0.
    exists k, v, f, rest, k', v', f'. done.
  - intros n Hn. split.
    + intros Hin. apply elem_of_cons in Hin as [->|Hin]; done.
    + intros Hin. by right.
  - intros n Hn. destruct HI as [_ HI]. eapply inv_E; [done|]. by right.
Qed.

Lemma pending_key_preserved h h' x :
  cells (to_ h') !! x = cells (to_ h) !! x ->
  cells (from_ h') = cells (from_ h) ->
  pending_key h x -> pending_key h' x.
Proof.
  intros HT HF (o & k & rest & a & Ho & Hsl & Hk & Hnf).
  exists o, k, rest, a. rewrite HT, HF. done.
Qed.

Lemma ProcessEphemeronList_loop_spec h0 top0 scan W fuel :
  forall sv h R En h',
  wf_cells (cells (to_ h0)) ->
  HInv h0 h scan (R ++ En) W ->
  Chain (cells (to_ h)) sv R ->
  Chain (cells (to_ h)) (ephemeron_list_ h) En ->
  Chain (cells (to_ h)) (weak_list_ h) W ->
  NoDup (R ++ En) -> NoDup W -> (forall x, x ∈ R ++ En -> x ∉ W) ->
  top0 <= top_ h ->
  (top_ h = top0 -> forall e, e ∈ En -> pending_key h e) ->
  ProcessEphemeronList_loop fuel sv h = Ok (tt, h') ->
  exists E', GInv h0 h' scan E' W /\ scan_step h h' /\
    (top_ h' = top0 -> forall e, e ∈ E' -> pending_key h' e).
Proof.
  induction fuel as [|fuel IH];
    intros sv h R En h' Hwf HI HR HEn HW Hnd HndW Hdis Htop Hpend H;
    (destruct sv as [e|]; simpl in H;
     [|apply ret_Ok in H as [_ ->]; destruct R; [|by destruct HR];
       exists En; split; [done|]; split; [apply scan_step_refl|done]]).
  - destruct (timeout_Ok _ _ H).
  - destruct R as [|e' R']; simpl in HR; [done|].
    destruct HR as ([= <-] & o1 & Ho1 & HR').
    apply bind_Ok in H as (o & ? & H1 & H).
    apply read_object_Ok in H1 as [-> Ho].
    rewrite Ho1 in Ho. injection Ho as <-.
    apply bind_Ok in H as ([] & ? & H1 & H). apply ASSERT_Ok in H1 as [Hcid ->].
    apply Z.eqb_eq in Hcid.
    apply bind_Ok in H as ([] & h1 & H1 & H). apply modify_Ok in H1.
    simpl in Hnd. apply NoDup_cons in Hnd as [Hne Hnd'].
    assert (HeE : e ∈ (e :: R') ++ En) by (by left).
    assert (HeR : e ∉ R') by (intros ?; apply Hne, elem_of_app; by left).
    assert (HeEn : e ∉ En) by (intros ?; apply Hne, elem_of_app; by right).
    assert (HeW : e ∉ W) by (by apply Hdis).
    assert (Hlt : e < scan) by (destruct HI as [_ HI']; by eapply inv_E).
    destruct (HInv_black_origin _ _ _ _ _ _ _ HI Hlt Ho1)
      as (ae & o0 & Hfe & Hae & Hreach & Hbl).
    destruct (black_rel_pending _ _ _ _ _ _ _ Hbl Hcid HeE) as (Hc0 & nx0 & Heq).
    assert (HI1 : HInv h0 h1 scan ((e :: R') ++ En) W).
    { subst h1. eapply HInv_relink; eauto. }
    assert (HT1 : forall x, x <> e -> cells (to_ h1) !! x = cells (to_ h) !! x).
    { intros x Hx. subst h1. simpl. by rewrite lookup_insert_ne. }
    assert (HTe : cells (to_ h1) !! e = Some (Live (set_next o1 None))).
    { subst h1. simpl. by rewrite lookup_insert_eq. }
    assert (Hs1 : scan_step h h1) by (subst h1; apply scan_step_with_to_cells).
    assert (HR1 : Chain (cells (to_ h1)) (next o1) R').
    { subst h1. simpl. by apply Chain_insert_other. }
    assert (HEn1 : Chain (cells (to_ h1)) (ephemeron_list_ h1) En).
    { subst h1. simpl. by apply Chain_insert_other. }
    assert (HW1 : Chain (cells (to_ h1)) (weak_list_ h1) W).
    { subst h1. simpl. by apply Chain_insert_other. }
    assert (Htop1 : top_ h1 = top_ h) by (subst h1; done).
    assert (HF1 : cells (from_ h1) = cells (from_ h)) by (subst h1; done).
    clear H1.
    destruct (slots o1) as [|k [|v [|f rest]]] eqn:Hsl;
      try (destruct (trap_Ok _ _ H)).
    assert (Hsl0 : slots o0 = k :: v :: f :: rest) by (subst o1; done).
    apply bind_Ok in H as (live & ? & H1 & H).
    apply key_is_live_Ok in H1 as (-> & Hlive & Hdead).
    apply bind_Ok in H as ([] & h2 & H2 & H).
    destruct live.
    + apply bind_Ok in H2 as (k' & h3 & H3 & H2).
      apply bind_Ok in H2 as (v' & h4 & H4 & H2).
      apply bind_Ok in H2 as (f' & h5 & H5 & H2).
      apply modify_Ok in H2.
      assert (Hjust : forall p b, p ∈ [k; v; f] -> ptr_target p = Some b ->
                Reach h0 b).
      { intros p b Hp Hb. eapply (Reach_ephemeron h0 ae o0); eauto.
        intros ka Hka. destruct (Hlive eq_refl _ Hka) as [n Hn].
        destruct HI1 as [_ HI1]. by eapply inv_sound. }
      eapply ScavengePointer_spec in H3 as (HI3 & Hs3 & Hr3); eauto;
        [|intros b Hb; apply (Hjust k); [by left|done]].
      eapply ScavengePointer_spec in H4 as (HI4 & Hs4 & Hr4); eauto;
        [|intros b Hb; apply (Hjust v); [right; by left|done]].
      eapply ScavengePointer_spec in H5 as (HI5 & Hs5 & Hr5); eauto;
        [|intros b Hb; apply (Hjust f); [right; right; by left|done]].
      assert (Hs15 : copy_step h1 h5).
      { eapply copy_step_trans; [done|]. by eapply copy_step_trans. }
      assert (HTe5 : cells (to_ h5) !! e = Some (Live (set_next o1 None))).
      { rewrite (cs_to _ _ Hs15); eauto. }
      pose proof (cs_lists _ _ Hs15) as Hl. unfold lists in Hl.
      injection Hl as Hel Hwl.
      assert (HI2 : HInv h0 h2 scan (R' ++ En) W).
      { subst h2.
        eapply (HInv_processed h0 h5 scan (R' ++ En) W e (set_next o1 None)
                  k v f rest k' v' f');
          [exact HI5|exact Hne|exact HTe5|exact Hcid|reflexivity|exact Hsl
          | | |exact Hr5].
        - eapply reloc_mono; [|exact Hr3].
          eapply fwd_mono_trans; [apply Hs4|apply Hs5].
        - eapply reloc_mono; [|exact Hr4]. apply Hs5. }
      eapply (IH (next o1) h2 R' En) in H as (E' & HG & Hs & Hp); eauto.
      * exists E'. split; [done|]. split; [|].
        -- eapply scan_step_trans; [exact Hs1|].
           eapply scan_step_trans; [by apply copy_step_scan_step|].
           eapply scan_step_trans; [|exact Hs].
           subst h2. apply scan_step_with_to_cells.
        -- done.
      * subst h2. simpl. apply Chain_insert_other; [done|].
        by eapply Chain_copy_step.
      * subst h2. simpl. rewrite Hel. apply Chain_insert_other; [done|].
        by eapply Chain_copy_step.
      * subst h2. simpl. rewrite Hwl. apply Chain_insert_other; [done|].
        by eapply Chain_copy_step.
      * intros x Hx. apply Hdis. by right.
      * subst h2. simpl. pose proof (cs_top _ _ Hs15). lia.
      * intros Heq5 x Hx. subst h2. simpl in Heq5.
        pose proof (cs_top _ _ Hs15) as Ht15.
        assert (Hxe : x <> e) by (intros ->; done).
        eapply (pending_key_preserved h).
        -- simpl. rewrite lookup_insert_ne by done.
           rewrite (cs_to _ _ Hs15); [by apply HT1|].
           rewrite HT1 by done.
           destruct (Chain_lookup _ _ _ _ HEn Hx) as [ox Hox]. eauto.
        -- simpl. rewrite (cs_same _ _ Hs15) by lia. done.
        -- apply Hpend; [lia|done].
    + apply AddToEphemeronList_Ok in H2 as (o' & Ho' & ->).
      rewrite HTe in Ho'. injection Ho' as <-.
      destruct (Hdead eq_refl) as (ka & Hka & Hunf).
      eapply (IH (next o1) _ R' (e :: En)) in H as (E' & HG & Hs & Hp); eauto.
      * exists E'. split; [done|]. split; [|done].
        eapply scan_step_trans; [exact Hs1|].
        eapply scan_step_trans; [|exact Hs]. apply scan_step_with_lists.
      * change (HInv h0 (with_to_cells h1
                  (<[e := Live (set_next (set_next o1 None)
                                  (ephemeron_list_ h1))]> (cells (to_ h1))))
                  scan (R' ++ e :: En) W).
        eapply (HInv_relink h0 h1 scan ((e :: R') ++ En) (R' ++ e :: En) W e
                  (set_next o1 None) (ephemeron_list_ h1));
          [exact HI1|exact HTe|exact Hcid|exact HeE|].
        intros n. simpl. rewrite elem_of_cons, !elem_of_app, elem_of_cons.
        tauto.
      * simpl. by apply Chain_insert_other.
      * simpl. split; [done|]. eexists. rewrite lookup_insert_eq.
        split; [done|]. simpl. by apply Chain_insert_other.
      * simpl. by apply Chain_insert_other.
      * apply NoDup_app. apply NoDup_app in Hnd' as (? & Hd & ?).
        split; [done|]. split; [|by apply NoDup_cons].
        intros x Hx Hin. apply elem_of_cons in Hin as [->|Hin]; [done|].
        by apply (Hd x).
      * intros x Hx. apply Hdis.
        rewrite elem_of_app, elem_of_cons in Hx. simpl.
        rewrite elem_of_cons, elem_of_app. tauto.
      * simpl. lia.
      * simpl. intros Heq1 x Hx. apply elem_of_cons in Hx as [->|Hx].
        -- exists (set_next (set_next o1 None) (ephemeron_list_ h1)), k,
             (v :: f :: rest), ka.
           simpl. rewrite lookup_insert_eq. done.
        -- assert (Hxe : x <> e) by (intros ->; done).
           eapply (pending_key_preserved h).
           ++ simpl. rewrite lookup_insert_ne by done. by apply HT1.
           ++ done.
           ++ apply Hpend; [lia|done].
Qed.

Lemma ProcessEphemeronList_spec h0 fuel h scan E W h' :
  wf_cells (cells (to_ h0)) -> GInv h0 h scan E W ->
  ProcessEphemeronList fuel h = Ok (tt, h') ->
  exists E', GInv h0 h' scan E' W /\ scan_step h h' /\
    (top_ h' = top_ h -> forall e, e ∈ E' -> pending_key h' e).
Proof.
  intros Hwf (HI & HE & HW & HndE & HndW & Hdis) H.
  unfold ProcessEphemeronList in H.
  apply bind_Ok in H as (? & ? & H1 & H). apply get_Ok in H1 as [-> ->].
  apply bind_Ok in H as ([] & h1 & H1 & H). apply modify_Ok in H1 as ->.
  assert (HI' : HInv h0 (with_ephemeron_list h None) scan (E ++ []) W)
    by (rewrite app_nil_r; exact HI).
  assert (Hnd' : NoDup (E ++ [])) by (by rewrite app_nil_r).
  assert (Hdis' : forall x, x ∈ E ++ [] -> x ∉ W)
    by (intros x Hx; rewrite app_nil_r in Hx; by apply Hdis).
  assert (Hp0 : top_ (with_ephemeron_list h None) = top_ h ->
            forall e, e ∈ [] -> pending_key (with_ephemeron_list h None) e)
    by (intros _ e He; by apply elem_of_nil in He).
  destruct (ProcessEphemeronList_loop_spec h0 (top_ h) scan W fuel _ _ E [] h'
              Hwf HI' HE eq_refl HW Hnd' HndW Hdis' (Z.le_refl _) Hp0 H)
    as (E' & HG & Hs & Hp).
  exists E'. split; [done|]. split; [|done].
  destruct Hs as [L R M T]. split; done.
Qed.

Lemma Scavenge_loop_spec h0 fuel n :
  forall scan h E W h',
  wf_cells (cells (to_ h0)) -> GInv h0 h scan E W ->
  (scan = top_ h -> forall e, e ∈ E -> pending_key h e) ->
  Scavenge_loop fuel n scan h = Ok (tt, h') ->
  exists E' W', GInv h0 h' (top_ h') E' W' /\ scan_step h h' /\
    forall e, e ∈ E' -> pending_key h' e.
Proof.
  induction n as [|n IH]; intros scan h E W h' Hwf HG Hpend H;
    simpl in H; apply bind_Ok in H as (? & ? & H1 & H);
    apply get_Ok in H1 as [-> ->];
    (destruct (Z.ltb_spec scan (top_ h)) as [Hlt|Hge];
     [|apply ret_Ok in H as [_ ->];
       assert (scan = top_ h)
         by (destruct HG as ([_ HI] & _); apply Inv_scan_le_top in HI; lia);
       subst scan; exists E, W; split; [done|];
       split; [apply scan_step_refl|auto]]).
  - destruct (timeout_Ok _ _ H).
  - apply bind_Ok in H as (scan1 & h1 & H1 & H).
    apply bind_Ok in H as ([] & h2 & H2 & H).
    eapply ProcessToSpace_spec in H1 as (E1 & W1 & HG1 & -> & Hs1); eauto.
    eapply ProcessEphemeronList_spec in H2 as (E2 & HG2 & Hs2 & Hp2); eauto.
    eapply IH in H as (E3 & W3 & HG3 & Hs3 & Hp3); eauto.
    exists E3, W3. split; [done|]. split; [|done].
    eapply scan_step_trans; [exact Hs1|]. by eapply scan_step_trans.
Qed.

(** ** The start of a collection *)

(** A heap between collections: from-space is unallocated, the intrusive
    lists are empty, and to-space holds objects of positive size with
    regular headers. *)
Definition at_rest (h : Heap) : Prop :=
  cells (from_ h) = ∅ /\ ephemeron_list_ h = None /\ weak_list_ h = None /\
  wf_cells (cells (to_ h)).

Lemma Inv_init h0 start :
  wf_cells (cells (to_ h0)) ->
  Inv h0 start ∅ (cells (to_ h0)) start start [] [].
Proof.
  intros Hwf. split.
  - intros a. by left.
  - exists [], []. simpl. repeat split; try done.
    intros n [c Hc]. by rewrite lookup_empty in Hc.
  - intros n c Hc. by rewrite lookup_empty in Hc.
  - intros a a' n Ha. apply Hwf in Ha as [[] _].
  - intros a n Ha. apply Hwf in Ha as [[] _].
  - intros a n Ha. apply Hwf in Ha as [[] _].
  - intros e He. by apply elem_of_nil in He.
  - intros e He. by apply elem_of_nil in He.
  - intros n [c Hc]. by rewrite lookup_empty in Hc.
Qed.

Lemma FlipSpaces_spec h0 h1 :
  at_rest h0 -> FlipSpaces h0 = Ok (tt, h1) ->
  GInv h0 h1 (top_ h1) [] [] /\
  top_ h1 = object_start (to_ h1) /\ end_ h1 = limit (to_ h1) /\
  roots h1 = roots h0 /\
  class_table_top_ h1 = class_table_top_ h0 /\
  class_table_free_ h1 = class_table_free_ h0 /\
  from_ h1 = to_ h0 /\
  size (from_ h1) <= size (to_ h1) /\
  ((base (to_ h1) = base (from_ h0) /\ size (to_ h1) = size (from_ h0) /\
    vm_brk h1 = vm_brk h0 /\ size (to_ h0) <= size (from_ h0)) \/
   (base (to_ h1) = vm_brk h0 /\ size (to_ h1) = size (to_ h0) /\
    vm_brk h1 = vm_brk h0 + size (to_ h0) /\
    size (from_ h0) < size (to_ h0))).
Proof.
  intros (Hfrom & He & Hw & Hwf) H. apply FlipSpaces_Ok in H.
  cbv zeta in H.
  assert (Hto : cells (to_ h1) = ∅).
  { subst h1. simpl. destruct (size (from_ h0) <? size (to_ h0)); done. }
  assert (Hfr : from_ h1 = to_ h0) by (subst h1; done).
  assert (Htop : top_ h1 = object_start (to_ h1)) by (subst h1; done).
  split; [|split; [done|split; [by subst h1|split; [by subst h1|]]]].
  - split; [|split; [|split; [|split; [constructor|split; [constructor|]]]]].
    + split; [by subst h1|]. rewrite Hto, Hfr, Htop. by apply Inv_init.
    + subst h1. simpl. done.
    + subst h1. simpl. done.
    + intros x Hx. by apply elem_of_nil in Hx.
  - split; [by subst h1|]. split; [by subst h1|]. split; [done|].
    subst h1. simpl.
    destruct (Z.ltb_spec (size (from_ h0)) (size (to_ h0))); simpl.
    + split; [lia|]. right. done.
    + split; [lia|]. left. done.
Qed.

Lemma HInv_with_roots h0 h scan E W os act hs :
  HInv h0 h scan E W -> HInv h0 (with_roots h os act hs) scan E W.
Proof. done. Qed.

(** [ProcessRoots] leaves every root relocated. *)
Lemma ProcessRoots_spec h0 h scan h' :
  wf_cells (cells (to_ h0)) -> roots h = roots h0 ->
  HInv h0 h scan [] [] ->
  ProcessRoots h = Ok (tt, h') ->
  HInv h0 h' scan [] [] /\ layout h' = layout h /\ lists h' = lists h /\
  fwd_mono (cells (from_ h)) (cells (from_ h')) /\ top_ h <= top_ h' /\
  reloc (cells (from_ h')) (object_store_ h0) (object_store_ h') /\
  reloc (cells (from_ h')) (current_activation_ h0) (current_activation_ h') /\
  Forall2 (reloc (cells (from_ h'))) (handles_ h0) (handles_ h').
Proof.
  intros Hwf Hroots HI H. unfold ProcessRoots in H.
  unfold roots in Hroots. injection Hroots as Hos Hact Hhs.
  apply bind_Ok in H as (? & ? & H1 & H). apply get_Ok in H1 as [-> ->].
  apply bind_Ok in H as (os & h1 & H1 & H).
  apply bind_Ok in H as ([] & ? & Hm & H). apply modify_Ok in Hm as ->.
  apply bind_Ok in H as (act & h2 & H2 & H).
  apply bind_Ok in H as ([] & ? & Hm & H). apply modify_Ok in Hm as ->.
  apply bind_Ok in H as (hs & h3 & H3 & H).
  apply modify_Ok in H as ->.
  rewrite Hos, Hact, Hhs in *.
  eapply ScavengePointer_spec in H1 as (HI1 & Hs1 & Hr1); eauto;
    [|intros a Ha; by apply Reach_store].
  eapply ScavengePointer_spec in H2 as (HI2 & Hs2 & Hr2);
    [|exact Hwf|apply HInv_with_roots; exact HI1
     |intros a Ha; by apply Reach_activation].
  eapply mapM_ScavengePointer_spec in H3 as (HI3 & Hs3 & Hr3);
    [|exact Hwf|apply HInv_with_roots; exact HI2
     |intros p a Hp Ha; by eapply Reach_handle].
  destruct Hs1 as [L1 _ I1 M1 T1 _ _].
  destruct Hs2 as [L2 R2 I2 M2 T2 _ _].
  destruct Hs3 as [L3 R3 I3 M3 T3 _ _].
  assert (L2' : layout h2 = layout h1) by exact L2.
  assert (L3' : layout h3 = layout h2) by exact L3.
  assert (I2' : lists h2 = lists h1) by exact I2.
  assert (I3' : lists h3 = lists h2) by exact I3.
  assert (M2' : fwd_mono (cells (from_ h1)) (cells (from_ h2))) by exact M2.
  assert (M3' : fwd_mono (cells (from_ h2)) (cells (from_ h3))) by exact M3.
  assert (T2' : top_ h1 <= top_ h2) by exact T2.
  assert (T3' : top_ h2 <= top_ h3) by exact T3.
  assert (Hos3 : object_store_ h3 = os /\ current_activation_ h3 = act).
  { unfold roots in R2, R3. simpl in R2, R3.
    injection R3 as -> -> _. injection R2 as -> _ _. done. }
  destruct Hos3 as [Hos3 Hact3].
  split; [by apply HInv_with_roots|].
  split; [change (layout h3 = layout h); congruence|].
  split; [change (lists h3 = lists h); congruence|].
  split; [change (fwd_mono (cells (from_ h)) (cells (from_ h3)));
          eauto using fwd_mono_trans|].
  split; [change (top_ h <= top_ h3); lia|].
  split; [change (reloc (cells (from_ h3)) (object_store_ h0)
                    (object_store_ h3)); rewrite Hos3;
          eapply reloc_mono; [|exact Hr1]; eauto using fwd_mono_trans|].
  split; [change (reloc (cells (from_ h3)) (current_activation_ h0)
                    (current_activation_ h3)); rewrite Hact3;
          eapply reloc_mono; [|exact Hr2]; done|exact Hr3].
Qed.

(** ** Mourning *)

Lemma MournEphemeronList_loop_spec fuel nil :
  forall sv h l h',
  Chain (cells (to_ h)) sv l -> NoDup l ->
  MournEphemeronList_loop fuel nil sv h = Ok (tt, h') ->
  exists T', h' = with_to_cells h T' /\
    (forall n, n ∉ l -> T' !! n = cells (to_ h) !! n) /\
    (forall e, e ∈ l -> exists o k v f rest,
       cells (to_ h) !! e = Some (Live o) /\ cid o = kEphemeronCid /\
       slots o = k :: v :: f :: rest /\
       T' !! e = Some (Live (set_slots o (nil :: nil :: nil :: rest)))).
Proof.
  induction fuel as [|fuel IH]; intros sv h l h' Hc Hnd H;
    (destruct sv as [e|]; simpl in H;
     [|apply ret_Ok in H as [_ ->]; destruct l; [|by destruct Hc];
       exists (cells (to_ h)); split; [by destruct h as [? ? []]|];
       split; [done|]; intros e He; by apply elem_of_nil in He]).
  - destruct (timeout_Ok _ _ H).
  - destruct l as [|e' l']; simpl in Hc; [done|].
    destruct Hc as ([= <-] & o1 & Ho1 & Hc').
    apply NoDup_cons in Hnd as [Hne Hnd'].
    apply bind_Ok in H as (o & ? & H1 & H).
    apply read_object_Ok in H1 as [-> Ho].
    rewrite Ho1 in Ho. injection Ho as <-.
    apply bind_Ok in H as ([] & ? & H1 & H). apply ASSERT_Ok in H1 as [Hcid ->].
    apply Z.eqb_eq in Hcid.
    destruct (slots o1) as [|k [|v [|f rest]]] eqn:Hsl;
      try (destruct (trap_Ok _ _ H)).
    apply bind_Ok in H as (? & ? & H1 & H). apply get_Ok in H1 as [-> ->].
    apply bind_Ok in H as ([] & ? & H1 & H). apply ASSERT_Ok in H1 as [_ ->].
    apply bind_Ok in H as ([] & h1 & H1 & H). apply modify_Ok in H1 as ->.
    eapply (IH _ _ l') in H as (T' & -> & Hout & Hin); [|simpl|done].
    2:{ by apply Chain_insert_other. }
    exists T'. split; [done|]. simpl in *. split.
    + intros n Hn. rewrite Hout.
      * rewrite lookup_insert_ne; [done|]. intros ->. apply Hn. by left.
      * intros Hin'. apply Hn. by right.
    + intros x Hx. apply elem_of_cons in Hx as [->|Hx].
      * exists o1, k, v, f, rest. rewrite Hout by done.
        rewrite lookup_insert_eq. done.
      * destruct (Hin x Hx) as (o & k2 & v2 & f2 & rest2 & Ho & ? & ? & ?).
        rewrite lookup_insert_ne in Ho by (intros ->; done).
        exists o, k2, v2, f2, rest2. done.
Qed.

Lemma nil_obj_Ok h nil h' :
  nil_obj h = Ok (nil, h') ->
  h' = h /\ exists os o, object_store_ h = HeapObject os /\
    cells (to_ h) !! os = Some (Live o) /\ slots o !! kNilIndex = Some nil.
Proof.
  unfold nil_obj. intros H.
  apply bind_Ok in H as (? & ? & H1 & H). apply get_Ok in H1 as [-> ->].
  destruct (object_store_ h) as [v|os]; [destruct (trap_Ok _ _ H)|].
  apply bind_Ok in H as (o & ? & H1 & H).
  apply read_object_Ok in H1 as [-> Ho]. apply lift_Ok in H as [Hn ->].
  eauto 10.
Qed.

Lemma nil_obj_eq h os o nil :
  object_store_ h = HeapObject os ->
  cells (to_ h) !! os = Some (Live o) -> slots o !! kNilIndex = Some nil ->
  nil_obj h = Ok (nil, h).
Proof.
  intros Hos Ho Hn. unfold nil_obj, bind, get. rewrite Hos.
  rewrite (read_object_Live _ _ _ Ho). unfold lift. by rewrite Hn.
Qed.

(** What [MournWeakPointer] stores, with the to-space check it makes. *)
Definition weak_slot (F : gmap Z Cell) (h : Heap) (nil p p' : ObjectPtr)
    : Prop :=
  mourned F nil p p' /\
  (ptr_target p <> None ->
   exists n, p' = HeapObject n /\ InToSpace h n = true).

Lemma MournWeakPointer_spec h nil p p' h' :
  nil_obj h = Ok (nil, h) ->
  MournWeakPointer p h = Ok (p', h') ->
  h' = h /\ weak_slot (cells (from_ h)) h nil p p'.
Proof.
  intros Hnil H. unfold MournWeakPointer in H. unfold weak_slot, mourned.
  destruct p as [v|a].
  { apply ret_Ok in H as [-> ->]. simpl. done. }
  change (ptr_target (HeapObject a)) with
    (if IsImmediateOrOldObject (HeapObject a) then None else Some a).
  destruct (IsImmediateOrOldObject (HeapObject a)).
  { apply ret_Ok in H as [-> ->]. done. }
  apply bind_Ok in H as (c & ? & H1 & H).
  apply read_from_Ok in H1 as (-> & Hc & _).
  apply bind_Ok in H as (q & h1 & H1 & H).
  apply bind_Ok in H as ([] & ? & H2 & H).
  apply ret_Ok in H as [-> ->].
  assert (h1 = h /\ ((exists n, c = Forwarded n /\ q = HeapObject n) \/
                     ((forall n, c <> Forwarded n) /\ q = nil)))
    as [-> Hq].
  { destruct c as [o|o t|n].
    - rewrite Hnil in H1. injection H1 as -> ->. split; [done|]. by right.
    - rewrite Hnil in H1. injection H1 as -> ->. split; [done|]. by right.
    - apply ret_Ok in H1 as [-> ->]. split; [done|]. left. eauto. }
  apply ASSERT_InToSpace_Ok in H2 as (-> & n' & -> & Hin).
  split; [done|]. split; [|eauto].
  destruct Hq as [(n & -> & [= ->])|(Hnf & <-)].
  - left. eauto.
  - right. split; [|done]. intros n Hn. rewrite Hc in Hn.
    injection Hn as ->. by eapply Hnf.
Qed.

Lemma mapM_MournWeakPointer_spec h nil ps :
  forall ps' h',
  nil_obj h = Ok (nil, h) ->
  mapM MournWeakPointer ps h = Ok (ps', h') ->
  h' = h /\ Forall2 (weak_slot (cells (from_ h)) h nil) ps ps'.
Proof.
  induction ps as [|p ps IH]; intros ps' h' Hnil H; simpl in H.
  - apply ret_Ok in H as [-> ->]. done.
  - apply bind_Ok in H as (q & h1 & H1 & H).
    apply bind_Ok in H as (qs & h2 & H2 & H).
    apply ret_Ok in H as [-> ->].
    eapply MournWeakPointer_spec in H1 as [-> Hq]; [|done].
    eapply IH in H2 as [-> Hqs]; [|done].
    split; [done|]. by constructor.
Qed.

Lemma MournWeakList_loop_spec fuel nil os :
  forall sv h l oos h',
  Chain (cells (to_ h)) sv l -> NoDup l ->
  object_store_ h = HeapObject os ->
  cells (to_ h) !! os = Some (Live oos) -> cid oos <> kWeakArrayCid ->
  slots oos !! kNilIndex = Some nil ->
  MournWeakList_loop fuel sv h = Ok (tt, h') ->
  exists T', h' = with_to_cells h T' /\
    (forall n, n ∉ l -> T' !! n = cells (to_ h) !! n) /\
    (forall w, w ∈ l -> exists o sl,
       cells (to_ h) !! w = Some (Live o) /\ cid o = kWeakArrayCid /\
       T' !! w = Some (Live (set_slots o sl)) /\
       Forall2 (weak_slot (cells (from_ h)) h nil) (slots o) sl).
Proof.
  induction fuel as [|fuel IH]; intros sv h l oos h' Hc Hnd Hos Hoos Hcos Hnil H;
    (destruct sv as [w|]; simpl in H;
     [|apply ret_Ok in H as [_ ->]; destruct l; [|by destruct Hc];
       exists (cells (to_ h)); split; [by destruct h as [? ? []]|];
       split; [done|]; intros e He; by apply elem_of_nil in He]).
  - destruct (timeout_Ok _ _ H).
  - destruct l as [|w' l']; simpl in Hc; [done|].
    destruct Hc as ([= <-] & o1 & Ho1 & Hc').
    apply NoDup_cons in Hnd as [Hne Hnd'].
    apply bind_Ok in H as (o & ? & H1 & H).
    apply read_object_Ok in H1 as [-> Ho].
    rewrite Ho1 in Ho. injection Ho as <-.
    apply bind_Ok in H as ([] & ? & H1 & H). apply ASSERT_Ok in H1 as [Hcid ->].
    apply Z.eqb_eq in Hcid.
    apply bind_Ok in H as (sl & h1 & H1 & H).
    eapply mapM_MournWeakPointer_spec in H1 as [-> Hsl];
      [|by eapply nil_obj_eq].
    apply bind_Ok in H as ([] & h1 & H1 & H). apply modify_Ok in H1 as ->.
    assert (Hwos : w <> os).
    { intros ->. rewrite Hoos in Ho1. injection Ho1 as ->. done. }
    eapply (IH _ _ l' oos) in H as (T' & -> & Hout & Hin); try done.
    2:{ simpl. by apply Chain_insert_other. }
    2:{ simpl. by rewrite lookup_insert_ne. }
    exists T'. split; [done|]. simpl in *. split.
    + intros n Hn. rewrite Hout.
      * rewrite lookup_insert_ne; [done|]. intros ->. apply Hn. by left.
      * intros Hin'. apply Hn. by right.
    + intros x Hx. apply elem_of_cons in Hx as [->|Hx].
      * exists o1, sl. rewrite Hout by done.
        rewrite lookup_insert_eq. done.
      * destruct (Hin x Hx) as (o & sl2 & Ho & ? & ? & ?).
        rewrite lookup_insert_ne in Ho by (intros ->; done).
        exists o, sl2. done.
Qed.

(** What [MournClassTable] leaves in an entry of its range. *)
Definition class_entry_mourned (F : gmap Z Cell) (p p' : ObjectPtr) : Prop :=
  match ptr_target p with
  | None => p' = p
  | Some a =>
      (exists n, F !! a = Some (Forwarded n) /\ p' = HeapObject n) \/
      ((forall n, F !! a <> Some (Forwarded n)) /\
       exists f, p' = SmallInteger f)
  end.

Lemma with_class_table_id h :
  h = with_class_table h (class_table_ h) (class_table_free_ h).
Proof. by destruct h. Qed.

Lemma MournClassTable_step i h u h' :
  MournClassTable_entry i h = Ok (u, h') ->
  exists p p' free',
    class_table_ h !! Z.to_nat i = Some p /\
    class_entry_mourned (cells (from_ h)) p p' /\
    h' = with_class_table h (<[Z.to_nat i := p']> (class_table_ h)) free'.
Proof.
  intros H. unfold MournClassTable_entry in H.
  apply bind_Ok in H as (? & ? & H1 & H). apply get_Ok in H1 as [-> ->].
  apply bind_Ok in H as (p & ? & H1 & H). apply lift_Ok in H1 as [Hp ->].
  exists p. unfold class_entry_mourned.
  assert (Hid : forall q, q = p ->
            h = with_class_table h (<[Z.to_nat i := q]> (class_table_ h))
                  (class_table_free_ h)).
  { intros q ->. rewrite list_insert_id by done. apply with_class_table_id. }
  destruct p as [v|a].
  { apply ret_Ok in H as [_ ->]. exists (SmallInteger v), (class_table_free_ h).
    simpl. auto. }
  change (ptr_target (HeapObject a)) with
    (if IsImmediateOrOldObject (HeapObject a) then None else Some a).
  destruct (IsImmediateOrOldObject (HeapObject a)).
  { apply ret_Ok in H as [_ ->]. exists (HeapObject a), (class_table_free_ h).
    auto. }
  apply bind_Ok in H as (c & ? & H1 & H).
  apply read_from_Ok in H1 as (-> & Hc & _).
  assert (Hunf : (forall n, c <> Forwarded n) ->
            forall n, cells (from_ h) !! a <> Some (Forwarded n)).
  { intros Hnf n Hn. rewrite Hc in Hn. injection Hn as ->. by eapply Hnf. }
  destruct c as [o|o t|n].
  - apply modify_Ok in H as ->.
    exists (SmallInteger (class_table_free_ h)), i. split; [done|].
    split; [|done]. right. split; [by apply Hunf|eauto].
  - apply modify_Ok in H as ->.
    exists (SmallInteger (class_table_free_ h)), i. split; [done|].
    split; [|done]. right. split; [by apply Hunf|eauto].
  - apply bind_Ok in H as ([] & ? & H1 & H).
    apply ASSERT_InToSpace_Ok in H1 as [-> _].
    apply modify_Ok in H as ->.
    exists (HeapObject n), (class_table_free_ h). split; [done|].
    split; [|done]. left. eauto.
Qed.

Lemma MournClassTable_loop_spec n :
  forall i h h', 0 <= i ->
  MournClassTable_loop n i h = Ok (tt, h') ->
  exists CT' free',
    h' = with_class_table h CT' free' /\
    length CT' = length (class_table_ h) /\
    (forall j, (j < Z.to_nat i \/ Z.to_nat i + n <= j)%nat ->
       CT' !! j = class_table_ h !! j) /\
    (forall j p, (Z.to_nat i <= j < Z.to_nat i + n)%nat ->
       class_table_ h !! j = Some p ->
       exists p', CT' !! j = Some p' /\
                  class_entry_mourned (cells (from_ h)) p p').
Proof.
  induction n as [|n IH]; intros i h h' Hi H; simpl in H.
  - apply ret_Ok in H as [_ ->].
    exists (class_table_ h), (class_table_free_ h).
    split; [apply with_class_table_id|]. split; [done|]. split; [done|].
    intros j p Hj. lia.
  - apply bind_Ok in H as ([] & h1 & H1 & H).
    apply MournClassTable_step in H1 as (p & p' & free' & Hp & Hm & ->).
    apply IH in H as (CT' & free'' & -> & Hlen & Hout & Hin); [|lia].
    simpl in *. rewrite length_insert in Hlen.
    replace (Z.to_nat (i + 1)) with (S (Z.to_nat i)) in * by lia.
    exists CT', free''. split; [done|]. split; [done|]. split.
    + intros j Hj. rewrite Hout by lia.
      apply list_lookup_insert_ne. lia.
    + intros j q Hj Hq. destruct (decide (j = Z.to_nat i)) as [->|Hne].
      * rewrite Hp in Hq. injection Hq as <-. exists p'.
        rewrite Hout by lia. split; [|done].
        apply list_lookup_insert_eq. by eapply lookup_lt_Some.
      * apply Hin; [lia|]. rewrite list_lookup_insert_ne by lia. done.
Qed.

(** ** The end of the scan: every reachable object has been copied *)

Lemma Tiled_nil_inv m a l : Tiled m a l a -> l = [].
Proof.
  destruct l as [|x l]; [done|]. simpl.
  intros (-> & c & _ & _ & Hpos & Ht). apply Tiled_le in Ht. lia.
Qed.

Lemma Inv_all_black h0 start T F top E W n :
  Inv h0 start T F top top E W -> is_Some (T !! n) -> n < top.
Proof.
  intros HI Hn. destruct (inv_tiled _ _ _ _ _ _ _ _ HI) as (bl & gl & Hb & Hg & Hdom).
  apply Tiled_nil_inv in Hg as ->. apply Hdom in Hn.
  rewrite app_nil_r in Hn. by apply (Tiled_bounds _ _ _ _ _ Hb).
Qed.

Lemma Inv_forwarded_black h0 start T F top E W a n o :
  Inv h0 start T F top top E W ->
  F !! a = Some (Forwarded n) -> cells (to_ h0) !! a = Some (Live o) ->
  exists c, T !! n = Some c /\ black_rel h0 F E W n o c.
Proof.
  intros HI Hf Ho.
  destruct (inv_range _ _ _ _ _ _ _ _ HI _ _ Hf) as [c Hc].
  destruct (inv_origin _ _ _ _ _ _ _ _ HI _ _ Hc) as (a' & c0 & Hf' & Hc0 & _ & Hb).
  assert (a' = a) as -> by (eapply inv_inj; eauto).
  rewrite Ho in Hc0. injection Hc0 as <-.
  destruct Hb as (o0 & [= <-] & Hrel).
  { eapply Inv_all_black; eauto. }
  eauto.
Qed.

Lemma reloc_forwarded F p p' a :
  reloc F p p' -> ptr_target p = Some a ->
  exists n, F !! a = Some (Forwarded n).
Proof.
  unfold reloc. intros H Hp. rewrite Hp in H. destruct H as (n & ? & _). eauto.
Qed.

Lemma Forall2_reloc_forwarded F ps ps' p a :
  Forall2 (reloc F) ps ps' -> p ∈ ps -> ptr_target p = Some a ->
  exists n, F !! a = Some (Forwarded n).
Proof.
  intros H Hp Ha. apply list_elem_of_lookup in Hp as [i Hi].
  destruct (Forall2_lookup_l _ _ _ _ _ H Hi) as (p' & _ & Hr).
  exact (reloc_forwarded _ _ _ _ Hr Ha).
Qed.

Lemma scan_complete h0 h E W os act hs :
  HInv h0 h (top_ h) E W ->
  (forall e, e ∈ E -> pending_key h e) ->
  reloc (cells (from_ h)) (object_store_ h0) os ->
  reloc (cells (from_ h)) (current_activation_ h0) act ->
  Forall2 (reloc (cells (from_ h))) (handles_ h0) hs ->
  forall a, Reach h0 a -> exists n, cells (from_ h) !! a = Some (Forwarded n).
Proof.
  intros [_ HI] Hpend Hos Hact Hhs a Hreach.
  induction Hreach as [a Ha|a Ha|p a Hp Ha|a o p b Hr IH Ho Hnw Hne Hp Hb
                      |a o p b Hr IH Ho Hc Hp Hb
                      |e o k v f rest p b Hr IH Ho Hcid Hsl Hkey IHkey Hp Hb].
  - exact (reloc_forwarded _ _ _ _ Hos Ha).
  - exact (reloc_forwarded _ _ _ _ Hact Ha).
  - exact (Forall2_reloc_forwarded _ _ _ _ _ Hhs Hp Ha).
  - destruct IH as [n Hn].
    destruct (Inv_forwarded_black _ _ _ _ _ _ _ _ _ _ HI Hn Ho) as (c & Hc & _ & Hb').
    rewrite !decide_False in Hb' by done.
    destruct Hb' as (sl & _ & Hsl).
    exact (Forall2_reloc_forwarded _ _ _ _ _ Hsl Hp Hb).
  - destruct IH as [n Hn].
    destruct (Inv_forwarded_black _ _ _ _ _ _ _ _ _ _ HI Hn Ho)
      as (c & Hc' & (_ & p' & Hp' & Hk) & _).
    rewrite Hp in Hp'. injection Hp' as <-. by rewrite Hb in Hk.
  - destruct IH as [n Hn].
    destruct (Inv_forwarded_black _ _ _ _ _ _ _ _ _ _ HI Hn Ho) as (c & Hc & _ & Hb').
    rewrite decide_False in Hb'
      by (rewrite Hcid; unfold kEphemeronCid, kWeakArrayCid; lia).
    rewrite decide_True in Hb' by done.
    destruct Hb' as [(Hin & nx & ->)|(_ & k2 & v2 & f2 & rest2 & k' & v' & f' & Hsl2 & _ & Hk & Hv & Hf)].
    + destruct (Hpend _ Hin) as (o' & k2 & rest2 & ka & Ho' & Hsl2 & Hka & Hunf).
      rewrite Hc in Ho'. injection Ho' as <-. simpl in Hsl2.
      rewrite Hsl in Hsl2. injection Hsl2 as <- <-.
      destruct (IHkey _ Hka) as [m Hm]. by apply Hunf in Hm.
    + rewrite Hsl in Hsl2. injection Hsl2 as <- <- <- <-.
      apply elem_of_cons in Hp as [->|Hp];
        [exact (reloc_forwarded _ _ _ _ Hk Hb)|].
      apply elem_of_cons in Hp as [->|Hp];
        [exact (reloc_forwarded _ _ _ _ Hv Hb)|].
      apply list_elem_of_singleton in Hp as ->.
      exact (reloc_forwarded _ _ _ _ Hf Hb).
Qed.

(** ** The heap a collection leaves *)

(** The to-space cell [c] left for the object [o0] it was copied from:
    a weak array has its slots mourned, an ephemeron is either processed
    (its three slots relocated) or mourned (its key was never forwarded and
    its three slots are [nil]), any other object has every slot
    relocated. *)
Definition collected_cell (F : gmap Z Cell) (h' : Heap) (nil : ObjectPtr)
    (o0 : Object) (c : Cell) : Prop :=
  if decide (cid o0 = kWeakArrayCid) then
    (exists nx sl, c = Live (set_next (set_slots o0 sl) nx) /\
                   Forall2 (weak_slot F h' nil) (slots o0) sl)
  else if decide (cid o0 = kEphemeronCid) then
    (exists k v f rest, slots o0 = k :: v :: f :: rest /\
       ((exists k' v' f',
           c = Live (set_next (set_slots o0 (k' :: v' :: f' :: rest)) None) /\
           reloc F k k' /\ reloc F v v' /\ reloc F f f') \/
        (exists ka nx, ptr_target k = Some ka /\
           (forall n, F !! ka <> Some (Forwarded n)) /\
           c = Live (set_next (set_slots o0 (nil :: nil :: nil :: rest)) nx))))
  else
    (exists sl, c = Live (set_slots o0 sl) /\
                Forall2 (reloc F) (slots o0) sl).

Lemma final_cell h0 h3 hm E W nil (T4 T5 : gmap Z Cell) n o0 c3 :
  black_rel h0 (cells (from_ h3)) E W n o0 c3 ->
  cells (to_ h3) !! n = Some c3 ->
  (forall e, e ∈ E -> pending_key h3 e) ->
  (forall x, x ∈ E -> x ∉ W) ->
  (forall n, n ∉ E -> T4 !! n = cells (to_ h3) !! n) ->
  (forall e, e ∈ E -> exists o k v f rest,
     cells (to_ h3) !! e = Some (Live o) /\ cid o = kEphemeronCid /\
     slots o = k :: v :: f :: rest /\
     T4 !! e = Some (Live (set_slots o (nil :: nil :: nil :: rest)))) ->
  (forall n, n ∉ W -> T5 !! n = T4 !! n) ->
  (forall w, w ∈ W -> exists o sl,
     T4 !! w = Some (Live o) /\ cid o = kWeakArrayCid /\
     T5 !! w = Some (Live (set_slots o sl)) /\
     Forall2 (weak_slot (cells (from_ h3)) hm nil) (slots o) sl) ->
  exists c5, T5 !! n = Some c5 /\
             collected_cell (cells (from_ h3)) hm nil o0 c5.
Proof.
  intros [_ Hb] Hc3 Hpend Hdis HE4out HE4in HW5out HW5in.
  assert (HnotE : forall o, c3 = Live o -> cid o <> kEphemeronCid -> n ∉ E).
  { intros o -> Hcid Hin. destruct (HE4in _ Hin) as (o' & ? & ? & ? & ? & Ho' & ? & _).
    rewrite Hc3 in Ho'. injection Ho' as <-. done. }
  assert (HnotW : forall o, T4 !! n = Some (Live o) -> cid o <> kWeakArrayCid ->
            n ∉ W).
  { intros o Ho Hcid Hin. destruct (HW5in _ Hin) as (o' & ? & Ho' & ? & _).
    rewrite Ho in Ho'. injection Ho' as <-. done. }
  unfold collected_cell. repeat case_decide.
  - destruct Hb as (HinW & nx & ->).
    assert (HnE : n ∉ E).
    { eapply HnotE; [done|]. simpl. rewrite H.
      unfold kEphemeronCid, kWeakArrayCid. lia. }
    destruct (HW5in _ HinW) as (o & sl & Ho & _ & Ho5 & Hsl).
    rewrite HE4out, Hc3 in Ho by done. injection Ho as <-.
    exists (Live (set_slots (set_next o0 nx) sl)). split; [done|].
    exists nx, sl. done.
  - destruct Hb as [(HinE & nx & ->)
                   |(HnE & k & v & f & rest & k' & v' & f' & Hsl & -> & Hk & Hv & Hf)].
    + destruct (HE4in _ HinE) as (o & k & v & f & rest & Ho & _ & Hsl & Ho4).
      rewrite Hc3 in Ho. injection Ho as <-. simpl in Hsl.
      destruct (Hpend _ HinE) as (o' & k2 & rest2 & ka & Ho' & Hsl2 & Hka & Hunf).
      rewrite Hc3 in Ho'. injection Ho' as <-. simpl in Hsl2.
      rewrite Hsl in Hsl2. injection Hsl2 as <- <-.
      exists (Live (set_slots (set_next o0 nx) (nil :: nil :: nil :: rest))).
      split; [rewrite HW5out; [done|by apply Hdis]|].
      exists k, v, f, rest. split; [done|]. right. exists ka, nx. done.
    + exists (Live (set_next (set_slots o0 (k' :: v' :: f' :: rest)) None)).
      split.
      * rewrite HW5out; [rewrite HE4out; done|].
        eapply HnotW; [rewrite HE4out; done|done].
      * exists k, v, f, rest. split; [done|]. left. exists k', v', f'. done.
  - destruct Hb as (sl & -> & Hsl).
    assert (HnE : n ∉ E) by (eapply HnotE; done).
    exists (Live (set_slots o0 sl)). split.
    + rewrite HW5out; [rewrite HE4out; done|].
      eapply HnotW; [rewrite HE4out; done|done].
    + exists sl. done.
Qed.

(** The object store is an [Array], as [InitializeRoot] asserts. *)
Definition store_is_array (h : Heap) : Prop :=
  forall os o, object_store_ h = HeapObject os ->
    cells (to_ h) !! os = Some (Live o) -> cid o = kArrayCid.

(** [Collected h0 h' F nil]: [h'] is what a collection leaves of [h0];
    [F] is from-space as the collection left it, forwarding headers
    included, and [nil] the relocated [nil]. *)
Record Collected (h0 h' : Heap) (F : gmap Z Cell) (nil : ObjectPtr)
    : Prop := {
  col_evolved : from_evolved (cells (to_ h0)) F;
  col_reach : forall a, Reach h0 a <-> exists n, F !! a = Some (Forwarded n);
  col_inj : forall a a' n,
    F !! a = Some (Forwarded n) -> F !! a' = Some (Forwarded n) -> a = a';
  col_cells : forall n c, cells (to_ h') !! n = Some c ->
    exists a o0, F !! a = Some (Forwarded n) /\
      cells (to_ h0) !! a = Some (Live o0) /\
      class_kept h0 F (cid o0) /\ collected_cell F h' nil o0 c;
  col_range : forall a n,
    F !! a = Some (Forwarded n) -> is_Some (cells (to_ h') !! n);
  col_new : forall n,
    is_Some (cells (to_ h') !! n) -> ptr_target (HeapObject n) = Some n;
  col_tiled : exists l,
    Tiled (cells (to_ h')) (object_start (to_ h')) l (top_ h') /\
    forall n, is_Some (cells (to_ h') !! n) -> n ∈ l;
  col_store : reloc F (object_store_ h0) (object_store_ h');
  col_activation : reloc F (current_activation_ h0) (current_activation_ h');
  col_handles : Forall2 (reloc F) (handles_ h0) (handles_ h');
  col_nil : nil_obj h' = Ok (nil, h');
  col_class_top : class_table_top_ h' = class_table_top_ h0;
  col_class_table :
    length (class_table_ h') = length (class_table_ h0) /\
    forall j p, class_table_ h0 !! j = Some p ->
      exists p', class_table_ h' !! j = Some p' /\
        if decide (Z.to_nat kFirstLegalCid <= j < Z.to_nat (class_table_top_ h0))%nat
        then class_entry_mourned F p p' else p' = p;
  col_rest : at_rest h';
  col_from : from_ h' = mkSemispace (base (to_ h0)) (size (to_ h0)) ∅;
  col_size : size (to_ h0) <= size (to_ h');
  col_to :
    (base (to_ h') = base (from_ h0) /\ size (to_ h') = size (from_ h0) /\
     vm_brk h' = vm_brk h0 /\ size (to_ h0) <= size (from_ h0)) \/
    (base (to_ h') = vm_brk h0 /\ size (to_ h') = size (to_ h0) /\
     vm_brk h' = vm_brk h0 + size (to_ h0) /\
     size (from_ h0) < size (to_ h0))
}.

Lemma pass_sizes (T T' : gmap Z Cell) (l : list Z) :
  (forall n, n ∉ l -> T' !! n = T !! n) ->
  (forall e, e ∈ l -> exists o o',
     T !! e = Some (Live o) /\ T' !! e = Some (Live o') /\
     heap_size o' = heap_size o) ->
  (forall x c, T !! x = Some c ->
     exists c', T' !! x = Some c' /\ (not_forwarded c -> not_forwarded c') /\
                cell_heap_size c' = cell_heap_size c) /\
  (forall x, is_Some (T' !! x) -> is_Some (T !! x)).
Proof.
  intros Hout Hin. split.
  - intros x c Hc. destruct (decide (x ∈ l)) as [Hx|Hx].
    + destruct (Hin _ Hx) as (o & o' & Ho & Ho' & Hsz).
      rewrite Hc in Ho. injection Ho as ->. exists (Live o'). done.
    + exists c. rewrite Hout by done. done.
  - intros x Hx. destruct (decide (x ∈ l)) as [Hl|Hl].
    + destruct (Hin _ Hl) as (o & o' & Ho & _). eauto.
    + by rewrite Hout in Hx.
Qed.

Lemma MournEphemeronList_spec fuel h l h' :
  Chain (cells (to_ h)) (ephemeron_list_ h) l -> NoDup l ->
  MournEphemeronList fuel h = Ok (tt, h') ->
  exists nil T',
    nil_obj h = Ok (nil, h) /\
    h' = with_to_cells (with_ephemeron_list h None) T' /\
    (forall n, n ∉ l -> T' !! n = cells (to_ h) !! n) /\
    (forall e, e ∈ l -> exists o k v f rest,
       cells (to_ h) !! e = Some (Live o) /\ cid o = kEphemeronCid /\
       slots o = k :: v :: f :: rest /\
       T' !! e = Some (Live (set_slots o (nil :: nil :: nil :: rest)))).
Proof.
  intros Hc Hnd H. unfold MournEphemeronList in H.
  apply bind_Ok in H as (nil & h1 & H1 & H).
  pose proof (nil_obj_Ok _ _ _ H1) as [-> _].
  apply bind_Ok in H as (? & ? & H2 & H). apply get_Ok in H2 as [-> ->].
  apply bind_Ok in H as ([] & ? & H2 & H). apply modify_Ok in H2 as ->.
  eapply MournEphemeronList_loop_spec in H as (T' & -> & Hout & Hin); eauto.
  exists nil, T'. done.
Qed.

Lemma MournWeakList_spec fuel h l nil os oos h' :
  Chain (cells (to_ h)) (weak_list_ h) l -> NoDup l ->
  object_store_ h = HeapObject os ->
  cells (to_ h) !! os = Some (Live oos) -> cid oos <> kWeakArrayCid ->
  slots oos !! kNilIndex = Some nil ->
  MournWeakList fuel h = Ok (tt, h') ->
  exists T',
    h' = with_to_cells (with_weak_list h None) T' /\
    (forall n, n ∉ l -> T' !! n = cells (to_ h) !! n) /\
    (forall w, w ∈ l -> exists o sl,
       cells (to_ h) !! w = Some (Live o) /\ cid o = kWeakArrayCid /\
       T' !! w = Some (Live (set_slots o sl)) /\
       Forall2 (weak_slot (cells (from_ h)) h nil) (slots o) sl).
Proof.
  intros Hc Hnd Hos Hoos Hcid Hnil H. unfold MournWeakList in H.
  apply bind_Ok in H as (? & ? & H2 & H). apply get_Ok in H2 as [-> ->].
  apply bind_Ok in H as ([] & ? & H2 & H). apply modify_Ok in H2 as ->.
  eapply (MournWeakList_loop_spec fuel nil os _ _ l oos) in H
    as (T' & -> & Hout & Hin); eauto.
Qed.

Lemma MournClassTable_spec h h' :
  MournClassTable h = Ok (tt, h') ->
  exists CT' free',
    h' = with_class_table h CT' free' /\
    length CT' = length (class_table_ h) /\
    forall j p, class_table_ h !! j = Some p ->
      exists p', CT' !! j = Some p' /\
        if decide (Z.to_nat kFirstLegalCid <= j
                   < Z.to_nat (class_table_top_ h))%nat
        then class_entry_mourned (cells (from_ h)) p p' else p' = p.
Proof.
  intros H. unfold MournClassTable in H.
  apply bind_Ok in H as (? & ? & H2 & H). apply get_Ok in H2 as [-> ->].
  apply MournClassTable_loop_spec in H as (CT' & free' & -> & Hlen & Hout & Hin);
    [|done].
  exists CT', free'. split; [done|]. split; [done|].
  intros j p Hp. case_decide as Hj.
  - apply Hin; [|done]. unfold kFirstLegalCid in *. lia.
  - exists p. rewrite Hout; [done|]. unfold kFirstLegalCid in *. lia.
Qed.

Lemma layout_inv h h' :
  layout h' = layout h ->
  end_ h' = end_ h /\ base (to_ h') = base (to_ h) /\
  size (to_ h') = size (to_ h) /\ base (from_ h') = base (from_ h) /\
  size (from_ h') = size (from_ h) /\ class_table_ h' = class_table_ h /\
  class_table_top_ h' = class_table_top_ h /\
  class_table_free_ h' = class_table_free_ h /\ vm_brk h' = vm_brk h.
Proof. unfold layout. intros [= ]. done. Qed.

Lemma scanned_store h0 h E W os oos :
  store_is_array h0 ->
  HInv h0 h (top_ h) E W ->
  reloc (cells (from_ h)) (object_store_ h0) (HeapObject os) ->
  cells (to_ h) !! os = Some (Live oos) ->
  cid oos = kArrayCid.
Proof.
  intros Harr [_ HI] Hr Hoos.
  assert (Hnew : ptr_target (HeapObject os) = Some os)
    by (eapply inv_new; eauto).
  unfold reloc in Hr.
  destruct (ptr_target (object_store_ h0)) as [a0|] eqn:Ht.
  2:{ rewrite <- Hr in Ht. congruence. }
  destruct Hr as (n & Hf & [= <-]).
  apply ptr_target_Some in Ht as [Hos0 _].
  destruct (inv_origin _ _ _ _ _ _ _ _ HI _ _ Hoos)
    as (a & c0 & Hf' & Hc0 & _ & Hb).
  assert (a = a0) as -> by (eapply inv_inj; eauto).
  destruct Hb as (o0 & -> & _ & Hb).
  { eapply Inv_all_black; eauto. }
  pose proof (Harr _ _ Hos0 Hc0) as Hcid.
  rewrite !decide_False in Hb
    by (rewrite Hcid; unfold kArrayCid, kWeakArrayCid, kEphemeronCid; lia).
  destruct Hb as (sl & [= ->] & _). done.
Qed.

(** One collection, from a heap at rest to the heap it leaves. *)
Theorem Scavenge_collect_spec h0 h' :
  at_rest h0 -> store_is_array h0 ->
  Scavenge_collect h0 = Ok (tt, h') ->
  exists F nil, Collected h0 h' F nil.
Proof.
  intros Hrest Harr H. pose proof Hrest as (_ & _ & _ & Hwf).
  unfold Scavenge_collect in H.
  apply bind_Ok in H as (? & ? & H1 & H). apply get_Ok in H1 as [-> ->].
  apply bind_Ok in H as ([] & h1 & H1 & H).
  apply bind_Ok in H as ([] & h2 & H2 & H).
  apply bind_Ok in H as (? & ? & Hg & H). apply get_Ok in Hg as [-> ->].
  apply bind_Ok in H as ([] & h3 & H3 & H).
  apply bind_Ok in H as ([] & h4 & H4 & H).
  apply bind_Ok in H as ([] & h5 & H5 & H).
  apply bind_Ok in H as ([] & h6 & H6 & H).
  apply bind_Ok in H as ([] & h7 & H7 & H).
  apply modify_Ok in H7. apply modify_Ok in H.
  (* flip *)
  apply FlipSpaces_spec in H1
    as (HG1 & Htop1 & Hend1 & Hroots1 & Hctt1 & Hctf1 & Hfrom1 & Hsize1 & Hto1);
    [|done].
  destruct HG1 as (HI1 & HE1 & HW1 & _).
  simpl in HE1, HW1.
  (* roots *)
  eapply ProcessRoots_spec in H2 as (HI2 & L2 & I2 & M2 & T2 & Rs & Ra & Rh);
    eauto.
  unfold lists in I2. injection I2 as IE2 IW2. rewrite HE1 in IE2.
  rewrite HW1 in IW2.
  assert (HG2 : GInv h0 h2 (object_start (to_ h2)) [] []).
  { rewrite (layout_start _ _ L2), <- Htop1.
    split; [done|]. rewrite IE2, IW2.
    split; [done|]. split; [done|].
    split; [constructor|]. split; [constructor|].
    intros x Hx. by apply elem_of_nil in Hx. }
  (* scan *)
  eapply Scavenge_loop_spec in H3 as (E & W & HG3 & Hs3 & Hpend); eauto.
  2:{ intros _ e He. by apply elem_of_nil in He. }
  destruct HG3 as (HI3 & HE3 & HW3 & HndE & HndW & Hdis).
  destruct Hs3 as [L3 R3 M3 T3].
  unfold roots in R3. injection R3 as Ros3 Ract3 Rhs3.
  assert (Rs3 : reloc (cells (from_ h3)) (object_store_ h0) (object_store_ h3)).
  { rewrite Ros3. by eapply reloc_mono. }
  assert (Ra3 : reloc (cells (from_ h3)) (current_activation_ h0)
                  (current_activation_ h3)).
  { rewrite Ract3. by eapply reloc_mono. }
  assert (Rh3 : Forall2 (reloc (cells (from_ h3))) (handles_ h0) (handles_ h3)).
  { rewrite Rhs3. by eapply Forall2_reloc_mono. }
  (* mourning *)
  eapply MournEphemeronList_spec in H4
    as (nil & T4 & Hnil3 & -> & HE4out & HE4in); eauto.
  destruct (nil_obj_Ok _ _ _ Hnil3) as (_ & os & oos & Hos3 & Hoos3 & Hnilslot).
  assert (Hcos : cid oos = kArrayCid).
  { eapply scanned_store; eauto. by rewrite <- Hos3. }
  assert (HosE : os ∉ E).
  { intros Hin. destruct (HE4in _ Hin) as (o & ? & ? & ? & ? & Ho & Hc & _).
    rewrite Hoos3 in Ho. injection Ho as <-.
    rewrite Hcos in Hc. discriminate. }
  eapply (MournWeakList_spec _ _ W nil os oos) in H5
    as (T5 & -> & HW5out & HW5in); eauto.
  2:{ simpl. eapply Chain_ext; [|exact HW3].
      intros x Hx. apply HE4out. intros Hin. by apply (Hdis x). }
  2:{ simpl. by rewrite HE4out. }
  2:{ rewrite Hcos. discriminate. }
  simpl in HW5out, HW5in.
  apply MournClassTable_spec in H6 as (CT' & free' & -> & Hlen & Hct).
  simpl in Hlen, Hct.
  subst h7 h'.
  exists (cells (from_ h3)), nil.
  destruct (layout_inv _ _ L2)
    as (_ & Lb2 & Ls2 & Lfb2 & Lfs2 & _ & Lt2 & _ & Lv2).
  destruct (layout_inv _ _ L3)
    as (_ & Lb3 & Ls3 & Lfb3 & Lfs3 & _ & Lt3 & _ & Lv3).
  destruct HI3 as [[Hct3 Htt3] HI3].
  assert (PE : forall e, e ∈ E -> exists o o',
            cells (to_ h3) !! e = Some (Live o) /\ T4 !! e = Some (Live o') /\
            heap_size o' = heap_size o).
  { intros e He. destruct (HE4in _ He) as (o & ? & ? & ? & ? & Ho & _ & _ & Ho4).
    eauto. }
  assert (PW : forall w, w ∈ W -> exists o o',
            T4 !! w = Some (Live o) /\ T5 !! w = Some (Live o') /\
            heap_size o' = heap_size o).
  { intros w Hw. destruct (HW5in _ Hw) as (o & sl & Ho & _ & Ho5 & _). eauto. }
  destruct (pass_sizes _ _ _ HE4out PE) as [F34 D43].
  destruct (pass_sizes _ _ _ HW5out PW) as [F45 D54].
  assert (F35 : forall x c, cells (to_ h3) !! x = Some c ->
            exists c', T5 !! x = Some c' /\ (not_forwarded c -> not_forwarded c') /\
                       cell_heap_size c' = cell_heap_size c).
  { intros x c Hc. destruct (F34 _ _ Hc) as (c4 & Hc4 & Hn4 & Hs4).
    destruct (F45 _ _ Hc4) as (c5 & Hc5 & Hn5 & Hs5).
    exists c5. split; [done|]. split; [auto|congruence]. }
  assert (HosW : os ∉ W).
  { intros Hin. destruct (HW5in _ Hin) as (o & ? & Ho & Hc & _).
    rewrite HE4out, Hoos3 in Ho by done. injection Ho as <-.
    rewrite Hcos in Hc. discriminate. }
  destruct (inv_tiled _ _ _ _ _ _ _ _ HI3) as (bl & gl & Hbl & Hgl & Hdom).
  apply Tiled_nil_inv in Hgl as ->. rewrite app_nil_r in Hdom.
  assert (Htiled5 : Tiled T5 (object_start (to_ h3)) bl (top_ h3)).
  { eapply Tiled_ext; [|exact Hbl]. intros x c Hx Hc.
    destruct (F35 _ _ Hc) as (c' & ? & Hn & ?). exists c'.
    split; [done|]. split; [|done]. apply Hn.
    destruct (Tiled_lookup _ _ _ _ _ Hbl Hx) as (c2 & Hc2 & ? & _). congruence. }
  split; simpl.
  - by eapply inv_evolved.
  - intros a. split.
    + eapply scan_complete; eauto. by split.
    + intros [n Hn]. by eapply inv_sound.
  - by eapply inv_inj.
  - intros n c Hc.
    assert (is_Some (cells (to_ h3) !! n)) as [c3 Hc3] by (apply D43, D54; eauto).
    destruct (inv_origin _ _ _ _ _ _ _ _ HI3 _ _ Hc3)
      as (a & c0 & Hf & Hc0 & _ & Hb).
    destruct Hb as (o0 & -> & Hb).
    { eapply Inv_all_black; eauto. }
    exists a, o0. split; [done|]. split; [done|]. split; [apply Hb|].
    destruct (final_cell _ _ _ _ _ _ _ _ _ _ _ Hb Hc3 Hpend Hdis HE4out HE4in
                HW5out HW5in) as (c5 & Hc5 & Hcol).
    rewrite Hc in Hc5. injection Hc5 as <-. exact Hcol.
  - intros a n Hf. destruct (inv_range _ _ _ _ _ _ _ _ HI3 _ _ Hf) as [c Hc].
    destruct (F35 _ _ Hc) as (c' & ? & _). eauto.
  - intros n Hn. eapply inv_new; [exact HI3|]. by apply D43, D54.
  - exists bl. split; [exact Htiled5|]. intros n Hn. by apply Hdom, D43, D54.
  - done.
  - done.
  - done.
  - eapply nil_obj_eq; simpl; eauto.
    rewrite HW5out, HE4out by done. done.
  - congruence.
  - split; [congruence|]. intros j p Hp. rewrite <- Hct3 in Hp.
    destruct (Hct _ _ Hp) as (p' & Hp' & Hm). exists p'. split; [done|].
    replace (class_table_top_ h0) with (class_table_top_ h3) by congruence.
    done.
  - split; [done|]. split; [done|]. split; [done|].
    intros a c Hc. simpl in Hc.
    assert (Hin : a ∈ bl) by (apply Hdom, D43, D54; eauto).
    destruct (Tiled_lookup _ _ _ _ _ Htiled5 Hin) as (c2 & Hc2 & ? & ?).
    rewrite Hc in Hc2. injection Hc2 as <-. done.
  - rewrite Lfb3, Lfs3, Lfb2, Lfs2, Hfrom1. done.
  - rewrite Ls3, Ls2. rewrite Hfrom1 in Hsize1. done.
  - rewrite Lb3, Lb2, Ls3, Ls2, Lv3, Lv2. exact Hto1.
Qed.

(** * What a scavenge preserves, stated over a forwarding map *)

(** The forwarding map a from-space with forwarding headers denotes. *)
Definition fwd_of (F : gmap Z Cell) (a : Z) : option Z :=
  match F !! a with Some (Forwarded n) => Some n | _ => None end.

(** [rel_ptr φ p p']: [p'] is [p] relocated by [φ]. *)
Definition rel_ptr (φ : Z -> option Z) (p p' : ObjectPtr) : Prop :=
  match ptr_target p with
  | None => p' = p
  | Some a => exists n, φ a = Some n /\ p' = HeapObject n
  end.

(** [weak_ptr φ h' nil p p']: a weak slot [p] after the collection:
    unchanged when it did not designate a new-space object, relocated when
    its referent was copied, [nil] otherwise; in the last two cases it lies
    in the to-space of [h']. *)
Definition weak_ptr (φ : Z -> option Z) (h' : Heap) (nil p p' : ObjectPtr)
    : Prop :=
  match ptr_target p with
  | None => p' = p
  | Some a =>
      ((exists n, φ a = Some n /\ p' = HeapObject n) \/
       (φ a = None /\ p' = nil)) /\
      exists n, p' = HeapObject n /\ InToSpace h' n = true
  end.

(** An entry of the class table after the collection. *)
Definition class_ptr (φ : Z -> option Z) (p p' : ObjectPtr) : Prop :=
  match ptr_target p with
  | None => p' = p
  | Some a =>
      (exists n, φ a = Some n /\ p' = HeapObject n) \/
      (φ a = None /\ exists f, p' = SmallInteger f)
  end.

(** The to-space cell [c] that stands for the object [o0]: header fields
    and payload are those of [o0]; the slots are relocated, mourned for a
    weak array, and either relocated or all [nil] for an ephemeron. *)
Definition moved_cell (φ : Z -> option Z) (h' : Heap) (nil : ObjectPtr)
    (o0 : Object) (c : Cell) : Prop :=
  exists o', c = Live o' /\ cid o' = cid o0 /\
    heap_size o' = heap_size o0 /\ identity_hash o' = identity_hash o0 /\
    payload o' = payload o0 /\
    if decide (cid o0 = kWeakArrayCid) then
      Forall2 (weak_ptr φ h' nil) (slots o0) (slots o')
    else if decide (cid o0 = kEphemeronCid) then
      (exists k v f rest, slots o0 = k :: v :: f :: rest /\
         ((exists k' v' f', slots o' = k' :: v' :: f' :: rest /\
             rel_ptr φ k k' /\ rel_ptr φ v v' /\ rel_ptr φ f f') \/
          (exists ka, ptr_target k = Some ka /\ φ ka = None /\
             slots o' = nil :: nil :: nil :: rest)))
    else Forall2 (rel_ptr φ) (slots o0) (slots o').

Record Moved (h0 h' : Heap) (φ : Z -> option Z) (nil : ObjectPtr)
    : Prop := {
  mv_reach : forall a, Reach h0 a <-> is_Some (φ a);
  mv_inj : forall a a' n, φ a = Some n -> φ a' = Some n -> a = a';
  mv_cells : forall n c, cells (to_ h') !! n = Some c ->
    exists a o0, φ a = Some n /\ cells (to_ h0) !! a = Some (Live o0) /\
      0 <= cid o0 < class_table_top_ h0 /\ moved_cell φ h' nil o0 c;
  mv_range : forall a n, φ a = Some n -> is_Some (cells (to_ h') !! n);
  mv_new : forall n,
    is_Some (cells (to_ h') !! n) -> ptr_target (HeapObject n) = Some n;
  mv_tiled : exists l,
    Tiled (cells (to_ h')) (object_start (to_ h')) l (top_ h') /\
    NoDup l /\ forall n, is_Some (cells (to_ h') !! n) <-> n ∈ l;
  mv_store : rel_ptr φ (object_store_ h0) (object_store_ h');
  mv_activation :
    rel_ptr φ (current_activation_ h0) (current_activation_ h');
  mv_handles : Forall2 (rel_ptr φ) (handles_ h0) (handles_ h');
  mv_nil : nil_obj h' = Ok (nil, h');
  mv_class_top : class_table_top_ h' = class_table_top_ h0;
  mv_class_table :
    length (class_table_ h') = length (class_table_ h0) /\
    forall j p, class_table_ h0 !! j = Some p ->
      exists p', class_table_ h' !! j = Some p' /\
        if decide (Z.to_nat kFirstLegalCid <= j
                   < Z.to_nat (class_table_top_ h0))%nat
        then class_ptr φ p p' else p' = p;
  mv_rest : at_rest h'
}.

Lemma fwd_of_Some F a n : fwd_of F a = Some n <-> F !! a = Some (Forwarded n).
Proof.
  unfold fwd_of. destruct (F !! a) as [[| |m]|]; split; try done.
  - intros [= ->]. done.
  - intros [= ->]. done.
Qed.

Lemma fwd_of_None F a :
  fwd_of F a = None <-> forall n, F !! a <> Some (Forwarded n).
Proof.
  unfold fwd_of. destruct (F !! a) as [[| |m]|]; split; try done.
  intros H. by destruct (H m).
Qed.

Lemma reloc_rel_ptr F p p' : reloc F p p' <-> rel_ptr (fwd_of F) p p'.
Proof.
  unfold reloc, rel_ptr. destruct (ptr_target p); [|done].
  split; intros (n & Hn & ->); exists n; split; try done;
    by apply fwd_of_Some.
Qed.

Lemma Tiled_NoDup m a l b : Tiled m a l b -> NoDup l.
Proof.
  revert a. induction l as [|x l IH]; simpl; intros a; [constructor|].
  intros (-> & c & _ & _ & Hpos & Ht). apply NoDup_cons. split; [|eauto].
  intros Hin. pose proof (Tiled_bounds _ _ _ _ _ Ht Hin). lia.
Qed.

Lemma Tiled_dom m a l b x : Tiled m a l b -> x ∈ l -> is_Some (m !! x).
Proof.
  intros Ht Hx. destruct (Tiled_lookup _ _ _ _ _ Ht Hx) as (c & ? & _). eauto.
Qed.

Lemma weak_slot_weak_ptr F h' nil p p' :
  weak_slot F h' nil p p' -> weak_ptr (fwd_of F) h' nil p p'.
Proof.
  unfold weak_slot, weak_ptr, mourned. intros [Hm Hto].
  destruct (ptr_target p) as [a|]; [|done].
  split; [|by apply Hto].
  destruct Hm as [(n & Hn & ->)|(Hnf & ->)].
  - left. exists n. split; [by apply fwd_of_Some|done].
  - right. split; [by apply fwd_of_None|done].
Qed.

Lemma collected_moved_cell F h' nil o0 c :
  collected_cell F h' nil o0 c -> moved_cell (fwd_of F) h' nil o0 c.
Proof.
  unfold collected_cell, moved_cell. intros H. repeat case_decide.
  - destruct H as (nx & sl & -> & Hsl). eexists. split; [done|]. simpl.
    do 4 (split; [done|]).
    eapply Forall2_impl; [exact Hsl|]. apply weak_slot_weak_ptr.
  - destruct H as (k & v & f & rest & Hsl & [(k' & v' & f' & -> & Hk & Hv & Hf)
                                            |(ka & nx & Hka & Hunf & ->)]).
    + eexists. split; [done|]. simpl. do 4 (split; [done|]).
      exists k, v, f, rest. split; [done|]. left. exists k', v', f'.
      rewrite <- !reloc_rel_ptr. done.
    + eexists. split; [done|]. simpl. do 4 (split; [done|]).
      exists k, v, f, rest. split; [done|]. right. exists ka.
      split; [done|]. split; [by apply fwd_of_None|done].
  - destruct H as (sl & -> & Hsl). eexists. split; [done|]. simpl.
    do 4 (split; [done|]).
    eapply Forall2_impl; [exact Hsl|]. intros. by apply reloc_rel_ptr.
Qed.

Lemma Collected_Moved h0 h' F nil :
  Collected h0 h' F nil -> Moved h0 h' (fwd_of F) nil.
Proof.
  intros HC. split.
  - intros a. rewrite (col_reach _ _ _ _ HC). split.
    + intros [n Hn]. exists n. by apply fwd_of_Some.
    + intros [n Hn]. exists n. by apply fwd_of_Some.
  - intros a a' n Ha Ha'. apply fwd_of_Some in Ha, Ha'.
    eapply col_inj; eauto.
  - intros n c Hc.
    destruct (col_cells _ _ _ _ HC _ _ Hc) as (a & o0 & Hf & Ho & Hk & Hcell).
    exists a, o0. split; [by apply fwd_of_Some|]. split; [done|].
    split; [apply Hk|]. by apply collected_moved_cell.
  - intros a n Ha. apply fwd_of_Some in Ha. eapply col_range; eauto.
  - eapply col_new; eauto.
  - destruct (col_tiled _ _ _ _ HC) as (l & Ht & Hdom). exists l.
    split; [done|]. split; [by eapply Tiled_NoDup|].
    intros n. split; [apply Hdom|]. by eapply Tiled_dom.
  - apply reloc_rel_ptr. eapply col_store; eauto.
  - apply reloc_rel_ptr. eapply col_activation; eauto.
  - eapply Forall2_impl; [eapply col_handles; eauto|].
    intros. by apply reloc_rel_ptr.
  - eapply col_nil; eauto.
  - eapply col_class_top; eauto.
  - destruct (col_class_table _ _ _ _ HC) as [Hlen Hct]. split; [done|].
    intros j p Hp. destruct (Hct _ _ Hp) as (p' & Hp' & Hm).
    exists p'. split; [done|]. case_decide; [|done].
    unfold class_entry_mourned in Hm. unfold class_ptr.
    destruct (ptr_target p) as [a|]; [|done].
    destruct Hm as [(n & Hn & ->)|(Hnf & f & ->)].
    + left. exists n. split; [by apply fwd_of_Some|done].
    + right. split; [by apply fwd_of_None|eauto].
  - eapply col_rest; eauto.
Qed.

(** Every object carries a class id of the legal range. *)
Definition legal_cids (h : Heap) : Prop :=
  forall a o, cells (to_ h) !! a = Some (Live o) -> kFirstLegalCid <= cid o.

(** [nil], read from the object store, is a new-space reference. *)
Definition nil_is_object (h : Heap) : Prop :=
  forall nil, nil_obj h = Ok (nil, h) -> ptr_target nil <> None.

Lemma ptr_target_HeapObject n a :
  ptr_target (HeapObject n) = Some a -> a = n.
Proof.
  unfold ptr_target. destruct (IsImmediateOrOldObject _); [done|].
  intros [= ->]. done.
Qed.

Section MovedFacts.

Variables (h0 h' : Heap) (φ : Z -> option Z) (nil : ObjectPtr).
Hypothesis HM : Moved h0 h' φ nil.

Lemma Moved_new a n : φ a = Some n -> ptr_target (HeapObject n) = Some n.
Proof. intros Ha. eapply mv_new; [exact HM|]. by eapply mv_range. Qed.

Lemma Moved_cell_of a n o :
  φ a = Some n -> cells (to_ h0) !! a = Some (Live o) ->
  exists o', cells (to_ h') !! n = Some (Live o') /\
    0 <= cid o < class_table_top_ h0 /\ moved_cell φ h' nil o (Live o').
Proof.
  intros Ha Ho. destruct (mv_range _ _ _ _ HM _ _ Ha) as [c Hc].
  destruct (mv_cells _ _ _ _ HM _ _ Hc) as (a' & o0 & Ha' & Ho0 & Hb & Hcell).
  assert (a' = a) as -> by (eapply mv_inj; eauto).
  rewrite Ho in Ho0. injection Ho0 as <-.
  destruct Hcell as (o' & -> & Hrest). exists o'. split; [done|].
  split; [done|]. exists o'. done.
Qed.

Lemma rel_ptr_to p p' b n :
  rel_ptr φ p p' -> ptr_target p = Some b -> φ b = Some n ->
  p' = HeapObject n /\ ptr_target p' = Some n.
Proof.
  unfold rel_ptr. intros H Hb Hn. rewrite Hb in H.
  destruct H as (n' & Hn' & ->). rewrite Hn in Hn'. injection Hn' as <-.
  split; [done|]. by eapply Moved_new.
Qed.

Lemma rel_ptr_back p p' n :
  rel_ptr φ p p' -> ptr_target p' = Some n ->
  exists b, ptr_target p = Some b /\ φ b = Some n.
Proof.
  unfold rel_ptr. intros H Hn. destruct (ptr_target p) as [b|] eqn:Hb.
  - destruct H as (n' & Hn' & ->). apply ptr_target_HeapObject in Hn as ->.
    eauto.
  - subst p'. congruence.
Qed.

Lemma Forall2_rel_ptr_to ps ps' p b n :
  Forall2 (rel_ptr φ) ps ps' -> p ∈ ps -> ptr_target p = Some b ->
  φ b = Some n ->
  exists p', p' ∈ ps' /\ ptr_target p' = Some n.
Proof.
  intros H Hp Hb Hn. apply list_elem_of_lookup in Hp as [i Hi].
  destruct (Forall2_lookup_l _ _ _ _ _ H Hi) as (p' & Hi' & Hr).
  exists p'. split; [by eapply list_elem_of_lookup_2|].
  by eapply rel_ptr_to.
Qed.

(** Reachable objects stay reachable at their new addresses. *)
Lemma Reach_preserved :
  legal_cids h0 ->
  forall a, Reach h0 a -> forall n, φ a = Some n -> Reach h' n.
Proof.
  intros Hlegal a Hreach.
  induction Hreach as [a Ha|a Ha|p a Hp Ha|a o p b Hr IH Ho Hnw Hne Hp Hb
                      |a o p b Hr IH Ho Hc Hp Hb
                      |e o k v f rest p b Hr IH Ho Hcid Hsl Hkey IHkey Hp Hb];
    intros n Hn.
  - apply Reach_store.
    by destruct (rel_ptr_to _ _ _ _ (mv_store _ _ _ _ HM) Ha Hn) as [-> ?].
  - apply Reach_activation.
    by destruct (rel_ptr_to _ _ _ _ (mv_activation _ _ _ _ HM) Ha Hn) as [-> ?].
  - destruct (Forall2_rel_ptr_to _ _ _ _ _ (mv_handles _ _ _ _ HM) Hp Ha Hn)
      as (p' & Hp' & Ht).
    by eapply Reach_handle.
  - destruct (proj1 (mv_reach _ _ _ _ HM a) Hr) as [m Hm].
    destruct (Moved_cell_of _ _ _ Hm Ho) as (o' & Ho' & _ & (o2 & [= <-] & Hcid' & _ & _ & _ & Hsl)).
    rewrite !decide_False in Hsl by done.
    destruct (Forall2_rel_ptr_to _ _ _ _ _ Hsl Hp Hb Hn) as (p' & Hp' & Ht).
    eapply (Reach_slot h' m o' p'); eauto; congruence.
  - destruct (proj1 (mv_reach _ _ _ _ HM a) Hr) as [m Hm].
    destruct (Moved_cell_of _ _ _ Hm Ho) as (o' & Ho' & Hbound & (o2 & [= <-] & Hcid' & _)).
    destruct (mv_class_table _ _ _ _ HM) as [_ Hct].
    destruct (Hct _ _ Hp) as (p' & Hp' & Hcls).
    pose proof (Hlegal _ _ Ho) as Hleg.
    rewrite decide_True in Hcls by (unfold kFirstLegalCid in *; lia).
    unfold class_ptr in Hcls. rewrite Hb in Hcls.
    destruct Hcls as [(n' & Hn' & ->)|(Hnone & _)]; [|congruence].
    rewrite Hn in Hn'. injection Hn' as <-.
    eapply (Reach_class h' m o' (HeapObject n)); eauto; try congruence.
    by eapply Moved_new.
  - destruct (proj1 (mv_reach _ _ _ _ HM e) Hr) as [m Hm].
    destruct (Moved_cell_of _ _ _ Hm Ho) as (o' & Ho' & _ & (o2 & [= <-] & Hcid' & _ & _ & _ & Hcell)).
    rewrite decide_False in Hcell
      by (rewrite Hcid; unfold kEphemeronCid, kWeakArrayCid; lia).
    rewrite decide_True in Hcell by done.
    destruct Hcell as (k2 & v2 & f2 & rest2 & Hsl2 & Hcase).
    rewrite Hsl in Hsl2. injection Hsl2 as <- <- <- <-.
    destruct Hcase as [(k' & v' & f' & Hsl' & Hk & Hv & Hf)|(ka & Hka & Hnone & _)].
    2:{ destruct (proj1 (mv_reach _ _ _ _ HM ka) (Hkey _ Hka)) as [? ?].
        congruence. }
    assert (Hp' : exists p', p' ∈ [k'; v'; f'] /\ ptr_target p' = Some n).
    { apply elem_of_cons in Hp as [->|Hp].
      { exists k'. split; [by left|]. by eapply rel_ptr_to. }
      apply elem_of_cons in Hp as [->|Hp].
      { exists v'. split; [right; by left|]. by eapply rel_ptr_to. }
      apply list_elem_of_singleton in Hp as ->.
      exists f'. split; [right; right; by left|]. by eapply rel_ptr_to. }
    destruct Hp' as (p' & Hp' & Ht).
    eapply (Reach_ephemeron h' m o' k' v' f' rest p'); eauto; try congruence.
    intros ka' Hka'.
    destruct (rel_ptr_back _ _ _ Hk Hka') as (ka & Hka & Hφ).
    by eapply IHkey.
Qed.

(** A collection leaves no garbage in to-space. *)
Lemma Moved_no_garbage :
  legal_cids h0 ->
  forall n, is_Some (cells (to_ h') !! n) -> Reach h' n.
Proof.
  intros Hlegal n [c Hc].
  destruct (mv_cells _ _ _ _ HM _ _ Hc) as (a & o0 & Ha & _).
  eapply Reach_preserved; eauto. apply (mv_reach _ _ _ _ HM). eauto.
Qed.

Lemma Moved_legal_cids : legal_cids h0 -> legal_cids h'.
Proof.
  intros Hlegal n o' Ho'.
  destruct (mv_cells _ _ _ _ HM _ _ Ho') as (a & o0 & _ & Ho0 & _ & (o2 & [= <-] & Hcid & _)).
  rewrite Hcid. eauto.
Qed.

End MovedFacts.

Lemma Moved_store_is_array h0 h' φ nil :
  Moved h0 h' φ nil -> store_is_array h0 -> store_is_array h'.
Proof.
  intros HM Harr os' o' Hos' Ho'.
  destruct (mv_cells _ _ _ _ HM _ _ Ho')
    as (a & o0 & Ha & Ho0 & _ & (o2 & [= <-] & Hcid & _)).
  pose proof (mv_store _ _ _ _ HM) as Hr. unfold rel_ptr in Hr.
  destruct (ptr_target (object_store_ h0)) as [a0|] eqn:Ht.
  - destruct Hr as (n & Hn & Hp). rewrite Hos' in Hp. injection Hp as <-.
    assert (a = a0) as -> by (eapply mv_inj; eauto).
    apply ptr_target_Some in Ht as [Hos0 _].
    rewrite Hcid. eapply Harr; eauto.
  - rewrite <- Hr in Ht. rewrite Hos' in Ht.
    rewrite (mv_new _ _ _ _ HM os') in Ht by eauto. done.
Qed.

(** [nil] after the collection is [nil] before it, relocated. *)
Lemma Moved_nil_rel h0 h' φ nil nil0 :
  Moved h0 h' φ nil -> store_is_array h0 ->
  nil_obj h0 = Ok (nil0, h0) -> rel_ptr φ nil0 nil.
Proof.
  intros HM Harr Hnil0.
  destruct (nil_obj_Ok _ _ _ Hnil0) as (_ & os0 & o0 & Hos0 & Ho0 & Hslot0).
  destruct (nil_obj_Ok _ _ _ (mv_nil _ _ _ _ HM)) as (_ & os & o & Hos & Ho & Hslot).
  pose proof (mv_store _ _ _ _ HM) as Hr. unfold rel_ptr in Hr.
  destruct (ptr_target (object_store_ h0)) as [a0|] eqn:Ht.
  2:{ rewrite <- Hr in Ht. rewrite Hos in Ht.
      rewrite (mv_new _ _ _ _ HM os) in Ht by eauto. done. }
  destruct Hr as (n & Hn & Hp). rewrite Hos in Hp. injection Hp as <-.
  apply ptr_target_Some in Ht as [Hos0' _]. rewrite Hos0 in Hos0'.
  injection Hos0' as <-.
  destruct (Moved_cell_of _ _ _ _ HM _ _ _ Hn Ho0)
    as (o' & Ho' & _ & (o2 & [= <-] & _ & _ & _ & _ & Hsl)).
  rewrite Ho in Ho'. injection Ho' as <-.
  pose proof (Harr _ _ Hos0 Ho0) as Hcid.
  rewrite !decide_False in Hsl
    by (rewrite Hcid; unfold kArrayCid, kWeakArrayCid, kEphemeronCid; lia).
  destruct (Forall2_lookup_l _ _ _ _ _ Hsl Hslot0) as (p' & Hp' & Hrel).
  rewrite Hslot in Hp'. injection Hp' as <-. done.
Qed.

Lemma Moved_nil_is_object h0 h' φ nil :
  Moved h0 h' φ nil -> store_is_array h0 ->
  (exists nil0, nil_obj h0 = Ok (nil0, h0)) ->
  nil_is_object h0 -> nil_is_object h'.
Proof.
  intros HM Harr [nil0 Hnil0] Hobj nil' Hnil'.
  rewrite (mv_nil _ _ _ _ HM) in Hnil'. injection Hnil' as <-.
  pose proof (Moved_nil_rel _ _ _ _ _ HM Harr Hnil0) as Hr.
  unfold rel_ptr in Hr. destruct (ptr_target nil0) as [a|] eqn:Ht.
  - destruct Hr as (n & Hn & ->).
    rewrite (Moved_new _ _ _ _ HM _ _ Hn). done.
  - by apply Hobj in Hnil0.
Qed.

Lemma Reach_ext h h' :
  cells (to_ h') = cells (to_ h) -> roots h' = roots h ->
  class_table_ h' = class_table_ h ->
  forall a, Reach h a -> Reach h' a.
Proof.
  intros HT HR HC a Hreach. unfold roots in HR. injection HR as Hos Hact Hhs.
  induction Hreach.
  - apply Reach_store. congruence.
  - apply Reach_activation. congruence.
  - eapply Reach_handle; [|done]. congruence.
  - eapply Reach_slot; eauto. congruence.
  - eapply Reach_class; eauto; congruence.
  - eapply Reach_ephemeron; eauto. congruence.
Qed.

(** ** Two collections in a row *)

Definition compose_fwd (φ1 φ2 : Z -> option Z) (a : Z) : option Z :=
  match φ1 a with Some n => φ2 n | None => None end.

Lemma rel_ptr_fun φ p p1 p2 : rel_ptr φ p p1 -> rel_ptr φ p p2 -> p1 = p2.
Proof.
  unfold rel_ptr. destruct (ptr_target p); [|congruence].
  intros (n & Hn & ->) (m & Hm & ->). congruence.
Qed.

Section Compose.

Variables (h0 h1 h1' h2 : Heap) (φ1 φ2 : Z -> option Z)
          (nil1 nil2 : ObjectPtr).
Hypothesis HM1 : Moved h0 h1 φ1 nil1.
Hypothesis HM2 : Moved h1' h2 φ2 nil2.
Hypothesis Hlegal : legal_cids h0.
Hypothesis Harr : store_is_array h1.
Hypothesis Hnilobj : ptr_target nil1 <> None.
Hypothesis Hto : to_ h1' = to_ h1.
Hypothesis Hroots : roots h1' = roots h1.
Hypothesis Hct : class_table_ h1' = class_table_ h1.
Hypothesis Hctt : class_table_top_ h1' = class_table_top_ h1.

Let φ := compose_fwd φ1 φ2.

Lemma compose_total n : is_Some (cells (to_ h1) !! n) -> is_Some (φ2 n).
Proof.
  intros Hn. apply (mv_reach _ _ _ _ HM2).
  eapply Reach_ext; [by rewrite Hto|done|done|].
  eapply Moved_no_garbage; eauto.
Qed.

Lemma compose_nil_rel : rel_ptr φ2 nil1 nil2.
Proof.
  eapply Moved_nil_rel; [exact HM2| |].
  - pose proof Hroots as Hr'. unfold roots in Hr'.
    injection Hr' as Hos' _ _.
    intros os o Hos Ho. eapply Harr.
    + rewrite <- Hos'. done.
    + by rewrite <- Hto.
  - pose proof Hroots as Hr'. unfold roots in Hr'.
    injection Hr' as Hos' _ _.
    destruct (nil_obj_Ok _ _ _ (mv_nil _ _ _ _ HM1)) as (_ & os & o & Hos & Ho & Hs).
    eapply nil_obj_eq; eauto.
    + rewrite Hos'. done.
    + by rewrite Hto.
Qed.

Lemma rel_ptr_compose p p1 p2 :
  rel_ptr φ1 p p1 -> rel_ptr φ2 p1 p2 -> rel_ptr φ p p2.
Proof.
  unfold rel_ptr at 1 3. unfold φ, compose_fwd.
  destruct (ptr_target p) as [a|] eqn:Ha.
  - intros (n1 & Hn1 & ->) H2. unfold rel_ptr in H2.
    rewrite (Moved_new _ _ _ _ HM1 _ _ Hn1) in H2.
    destruct H2 as (n2 & Hn2 & ->). exists n2. rewrite Hn1. done.
  - intros -> H2. unfold rel_ptr in H2. rewrite Ha in H2. done.
Qed.

Lemma Forall2_rel_ptr_compose ps ps1 ps2 :
  Forall2 (rel_ptr φ1) ps ps1 -> Forall2 (rel_ptr φ2) ps1 ps2 ->
  Forall2 (rel_ptr φ) ps ps2.
Proof.
  intros H1. revert ps2. induction H1 as [|p p1 ps ps1 Hp H1 IH];
    intros ps2 H2; inversion H2; subst; constructor; eauto.
  by eapply rel_ptr_compose.
Qed.

Lemma weak_ptr_compose p p1 p2 :
  weak_ptr φ1 h1 nil1 p p1 -> weak_ptr φ2 h2 nil2 p1 p2 ->
  weak_ptr φ h2 nil2 p p2.
Proof.
  unfold weak_ptr at 1 3. unfold φ, compose_fwd.
  destruct (ptr_target p) as [a|] eqn:Ha.
  2:{ intros -> H2. unfold weak_ptr in H2. rewrite Ha in H2. done. }
  intros [[(n1 & Hn1 & ->)|(Hnone & ->)] _] H2; unfold weak_ptr in H2.
  - rewrite (Moved_new _ _ _ _ HM1 _ _ Hn1) in H2.
    destruct H2 as [[(n2 & Hn2 & ->)|(Hnone & _)] Hin].
    + split; [|done]. left. exists n2. rewrite Hn1. done.
    + destruct (compose_total n1) as [? ?]; [|congruence].
      eapply mv_range; eauto.
  - pose proof compose_nil_rel as Hr. unfold rel_ptr in Hr.
    destruct (ptr_target nil1) as [nn|] eqn:Hnn; [|done].
    destruct Hr as (n2 & Hn2 & ->).
    destruct H2 as [[(n2' & Hn2' & ->)|(_ & ->)] Hin].
    + split; [|done]. right. rewrite Hnone. split; [done|]. congruence.
    + split; [|done]. right. rewrite Hnone. done.
Qed.

Lemma Forall2_weak_ptr_compose ps ps1 ps2 :
  Forall2 (weak_ptr φ1 h1 nil1) ps ps1 ->
  Forall2 (weak_ptr φ2 h2 nil2) ps1 ps2 ->
  Forall2 (weak_ptr φ h2 nil2) ps ps2.
Proof.
  intros H1. revert ps2. induction H1 as [|p p1 ps ps1 Hp H1 IH];
    intros ps2 H2; inversion H2; subst; constructor; eauto.
  by eapply weak_ptr_compose.
Qed.

Lemma moved_cell_compose o0 o1 c :
  moved_cell φ1 h1 nil1 o0 (Live o1) ->
  moved_cell φ2 h2 nil2 o1 c -> moved_cell φ h2 nil2 o0 c.
Proof.
  intros (o1' & [= <-] & Hc1 & Hs1 & Hh1 & Hp1 & Hsl1)
         (o2 & -> & Hc2 & Hs2 & Hh2 & Hp2 & Hsl2).
  exists o2. split; [done|]. do 4 (split; [congruence|]).
  rewrite Hc1 in Hsl2. repeat case_decide.
  - by eapply Forall2_weak_ptr_compose.
  - destruct Hsl1 as (k & v & f & rest & Hsl0 & Hcase1).
    destruct Hsl2 as (k1 & v1 & f1 & rest1 & Hsl1 & Hcase2).
    exists k, v, f, rest. split; [done|].
    pose proof compose_nil_rel as Hnr.
    destruct Hcase1 as [(k' & v' & f' & Hsl1' & Hk & Hv & Hf)
                       |(ka & Hka & Hnone & Hsl1')];
      rewrite Hsl1 in Hsl1'; injection Hsl1' as -> -> -> ->.
    + destruct Hcase2 as [(k2 & v2 & f2 & Hsl2 & Hk2 & Hv2 & Hf2)
                         |(kb & Hkb & Hnone2 & _)].
      * left. exists k2, v2, f2. split; [done|].
        split; [by eapply rel_ptr_compose|].
        split; by eapply rel_ptr_compose.
      * destruct (compose_total kb) as [? ?]; [|congruence].
        unfold rel_ptr in Hk. destruct (ptr_target k) as [ka|] eqn:Hka.
        -- destruct Hk as (n & Hn & ->).
           apply ptr_target_HeapObject in Hkb as ->.
           eapply mv_range; eauto.
        -- subst k'. congruence.
    + right. exists ka. split; [done|].
      split; [unfold φ, compose_fwd; by rewrite Hnone|].
      destruct Hcase2 as [(k2 & v2 & f2 & Hsl2 & Hk2 & Hv2 & Hf2)
                         |(kb & Hkb & Hnone2 & _)].
      * rewrite Hsl2.
        rewrite (rel_ptr_fun _ _ _ _ Hk2 Hnr), (rel_ptr_fun _ _ _ _ Hv2 Hnr),
          (rel_ptr_fun _ _ _ _ Hf2 Hnr). done.
      * unfold rel_ptr in Hnr. rewrite Hkb in Hnr.
        destruct Hnr as (? & ? & _). congruence.
  - by eapply Forall2_rel_ptr_compose.
Qed.

Lemma class_ptr_compose p p1 p2 :
  class_ptr φ1 p p1 -> class_ptr φ2 p1 p2 -> class_ptr φ p p2.
Proof.
  unfold class_ptr at 1 3. unfold φ, compose_fwd.
  destruct (ptr_target p) as [a|] eqn:Ha.
  2:{ intros -> H2. unfold class_ptr in H2. rewrite Ha in H2. done. }
  intros [(n1 & Hn1 & ->)|(Hnone & f & ->)] H2; unfold class_ptr in H2.
  - rewrite (Moved_new _ _ _ _ HM1 _ _ Hn1) in H2.
    destruct H2 as [(n2 & Hn2 & ->)|(Hnone & _)].
    + left. exists n2. rewrite Hn1. done.
    + destruct (compose_total n1) as [? ?]; [|congruence].
      eapply mv_range; eauto.
  - simpl in H2. subst p2. right. rewrite Hnone. eauto.
Qed.

(** Two collections compose: the forwarding maps chain. *)
Lemma Moved_compose : Moved h0 h2 φ nil2.
Proof.
  pose proof Hroots as Hr'. unfold roots in Hr'.
  injection Hr' as Hos Hact Hhs.
  split.
  - intros a. unfold φ, compose_fwd. split.
    + intros Hr. destruct (proj1 (mv_reach _ _ _ _ HM1 a) Hr) as [n1 Hn1].
      rewrite Hn1. apply compose_total. eapply mv_range; eauto.
    + destruct (φ1 a) as [n1|] eqn:Hn1; [|by intros [? ?]].
      intros _. apply (mv_reach _ _ _ _ HM1). eauto.
  - unfold φ, compose_fwd. intros a a' n Ha Ha'.
    destruct (φ1 a) as [n1|] eqn:Hn1; [|done].
    destruct (φ1 a') as [n1'|] eqn:Hn1'; [|done].
    assert (n1 = n1') as <- by exact (mv_inj _ _ _ _ HM2 _ _ _ Ha Ha').
    exact (mv_inj _ _ _ _ HM1 _ _ _ Hn1 Hn1').
  - intros n c Hc.
    destruct (mv_cells _ _ _ _ HM2 _ _ Hc) as (n1 & o1 & Hn1 & Ho1 & Hb1 & Hcell2).
    rewrite Hto in Ho1.
    destruct (mv_cells _ _ _ _ HM1 _ _ Ho1) as (a & o0 & Ha & Ho0 & Hb0 & Hcell1).
    exists a, o0. split; [unfold φ, compose_fwd; by rewrite Ha|].
    split; [done|]. split; [done|]. by eapply moved_cell_compose.
  - unfold φ, compose_fwd. intros a n Ha.
    destruct (φ1 a) as [n1|]; [|done]. exact (mv_range _ _ _ _ HM2 _ _ Ha).
  - exact (mv_new _ _ _ _ HM2).
  - exact (mv_tiled _ _ _ _ HM2).
  - eapply rel_ptr_compose; [exact (mv_store _ _ _ _ HM1)|].
    rewrite <- Hos. exact (mv_store _ _ _ _ HM2).
  - eapply rel_ptr_compose; [exact (mv_activation _ _ _ _ HM1)|].
    rewrite <- Hact. exact (mv_activation _ _ _ _ HM2).
  - eapply Forall2_rel_ptr_compose; [exact (mv_handles _ _ _ _ HM1)|].
    rewrite <- Hhs. exact (mv_handles _ _ _ _ HM2).
  - exact (mv_nil _ _ _ _ HM2).
  - rewrite (mv_class_top _ _ _ _ HM2), Hctt. exact (mv_class_top _ _ _ _ HM1).
  - destruct (mv_class_table _ _ _ _ HM1) as [Hlen1 Hct1].
    destruct (mv_class_table _ _ _ _ HM2) as [Hlen2 Hct2].
    split; [congruence|]. intros j p Hp.
    destruct (Hct1 _ _ Hp) as (p1 & Hp1 & Hc1). rewrite <- Hct in Hp1.
    destruct (Hct2 _ _ Hp1) as (p2 & Hp2 & Hc2).
    exists p2. split; [done|].
    rewrite Hctt, (mv_class_top _ _ _ _ HM1) in Hc2.
    case_decide; [by eapply class_ptr_compose|congruence].
  - exact (mv_rest _ _ _ _ HM2).
Qed.

End Compose.

(** ** The whole of [Heap::Scavenge], early growth included *)

(** The two semispaces are mappings handed out by [VirtualMemory]: they do
    not overlap and lie below the next mapping. *)
Definition spaces_apart (h : Heap) : Prop :=
  0 <= size (to_ h) /\ 0 <= size (from_ h) /\
  limit (to_ h) <= vm_brk h /\ limit (from_ h) <= vm_brk h /\
  (limit (to_ h) <= base (from_ h) \/ limit (from_ h) <= base (to_ h)).

Lemma Moved_nil_before h0 h' φ nil :
  Moved h0 h' φ nil -> store_is_array h0 ->
  exists nil0, nil_obj h0 = Ok (nil0, h0).
Proof.
  intros HM Harr.
  destruct (nil_obj_Ok _ _ _ (mv_nil _ _ _ _ HM))
    as (_ & os & o & Hos & Ho & Hslot).
  destruct (mv_cells _ _ _ _ HM _ _ Ho)
    as (a & o0 & Ha & Ho0 & _ & (o2 & [= <-] & _ & _ & _ & _ & Hsl)).
  pose proof (mv_store _ _ _ _ HM) as Hr. unfold rel_ptr in Hr.
  destruct (ptr_target (object_store_ h0)) as [a0|] eqn:Ht.
  2:{ rewrite <- Hr in Ht. rewrite Hos in Ht.
      rewrite (mv_new _ _ _ _ HM os) in Ht by eauto. done. }
  destruct Hr as (n & Hn & Hp). rewrite Hos in Hp. injection Hp as <-.
  assert (a = a0) as -> by exact (mv_inj _ _ _ _ HM _ _ _ Ha Hn).
  apply ptr_target_Some in Ht as [Hos0 _].
  pose proof (Harr _ _ Hos0 Ho0) as Hcid.
  rewrite !decide_False in Hsl
    by (rewrite Hcid; unfold kArrayCid, kWeakArrayCid, kEphemeronCid; lia).
  destruct (Forall2_lookup_r _ _ _ _ _ Hsl Hslot) as (p & Hp & _).
  exists p. by eapply nil_obj_eq.
Qed.

Lemma Grow_with_Ok scavenge req h u h' :
  Grow_with scavenge req h = Ok (u, h') ->
  exists (n : Z) (j : nat),
    n = size (to_ h) * 2 * 2 ^ Z.of_nat j /\ n <= kMaxSemispaceSize /\
    scavenge (Grow_realloc h n) = Ok (u, h').
Proof.
  unfold Grow_with. intros H.
  apply bind_Ok in H as (? & ? & Hg & H). apply get_Ok in Hg as [-> ->].
  apply bind_Ok in H as (? & ? & Ha & H). apply ASSERT_Ok in Ha as [_ ->].
  destruct (Grow_new_size 64 _ _ _) as [n| | |] eqn:Hn;
    try (by destruct (fatal_Ok _ _ H)); try (by destruct (trap_Ok _ _ H));
    try (by destruct (timeout_Ok _ _ H)).
  apply Grow_new_size_Ok in Hn as (j & -> & _).
  destruct (Z.gtb_spec (size (to_ h) * 2 * 2 ^ Z.of_nat j) kMaxSemispaceSize)
    as [Hgt|Hle]; [by destruct (fatal_Ok _ _ H)|].
  apply bind_Ok in H as (? & ? & Hm & H). apply modify_Ok in Hm as ->.
  eexists _, j. split; [reflexivity|]. split; [done|]. exact H.
Qed.

Lemma Collected_spaces_apart h0 h' F nil :
  Collected h0 h' F nil -> spaces_apart h0 -> spaces_apart h'.
Proof.
  intros HC (Hst & Hsf & Hlt & Hlf & Hap). unfold spaces_apart, limit in *.
  rewrite (col_from _ _ _ _ HC). simpl.
  destruct (col_to _ _ _ _ HC) as [(-> & -> & -> & _)|(-> & -> & -> & _)]; lia.
Qed.

(** A heap as the mutator hands it to the collector. *)
Definition well_formed (h : Heap) : Prop :=
  at_rest h /\ store_is_array h /\ legal_cids h /\ nil_is_object h.

Lemma nil_obj_ext h h' nil :
  to_ h' = to_ h -> object_store_ h' = object_store_ h ->
  nil_obj h' = Ok (nil, h') -> nil_obj h = Ok (nil, h).
Proof.
  intros Hto Hos H.
  destruct (nil_obj_Ok _ _ _ H) as (_ & os & o & Hos' & Ho & Hslot).
  rewrite Hto in Ho. rewrite Hos in Hos'. by eapply nil_obj_eq.
Qed.

Lemma Moved_well_formed h0 h' φ nil :
  Moved h0 h' φ nil -> well_formed h0 -> well_formed h'.
Proof.
  intros HM (Hrest & Harr & Hlegal & Hnil).
  split; [exact (mv_rest _ _ _ _ HM)|].
  split; [by eapply Moved_store_is_array|].
  split; [by eapply Moved_legal_cids|].
  eapply Moved_nil_is_object; eauto. by eapply Moved_nil_before.
Qed.

Lemma Grow_realloc_well_formed h n :
  well_formed h -> well_formed (Grow_realloc h n).
Proof.
  intros ((Hfrom & He & Hw & Hwf) & Harr & Hlegal & Hnil).
  split; [|split; [|split]].
  - split; [done|]. split; [done|]. split; done.
  - intros os o Hos Ho. eapply Harr; eauto.
  - intros a o Ho. eapply Hlegal; eauto.
  - intros nil H. apply Hnil. by eapply nil_obj_ext; [| |exact H].
Qed.

Lemma Grow_realloc_spaces_apart h n :
  0 <= n -> spaces_apart h -> spaces_apart (Grow_realloc h n).
Proof.
  intros Hn (Hst & Hsf & Hlt & Hlf & Hap).
  unfold spaces_apart, limit, Grow_realloc in *. simpl. lia.
Qed.

Lemma Scavenge_rec_spec depth : forall h0 h',
  well_formed h0 -> Scavenge_rec depth h0 = Ok (tt, h') ->
  (exists φ nil, Moved h0 h' φ nil) /\ (spaces_apart h0 -> spaces_apart h').
Proof.
  induction depth as [|d IH]; intros h0 h' Hwf H; simpl in H;
    apply bind_Ok in H as ([] & h1 & Hc & H);
    apply bind_Ok in H as (? & ? & Hg & H); apply get_Ok in Hg as [-> ->];
    pose proof Hwf as (Hrest & Harr & Hlegal & Hnil);
    destruct (Scavenge_collect_spec _ _ Hrest Harr Hc) as (F & nil1 & HC);
    pose proof (Collected_Moved _ _ _ _ HC) as HM1;
    destruct (used h1 >? 7 * size (to_ h1) / 8).
  - destruct (timeout_Ok _ _ H).
  - apply ret_Ok in H as [_ <-]. split; [eauto|].
    exact (Collected_spaces_apart _ _ _ _ HC).
  - apply Grow_with_Ok in H as (n & j & Hn & _ & Hrec).
    pose proof (Moved_well_formed _ _ _ _ HM1 Hwf) as Hwf1.
    destruct (IH _ _ (Grow_realloc_well_formed _ n Hwf1) Hrec)
      as [(φ2 & nil2 & HM2) Hsp].
    split.
    + exists (compose_fwd (fwd_of F) φ2), nil2.
      destruct Hwf1 as (_ & Harr1 & _ & Hnil1).
      eapply (Moved_compose h0 h1 (Grow_realloc h1 n) h'); eauto.
      apply Hnil1. exact (mv_nil _ _ _ _ HM1).
    + intros Hs0. apply Hsp. apply Grow_realloc_spaces_apart.
      * pose proof (Collected_spaces_apart _ _ _ _ HC Hs0) as (Hst & _).
        subst n. apply Z.mul_nonneg_nonneg; [lia|]. apply Z.pow_nonneg. lia.
      * exact (Collected_spaces_apart _ _ _ _ HC Hs0).
  - apply ret_Ok in H as [_ <-]. split; [eauto|].
    exact (Collected_spaces_apart _ _ _ _ HC).
Qed.

Lemma Scavenge_spec h0 h' :
  well_formed h0 -> Scavenge h0 = Ok (tt, h') ->
  (exists φ nil, Moved h0 h' φ nil) /\ (spaces_apart h0 -> spaces_apart h').
Proof. apply Scavenge_rec_spec. Qed.

(** * A second collection *)

(** The slots of [o2] are those of [o1] relocated by [ψ]: the key, value
    and finalizer of an ephemeron, every slot of any other object. *)
Definition relocated_slots (ψ : Z -> option Z) (o1 o2 : Object) : Prop :=
  if decide (cid o1 = kEphemeronCid) then
    exists k v f k' v' f' rest,
      slots o1 = k :: v :: f :: rest /\ slots o2 = k' :: v' :: f' :: rest /\
      rel_ptr ψ k k' /\ rel_ptr ψ v v' /\ rel_ptr ψ f f'
  else Forall2 (rel_ptr ψ) (slots o1) (slots o2).

Definition size_at (m : gmap Z Cell) (x : Z) : Z :=
  match m !! x with Some c => cell_heap_size c | None => 0 end.

Definition total_size (m : gmap Z Cell) (l : list Z) : Z :=
  foldr (fun x acc => size_at m x + acc) 0 l.

Lemma Tiled_total m a l b : Tiled m a l b -> b - a = total_size m l.
Proof.
  revert a. induction l as [|x l IH]; simpl; intros a.
  - intros ->. lia.
  - intros (-> & c & Hc & _ & _ & Ht). apply IH in Ht.
    unfold size_at. rewrite Hc. lia.
Qed.

Lemma total_size_perm m l l' : l ≡ₚ l' -> total_size m l = total_size m l'.
Proof. induction 1; simpl; lia. Qed.

Lemma total_size_fmap m m' (f : Z -> Z) l :
  (forall x, x ∈ l -> size_at m' (f x) = size_at m x) ->
  total_size m' (f <$> l) = total_size m l.
Proof.
  induction l as [|x l IH]; intros H; [done|].
  rewrite fmap_cons. unfold total_size in *. cbn [foldr].
  rewrite H by (by left). rewrite IH; [done|].
  intros y Hy. apply H. by right.
Qed.

Lemma Moved_used h0 h' φ nil :
  Moved h0 h' φ nil ->
  exists l, NoDup l /\ (forall n, is_Some (cells (to_ h') !! n) <-> n ∈ l) /\
    used h' = total_size (cells (to_ h')) l.
Proof.
  intros HM. destruct (mv_tiled _ _ _ _ HM) as (l & Ht & Hnd & Hdom).
  exists l. split; [done|]. split; [done|].
  unfold used. by apply Tiled_total.
Qed.

Lemma Moved_nil_cell h0 h' φ nil b :
  Moved h0 h' φ nil -> store_is_array h0 ->
  ptr_target nil = Some b -> is_Some (cells (to_ h') !! b).
Proof.
  intros HM Harr Hb.
  destruct (Moved_nil_before _ _ _ _ HM Harr) as [nil0 Hnil0].
  pose proof (Moved_nil_rel _ _ _ _ _ HM Harr Hnil0) as Hr.
  destruct (rel_ptr_back _ _ _ _ Hr Hb) as (b0 & _ & Hb0).
  exact (mv_range _ _ _ _ HM _ _ Hb0).
Qed.

Section SecondScavenge.

Variables (h0 h1 h2 : Heap) (φ1 φ2 : Z -> option Z) (nil1 nil2 : ObjectPtr).
Hypothesis HM1 : Moved h0 h1 φ1 nil1.
Hypothesis HM2 : Moved h1 h2 φ2 nil2.
Hypothesis Hlegal : legal_cids h0.
Hypothesis Harr : store_is_array h0.

Lemma second_total n : is_Some (cells (to_ h1) !! n) <-> is_Some (φ2 n).
Proof.
  split.
  - intros Hn. apply (mv_reach _ _ _ _ HM2).
    by eapply Moved_no_garbage.
  - intros [m Hm]. destruct (mv_range _ _ _ _ HM2 _ _ Hm) as [c Hc].
    destruct (mv_cells _ _ _ _ HM2 _ _ Hc) as (a & o & Ha & Ho & _).
    assert (a = n) as -> by exact (mv_inj _ _ _ _ HM2 _ _ _ Ha Hm).
    eauto.
Qed.

Lemma second_rel_target p0 p1 b :
  rel_ptr φ1 p0 p1 -> ptr_target p1 = Some b -> is_Some (φ2 b).
Proof.
  intros Hr Hb. destruct (rel_ptr_back _ _ _ _ Hr Hb) as (b0 & _ & Hb0).
  apply second_total. exact (mv_range _ _ _ _ HM1 _ _ Hb0).
Qed.

Lemma second_nil_target b : ptr_target nil1 = Some b -> is_Some (φ2 b).
Proof.
  intros Hb. apply second_total. by eapply Moved_nil_cell.
Qed.

Lemma second_weak p0 p1 p2 :
  weak_ptr φ1 h1 nil1 p0 p1 -> weak_ptr φ2 h2 nil2 p1 p2 -> rel_ptr φ2 p1 p2.
Proof.
  unfold weak_ptr at 2. unfold rel_ptr.
  destruct (ptr_target p1) as [b|] eqn:Hb; [|done].
  intros H1 [[H2|[Hnone _]] _]; [done|].
  assert (Hsome : is_Some (φ2 b)); [|destruct Hsome; congruence].
  unfold weak_ptr in H1. destruct (ptr_target p0) as [a|] eqn:Ha.
  - destruct H1 as [[(n & Hn & ->)|(_ & ->)] _].
    + apply ptr_target_HeapObject in Hb as ->. apply second_total.
      exact (mv_range _ _ _ _ HM1 _ _ Hn).
    + by apply second_nil_target.
  - subst p1. congruence.
Qed.

Lemma Forall2_second_weak ps0 ps1 ps2 :
  Forall2 (weak_ptr φ1 h1 nil1) ps0 ps1 ->
  Forall2 (weak_ptr φ2 h2 nil2) ps1 ps2 ->
  Forall2 (rel_ptr φ2) ps1 ps2.
Proof.
  intros H1. revert ps2. induction H1 as [|p0 p1 ps0 ps1 Hp H1 IH];
    intros ps2 H2; inversion H2; subst; constructor; eauto.
  by eapply second_weak.
Qed.

Lemma second_cell o0 o1 o2 :
  moved_cell φ1 h1 nil1 o0 (Live o1) ->
  moved_cell φ2 h2 nil2 o1 (Live o2) ->
  relocated_slots φ2 o1 o2.
Proof.
  intros (o1' & [= <-] & Hc1 & _ & _ & _ & Hsl1)
         (o2' & [= <-] & Hc2 & _ & _ & _ & Hsl2).
  unfold relocated_slots. rewrite Hc1 in Hsl2 |- *. repeat case_decide.
  - unfold kWeakArrayCid, kEphemeronCid in *. lia.
  - by eapply Forall2_second_weak.
  - destruct Hsl1 as (k & v & f & rest & Hsl0 & Hcase1).
    destruct Hsl2 as (k1 & v1 & f1 & rest1 & Hsl1
                      & [(k2 & v2 & f2 & Hsl2 & Hk & Hv & Hf)
                        |(ka & Hka & Hnone & _)]).
    { exists k1, v1, f1, k2, v2, f2, rest1. done. }
    assert (Hsome : is_Some (φ2 ka)); [|destruct Hsome; congruence].
    destruct Hcase1 as [(k' & v' & f' & Hsl1' & Hk & _)|(_ & _ & _ & Hsl1')];
      rewrite Hsl1 in Hsl1'; injection Hsl1' as -> -> -> ->.
    + by eapply second_rel_target.
    + by apply second_nil_target.
  - done.
Qed.

Lemma second_used : used h2 = used h1.
Proof.
  destruct (Moved_used _ _ _ _ HM1) as (l1 & Hnd1 & Hdom1 & ->).
  destruct (Moved_used _ _ _ _ HM2) as (l2 & Hnd2 & Hdom2 & ->).
  set (f := fun n => default 0 (φ2 n)).
  assert (Hf : forall n, n ∈ l1 -> φ2 n = Some (f n)).
  { intros n Hn. apply Hdom1, second_total in Hn as [m Hm].
    unfold f. by rewrite Hm. }
  rewrite (total_size_perm _ l2 (f <$> l1)).
  - apply total_size_fmap. intros n Hn.
    pose proof (Hf n Hn) as Hm.
    apply Hdom1 in Hn as [c Hc].
    destruct (mv_cells _ _ _ _ HM1 _ _ Hc) as (_ & _ & _ & _ & _ & (o1 & -> & _)).
    destruct (Moved_cell_of _ _ _ _ HM2 _ _ _ Hm Hc)
      as (o2 & Ho2 & _ & (o2' & [= <-] & _ & Hsz & _)).
    unfold size_at. rewrite Hc, Ho2. simpl. done.
  - apply NoDup_Permutation; [done| |].
    + apply NoDup_fmap_2_strong; [|done].
      intros x y Hx Hy Hxy. apply Hf in Hx, Hy. rewrite Hxy in Hx.
      exact (mv_inj _ _ _ _ HM2 _ _ _ Hx Hy).
    + intros m. rewrite <- Hdom2, list_elem_of_fmap. split.
      * intros [c Hc].
        destruct (mv_cells _ _ _ _ HM2 _ _ Hc) as (n & o & Hn & Ho & _).
        exists n. assert (Hin : n ∈ l1) by (apply Hdom1; eauto).
        split; [|done]. apply Hf in Hin. congruence.
      * intros (n & -> & Hn). apply Hf in Hn.
        exact (mv_range _ _ _ _ HM2 _ _ Hn).
Qed.

End SecondScavenge.

(** * The fuel of the model suffices *)

(** A run finishes when its fuel did not run out; a computation is total
    when it finishes on every heap. *)
Definition finishes {A} (r : Outcome A) : Prop := r <> Timeout.
Definition total {A} (m : M A) : Prop := forall h, finishes (m h).

Lemma bind_finishes {A B} (m : M A) (k : A -> M B) h :
  finishes (m h) ->
  (forall a h1, m h = Ok (a, h1) -> finishes (k a h1)) ->
  finishes (bind m k h).
Proof.
  unfold finishes, bind. intros Hm Hk.
  destruct (m h) as [[a h1]| | |]; try done. by apply Hk.
Qed.

Lemma total_bind {A B} (m : M A) (k : A -> M B) :
  total m -> (forall a, total (k a)) -> total (bind m k).
Proof. intros Hm Hk h. apply bind_finishes; [apply Hm|]. intros. apply Hk. Qed.

Lemma total_ret {A} (a : A) : total (ret a).
Proof. done. Qed.
Lemma total_trap {A} : total (@trap A).
Proof. done. Qed.
Lemma total_fatal {A} : total (@fatal A).
Proof. done. Qed.
Lemma total_get : total get.
Proof. done. Qed.
Lemma total_modify f : total (modify f).
Proof. done. Qed.
Lemma total_ASSERT b : total (ASSERT b).
Proof. by destruct b. Qed.
Lemma total_lift {A} (o : option A) : total (lift o).
Proof. by destruct o. Qed.

Create HintDb total discriminated.
#[local] Hint Resolve total_ret total_trap total_fatal total_get total_modify
  total_ASSERT total_lift : total.

(** Totality of code without loops, by its structure. *)
Ltac total_step :=
  match goal with
  | |- total (bind _ _) => apply total_bind; [|intros ?]
  | |- total (if ?b then _ else _) => destruct b
  | |- total (match ?x with _ => _ end) => destruct x
  | |- total _ => solve [auto with total]
  end.
Ltac total_tac := repeat total_step.

Lemma total_read_to a : total (read_to a).
Proof. intros h. unfold read_to. apply total_lift. Qed.
Lemma total_write_to a c : total (write_to a c).
Proof. apply total_modify. Qed.
Lemma total_read_from a : total (read_from a).
Proof.
  intros h. unfold read_from. apply bind_finishes; [apply total_ASSERT|].
  intros. apply total_lift.
Qed.
Lemma total_write_from a c : total (write_from a c).
Proof. apply total_modify. Qed.
#[local] Hint Resolve total_read_to total_write_to total_read_from
  total_write_from : total.

Lemma total_read_object a : total (read_object a).
Proof. unfold read_object. total_tac. Qed.
Lemma total_HeapSize c : total (HeapSize c).
Proof. unfold HeapSize. total_tac. Qed.
Lemma total_cell_cid c : total (cell_cid c).
Proof. unfold cell_cid. total_tac. Qed.
#[local] Hint Resolve total_read_object total_HeapSize total_cell_cid : total.

Lemma total_nil_obj : total nil_obj.
Proof. unfold nil_obj. total_tac. Qed.
Lemma total_TryAllocate size : total (TryAllocate size).
Proof. unfold TryAllocate. total_tac. Qed.
#[local] Hint Resolve total_nil_obj total_TryAllocate : total.

Lemma total_IsForwarded a : total (IsForwarded a).
Proof. unfold IsForwarded. total_tac. Qed.
Lemma total_SetForwarded a n : total (SetForwarded a n).
Proof. unfold SetForwarded. total_tac. Qed.
#[local] Hint Resolve total_IsForwarded total_SetForwarded : total.

Lemma total_copy_to_space a c : total (copy_to_space a c).
Proof. unfold copy_to_space. total_tac. Qed.
Lemma total_ASSERT_InToSpace p : total (ASSERT_InToSpace p).
Proof. unfold ASSERT_InToSpace. total_tac. Qed.
#[local] Hint Resolve total_copy_to_space total_ASSERT_InToSpace : total.

Lemma total_ScavengePointer p : total (ScavengePointer p).
Proof. unfold ScavengePointer. total_tac. Qed.
Lemma total_ScavengeClass c : total (ScavengeClass c).
Proof. unfold ScavengeClass. total_tac. Qed.
#[local] Hint Resolve total_ScavengePointer total_ScavengeClass : total.

Lemma total_mapM {A B} (f : A -> M B) l :
  (forall a, total (f a)) -> total (mapM f l).
Proof. intros Hf. induction l; simpl; total_tac. Qed.

Lemma total_ProcessRoots : total ProcessRoots.
Proof.
  unfold ProcessRoots. total_tac. apply total_mapM. auto with total.
Qed.
Lemma total_AddToWeakList s : total (AddToWeakList s).
Proof. unfold AddToWeakList. total_tac. Qed.
Lemma total_AddToEphemeronList s : total (AddToEphemeronList s).
Proof. unfold AddToEphemeronList. total_tac. Qed.
Lemma total_key_is_live k : total (key_is_live k).
Proof. unfold key_is_live. total_tac. Qed.
Lemma total_MournWeakPointer p : total (MournWeakPointer p).
Proof. unfold MournWeakPointer. total_tac. Qed.
#[local] Hint Resolve total_ProcessRoots total_AddToWeakList
  total_AddToEphemeronList total_key_is_live total_MournWeakPointer : total.

Lemma total_MournClassTable_entry i : total (MournClassTable_entry i).
Proof. unfold MournClassTable_entry. total_tac. Qed.
#[local] Hint Resolve total_MournClassTable_entry : total.

Lemma total_MournClassTable_loop n : forall i, total (MournClassTable_loop n i).
Proof. induction n; intros i; simpl; total_tac. Qed.

Lemma total_MournClassTable : total MournClassTable.
Proof.
  unfold MournClassTable. total_tac. apply total_MournClassTable_loop.
Qed.
Lemma total_ClearCaches : total ClearCaches.
Proof. apply total_modify. Qed.
Lemma total_MarkUnallocated_from : total MarkUnallocated_from.
Proof. apply total_modify. Qed.
Lemma total_FlipSpaces : total FlipSpaces.
Proof.
  unfold FlipSpaces. apply total_bind; [auto with total|]. intros h.
  destruct (size (from_ h) <? size (to_ h)); simpl; total_tac.
Qed.
#[local] Hint Resolve total_MournClassTable total_ClearCaches
  total_MarkUnallocated_from total_FlipSpaces : total.

(** ** What bounds the loops *)

(** The highest address the allocation pointer can reach. *)
Definition bound (h : Heap) : Z := Z.max (end_ h) (top_ h).

(** [h'] allocates in the to-space of [h], below the bound of [h]. *)
Definition within (h h' : Heap) : Prop :=
  object_start (to_ h') = object_start (to_ h) /\ bound h' <= bound h.

Lemma within_refl h : within h h.
Proof. split; [done|lia]. Qed.

Lemma within_trans h1 h2 h3 : within h1 h2 -> within h2 h3 -> within h1 h3.
Proof. intros [? ?] [? ?]. split; [congruence|lia]. Qed.

(** Sizes are positive, and to-space cells lie below [top_]. *)
Record sized (h : Heap) : Prop := {
  sz_to : forall n c, cells (to_ h) !! n = Some c -> 0 < cell_heap_size c;
  sz_from : forall a c, cells (from_ h) !! a = Some c -> not_forwarded c ->
    0 < cell_heap_size c;
  sz_range : forall n, is_Some (cells (to_ h) !! n) ->
    object_start (to_ h) <= n < top_ h;
  sz_top : object_start (to_ h) <= top_ h
}.

Lemma GInv_sized h0 h scan E W :
  wf_cells (cells (to_ h0)) -> GInv h0 h scan E W ->
  sized h /\ object_start (to_ h) <= scan <= top_ h.
Proof.
  intros Hwf ([_ HI] & _).
  destruct (inv_tiled _ _ _ _ _ _ _ _ HI) as (bl & gl & Hb & Hg & Hdom).
  pose proof (Tiled_le _ _ _ _ Hb). pose proof (Tiled_le _ _ _ _ Hg).
  pose proof (Tiled_app _ _ _ _ _ _ Hb Hg) as Hall.
  split; [|lia]. split.
  - intros n c Hc.
    destruct (Tiled_lookup _ _ _ _ _ Hall (Hdom n ltac:(eauto)))
      as (c' & Hc' & _ & Hpos).
    congruence.
  - intros a c Hc Hnf.
    destruct (inv_evolved _ _ _ _ _ _ _ _ HI a) as [Heq|(n & Hn & _)].
    + rewrite Hc in Heq. symmetry in Heq. by apply Hwf in Heq as [_ ?].
    + rewrite Hc in Hn. injection Hn as ->. destruct Hnf.
  - intros n Hn. by apply (Tiled_bounds _ _ _ _ _ Hall), Hdom.
  - lia.
Qed.

Lemma copy_to_space_within a c h n h' :
  copy_to_space a c h = Ok (n, h') ->
  within h h' /\
  (sized h -> cells (from_ h) !! a = Some c -> sized h') /\
  lists h' = lists h /\
  (sized h -> forall x, x < top_ h ->
     cells (to_ h') !! x = cells (to_ h) !! x).
Proof.
  intros H. pose proof H as H'.
  apply copy_to_space_Ok in H' as (Hnf & -> & _ & ->).
  unfold copy_to_space in H.
  apply bind_Ok in H as (sz & ? & H1 & H).
  apply HeapSize_Ok in H1 as (-> & -> & _).
  apply bind_Ok in H as (raw & h1 & H1 & H).
  apply TryAllocate_Ok in H1 as [_ [(_ & -> & ->)|(Hfit & _)]].
  { apply bind_Ok in H as ([] & ? & H1 & H). apply ASSERT_Ok in H1 as [? _].
    discriminate. }
  clear H. split; [|split; [|split]].
  - split; [done|]. unfold bound. simpl. lia.
  - intros [Hto Hfrom Hrange Htop] Ha. pose proof (Hfrom _ _ Ha Hnf) as Hpos.
    unfold object_start in *. split; simpl.
    + intros x cx Hx. apply lookup_insert_Some in Hx as [[_ <-]|[_ Hx]]; eauto.
    + intros x cx Hx Hnfx.
      apply lookup_insert_Some in Hx as [[_ <-]|[_ Hx]]; [done|eauto].
    + intros x Hx. unfold object_start. simpl.
      apply lookup_insert_is_Some in Hx as [<-|[_ Hx]]; [lia|].
      apply Hrange in Hx. lia.
    + unfold object_start. simpl. lia.
  - done.
  - intros _ x Hx. simpl. apply lookup_insert_ne. lia.
Qed.

(** The effect of the copying steps on sizes, bound and cells. *)
Record grows (h h' : Heap) : Prop := {
  gr_within : within h h';
  gr_sized : sized h -> sized h';
  gr_lists : lists h' = lists h;
  gr_top : sized h -> top_ h <= top_ h';
  gr_cells : sized h -> forall x, x < top_ h ->
    cells (to_ h') !! x = cells (to_ h) !! x
}.

Lemma grows_refl h : grows h h.
Proof. split; first [done|apply within_refl]. Qed.

Lemma grows_trans h1 h2 h3 : grows h1 h2 -> grows h2 h3 -> grows h1 h3.
Proof.
  intros [W1 S1 L1 T1 C1] [W2 S2 L2 T2 C2]. split.
  - by eapply within_trans.
  - auto.
  - congruence.
  - intros Hs. specialize (T1 Hs). specialize (T2 (S1 Hs)). lia.
  - intros Hs x Hx. rewrite C2; [by apply C1|by apply S1|].
    specialize (T1 Hs). lia.
Qed.

Lemma copy_to_space_grows a c h n h' :
  cells (from_ h) !! a = Some c ->
  copy_to_space a c h = Ok (n, h') -> grows h h'.
Proof.
  intros Ha H. pose proof H as H'.
  apply copy_to_space_within in H as (Hw & Hs & Hl & Hc).
  apply copy_to_space_Ok in H' as (Hnf & _ & _ & ->).
  split; try done.
  - auto.
  - intros Hsz. simpl. pose proof (sz_from _ Hsz _ _ Ha Hnf). lia.
Qed.

Lemma ScavengePointer_grows p h p' h' :
  ScavengePointer p h = Ok (p', h') -> grows h h'.
Proof.
  unfold ScavengePointer. intros H.
  destruct p as [v|a]; [apply ret_Ok in H as [_ ->]; apply grows_refl|].
  destruct (IsImmediateOrOldObject _);
    [apply ret_Ok in H as [_ ->]; apply grows_refl|].
  apply bind_Ok in H as (c & ? & H1 & H).
  apply read_from_Ok in H1 as (-> & Hc & _).
  apply bind_Ok in H as (nt & h1 & H1 & H).
  apply bind_Ok in H as ([] & ? & H2 & H).
  apply ASSERT_InToSpace_Ok in H2 as [-> _]. apply ret_Ok in H as [_ ->].
  destruct c as [o|s t|n].
  - apply bind_Ok in H1 as (n & h2 & H1 & H). apply ret_Ok in H as [_ ->].
    by eapply copy_to_space_grows.
  - apply bind_Ok in H1 as (n & h2 & H1 & H). apply ret_Ok in H as [_ ->].
    by eapply copy_to_space_grows.
  - apply ret_Ok in H1 as [_ ->]. apply grows_refl.
Qed.

Lemma mapM_ScavengePointer_grows ps : forall h ps' h',
  mapM ScavengePointer ps h = Ok (ps', h') -> grows h h'.
Proof.
  induction ps as [|p ps IH]; simpl; intros h ps' h' H.
  - apply ret_Ok in H as [_ ->]. apply grows_refl.
  - apply bind_Ok in H as (q & h1 & H1 & H).
    apply bind_Ok in H as (qs & h2 & H2 & H). apply ret_Ok in H as [_ ->].
    eapply grows_trans; [by eapply ScavengePointer_grows|eauto].
Qed.

Lemma ScavengeClass_grows c h u h' :
  ScavengeClass c h = Ok (u, h') -> grows h h'.
Proof.
  unfold ScavengeClass. intros H.
  apply bind_Ok in H as (? & ? & H1 & H). apply get_Ok in H1 as [-> ->].
  apply bind_Ok in H as (? & ? & H1 & H). apply ASSERT_Ok in H1 as [_ ->].
  apply bind_Ok in H as (? & ? & H1 & H). apply ASSERT_Ok in H1 as [_ ->].
  apply bind_Ok in H as (p & ? & H1 & H). apply lift_Ok in H1 as [_ ->].
  destruct p as [v|a]; [apply ret_Ok in H as [_ ->]; apply grows_refl|].
  destruct (IsImmediateOrOldObject _);
    [apply ret_Ok in H as [_ ->]; apply grows_refl|].
  apply bind_Ok in H as (cl & ? & H1 & H).
  apply read_from_Ok in H1 as (-> & Hc & _).
  destruct cl as [o|s t|n].
  - apply bind_Ok in H as (n & h2 & H1 & H). apply ret_Ok in H as [_ ->].
    by eapply copy_to_space_grows.
  - apply bind_Ok in H as (n & h2 & H1 & H). apply ret_Ok in H as [_ ->].
    by eapply copy_to_space_grows.
  - apply ret_Ok in H as [_ ->]. apply grows_refl.
Qed.

Lemma total_mapM_ScavengePointer ps : total (mapM ScavengePointer ps).
Proof. apply total_mapM. auto with total. Qed.
Lemma total_mapM_MournWeakPointer ps : total (mapM MournWeakPointer ps).
Proof. apply total_mapM. auto with total. Qed.
#[local] Hint Resolve total_mapM_ScavengePointer
  total_mapM_MournWeakPointer : total.

(** A store over an object that keeps its size. *)
Lemma sized_write h s o o' :
  sized h -> cells (to_ h) !! s = Some (Live o) ->
  heap_size o' = heap_size o ->
  sized (with_to_cells h (<[s := Live o']> (cells (to_ h)))).
Proof.
  intros [Hto Hfrom Hrange Htop] Hs Hsz. split; simpl; try done.
  - intros x cx Hx. apply lookup_insert_Some in Hx as [[_ <-]|[_ Hx]]; [|eauto].
    simpl. rewrite Hsz. by apply (Hto _ _ Hs).
  - intros x Hx. apply lookup_insert_is_Some in Hx as [<-|[_ Hx]]; [|eauto].
    apply Hrange. eauto.
Qed.

Lemma within_write h m : within h (with_to_cells h m).
Proof. split; [done|]. unfold bound. simpl. lia. Qed.

Lemma sized_ext h h' :
  to_ h' = to_ h -> from_ h' = from_ h -> top_ h' = top_ h ->
  sized h -> sized h'.
Proof.
  intros Et Ef Ep [? ? ? ?]. split; rewrite ?Et, ?Ef, ?Ep; done.
Qed.

(** ** [ProcessToSpace] *)

(** One turn of the loop of [ProcessToSpace]: the object at [scan] is
    processed and the address of the next one returned. *)
Definition ProcessToSpace_body (scan : Z) : M Z :=
  let* obj := read_object scan in
  ScavengeClass (cid obj) ;;;
  (if cid obj =? kWeakArrayCid then AddToWeakList scan
   else if cid obj =? kEphemeronCid then AddToEphemeronList scan
   else
     ASSERT (negb (cid obj =? kForwardingCorpseCid)) ;;;
     let* new_slots := mapM ScavengePointer (slots obj) in
     write_to scan (Live (set_slots obj new_slots))) ;;;
  ret (scan + heap_size obj).

Lemma ProcessToSpace_step fuel scan h :
  ProcessToSpace (S fuel) scan h =
  if scan <? top_ h
  then bind (ProcessToSpace_body scan) (ProcessToSpace fuel) h
  else Ok (scan, h).
Proof.
  cbn [ProcessToSpace]. unfold bind at 1, get.
  destruct (scan <? top_ h); [|done].
  unfold ProcessToSpace_body, bind.
  destruct (read_object scan h) as [[o h1]| | |]; try done.
  destruct (ScavengeClass (cid o) h1) as [[[] h2]| | |]; try done.
  match goal with
  | |- match ?m h2 with _ => _ end = _ =>
      destruct (m h2) as [[[] h3]| | |]; try done
  end.
Qed.

Lemma total_ProcessToSpace_body scan : total (ProcessToSpace_body scan).
Proof. unfold ProcessToSpace_body. total_tac. Qed.

Lemma ProcessToSpace_body_Ok scan h scan' h' :
  ProcessToSpace_body scan h = Ok (scan', h') ->
  exists o, cells (to_ h) !! scan = Some (Live o) /\
    scan' = scan + heap_size o /\ within h h' /\
    (sized h -> scan < top_ h -> sized h').
Proof.
  unfold ProcessToSpace_body. intros H.
  apply bind_Ok in H as (o & ? & H1 & H).
  apply read_object_Ok in H1 as [-> Ho].
  apply bind_Ok in H as ([] & h1 & H1 & H).
  apply ScavengeClass_grows in H1 as [W1 S1 _ T1 C1].
  apply bind_Ok in H as ([] & h2 & H2 & H). apply ret_Ok in H as [-> ->].
  exists o. do 2 (split; [done|]).
  assert (Ho1 : sized h -> scan < top_ h ->
                cells (to_ h1) !! scan = Some (Live o)).
  { intros Hs Hlt. rewrite C1; done. }
  destruct (cid o =? kWeakArrayCid).
  { apply AddToWeakList_Ok in H2 as (o' & Ho' & ->). split.
    - eapply within_trans; [exact W1|]. apply (within_write h1).
    - intros Hs Hlt. specialize (Ho1 Hs Hlt).
      eapply (sized_ext (with_to_cells h1 _));
        [done|done|done|].
      apply (sized_write h1 scan o'); [by apply S1|exact Ho'|done]. }
  destruct (cid o =? kEphemeronCid).
  { apply AddToEphemeronList_Ok in H2 as (o' & Ho' & ->). split.
    - eapply within_trans; [exact W1|]. apply (within_write h1).
    - intros Hs Hlt. specialize (Ho1 Hs Hlt).
      eapply (sized_ext (with_to_cells h1 _));
        [done|done|done|].
      apply (sized_write h1 scan o'); [by apply S1|exact Ho'|done]. }
  apply bind_Ok in H2 as ([] & ? & H3 & H2). apply ASSERT_Ok in H3 as [_ ->].
  apply bind_Ok in H2 as (sl & h3 & H3 & H2).
  apply mapM_ScavengePointer_grows in H3 as [W3 S3 _ T3 C3].
  unfold write_to in H2. apply modify_Ok in H2. subst h2. split.
  - eapply within_trans; [exact W1|]. eapply within_trans; [exact W3|].
    apply within_write.
  - intros Hs Hlt. specialize (Ho1 Hs Hlt). specialize (T1 Hs).
    apply (sized_write h3 scan o); [by apply S3, S1| |done].
    rewrite C3; [done|by apply S1|lia].
Qed.

Lemma ProcessToSpace_finishes fuel : forall scan h,
  sized h -> bound h - scan < Z.of_nat fuel ->
  finishes (ProcessToSpace fuel scan h).
Proof.
  induction fuel as [|fuel IH]; intros scan h Hs Hm.
  - cbn [ProcessToSpace]. unfold bind, get.
    destruct (Z.ltb_spec scan (top_ h)); [|done]. unfold bound in Hm. lia.
  - rewrite ProcessToSpace_step.
    destruct (Z.ltb_spec scan (top_ h)) as [Hlt|]; [|done].
    apply bind_finishes; [apply total_ProcessToSpace_body|].
    intros scan' h' H.
    apply ProcessToSpace_body_Ok in H as (o & Ho & -> & [_ Hb] & Hs').
    apply IH; [by apply Hs'|].
    pose proof (sz_to _ Hs _ _ Ho) as Hpos. simpl in Hpos. lia.
Qed.

Lemma ProcessToSpace_within fuel : forall scan h scan' h',
  ProcessToSpace fuel scan h = Ok (scan', h') -> within h h'.
Proof.
  induction fuel as [|fuel IH]; intros scan h scan' h' H.
  - cbn [ProcessToSpace] in H. unfold bind, get in H.
    destruct (scan <? top_ h); [discriminate|].
    apply ret_Ok in H as [_ ->]. apply within_refl.
  - rewrite ProcessToSpace_step in H.
    destruct (scan <? top_ h).
    + apply bind_Ok in H as (s1 & h1 & H1 & H).
      apply ProcessToSpace_body_Ok in H1 as (o & _ & _ & W1 & _).
      eapply within_trans; [exact W1|eauto].
    + injection H as _ <-. apply within_refl.
Qed.

(** ** [ProcessEphemeronList] *)

(** One turn of the loop of [ProcessEphemeronList]: the ephemeron [e] is
    unlinked, traced or put back, and its successor returned. *)
Definition ProcessEphemeron (e : Z) : M (option Z) :=
  let* o := read_object e in
  ASSERT (cid o =? kEphemeronCid) ;;;
  write_to e (Live (set_next o None)) ;;;
  match slots o with
  | key :: value :: finalizer :: rest =>
      let* live := key_is_live key in
      (if live then
         let* key' := ScavengePointer key in
         let* value' := ScavengePointer value in
         let* finalizer' := ScavengePointer finalizer in
         write_to e (Live (set_slots (set_next o None)
                             (key' :: value' :: finalizer' :: rest)))
       else AddToEphemeronList e) ;;;
      ret (next o)
  | _ => trap
  end.

Lemma ProcessEphemeronList_loop_step fuel e h :
  ProcessEphemeronList_loop (S fuel) (Some e) h =
  bind (ProcessEphemeron e) (ProcessEphemeronList_loop fuel) h.
Proof.
  cbn [ProcessEphemeronList_loop]. unfold ProcessEphemeron, bind.
  destruct (read_object e h) as [[o h1]| | |]; try done.
  destruct (ASSERT (cid o =? kEphemeronCid) h1) as [[[] h2]| | |]; try done.
  destruct (write_to e (Live (set_next o None)) h2) as [[[] h3]| | |];
    try done.
  destruct (slots o) as [|k [|v [|f rest]]]; try done.
  destruct (key_is_live k h3) as [[live h4]| | |]; try done.
  match goal with
  | |- match ?m h4 with _ => _ end = _ =>
      destruct (m h4) as [[[] h5]| | |]; try done
  end.
Qed.

Lemma total_ProcessEphemeron e : total (ProcessEphemeron e).
Proof.
  unfold ProcessEphemeron.
  apply total_bind; [auto with total|intros o].
  do 2 (apply total_bind; [auto with total|intros _]).
  destruct (slots o) as [|k [|v [|f rest]]]; total_tac.
Qed.

Lemma ProcessEphemeron_Ok e h nx h' :
  ProcessEphemeron e h = Ok (nx, h') ->
  exists o, cells (to_ h) !! e = Some (Live o) /\ nx = next o /\
    within h h' /\
    (sized h -> sized h' /\
       forall x, x <> e -> is_Some (cells (to_ h) !! x) ->
         cells (to_ h') !! x = cells (to_ h) !! x).
Proof.
  unfold ProcessEphemeron. intros H.
  apply bind_Ok in H as (o & ? & H1 & H).
  apply read_object_Ok in H1 as [-> Ho].
  apply bind_Ok in H as ([] & ? & H1 & H). apply ASSERT_Ok in H1 as [_ ->].
  apply bind_Ok in H as ([] & h1 & H1 & H).
  unfold write_to in H1. apply modify_Ok in H1.
  destruct (slots o) as [|k [|v [|f rest]]] eqn:Hsl;
    try (destruct (trap_Ok _ _ H)).
  apply bind_Ok in H as (live & ? & H2 & H).
  apply key_is_live_Ok in H2 as [-> _].
  apply bind_Ok in H as ([] & h2 & H2 & H). apply ret_Ok in H as [-> ->].
  exists o. do 2 (split; [done|]).
  assert (W1 : within h h1) by (subst h1; apply within_write).
  assert (S1 : sized h -> sized h1).
  { intros Hs. subst h1. by apply (sized_write h e o). }
  assert (C1 : forall x, x <> e -> cells (to_ h1) !! x = cells (to_ h) !! x).
  { intros x Hx. subst h1. simpl. by rewrite lookup_insert_ne. }
  assert (O1 : cells (to_ h1) !! e = Some (Live (set_next o None))).
  { subst h1. simpl. by rewrite lookup_insert_eq. }
  assert (T1 : top_ h1 = top_ h) by (by subst h1).
  clear H1. destruct live.
  - apply bind_Ok in H2 as (k' & h3 & H3 & H2).
    apply bind_Ok in H2 as (v' & h4 & H4 & H2).
    apply bind_Ok in H2 as (f' & h5 & H5 & H2).
    unfold write_to in H2. apply modify_Ok in H2. subst h2.
    apply ScavengePointer_grows in H3, H4, H5.
    pose proof (grows_trans _ _ _ H3 (grows_trans _ _ _ H4 H5))
      as [W5 S5 _ T5 C5].
    split.
    + eapply within_trans; [exact W1|]. eapply within_trans; [exact W5|].
      apply within_write.
    + intros Hs. specialize (S1 Hs). specialize (C5 S1).
      assert (He : e < top_ h1).
      { apply (sz_range _ S1). rewrite O1. eauto. }
      split.
      * apply (sized_write h5 e (set_next o None)); [by apply S5| |done].
        rewrite C5; done.
      * intros x Hx Hin. simpl. rewrite lookup_insert_ne by done.
        rewrite C5; [by apply C1|]. rewrite T1. by apply (sz_range _ Hs).
  - apply AddToEphemeronList_Ok in H2 as (o' & Ho' & ->). split.
    + eapply within_trans; [exact W1|]. apply (within_write h1).
    + intros Hs. specialize (S1 Hs). split.
      * eapply (sized_ext (with_to_cells h1 _)); [done|done|done|].
        by apply (sized_write h1 e o').
      * intros x Hx Hin. simpl. rewrite lookup_insert_ne by done.
        by apply C1.
Qed.

Lemma ProcessEphemeronList_loop_finishes fuel : forall sv h R,
  sized h -> Chain (cells (to_ h)) sv R -> NoDup R ->
  (length R <= fuel)%nat ->
  finishes (ProcessEphemeronList_loop fuel sv h).
Proof.
  induction fuel as [|fuel IH]; intros sv h R Hs HR Hnd Hlen.
  - destruct R; [|simpl in Hlen; lia]. destruct sv; [done|]. done.
  - destruct sv as [e|]; [|done].
    destruct R as [|e' R]; [done|]. simpl in HR.
    destruct HR as ([= <-] & o & Ho & HR).
    apply NoDup_cons in Hnd as [Hne Hnd].
    rewrite ProcessEphemeronList_loop_step.
    apply bind_finishes; [apply total_ProcessEphemeron|].
    intros nx h' H.
    apply ProcessEphemeron_Ok in H as (o' & Ho' & -> & _ & H).
    destruct (H Hs) as [Hs' Hc]. rewrite Ho in Ho'. injection Ho' as <-.
    apply (IH _ _ R); [done| |done|simpl in Hlen; lia].
    eapply Chain_ext; [|exact HR]. intros x Hx. apply Hc.
    + intros ->. done.
    + destruct (Chain_lookup _ _ _ _ HR Hx) as [ox Hox]. eauto.
Qed.

Lemma ProcessEphemeronList_loop_within fuel : forall sv h h',
  ProcessEphemeronList_loop fuel sv h = Ok (tt, h') -> within h h'.
Proof.
  induction fuel as [|fuel IH]; intros sv h h' H.
  - destruct sv; [discriminate|].
    apply ret_Ok in H as [_ ->]. apply within_refl.
  - destruct sv as [e|].
    + rewrite ProcessEphemeronList_loop_step in H.
      apply bind_Ok in H as (nx & h1 & H1 & H).
      apply ProcessEphemeron_Ok in H1 as (o & _ & _ & W1 & _).
      eapply within_trans; [exact W1|eauto].
    + apply ret_Ok in H as [_ ->]. apply within_refl.
Qed.

Lemma ProcessEphemeronList_within fuel h h' :
  ProcessEphemeronList fuel h = Ok (tt, h') -> within h h'.
Proof.
  unfold ProcessEphemeronList. intros H.
  apply bind_Ok in H as (? & ? & H1 & H). apply get_Ok in H1 as [-> ->].
  apply bind_Ok in H as ([] & h1 & H1 & H). apply modify_Ok in H1 as ->.
  apply ProcessEphemeronList_loop_within in H. exact H.
Qed.

(** A list without duplicates of addresses of a range is no longer than the
    range. *)
Lemma NoDup_range_length (l : list Z) a b :
  NoDup l -> (forall x, x ∈ l -> a <= x < b) ->
  Z.of_nat (length l) <= Z.max (b - a) 0.
Proof.
  intros Hnd Hr.
  assert (Hsub : l ⊆+ seqZ a (Z.max (b - a) 0)).
  { apply NoDup_submseteq; [done|]. intros x Hx. apply elem_of_seqZ.
    specialize (Hr x Hx). lia. }
  apply submseteq_length in Hsub. rewrite length_seqZ in Hsub. lia.
Qed.

Lemma Chain_length h hd l :
  sized h -> Chain (cells (to_ h)) hd l -> NoDup l ->
  Z.of_nat (length l) <= bound h - object_start (to_ h).
Proof.
  intros Hs Hc Hnd.
  pose proof (NoDup_range_length l (object_start (to_ h)) (top_ h) Hnd) as H.
  pose proof (sz_top _ Hs). unfold bound.
  assert (forall x, x ∈ l -> object_start (to_ h) <= x < top_ h).
  { intros x Hx. apply (sz_range _ Hs).
    destruct (Chain_lookup _ _ _ _ Hc Hx) as [o Ho]. eauto. }
  specialize (H ltac:(done)). lia.
Qed.

Lemma ProcessEphemeronList_finishes h0 fuel h scan E W :
  wf_cells (cells (to_ h0)) -> GInv h0 h scan E W ->
  bound h - object_start (to_ h) < Z.of_nat fuel ->
  finishes (ProcessEphemeronList fuel h).
Proof.
  intros Hwf HG Hf.
  destruct (GInv_sized _ _ _ _ _ Hwf HG) as [Hs _].
  destruct HG as (_ & HE & _ & Hnd & _).
  unfold ProcessEphemeronList.
  apply bind_finishes; [apply total_get|]. intros ? ? H.
  apply get_Ok in H as [-> ->].
  apply bind_finishes; [apply total_modify|]. intros [] ? H.
  apply modify_Ok in H as ->.
  apply (ProcessEphemeronList_loop_finishes _ _ _ E); [| exact HE|done|].
  - by eapply (sized_ext h).
  - pose proof (Chain_length _ _ _ Hs HE Hnd). lia.
Qed.

(** ** [Scavenge_loop] *)

Lemma Scavenge_loop_finishes h0 fuel n :
  forall scan h E W,
  wf_cells (cells (to_ h0)) -> GInv h0 h scan E W ->
  bound h - object_start (to_ h) < Z.of_nat fuel ->
  bound h - scan < Z.of_nat n ->
  finishes (Scavenge_loop fuel n scan h).
Proof.
  induction n as [|n IH]; intros scan h E W Hwf HG Hf Hn;
    cbn [Scavenge_loop]; apply bind_finishes; try apply total_get;
    intros ? ? H; apply get_Ok in H as [-> ->];
    (destruct (Z.ltb_spec scan (top_ h)) as [Hlt|Hge]; [|done]).
  - unfold bound in Hn. lia.
  - destruct (GInv_sized _ _ _ _ _ Hwf HG) as [Hs Hscan].
    apply bind_finishes.
    { apply ProcessToSpace_finishes; [done|lia]. }
    intros scan1 h1 H1.
    pose proof (ProcessToSpace_within _ _ _ _ _ H1) as [Wo1 Wb1].
    eapply ProcessToSpace_spec in H1 as (E1 & W1 & HG1 & -> & Hs1); eauto.
    apply bind_finishes.
    { eapply ProcessEphemeronList_finishes; eauto. rewrite Wo1. lia. }
    intros [] h2 H2.
    pose proof (ProcessEphemeronList_within _ _ _ H2) as [Wo2 Wb2].
    eapply ProcessEphemeronList_spec in H2 as (E2 & HG2 & Hs2 & _); eauto.
    eapply IH; eauto.
    + rewrite Wo2, Wo1. lia.
    + pose proof (ss_top _ _ Hs1). lia.
Qed.

Lemma Scavenge_loop_within fuel n : forall scan h h',
  Scavenge_loop fuel n scan h = Ok (tt, h') -> within h h'.
Proof.
  induction n as [|n IH]; intros scan h h' H; cbn [Scavenge_loop] in H;
    apply bind_Ok in H as (? & ? & H1 & H); apply get_Ok in H1 as [-> ->];
    (destruct (scan <? top_ h);
     [|apply ret_Ok in H as [_ ->]; apply within_refl]).
  - discriminate.
  - apply bind_Ok in H as (scan1 & h1 & H1 & H).
    apply bind_Ok in H as ([] & h2 & H2 & H).
    apply ProcessToSpace_within in H1.
    apply ProcessEphemeronList_within in H2. apply IH in H.
    eauto using within_trans.
Qed.

Lemma ProcessRoots_within h h' :
  ProcessRoots h = Ok (tt, h') -> within h h'.
Proof.
  unfold ProcessRoots. intros H.
  apply bind_Ok in H as (? & ? & H1 & H). apply get_Ok in H1 as [-> ->].
  apply bind_Ok in H as (os & h1 & H1 & H).
  apply bind_Ok in H as ([] & ? & Hm & H). apply modify_Ok in Hm as ->.
  apply bind_Ok in H as (act & h2 & H2 & H).
  apply bind_Ok in H as ([] & ? & Hm & H). apply modify_Ok in Hm as ->.
  apply bind_Ok in H as (hs & h3 & H3 & H).
  apply modify_Ok in H as ->.
  apply ScavengePointer_grows in H1 as [W1 _ _ _ _].
  apply ScavengePointer_grows in H2 as [W2 _ _ _ _].
  apply mapM_ScavengePointer_grows in H3 as [W3 _ _ _ _].
  exact (within_trans _ _ _ W1 (within_trans _ _ _ W2 W3)).
Qed.

(** ** Mourning *)

Lemma MournEphemeronList_loop_finishes fuel nil : forall sv h R,
  Chain (cells (to_ h)) sv R -> NoDup R -> (length R <= fuel)%nat ->
  finishes (MournEphemeronList_loop fuel nil sv h).
Proof.
  induction fuel as [|fuel IH]; intros sv h R HR Hnd Hlen.
  - destruct R; [|simpl in Hlen; lia]. destruct sv; done.
  - destruct sv as [e|]; [|done].
    destruct R as [|e' R]; [done|]. simpl in HR.
    destruct HR as ([= <-] & o & Ho & HR).
    apply NoDup_cons in Hnd as [Hne Hnd].
    cbn [MournEphemeronList_loop].
    apply bind_finishes; [apply total_read_object|]. intros o' ? H.
    apply read_object_Ok in H as [-> Ho']. rewrite Ho in Ho'.
    injection Ho' as <-.
    apply bind_finishes; [apply total_ASSERT|]. intros [] ? H.
    apply ASSERT_Ok in H as [_ ->].
    destruct (slots o) as [|k [|v [|f rest]]]; try done.
    apply bind_finishes; [apply total_get|]. intros ? ? H.
    apply get_Ok in H as [-> ->].
    apply bind_finishes; [apply total_ASSERT|]. intros [] ? H.
    apply ASSERT_Ok in H as [_ ->].
    apply bind_finishes; [apply total_write_to|]. intros [] ? H.
    unfold write_to in H. apply modify_Ok in H as ->.
    apply (IH _ _ R); [|done|simpl in Hlen; lia].
    simpl. by apply Chain_insert_other.
Qed.

Lemma MournEphemeronList_finishes fuel h E :
  Chain (cells (to_ h)) (ephemeron_list_ h) E -> NoDup E ->
  (length E <= fuel)%nat ->
  finishes (MournEphemeronList fuel h).
Proof.
  intros HE Hnd Hlen. unfold MournEphemeronList.
  apply bind_finishes; [apply total_nil_obj|]. intros nil ? H.
  apply nil_obj_Ok in H as [-> _].
  apply bind_finishes; [apply total_get|]. intros ? ? H.
  apply get_Ok in H as [-> ->].
  apply bind_finishes; [apply total_modify|]. intros [] ? H.
  apply modify_Ok in H as ->.
  by apply (MournEphemeronList_loop_finishes _ _ _ _ E).
Qed.

Lemma MournWeakPointer_same p h p' h' :
  MournWeakPointer p h = Ok (p', h') -> h' = h.
Proof.
  unfold MournWeakPointer. destruct p as [v|a].
  { intros H. by apply ret_Ok in H as [_ ->]. }
  destruct (IsImmediateOrOldObject (HeapObject a)).
  { intros H. by apply ret_Ok in H as [_ ->]. }
  intros H. apply bind_Ok in H as (c & ? & H1 & H).
  apply read_from_Ok in H1 as [-> _].
  apply bind_Ok in H as (q & h1 & H1 & H).
  assert (h1 = h) as ->.
  { destruct c; try (by apply nil_obj_Ok in H1 as [-> _]).
    by apply ret_Ok in H1 as [_ ->]. }
  apply bind_Ok in H as ([] & ? & H2 & H).
  apply ASSERT_InToSpace_Ok in H2 as [-> _].
  by apply ret_Ok in H as [_ ->].
Qed.

Lemma mapM_MournWeakPointer_same ps : forall h ps' h',
  mapM MournWeakPointer ps h = Ok (ps', h') -> h' = h.
Proof.
  induction ps as [|p ps IH]; intros h ps' h' H; simpl in H.
  - by apply ret_Ok in H as [_ ->].
  - apply bind_Ok in H as (q & h1 & H1 & H).
    apply bind_Ok in H as (qs & h2 & H2 & H).
    apply ret_Ok in H as [_ ->].
    apply MournWeakPointer_same in H1 as ->. by apply IH in H2.
Qed.

Lemma MournWeakList_loop_finishes fuel : forall sv h R,
  Chain (cells (to_ h)) sv R -> NoDup R -> (length R <= fuel)%nat ->
  finishes (MournWeakList_loop fuel sv h).
Proof.
  induction fuel as [|fuel IH]; intros sv h R HR Hnd Hlen.
  - destruct R; [|simpl in Hlen; lia]. destruct sv; done.
  - destruct sv as [e|]; [|done].
    destruct R as [|e' R]; [done|]. simpl in HR.
    destruct HR as ([= <-] & o & Ho & HR).
    apply NoDup_cons in Hnd as [Hne Hnd].
    cbn [MournWeakList_loop].
    apply bind_finishes; [apply total_read_object|]. intros o' ? H.
    apply read_object_Ok in H as [-> Ho']. rewrite Ho in Ho'.
    injection Ho' as <-.
    apply bind_finishes; [apply total_ASSERT|]. intros [] ? H.
    apply ASSERT_Ok in H as [_ ->].
    apply bind_finishes; [apply total_mapM_MournWeakPointer|].
    intros sl ? H. apply mapM_MournWeakPointer_same in H as ->.
    apply bind_finishes; [apply total_write_to|]. intros [] ? H.
    unfold write_to in H. apply modify_Ok in H as ->.
    apply (IH _ _ R); [|done|simpl in Hlen; lia].
    simpl. by apply Chain_insert_other.
Qed.

Lemma MournWeakList_finishes fuel h W :
  Chain (cells (to_ h)) (weak_list_ h) W -> NoDup W ->
  (length W <= fuel)%nat ->
  finishes (MournWeakList fuel h).
Proof.
  intros HW Hnd Hlen. unfold MournWeakList.
  apply bind_finishes; [apply total_get|]. intros ? ? H.
  apply get_Ok in H as [-> ->].
  apply bind_finishes; [apply total_modify|]. intros [] ? H.
  apply modify_Ok in H as ->.
  by apply (MournWeakList_loop_finishes _ _ _ W).
Qed.

(** ** The collection *)

Lemma Scavenge_collect_finishes h0 :
  at_rest h0 -> finishes (Scavenge_collect h0).
Proof.
  intros Hrest. pose proof Hrest as (_ & _ & _ & Hwf).
  unfold Scavenge_collect.
  apply bind_finishes; [apply total_get|]. intros ? ? H.
  apply get_Ok in H as [-> ->].
  apply bind_finishes; [apply total_FlipSpaces|]. intros [] h1 H1.
  apply FlipSpaces_spec in H1
    as (HG1 & Htop1 & Hend1 & Hroots1 & _ & _ & _ & _ & Hto1); [|done].
  destruct HG1 as (HI1 & HE1 & HW1 & _). simpl in HE1, HW1.
  assert (Hb1 : bound h1 - object_start (to_ h1) <
                Z.of_nat (scavenge_fuel h0)).
  { unfold bound, scavenge_fuel. rewrite Htop1, Hend1.
    unfold limit, object_start, kNewObjectAlignmentOffset, kWordSize.
    destruct Hto1 as [(_ & -> & _)|(_ & -> & _)]; lia. }
  apply bind_finishes; [apply total_ProcessRoots|]. intros [] h2 H2.
  pose proof (ProcessRoots_within _ _ H2) as [Wo2 Wb2].
  eapply ProcessRoots_spec in H2 as (HI2 & L2 & I2 & _); eauto.
  unfold lists in I2. injection I2 as IE2 IW2. rewrite HE1 in IE2.
  rewrite HW1 in IW2.
  assert (HG2 : GInv h0 h2 (object_start (to_ h2)) [] []).
  { rewrite (layout_start _ _ L2), <- Htop1.
    split; [done|]. rewrite IE2, IW2.
    split; [done|]. split; [done|].
    split; [constructor|]. split; [constructor|].
    intros x Hx. by apply elem_of_nil in Hx. }
  apply bind_finishes; [apply total_get|]. intros ? ? H.
  apply get_Ok in H as [-> ->].
  apply bind_finishes.
  { eapply Scavenge_loop_finishes; eauto; lia. }
  intros [] h3 H3.
  pose proof (Scavenge_loop_within _ _ _ _ _ H3) as [Wo3 Wb3].
  eapply Scavenge_loop_spec in H3 as (E & W & HG3 & _ & _); eauto.
  2:{ intros _ e He. by apply elem_of_nil in He. }
  destruct (GInv_sized _ _ _ _ _ Hwf HG3) as [Hs3 _].
  destruct HG3 as (HI3 & HE3 & HW3 & HndE & HndW & Hdis).
  pose proof (Chain_length _ _ _ Hs3 HE3 HndE) as HlenE.
  pose proof (Chain_length _ _ _ Hs3 HW3 HndW) as HlenW.
  apply bind_finishes.
  { apply (MournEphemeronList_finishes _ _ E); [done|done|lia]. }
  intros [] h4 H4.
  eapply MournEphemeronList_spec in H4
    as (nil & T4 & _ & -> & HE4out & _); eauto.
  apply bind_finishes.
  { apply (MournWeakList_finishes _ _ W); [|done|lia].
    simpl. eapply Chain_ext; [|exact HW3].
    intros x Hx. apply HE4out. intros Hin. by apply (Hdis x). }
  intros [] h5 _.
  apply bind_finishes; [apply total_MournClassTable|]. intros [] h6 _.
  apply bind_finishes; [apply total_ClearCaches|]. intros [] h7 _.
  apply total_MarkUnallocated_from.
Qed.

(** What a collection leaves fits the semispace it was copied into. *)
Lemma Scavenge_collect_used h0 h' :
  at_rest h0 -> store_is_array h0 ->
  Scavenge_collect h0 = Ok (tt, h') ->
  used h' <= Z.max (size (to_ h') - kNewObjectAlignmentOffset) 0.
Proof.
  intros Hrest Harr H. pose proof Hrest as (_ & _ & _ & Hwf).
  unfold Scavenge_collect in H.
  apply bind_Ok in H as (? & ? & H1 & H). apply get_Ok in H1 as [-> ->].
  apply bind_Ok in H as ([] & h1 & H1 & H).
  apply bind_Ok in H as ([] & h2 & H2 & H).
  apply bind_Ok in H as (? & ? & Hg & H). apply get_Ok in Hg as [-> ->].
  apply bind_Ok in H as ([] & h3 & H3 & H).
  apply bind_Ok in H as ([] & h4 & H4 & H).
  apply bind_Ok in H as ([] & h5 & H5 & H).
  apply bind_Ok in H as ([] & h6 & H6 & H).
  apply bind_Ok in H as ([] & h7 & H7 & H).
  apply modify_Ok in H7. apply modify_Ok in H.
  apply FlipSpaces_spec in H1
    as (HG1 & Htop1 & Hend1 & Hroots1 & _ & _ & _ & _ & _); [|done].
  destruct HG1 as (HI1 & HE1 & HW1 & _). simpl in HE1, HW1.
  pose proof (ProcessRoots_within _ _ H2) as [Wo2 Wb2].
  eapply ProcessRoots_spec in H2 as (HI2 & L2 & I2 & M2 & T2 & Rs & _);
    eauto.
  unfold lists in I2. injection I2 as IE2 IW2. rewrite HE1 in IE2.
  rewrite HW1 in IW2.
  assert (HG2 : GInv h0 h2 (object_start (to_ h2)) [] []).
  { rewrite (layout_start _ _ L2), <- Htop1.
    split; [done|]. rewrite IE2, IW2.
    split; [done|]. split; [done|].
    split; [constructor|]. split; [constructor|].
    intros x Hx. by apply elem_of_nil in Hx. }
  pose proof (Scavenge_loop_within _ _ _ _ _ H3) as [Wo3 Wb3].
  eapply Scavenge_loop_spec in H3 as (E & W & HG3 & Hs3 & Hpend); eauto.
  2:{ intros _ e He. by apply elem_of_nil in He. }
  destruct HG3 as (HI3 & HE3 & HW3 & HndE & HndW & Hdis).
  destruct Hs3 as [L3 R3 M3 T3].
  unfold roots in R3. injection R3 as Ros3 Ract3 Rhs3.
  assert (Rs3 : reloc (cells (from_ h3)) (object_store_ h0) (object_store_ h3)).
  { rewrite Ros3. by eapply reloc_mono. }
  eapply MournEphemeronList_spec in H4
    as (nil & T4 & Hnil3 & -> & HE4out & HE4in); eauto.
  destruct (nil_obj_Ok _ _ _ Hnil3) as (_ & os & oos & Hos3 & Hoos3 & Hnilslot).
  assert (Hcos : cid oos = kArrayCid).
  { eapply scanned_store; eauto. by rewrite <- Hos3. }
  assert (HosE : os ∉ E).
  { intros Hin. destruct (HE4in _ Hin) as (o & ? & ? & ? & ? & Ho & Hc & _).
    rewrite Hoos3 in Ho. injection Ho as <-.
    rewrite Hcos in Hc. discriminate. }
  eapply (MournWeakList_spec _ _ W nil os oos) in H5
    as (T5 & -> & HW5out & HW5in); eauto.
  2:{ simpl. eapply Chain_ext; [|exact HW3].
      intros x Hx. apply HE4out. intros Hin. by apply (Hdis x). }
  2:{ simpl. by rewrite HE4out. }
  2:{ rewrite Hcos. discriminate. }
  apply MournClassTable_spec in H6 as (CT' & free' & -> & _).
  subst h7 h'. unfold used. simpl.
  destruct (layout_inv _ _ L2) as (_ & Lb2 & Ls2 & _).
  destruct (layout_inv _ _ L3) as (_ & Lb3 & Ls3 & _).
  unfold bound in Wb2, Wb3. rewrite Htop1, Hend1 in Wb2.
  unfold limit, object_start, kNewObjectAlignmentOffset, kWordSize in *.
  simpl. lia.
Qed.

(** [Moved] looks at the heap before the collection only through to-space,
    the roots and the class table. *)
Lemma Moved_ext h1 h1' h2 φ nil :
  to_ h1' = to_ h1 -> roots h1' = roots h1 ->
  class_table_ h1' = class_table_ h1 ->
  class_table_top_ h1' = class_table_top_ h1 ->
  Moved h1' h2 φ nil -> Moved h1 h2 φ nil.
Proof.
  intros Hto Hroots Hct Hctt HM.
  pose proof Hroots as Hr'. unfold roots in Hr'.
  injection Hr' as Hos Hact Hhs.
  split.
  - intros a. rewrite <- (mv_reach _ _ _ _ HM a). split.
    + apply Reach_ext; [by rewrite Hto|done|done].
    + apply Reach_ext; [by rewrite Hto|done|done].
  - exact (mv_inj _ _ _ _ HM).
  - intros n c Hc. rewrite <- Hto, <- Hctt.
    exact (mv_cells _ _ _ _ HM n c Hc).
  - exact (mv_range _ _ _ _ HM).
  - exact (mv_new _ _ _ _ HM).
  - exact (mv_tiled _ _ _ _ HM).
  - rewrite <- Hos. exact (mv_store _ _ _ _ HM).
  - rewrite <- Hact. exact (mv_activation _ _ _ _ HM).
  - rewrite <- Hhs. exact (mv_handles _ _ _ _ HM).
  - exact (mv_nil _ _ _ _ HM).
  - rewrite <- Hctt. exact (mv_class_top _ _ _ _ HM).
  - rewrite <- Hct, <- Hctt. exact (mv_class_table _ _ _ _ HM).
  - exact (mv_rest _ _ _ _ HM).
Qed.

(** The collection that follows an early growth leaves to-space at most
    half full: the growth is not repeated. *)
Lemma Scavenge_rec_after_growth d h0 h1 φ nil :
  well_formed h0 -> Moved h0 h1 φ nil ->
  0 <= size (to_ h1) -> used h1 <= size (to_ h1) ->
  finishes (Scavenge_rec d (Grow_realloc h1 (size (to_ h1) * 2))).
Proof.
  intros Hwf HM1 Hsz Hused.
  pose proof (Moved_well_formed _ _ _ _ HM1 Hwf) as Hwf1.
  pose proof (Grow_realloc_well_formed _ (size (to_ h1) * 2) Hwf1)
    as (Hrest & Harr & _).
  assert (Hstep : forall k : Heap -> M unit,
    finishes ((Scavenge_collect ;;;
               let* h := get in
               if used h >? 7 * size (to_ h) / 8 then k h else ret tt)
                (Grow_realloc h1 (size (to_ h1) * 2)))).
  { intros k.
    apply bind_finishes; [by apply Scavenge_collect_finishes|].
    intros [] h2 Hc.
    destruct (Scavenge_collect_spec _ _ Hrest Harr Hc) as (F & nil2 & HC).
    pose proof (Collected_Moved _ _ _ _ HC) as HM2.
    apply (Moved_ext h1) in HM2; [|done..].
    destruct Hwf as (_ & Harr0 & Hlegal0 & _).
    pose proof (second_used _ _ _ _ _ _ _ HM1 HM2 Hlegal0) as Hu.
    apply bind_finishes; [apply total_get|]. intros ? ? Hg.
    apply get_Ok in Hg as [-> ->].
    destruct (Z.gtb_spec (used h2) (7 * size (to_ h2) / 8)) as [Hgt|];
      [|done].
    destruct (col_to _ _ _ _ HC) as [(_ & Hs2 & _)|(_ & _ & _ & Hlt)];
      simpl in *; exfalso; [|lia].
    rewrite Hs2 in Hgt.
    assert (size (to_ h1) <= 7 * (size (to_ h1) * 2) / 8)
      by (apply Z.div_le_lower_bound; lia).
    lia. }
  destruct d; cbn [Scavenge_rec].
  - apply (Hstep (fun _ => timeout)).
  - apply (Hstep (fun h => Grow_with (Scavenge_rec d) (size (to_ h)))).
Qed.

Lemma Scavenge_rec_finishes d h0 :
  well_formed h0 -> 0 <= size (to_ h0) -> 0 <= size (from_ h0) ->
  finishes (Scavenge_rec (S d) h0).
Proof.
  intros Hwf Hto Hfrom. pose proof Hwf as (Hrest & Harr & _).
  cbn [Scavenge_rec].
  apply bind_finishes; [by apply Scavenge_collect_finishes|].
  intros [] h1 Hc.
  pose proof (Scavenge_collect_used _ _ Hrest Harr Hc) as Hused.
  destruct (Scavenge_collect_spec _ _ Hrest Harr Hc) as (F & nil1 & HC).
  pose proof (Collected_Moved _ _ _ _ HC) as HM1.
  assert (Hsz : 0 <= size (to_ h1)).
  { destruct (col_to _ _ _ _ HC) as [(_ & -> & _)|(_ & -> & _)]; done. }
  apply bind_finishes; [apply total_get|]. intros ? ? Hg.
  apply get_Ok in Hg as [-> ->].
  destruct (used h1 >? 7 * size (to_ h1) / 8); [|done].
  unfold Grow_with.
  apply bind_finishes; [apply total_get|]. intros ? ? Hg.
  apply get_Ok in Hg as [-> ->].
  apply bind_finishes; [apply total_ASSERT|]. intros [] ? Ha.
  apply ASSERT_Ok in Ha as [_ ->].
  assert (Hn : Grow_new_size 64 (size (to_ h1)) (size (to_ h1))
                 (size (to_ h1) * 2) = Ok (size (to_ h1) * 2)).
  { cbn [Grow_new_size].
    destruct (Z.ltb_spec (size (to_ h1) * 2 - size (to_ h1)) (size (to_ h1)));
      [lia|done]. }
  rewrite Hn.
  destruct (size (to_ h1) * 2 >? kMaxSemispaceSize); [done|].
  apply bind_finishes; [apply total_modify|]. intros [] ? Hm.
  apply modify_Ok in Hm as ->.
  apply (Scavenge_rec_after_growth d h0 h1 _ _ Hwf HM1 Hsz).
  unfold kNewObjectAlignmentOffset, kWordSize in Hused. lia.
Qed.

(** The fuel of [Scavenge] suffices. *)
Lemma Scavenge_finishes h0 :
  well_formed h0 -> 0 <= size (to_ h0) -> 0 <= size (from_ h0) ->
  Scavenge h0 <> Timeout.
Proof. apply Scavenge_rec_finishes. Qed.


(** ** [Grow] and [Allocate] *)

(** A scavenge never shrinks to-space. *)
Lemma Scavenge_rec_size depth : forall h0 h',
  well_formed h0 -> Scavenge_rec depth h0 = Ok (tt, h') ->
  size (to_ h0) <= size (to_ h').
Proof.
  induction depth as [|d IH]; intros h0 h' Hwf H; simpl in H;
    apply bind_Ok in H as ([] & h1 & Hc & H);
    apply bind_Ok in H as (? & ? & Hg & H); apply get_Ok in Hg as [-> ->];
    pose proof Hwf as (Hrest & Harr & Hlegal & Hnil);
    destruct (Scavenge_collect_spec _ _ Hrest Harr Hc) as (F & nil1 & HC);
    pose proof (Collected_Moved _ _ _ _ HC) as HM1;
    pose proof (col_size _ _ _ _ HC) as Hsz;
    destruct (used h1 >? 7 * size (to_ h1) / 8).
  - destruct (timeout_Ok _ _ H).
  - apply ret_Ok in H as [_ <-]. done.
  - apply Grow_with_Ok in H as (n & j & Hn & _ & Hrec).
    pose proof (Moved_well_formed _ _ _ _ HM1 Hwf) as Hwf1.
    pose proof (IH _ _ (Grow_realloc_well_formed _ n Hwf1) Hrec) as Hsz2.
    simpl in Hsz2. lia.
  - apply ret_Ok in H as [_ <-]. done.
Qed.

(** The doubling of [Grow] and the scavenge that follows end within the
    fuel of the model. *)
Lemma Grow_finishes req h :
  well_formed h -> 0 < size (to_ h) -> Grow req h <> Timeout.
Proof.
  intros Hwf Hpos. unfold Grow, Grow_with.
  apply bind_finishes; [apply total_get|]. intros ? ? Hg.
  apply get_Ok in Hg as [-> ->].
  apply bind_finishes; [apply total_ASSERT|]. intros [] ? Ha.
  apply ASSERT_Ok in Ha as [Hfit ->]. apply Z.leb_le in Hfit.
  destruct (Grow_new_size 64 (size (to_ h)) req (size (to_ h) * 2))
    as [n| | |] eqn:Hn; try done.
  - apply Grow_new_size_Ok in Hn as (j & -> & _).
    destruct (_ >? kMaxSemispaceSize); [done|].
    apply bind_finishes; [apply total_modify|]. intros [] ? Hm.
    apply modify_Ok in Hm as ->.
    apply (Scavenge_finishes (Grow_realloc h _)).
    + by apply Grow_realloc_well_formed.
    + simpl. lia.
    + simpl. apply Z.mul_nonneg_nonneg; [lia|]. apply Z.pow_nonneg. lia.
  - apply Grow_new_size_Timeout in Hn; [|exact Hfit].
    change (2 ^ Z.of_nat 64) with 18446744073709551616 in Hn.
    change kIntptrMax with 9223372036854775807 in Hn. lia.
Qed.

Lemma TryAllocate_zero sz h h' :
  TryAllocate sz h = Ok (0, h') -> h' = h.
Proof.
  intros H. apply TryAllocate_Ok in H as [_ [(_ & _ & ->)|(_ & H0 & Ha & _)]];
    [done|].
  unfold aligned_top in Ha. rewrite <- H0 in Ha. discriminate.
Qed.

Lemma Allocate_finishes sz h :
  well_formed h -> 0 < size (to_ h) -> 0 <= size (from_ h) ->
  Allocate sz h <> Timeout.
Proof.
  intros Hwf Hpos Hfrom. unfold Allocate.
  apply bind_finishes; [apply total_ASSERT|]. intros [] ? Ha.
  apply ASSERT_Ok in Ha as [_ ->].
  apply bind_finishes; [apply total_TryAllocate|]. intros r0 h0 H0.
  destruct (Z.eqb_spec r0 0) as [->|]; [|done].
  apply TryAllocate_zero in H0 as ->.
  apply bind_finishes; [apply Scavenge_finishes; [done|lia|done]|].
  intros [] h1 H1.
  pose proof (Scavenge_rec_size _ _ _ Hwf H1) as Hsz.
  destruct (Scavenge_spec _ _ Hwf H1) as [(φ & nil & HM) _].
  pose proof (Moved_well_formed _ _ _ _ HM Hwf) as Hwf1.
  apply bind_finishes; [apply total_TryAllocate|]. intros r1 h2 H2.
  destruct (Z.eqb_spec r1 0) as [->|]; [|done].
  apply TryAllocate_zero in H2 as ->.
  apply bind_finishes; [apply Grow_finishes; [done|lia]|]. intros [] h3 _.
  apply bind_finishes; [apply total_TryAllocate|]. intros r3 h4 _.
  destruct (r3 =? 0); done.
Qed.

(** * The claims about a scavenge *)

(** C1 as the claim states it: every reachable object has a to-space copy
    with its cid, payload and identity hash, and every pointer slot of every
    live object holds the new address of its referent, that is, the address
    of a to-space copy of the object the slot designated. *)
Definition copy_of (h0 h' : Heap) (a n : Z) : Prop :=
  exists o o', cells (to_ h0) !! a = Some (Live o) /\
    cells (to_ h') !! n = Some (Live o') /\
    cid o' = cid o /\ payload o' = payload o /\
    identity_hash o' = identity_hash o.

Definition slot_rewritten (h0 h' : Heap) (p p' : ObjectPtr) : Prop :=
  match ptr_target p with
  | None => p' = p
  | Some b => exists m, p' = HeapObject m /\ copy_of h0 h' b m
  end.

Definition Conservation_as_stated (h0 : Heap) : Prop :=
  forall h', Scavenge h0 = Ok (tt, h') ->
  forall a o, Reach h0 a -> cells (to_ h0) !! a = Some (Live o) ->
    exists n o', copy_of h0 h' a n /\
      cells (to_ h') !! n = Some (Live o') /\
      Forall2 (slot_rewritten h0 h') (slots o) (slots o').

(** C1, amended. A scavenge of a well-formed heap that returns moves the
    heap along a forwarding map [φ]: [φ] is defined exactly on the objects
    reachable as the scavenger traces (roots, strong slots, class-table
    entries, slots of ephemerons whose key is reachable), it is injective and
    onto the objects of the new to-space, so every reachable object has
    exactly one copy; the copy has the cid, heap size, identity hash and
    payload of the original; every root and every pointer slot is rewritten
    to the new address of its referent, except that a weak-array slot whose
    referent was not reachable, and the three slots of an ephemeron whose key
    was not reachable, hold [nil] ([moved_cell]). The loops of the scavenge
    end within the fuel of the model when no semispace has a negative size:
    the run is not [Timeout]. *)
Theorem Scavenge_conservation h0 :
  well_formed h0 ->
  (0 <= size (to_ h0) -> 0 <= size (from_ h0) -> Scavenge h0 <> Timeout) /\
  forall h', Scavenge h0 = Ok (tt, h') ->
  exists (φ : Z -> option Z) (nil : ObjectPtr),
    nil_obj h' = Ok (nil, h') /\
    (forall a, Reach h0 a <-> is_Some (φ a)) /\
    (forall a a' n, φ a = Some n -> φ a' = Some n -> a = a') /\
    (forall n, is_Some (cells (to_ h') !! n) <-> exists a, φ a = Some n) /\
    (forall a, Reach h0 a ->
       exists o n o', cells (to_ h0) !! a = Some (Live o) /\ φ a = Some n /\
         cells (to_ h') !! n = Some (Live o') /\
         cid o' = cid o /\ payload o' = payload o /\
         identity_hash o' = identity_hash o /\
         moved_cell φ h' nil o (Live o')) /\
    rel_ptr φ (object_store_ h0) (object_store_ h') /\
    rel_ptr φ (current_activation_ h0) (current_activation_ h') /\
    Forall2 (rel_ptr φ) (handles_ h0) (handles_ h').
Proof.
  intros Hwf. split; [by apply Scavenge_finishes|]. intros h' Hrun.
  destruct (Scavenge_spec _ _ Hwf Hrun) as [(φ & nil & HM) _].
  exists φ, nil.
  split; [exact (mv_nil _ _ _ _ HM)|].
  split; [exact (mv_reach _ _ _ _ HM)|].
  split; [exact (mv_inj _ _ _ _ HM)|].
  split; [|split].
  - intros n. split.
    + intros [c Hc].
      destruct (mv_cells _ _ _ _ HM _ _ Hc) as (a & _ & Ha & _). eauto.
    + intros [a Ha]. exact (mv_range _ _ _ _ HM _ _ Ha).
  - intros a Hreach. apply (mv_reach _ _ _ _ HM) in Hreach as [n Hn].
    destruct (mv_range _ _ _ _ HM _ _ Hn) as [c Hc].
    destruct (mv_cells _ _ _ _ HM _ _ Hc) as (a' & o & Ha' & Ho & _ & Hcell).
    assert (a' = a) as -> by exact (mv_inj _ _ _ _ HM _ _ _ Ha' Hn).
    pose proof Hcell as (o' & -> & Hcid & _ & Hhash & Hpay & _).
    exists o, n, o'. done.
  - split; [exact (mv_store _ _ _ _ HM)|].
    split; [exact (mv_activation _ _ _ _ HM)|exact (mv_handles _ _ _ _ HM)].
Qed.

(** ** The example heaps are well formed *)

Definition cell_ok (c : Cell) : bool :=
  match c with
  | Live o => (0 <? heap_size o) && (kFirstLegalCid <=? cid o)
  | _ => false
  end.

Definition hash_is (x : Z) (c : Cell) : bool :=
  match c with
  | Live o => identity_hash o =? x
  | _ => false
  end.

Lemma cells_ok_wf (m : gmap Z Cell) :
  map_Forall (fun _ c => cell_ok c = true) m ->
  wf_cells m /\ forall a o, m !! a = Some (Live o) -> kFirstLegalCid <= cid o.
Proof.
  intros H. split.
  - intros a c Hc. specialize (H _ _ Hc). destruct c as [o| |]; try done.
    simpl in H. apply andb_true_iff in H as [H _]. split; [done|].
    simpl. lia.
  - intros a o Ho. specialize (H _ _ Ho). simpl in H.
    apply andb_true_iff in H as [_ H]. lia.
Qed.

Lemma example_well_formed (h : Heap) os o nil :
  cells (from_ h) = ∅ -> ephemeron_list_ h = None -> weak_list_ h = None ->
  bool_decide (map_Forall (fun _ c => cell_ok c = true) (cells (to_ h)))
    = true ->
  object_store_ h = HeapObject os ->
  cells (to_ h) !! os = Some (Live o) -> cid o = kArrayCid ->
  slots o !! kNilIndex = Some nil -> ptr_target nil <> None ->
  well_formed h.
Proof.
  intros Hfrom He Hw Hcells Hos Ho Hcid Hnil Hobj.
  apply bool_decide_eq_true in Hcells. apply cells_ok_wf in Hcells as [Hwf Hl].
  split; [done|]. split; [|split; [done|]].
  - intros os' o' Hos' Ho'. rewrite Hos in Hos'. injection Hos' as <-.
    rewrite Ho in Ho'. injection Ho' as <-. done.
  - intros nil' H. rewrite (nil_obj_eq _ _ _ _ Hos Ho Hnil) in H.
    injection H as <-. done.
Qed.

Lemma weak_heap_well_formed : well_formed Examples.weak_heap.
Proof.
  eapply (example_well_formed _ 1032 _ (HeapObject 1064));
    try reflexivity; vm_compute; congruence.
Qed.

Lemma weak_heap_Scavenge :
  Scavenge Examples.weak_heap = Ok (tt, Examples.weak_heap_after).
Proof. vm_compute. reflexivity. Qed.

Lemma weak_heap_dead_referent n o :
  cells (to_ Examples.weak_heap_after) !! n = Some (Live o) ->
  identity_hash o <> 6.
Proof.
  assert (H : map_Forall (fun _ c => hash_is 6 c = false)
                (cells (to_ Examples.weak_heap_after))).
  { apply (proj1 (bool_decide_eq_true
             (map_Forall (fun _ c => hash_is 6 c = false)
                (cells (to_ Examples.weak_heap_after))))).
    vm_compute. reflexivity. }
  intros Ho Hh. specialize (H _ _ Ho). simpl in H. lia.
Qed.

Lemma Conservation_weak_slot_counterexample :
  ~ Conservation_as_stated Examples.weak_heap.
Proof.
  intros H.
  assert (Hreach : Reach Examples.weak_heap 1080).
  { eapply (Reach_slot _ 1032 _ (HeapObject 1080));
      [apply Reach_store; reflexivity|vm_compute; reflexivity
      |vm_compute; discriminate|vm_compute; discriminate
      |simpl; right; by left|reflexivity]. }
  destruct (H _ weak_heap_Scavenge 1080
              (mkObject kWeakArrayCid 32 0
                 [HeapObject 1112; HeapObject 1128] None [])
              Hreach ltac:(vm_compute; reflexivity))
    as (n & o' & _ & _ & Hsl).
  destruct (Forall2_lookup_l _ _ _ 1%nat _ Hsl eq_refl) as (p' & _ & Hp).
  destruct Hp as (m & _ & o1 & o1' & Ho1 & Ho1' & _ & _ & Hh).
  vm_compute in Ho1. injection Ho1 as <-.
  exact (weak_heap_dead_referent _ _ Ho1' Hh).
Qed.

Lemma Scavenge_conservation_witness :
  well_formed Examples.weak_heap /\
  Scavenge Examples.weak_heap <> Timeout /\
  Scavenge Examples.weak_heap = Ok (tt, Examples.weak_heap_after) /\
  exists (φ : Z -> option Z) (nil : ObjectPtr),
    nil_obj Examples.weak_heap_after = Ok (nil, Examples.weak_heap_after) /\
    (forall a, Reach Examples.weak_heap a <-> is_Some (φ a)) /\
    rel_ptr φ (object_store_ Examples.weak_heap)
      (object_store_ Examples.weak_heap_after).
Proof.
  split; [exact weak_heap_well_formed|].
  destruct (Scavenge_conservation _ weak_heap_well_formed) as [Hfin Hspec].
  split; [apply Hfin; vm_compute; discriminate|].
  split; [exact weak_heap_Scavenge|].
  destruct (Hspec _ weak_heap_Scavenge)
    as (φ & nil & Hnil & Hreach & _ & _ & _ & Hos & _).
  exists φ, nil. split; [exact Hnil|]. split; [exact Hreach|exact Hos].
Defined.

(** ** Ephemerons (C2) *)

(** C2 as the claim states it: an ephemeron that is live after the scavenge
    keeps its three slots when its key was an immediate or reachable along
    strong references only, and holds [nil] in all three otherwise. *)
Definition key_strongly_reachable (h0 : Heap) (k : ObjectPtr) : Prop :=
  match ptr_target k with None => True | Some ka => StrongReach h0 ka end.

(** The same with the reachability the scavenger computes. *)
Definition key_reachable (h0 : Heap) (k : ObjectPtr) : Prop :=
  match ptr_target k with None => True | Some ka => Reach h0 ka end.

(** A slot value that is an immediate (or old) or designates an object of
    to-space. *)
Definition retained (h' : Heap) (p : ObjectPtr) : Prop :=
  match ptr_target p with
  | None => True
  | Some n => exists o, cells (to_ h') !! n = Some (Live o)
  end.

Definition Ephemeron_semantics_as_stated (h0 : Heap) : Prop :=
  forall h' nil, Scavenge h0 = Ok (tt, h') -> nil_obj h' = Ok (nil, h') ->
  forall e' o', cells (to_ h') !! e' = Some (Live o') ->
    cid o' = kEphemeronCid ->
    exists e o k v f rest,
      cells (to_ h0) !! e = Some (Live o) /\
      identity_hash o = identity_hash o' /\
      slots o = k :: v :: f :: rest /\
      ((key_strongly_reachable h0 k /\
        exists k' v' f', slots o' = k' :: v' :: f' :: rest /\
          retained h' k' /\ retained h' v' /\ retained h' f') \/
       (~ key_strongly_reachable h0 k /\
        slots o' = nil :: nil :: nil :: rest)).

(** [forwarding_map h0 h' φ nil]: [φ] is the forwarding map of the scavenge
    that led from [h0] to [h']. It is defined exactly on the objects that
    were reachable, injective, and onto the objects of the new to-space; the
    object at [φ a] is the copy of the object at [a], with its cid, payload
    and identity hash and with its slots relocated ([moved_cell]); the roots
    are relocated by [φ]; [nil] is the relocated [nil]. *)
Definition forwarding_map (h0 h' : Heap) (φ : Z -> option Z)
    (nil : ObjectPtr) : Prop :=
  nil_obj h' = Ok (nil, h') /\
  (forall a, Reach h0 a <-> is_Some (φ a)) /\
  (forall a a' n, φ a = Some n -> φ a' = Some n -> a = a') /\
  (forall n, is_Some (cells (to_ h') !! n) <-> exists a, φ a = Some n) /\
  (forall a n, φ a = Some n ->
     exists o o', cells (to_ h0) !! a = Some (Live o) /\
       cells (to_ h') !! n = Some (Live o') /\
       cid o' = cid o /\ payload o' = payload o /\
       identity_hash o' = identity_hash o /\
       moved_cell φ h' nil o (Live o')) /\
  rel_ptr φ (object_store_ h0) (object_store_ h') /\
  rel_ptr φ (current_activation_ h0) (current_activation_ h') /\
  Forall2 (rel_ptr φ) (handles_ h0) (handles_ h').

Lemma Moved_forwarding_map h0 h' φ nil :
  Moved h0 h' φ nil -> forwarding_map h0 h' φ nil.
Proof.
  intros HM.
  split; [exact (mv_nil _ _ _ _ HM)|].
  split; [exact (mv_reach _ _ _ _ HM)|].
  split; [exact (mv_inj _ _ _ _ HM)|].
  split; [|split].
  - intros n. split.
    + intros [c Hc].
      destruct (mv_cells _ _ _ _ HM _ _ Hc) as (a & _ & Ha & _). eauto.
    + intros [a Ha]. exact (mv_range _ _ _ _ HM _ _ Ha).
  - intros a n Hn.
    destruct (mv_range _ _ _ _ HM _ _ Hn) as [c Hc].
    destruct (mv_cells _ _ _ _ HM _ _ Hc) as (a' & o & Ha' & Ho & _ & Hcell).
    assert (a' = a) as -> by exact (mv_inj _ _ _ _ HM _ _ _ Ha' Hn).
    pose proof Hcell as (o' & -> & Hcid & _ & Hhash & Hpay & _).
    exists o, o'. done.
  - split; [exact (mv_store _ _ _ _ HM)|].
    split; [exact (mv_activation _ _ _ _ HM)|exact (mv_handles _ _ _ _ HM)].
Qed.

(** A slot relocated by the forwarding map designates the copy of its
    referent. *)
Lemma forwarding_map_rewritten h0 h' φ nil p p' :
  forwarding_map h0 h' φ nil -> rel_ptr φ p p' -> slot_rewritten h0 h' p p'.
Proof.
  intros (_ & _ & _ & _ & Hcopy & _) Hr. unfold rel_ptr in Hr.
  unfold slot_rewritten. destruct (ptr_target p) as [a|]; [|done].
  destruct Hr as (n & Hn & ->). exists n. split; [done|].
  destruct (Hcopy _ _ Hn) as (o & o' & Ho & Ho' & Hc & Hp & Hh & _).
  exists o, o'. done.
Qed.

Lemma rel_ptr_retained h0 h' φ nil p p' :
  Moved h0 h' φ nil -> rel_ptr φ p p' -> retained h' p'.
Proof.
  intros HM Hr. unfold retained.
  destruct (ptr_target p') as [n|] eqn:Hn; [|done].
  destruct (rel_ptr_back _ _ _ _ Hr Hn) as (b & _ & Hb).
  destruct (mv_range _ _ _ _ HM _ _ Hb) as [c Hc].
  destruct (mv_cells _ _ _ _ HM _ _ Hc) as (_ & _ & _ & _ & _ & (o & -> & _)).
  eauto.
Qed.

(** C2, amended. After a scavenge of a well-formed heap, with [φ] the
    forwarding map of the scavenge ([forwarding_map]: defined exactly on the
    reachable objects, injective, onto the objects of to-space, each object
    carried to its copy), every ephemeron of to-space is the copy of an
    ephemeron that was reachable, and either its key was an immediate or
    reachable as the scavenger traces -- along strong references and through
    the slots of ephemerons whose own key is reachable -- in which case key,
    value and finalizer are unchanged immediates or the addresses [φ] gives
    their referents, which hold the copies of these referents; or its key
    was not reachable, in which case all three slots are [nil]. Reachability
    is the least such relation, so a path to the key that runs only through
    the ephemeron's own value does not keep the key alive. The loops of the
    scavenge end within the fuel of the model when no semispace has a
    negative size: the run is not [Timeout]. *)
Theorem Scavenge_ephemeron_semantics h0 :
  well_formed h0 ->
  (0 <= size (to_ h0) -> 0 <= size (from_ h0) -> Scavenge h0 <> Timeout) /\
  forall h', Scavenge h0 = Ok (tt, h') ->
  exists (φ : Z -> option Z) (nil : ObjectPtr),
    forwarding_map h0 h' φ nil /\
    forall e' o', cells (to_ h') !! e' = Some (Live o') ->
      cid o' = kEphemeronCid ->
      exists e o k v f rest,
        φ e = Some e' /\ cells (to_ h0) !! e = Some (Live o) /\
        cid o = kEphemeronCid /\ identity_hash o = identity_hash o' /\
        slots o = k :: v :: f :: rest /\
        ((key_reachable h0 k /\
          exists k' v' f', slots o' = k' :: v' :: f' :: rest /\
            rel_ptr φ k k' /\ rel_ptr φ v v' /\ rel_ptr φ f f' /\
            slot_rewritten h0 h' k k' /\ slot_rewritten h0 h' v v' /\
            slot_rewritten h0 h' f f' /\
            retained h' k' /\ retained h' v' /\ retained h' f') \/
         (~ key_reachable h0 k /\ slots o' = nil :: nil :: nil :: rest)).
Proof.
  intros Hwf. split; [by apply Scavenge_finishes|]. intros h' Hrun.
  destruct (Scavenge_spec _ _ Hwf Hrun) as [(φ & nil & HM) _].
  pose proof (Moved_forwarding_map _ _ _ _ HM) as Hfm.
  exists φ, nil. split; [exact Hfm|].
  intros e' o' Ho' Hcid'.
  destruct (mv_cells _ _ _ _ HM _ _ Ho')
    as (e & o & He & Ho & _ & (o2 & [= <-] & Hcid & _ & Hhash & _ & Hsl)).
  rewrite Hcid' in Hcid.
  rewrite decide_False in Hsl
    by (rewrite <- Hcid; unfold kEphemeronCid, kWeakArrayCid; lia).
  rewrite decide_True in Hsl by done.
  destruct Hsl as (k & v & f & rest & Hslots
                   & [(k' & v' & f' & Hslots' & Hk & Hv & Hf)
                     |(ka & Hka & Hnone & Hslots')]).
  - exists e, o, k, v, f, rest. do 4 (split; [done|]). split; [done|].
    left. split.
    + unfold key_reachable. destruct (ptr_target k) as [ka|] eqn:Hka; [|done].
      unfold rel_ptr in Hk. rewrite Hka in Hk. destruct Hk as (n & Hn & _).
      apply (mv_reach _ _ _ _ HM). eauto.
    + exists k', v', f'. do 4 (split; [done|]).
      split; [by eapply forwarding_map_rewritten|].
      split; [by eapply forwarding_map_rewritten|].
      split; [by eapply forwarding_map_rewritten|].
      split; [|split]; by eapply rel_ptr_retained.
  - exists e, o, k, v, f, rest. do 4 (split; [done|]). split; [done|].
    right. split; [|done].
    unfold key_reachable. rewrite Hka. intros Hr.
    apply (mv_reach _ _ _ _ HM) in Hr as [n Hn]. congruence.
Qed.

Ltac list_cases H :=
  rewrite ?elem_of_cons, ?elem_of_nil in H;
  repeat match type of H with
         | _ \/ _ => destruct H as [H|H]
         | False => destruct H
         end.

Lemma eph_heap_strong a :
  StrongReach Examples.eph_heap a ->
  a ∈ [1032; 1080; 1096; 1128; 1160; 1192].
Proof.
  induction 1 as [a Ha|a Ha|p a Hp Ha|a o p b Hr IH Ho Hnw Hne Hp Hb
                 |a o p b Hr IH Ho Hc Hp Hb].
  - vm_compute in Ha. injection Ha as <-. rewrite !elem_of_cons. auto.
  - vm_compute in Ha. discriminate.
  - simpl in Hp. by apply elem_of_nil in Hp.
  - list_cases IH; subst a; vm_compute in Ho; injection Ho as <-;
      try (by destruct Hne); try (by destruct Hnw);
      simpl in Hp; list_cases Hp; subst p; vm_compute in Hb;
      injection Hb as <-; rewrite !elem_of_cons; auto 10.
  - list_cases IH; subst a; vm_compute in Ho; injection Ho as <-;
      vm_compute in Hp; injection Hp as <-; vm_compute in Hb; discriminate.
Qed.

Lemma eph_heap_well_formed : well_formed Examples.eph_heap.
Proof.
  eapply (example_well_formed _ 1032 _ (HeapObject 1080));
    try reflexivity; vm_compute; congruence.
Qed.

Lemma eph_heap_Scavenge :
  Scavenge Examples.eph_heap = Ok (tt, Examples.eph_heap_after).
Proof. vm_compute. reflexivity. Qed.

Lemma eph_heap_e2 a o :
  cells (to_ Examples.eph_heap) !! a = Some (Live o) ->
  identity_hash o = 2 ->
  slots o = [HeapObject 1208; HeapObject 1224; HeapObject 1080].
Proof.
  assert (H : map_Forall
                (fun _ c => hash_is 2 c = true ->
                   c = Examples.obj kEphemeronCid 32 2
                         [HeapObject 1208; HeapObject 1224; HeapObject 1080])
                (cells (to_ Examples.eph_heap))).
  { apply (proj1 (bool_decide_eq_true (map_Forall _ _))).
    vm_compute. reflexivity. }
  intros Ho Hh. specialize (H _ _ Ho). simpl in H.
  rewrite Hh in H. specialize (H eq_refl). injection H as ->. done.
Qed.

Lemma Ephemeron_strong_path_counterexample :
  ~ Ephemeron_semantics_as_stated Examples.eph_heap.
Proof.
  intros H.
  destruct (H _ (HeapObject 2104) eph_heap_Scavenge
              ltac:(vm_compute; reflexivity) 2152
              (mkObject kEphemeronCid 32 2
                 [HeapObject 2232; HeapObject 2248; HeapObject 2104] None [])
              ltac:(vm_compute; reflexivity) eq_refl)
    as (e & o & k & v & f & rest & Ho & Hh & Hsl & Hcase).
  rewrite (eph_heap_e2 _ _ Ho Hh) in Hsl. injection Hsl as <- <- <- <-.
  destruct Hcase as [[Hk _]|[_ Hnil]].
  - apply eph_heap_strong in Hk. list_cases Hk; discriminate.
  - discriminate.
Qed.

Lemma Scavenge_ephemeron_semantics_witness :
  well_formed Examples.eph_heap /\
  Scavenge Examples.eph_heap <> Timeout /\
  Scavenge Examples.eph_heap = Ok (tt, Examples.eph_heap_after) /\
  exists (φ : Z -> option Z) (nil : ObjectPtr),
    forwarding_map Examples.eph_heap Examples.eph_heap_after φ nil.
Proof.
  split; [exact eph_heap_well_formed|].
  destruct (Scavenge_ephemeron_semantics _ eph_heap_well_formed)
    as [Hfin Hspec].
  split; [apply Hfin; vm_compute; discriminate|].
  split; [exact eph_heap_Scavenge|].
  destruct (Hspec _ eph_heap_Scavenge) as (φ & nil & Hfm & _).
  exists φ, nil. exact Hfm.
Defined.

(** ** Weak arrays (C3) *)

Lemma spaces_apart_to_not_from h n :
  spaces_apart h -> InToSpace h n = true -> InFromSpace h n = false.
Proof.
  unfold spaces_apart, InToSpace, InFromSpace, limit.
  intros (Hst & Hsf & _ & _ & Hap) Hin.
  apply andb_true_iff in Hin as [H1 H2].
  apply Z.leb_le in H1. apply Z.ltb_lt in H2.
  apply andb_false_iff.
  destruct (Z.leb_spec (base (from_ h)) n); [right|by left].
  apply Z.ltb_ge. lia.
Qed.

(** C3. After a scavenge of a well-formed heap whose semispaces do not
    overlap, with [φ] the forwarding map of the scavenge ([forwarding_map]:
    defined exactly on the reachable objects, injective, onto the objects of
    to-space, each object carried to its copy), every weak array of to-space
    is the copy of a weak array that was reachable, of the same length, and
    each of its slots is: unchanged when it held an immediate (or an
    old-space reference); the address [φ] gives its referent, which holds
    the copy of the referent, when the referent was reachable as the
    scavenger traces, that is, survived the strong-and-ephemeron fixpoint;
    [nil] when the referent was not reachable. In the last two cases the
    slot designates an object of to-space at an address that is not in
    from-space. Reachability has no rule for the slots of a weak array: they
    are not traced. The loops of the scavenge end within the fuel of the
    model: the run is not [Timeout]. *)
Theorem Scavenge_weak_clearing h0 :
  well_formed h0 -> spaces_apart h0 ->
  Scavenge h0 <> Timeout /\
  forall h', Scavenge h0 = Ok (tt, h') ->
  exists (φ : Z -> option Z) (nil : ObjectPtr),
    forwarding_map h0 h' φ nil /\
    forall w' o', cells (to_ h') !! w' = Some (Live o') ->
      cid o' = kWeakArrayCid ->
      exists w o, φ w = Some w' /\ cells (to_ h0) !! w = Some (Live o) /\
        cid o = kWeakArrayCid /\ length (slots o') = length (slots o) /\
        forall i s s', slots o !! i = Some s -> slots o' !! i = Some s' ->
          match ptr_target s with
          | None => s' = s
          | Some a =>
              ((Reach h0 a /\
                exists n, φ a = Some n /\ s' = HeapObject n /\
                  copy_of h0 h' a n) \/
               (~ Reach h0 a /\ s' = nil)) /\
              exists n, s' = HeapObject n /\ retained h' s' /\
                InToSpace h' n = true /\ InFromSpace h' n = false
          end.
Proof.
  intros Hwf Hsp. split.
  { destruct Hsp as (Hto & Hfrom & _). by apply Scavenge_finishes. }
  intros h' Hrun.
  destruct (Scavenge_spec _ _ Hwf Hrun) as [(φ & nil & HM) Hsp'].
  specialize (Hsp' Hsp).
  pose proof (Moved_forwarding_map _ _ _ _ HM) as Hfm.
  exists φ, nil. split; [exact Hfm|].
  intros w' o' Ho' Hcid'.
  destruct (mv_cells _ _ _ _ HM _ _ Ho')
    as (w & o & Hw & Ho & _ & (o2 & [= <-] & Hcid & _ & _ & _ & Hsl)).
  rewrite Hcid' in Hcid. rewrite decide_True in Hsl by done.
  exists w, o. do 3 (split; [done|]).
  split; [symmetry; by eapply Forall2_length|].
  intros i s s' Hs Hs'.
  pose proof (Forall2_lookup_lr _ _ _ _ _ _ Hsl Hs Hs') as Hws.
  unfold weak_ptr in Hws. destruct (ptr_target s) as [a|] eqn:Hts; [|done].
  destruct Hws as [Hcase (n & -> & Hin)]. split.
  - destruct Hcase as [(m & Hm & Hs'm)|[Hnone Hnil]].
    + left. split; [apply (mv_reach _ _ _ _ HM); eauto|].
      exists m. split; [done|]. split; [done|].
      destruct Hfm as (_ & _ & _ & _ & Hcopy & _).
      destruct (Hcopy _ _ Hm) as (oa & oa' & Hoa & Hoa' & Hc & Hp & Hh & _).
      exists oa, oa'. done.
    + right. split; [|done]. intros Hr.
      apply (mv_reach _ _ _ _ HM) in Hr as [m Hm]. congruence.
  - exists n. split; [done|]. split.
    + destruct Hcase as [(m & Hm & Hs'm)|[Hnone Hnil]].
      * eapply (rel_ptr_retained _ _ _ _ s); [exact HM|].
        unfold rel_ptr. rewrite Hts. eauto.
      * rewrite Hnil. unfold retained.
        destruct (ptr_target nil) as [b|] eqn:Hb; [|done].
        destruct Hwf as (_ & Harr & _).
        destruct (Moved_nil_cell _ _ _ _ _ HM Harr Hb) as [c Hc].
        destruct (mv_cells _ _ _ _ HM _ _ Hc)
          as (_ & _ & _ & _ & _ & (oc & -> & _)).
        eauto.
    + split; [done|]. by apply spaces_apart_to_not_from.
Qed.

Lemma weak_heap_spaces_apart : spaces_apart Examples.weak_heap.
Proof. unfold spaces_apart, limit. simpl. lia. Qed.

Lemma Scavenge_weak_clearing_witness :
  well_formed Examples.weak_heap /\ spaces_apart Examples.weak_heap /\
  Scavenge Examples.weak_heap <> Timeout /\
  Scavenge Examples.weak_heap = Ok (tt, Examples.weak_heap_after) /\
  exists (φ : Z -> option Z) (nil : ObjectPtr),
    forwarding_map Examples.weak_heap Examples.weak_heap_after φ nil.
Proof.
  split; [exact weak_heap_well_formed|].
  split; [exact weak_heap_spaces_apart|].
  destruct (Scavenge_weak_clearing _ weak_heap_well_formed
              weak_heap_spaces_apart) as [Hfin Hspec].
  split; [exact Hfin|].
  split; [exact weak_heap_Scavenge|].
  destruct (Hspec _ weak_heap_Scavenge) as (φ & nil & Hfm & _).
  exists φ, nil. exact Hfm.
Defined.

(** ** Two scavenges in a row (C9) *)

(** C9 as the claim states it: the second scavenge leaves [used()], the
    roots and the slots of every object as the first left them. *)
Definition Idempotence_as_stated (h0 : Heap) : Prop :=
  forall h1 h2, Scavenge h0 = Ok (tt, h1) -> Scavenge h1 = Ok (tt, h2) ->
    used h2 = used h1 /\
    object_store_ h2 = object_store_ h1 /\
    current_activation_ h2 = current_activation_ h1 /\
    handles_ h2 = handles_ h1 /\
    forall n o1, cells (to_ h1) !! n = Some (Live o1) ->
      exists o2, cells (to_ h2) !! n = Some (Live o2) /\
                 slots o2 = slots o1.


(** C9, amended. When two scavenges of a well-formed heap follow one
    another with no mutator activity in between, the second leaves the
    used-byte count unchanged and changes pointer values only by moving
    every object to the other semispace: there is a map [ψ] from the objects
    the first scavenge left onto the objects the second leaves, one to one,
    under which every root and every slot of every object is the relocated
    value it had after the first scavenge; no object is dropped, no weak slot
    and no ephemeron is cleared, and cid, size, identity hash and payload are
    unchanged. When the semispaces are mappings that do not overlap, the
    loops of both scavenges end within the fuel of the model: neither run is
    [Timeout]. *)
Theorem Scavenge_twice h0 :
  well_formed h0 ->
  (spaces_apart h0 ->
   Scavenge h0 <> Timeout /\
   forall h1, Scavenge h0 = Ok (tt, h1) -> Scavenge h1 <> Timeout) /\
  forall h1 h2,
  Scavenge h0 = Ok (tt, h1) -> Scavenge h1 = Ok (tt, h2) ->
  used h2 = used h1 /\
  exists ψ : Z -> option Z,
    (forall n, is_Some (cells (to_ h1) !! n) <-> is_Some (ψ n)) /\
    (forall n n' m, ψ n = Some m -> ψ n' = Some m -> n = n') /\
    (forall m, is_Some (cells (to_ h2) !! m) <-> exists n, ψ n = Some m) /\
    rel_ptr ψ (object_store_ h1) (object_store_ h2) /\
    rel_ptr ψ (current_activation_ h1) (current_activation_ h2) /\
    Forall2 (rel_ptr ψ) (handles_ h1) (handles_ h2) /\
    forall n o1, cells (to_ h1) !! n = Some (Live o1) ->
      exists m o2, ψ n = Some m /\ cells (to_ h2) !! m = Some (Live o2) /\
        cid o2 = cid o1 /\ heap_size o2 = heap_size o1 /\
        identity_hash o2 = identity_hash o1 /\ payload o2 = payload o1 /\
        relocated_slots ψ o1 o2.
Proof.
  intros Hwf. split.
  { intros Hsp. split.
    - destruct Hsp as (Hto & Hfrom & _). by apply Scavenge_finishes.
    - intros h1 Hrun1.
      destruct (Scavenge_spec _ _ Hwf Hrun1) as [(φ1 & nil1 & HM1) Hsp1].
      destruct (Hsp1 Hsp) as (Hto & Hfrom & _).
      apply Scavenge_finishes; [|done|done].
      exact (Moved_well_formed _ _ _ _ HM1 Hwf). }
  intros h1 h2 Hrun1 Hrun2.
  destruct (Scavenge_spec _ _ Hwf Hrun1) as [(φ1 & nil1 & HM1) _].
  pose proof (Moved_well_formed _ _ _ _ HM1 Hwf) as Hwf1.
  destruct (Scavenge_spec _ _ Hwf1 Hrun2) as [(φ2 & nil2 & HM2) _].
  destruct Hwf as (_ & Harr & Hlegal & _).
  split; [exact (second_used _ _ _ _ _ _ _ HM1 HM2 Hlegal)|].
  exists φ2.
  split; [exact (second_total _ _ _ _ _ _ _ HM1 HM2 Hlegal)|].
  split; [exact (mv_inj _ _ _ _ HM2)|].
  split.
  { intros m. split.
    - intros [c Hc].
      destruct (mv_cells _ _ _ _ HM2 _ _ Hc) as (n & _ & Hn & _). eauto.
    - intros [n Hn]. exact (mv_range _ _ _ _ HM2 _ _ Hn). }
  split; [exact (mv_store _ _ _ _ HM2)|].
  split; [exact (mv_activation _ _ _ _ HM2)|].
  split; [exact (mv_handles _ _ _ _ HM2)|].
  intros n o1 Ho1.
  destruct (proj1 (second_total _ _ _ _ _ _ _ HM1 HM2 Hlegal n)
              ltac:(eauto)) as [m Hm].
  destruct (Moved_cell_of _ _ _ _ HM2 _ _ _ Hm Ho1) as (o2 & Ho2 & _ & Hcell2).
  destruct (mv_cells _ _ _ _ HM1 _ _ Ho1) as (a & o0 & _ & _ & _ & Hcell1).
  pose proof Hcell2 as (o2' & [= <-] & Hc & Hs & Hh & Hp & _).
  exists m, o2. do 6 (split; [done|]).
  exact (second_cell _ _ _ _ _ _ _ HM1 HM2 Hlegal Harr _ _ _ Hcell1 Hcell2).
Qed.

Lemma weak_heap_Scavenge2 :
  Scavenge Examples.weak_heap_after = Ok (tt, Examples.weak_heap_after2).
Proof. vm_compute. reflexivity. Qed.

Lemma Idempotence_pointer_values_counterexample :
  ~ Idempotence_as_stated Examples.weak_heap.
Proof.
  intros H.
  destruct (H _ _ weak_heap_Scavenge weak_heap_Scavenge2) as (_ & Hos & _).
  vm_compute in Hos. discriminate.
Qed.

Lemma Scavenge_twice_witness :
  well_formed Examples.weak_heap /\
  Scavenge Examples.weak_heap <> Timeout /\
  Scavenge Examples.weak_heap = Ok (tt, Examples.weak_heap_after) /\
  Scavenge Examples.weak_heap_after <> Timeout /\
  Scavenge Examples.weak_heap_after = Ok (tt, Examples.weak_heap_after2) /\
  used Examples.weak_heap_after2 = used Examples.weak_heap_after.
Proof.
  split; [exact weak_heap_well_formed|].
  destruct (Scavenge_twice _ weak_heap_well_formed) as [Hfin Hspec].
  destruct (Hfin weak_heap_spaces_apart) as [Hfin1 Hfin2].
  split; [exact Hfin1|]. split; [exact weak_heap_Scavenge|].
  split; [exact (Hfin2 _ weak_heap_Scavenge)|].
  split; [exact weak_heap_Scavenge2|].
  exact (proj1 (Hspec _ _ weak_heap_Scavenge weak_heap_Scavenge2)).
Defined.


(** * Growth (C8) *)

(** C8 (amended). Growth sizing. With a positive to-space size [cur], [Grow]
    picks [cur * 2^k] for the least [k >= 1] with
    [cur * 2^k - cur >= size_requested] (the doubling never runs out of
    fuel); above [kMaxSemispaceSize] the outcome is [Fatal]; otherwise
    from-space becomes a fresh empty mapping of that size and [Scavenge]
    runs. The flip of that scavenge makes the fresh mapping to-space and
    keeps the old to-space, at its old size, as from-space, without mapping
    anything; a flip that finds from-space smaller than to-space — the flip
    of the scavenge after — is the one that maps a new to-space of the
    larger size. On a well-formed heap the scavenge that ends [Grow] stays
    within the fuel of the model as well: [Grow] is not [Timeout]. *)
Theorem Grow_sizing (size_requested : Z) (h : Heap)
    (Hcur : 0 < size (to_ h)) (Hfit : size (to_ h) * 2 <= kIntptrMax) :
  let cur := size (to_ h) in
  Grow_new_size 64 cur size_requested (cur * 2) <> Timeout /\
  (forall new_size,
     Grow_new_size 64 cur size_requested (cur * 2) = Ok new_size ->
     (exists k : nat, (1 <= k)%nat /\ new_size = cur * 2 ^ Z.of_nat k /\
        size_requested <= new_size - cur /\
        forall j : nat, (1 <= j < k)%nat ->
          cur * 2 ^ Z.of_nat j - cur < size_requested) /\
     (new_size > kMaxSemispaceSize -> Grow size_requested h = Fatal) /\
     (new_size <= kMaxSemispaceSize ->
        Grow size_requested h = Scavenge (Grow_realloc h new_size) /\
        forall h2, FlipSpaces (Grow_realloc h new_size) = Ok (tt, h2) ->
          to_ h2 = mkSemispace (vm_brk h) new_size ∅ /\
          from_ h2 = to_ h /\ vm_brk h2 = vm_brk h + new_size /\
          top_ h2 = object_start (to_ h2) /\ end_ h2 = limit (to_ h2))) /\
  (forall g g', size (from_ g) < size (to_ g) ->
     FlipSpaces g = Ok (tt, g') ->
     to_ g' = mkSemispace (vm_brk g) (size (to_ g)) ∅ /\ from_ g' = to_ g) /\
  (well_formed h -> Grow size_requested h <> Timeout).
Proof.
  intros cur. unfold cur. clear cur. split; [|split; [|split]].
  - intros Ht. apply Grow_new_size_Timeout in Ht; [|exact Hfit].
    change (2 ^ Z.of_nat 64) with 18446744073709551616 in Ht.
    change kIntptrMax with 9223372036854775807 in Ht. lia.
  - intros new_size Hn.
    pose proof (Grow_new_size_Ok _ _ _ _ _ Hn) as (j & Hj & Hreq & Hmin).
    assert (Hpow : 0 < 2 ^ Z.of_nat j) by (apply Z.pow_pos_nonneg; lia).
    split; [|split].
    + exists (S j). rewrite Nat2Z.inj_succ, Z.pow_succ_r by lia.
      split; [lia|]. split; [lia|]. split; [done|].
      intros [|i] Hi; [lia|].
      rewrite Nat2Z.inj_succ, Z.pow_succ_r by lia.
      specialize (Hmin i ltac:(lia)). lia.
    + intros Hbig. unfold Grow. rewrite (Grow_with_eq _ _ _ _ Hfit Hn).
      destruct (Z.gtb_spec new_size kMaxSemispaceSize); [reflexivity|lia].
    + intros Hsmall. split.
      * unfold Grow. rewrite (Grow_with_eq _ _ _ _ Hfit Hn).
        destruct (Z.gtb_spec new_size kMaxSemispaceSize); [lia|reflexivity].
      * intros h2 Hflip. apply FlipSpaces_Ok in Hflip.
        cbv zeta in Hflip. unfold Grow_realloc in Hflip.
        cbn [from_ to_ with_spaces size vm_brk] in Hflip.
        assert (Hlt : (new_size <? size (to_ h)) = false).
        { apply Z.ltb_ge. subst new_size. nia. }
        rewrite Hlt in Hflip. subst h2. done.
  - intros g g' Hlt Hflip. apply FlipSpaces_Ok in Hflip.
    cbv zeta in Hflip.
    apply Z.ltb_lt in Hlt. rewrite Hlt in Hflip. subst g'. done.
  - intros Hwf. by apply Grow_finishes.
Qed.

Lemma Grow_sizing_witness :
  0 < size (to_ Examples.weak_heap) /\
  Grow_new_size 64 512 16 1024 <> Timeout /\
  Grow 16 Examples.weak_heap <> Timeout.
Proof.
  split; [reflexivity|].
  destruct (Grow_sizing 16 Examples.weak_heap eq_refl
              ltac:(vm_compute; discriminate)) as (Hfuel & _ & _ & Hfin).
  split; [exact Hfuel|exact (Hfin weak_heap_well_formed)].
Defined.

(** * Allocation (C7) *)

(** C7. Allocation fallback chain. For an aligned [size]: the bump attempt
    returns the old [top_] and advances [top_] by [size] when
    [size <= end_ - top_], and returns 0 leaving the heap unchanged
    otherwise. [Allocate] returns the result of the first bump attempt that
    is not 0: that of the attempt on the heap as it is; when that one is 0,
    that of the attempt after a scavenge; when that one is 0 too, that of
    the attempt after a [Grow]. It returns nothing else, so it never returns
    0, and when the third attempt fails as well the outcome is [Fatal], as
    it is when the scavenge or the [Grow] is. On a
    well-formed heap with a to-space that is not empty the scavenge, the
    doubling of [Grow] and the scavenge that ends it stay within the fuel of
    the model: [Allocate] is not [Timeout]. *)
Theorem Allocate_fallback_chain (sz : Z) (h : Heap)
    (Hsize : Z.land sz kObjectAlignmentMask = 0) :
  (sz <= end_ h - top_ h -> aligned_top h ->
     TryAllocate sz h = Ok (top_ h, with_top h (top_ h + sz))) /\
  (end_ h - top_ h < sz -> TryAllocate sz h = Ok (0, h)) /\
  (forall raw h', TryAllocate sz h = Ok (raw, h') -> raw <> 0 ->
     Allocate sz h = Ok (raw, h')) /\
  (forall h0 h1 raw h', TryAllocate sz h = Ok (0, h0) ->
     Scavenge h0 = Ok (tt, h1) -> TryAllocate sz h1 = Ok (raw, h') ->
     raw <> 0 -> Allocate sz h = Ok (raw, h')) /\
  (forall h0 h1 h2 h3 raw h', TryAllocate sz h = Ok (0, h0) ->
     Scavenge h0 = Ok (tt, h1) -> TryAllocate sz h1 = Ok (0, h2) ->
     Grow sz h2 = Ok (tt, h3) -> TryAllocate sz h3 = Ok (raw, h') ->
     raw <> 0 -> Allocate sz h = Ok (raw, h')) /\
  (forall raw h', Allocate sz h = Ok (raw, h') ->
     raw <> 0 /\
     (TryAllocate sz h = Ok (raw, h') \/
      (exists h0 h1, TryAllocate sz h = Ok (0, h0) /\
         Scavenge h0 = Ok (tt, h1) /\ TryAllocate sz h1 = Ok (raw, h')) \/
      (exists h0 h1 h2 h3, TryAllocate sz h = Ok (0, h0) /\
         Scavenge h0 = Ok (tt, h1) /\ TryAllocate sz h1 = Ok (0, h2) /\
         Grow sz h2 = Ok (tt, h3) /\ TryAllocate sz h3 = Ok (raw, h')))) /\
  (forall h0 h1 h2 h3 h4, TryAllocate sz h = Ok (0, h0) ->
     Scavenge h0 = Ok (tt, h1) -> TryAllocate sz h1 = Ok (0, h2) ->
     Grow sz h2 = Ok (tt, h3) -> TryAllocate sz h3 = Ok (0, h4) ->
     Allocate sz h = Fatal) /\
  (forall h0, TryAllocate sz h = Ok (0, h0) -> Scavenge h0 = Fatal ->
     Allocate sz h = Fatal) /\
  (forall h0 h1 h2, TryAllocate sz h = Ok (0, h0) ->
     Scavenge h0 = Ok (tt, h1) -> TryAllocate sz h1 = Ok (0, h2) ->
     Grow sz h2 = Fatal -> Allocate sz h = Fatal) /\
  (well_formed h -> 0 < size (to_ h) -> 0 <= size (from_ h) ->
     Allocate sz h <> Timeout).
Proof.
  assert (Hmod : sz mod kObjectAlignment = 0)
    by (rewrite <- land_mask_mod; exact Hsize).
  assert (Hne : forall raw, raw <> 0 -> (raw =? 0) = false)
    by (intros raw Hraw; by apply Z.eqb_neq).
  split; [|split; [|split; [|split; [|split; [|split; [|split;
    [|split; [|split]]]]]]]].
  - intros. by apply TryAllocate_fits.
  - intros. by apply TryAllocate_full.
  - intros raw h' H0 Hraw. unfold Allocate, bind.
    rewrite Hsize. simpl. rewrite H0, (Hne _ Hraw). reflexivity.
  - intros h0 h1 raw h' H0 H1 H2 Hraw. unfold Allocate, bind.
    rewrite Hsize. simpl. rewrite H0. simpl. rewrite H1, H2, (Hne _ Hraw).
    reflexivity.
  - intros h0 h1 h2 h3 raw h' H0 H1 H2 H3 H4 Hraw. unfold Allocate, bind.
    rewrite Hsize. simpl. rewrite H0. simpl. rewrite H1, H2. simpl.
    rewrite H3, H4, (Hne _ Hraw). reflexivity.
  - intros raw h' H. unfold Allocate in H.
    apply bind_Ok in H as ([] & ? & Ha & H). apply ASSERT_Ok in Ha as [_ ->].
    apply bind_Ok in H as (r0 & h0 & H0 & H).
    destruct (Z.eqb_spec r0 0) as [->|Hr0];
      [|apply ret_Ok in H as [-> ->]; split; [done|by left]].
    apply bind_Ok in H as ([] & h1 & H1 & H).
    apply bind_Ok in H as (r1 & h2 & H2 & H).
    destruct (Z.eqb_spec r1 0) as [->|Hr1];
      [|apply ret_Ok in H as [-> ->]; split; [done|right; left; eauto 10]].
    apply bind_Ok in H as ([] & h3 & H3 & H).
    apply bind_Ok in H as (r2 & h4 & H4 & H).
    destruct (Z.eqb_spec r2 0) as [->|Hr2]; [destruct (fatal_Ok _ _ H)|].
    apply ret_Ok in H as [-> ->]. split; [done|right; right; eauto 10].
  - intros h0 h1 h2 h3 h4 H0 H1 H2 H3 H4. unfold Allocate, bind.
    rewrite Hsize. simpl. rewrite H0. simpl. rewrite H1, H2. simpl.
    rewrite H3, H4. reflexivity.
  - intros h0 H0 H1. unfold Allocate, bind.
    rewrite Hsize. simpl. rewrite H0. simpl. rewrite H1. reflexivity.
  - intros h0 h1 h2 H0 H1 H2 H3. unfold Allocate, bind.
    rewrite Hsize. simpl. rewrite H0. simpl. rewrite H1, H2. simpl.
    rewrite H3. reflexivity.
  - intros Hwf Hto Hfrom. by apply Allocate_finishes.
Qed.

Lemma Allocate_fallback_chain_witness :
  Z.land 16 kObjectAlignmentMask = 0 /\
  TryAllocate 16 Examples.weak_heap =
    Ok (1144, with_top Examples.weak_heap 1160) /\
  Allocate 16 Examples.weak_heap =
    Ok (1144, with_top Examples.weak_heap 1160) /\
  Allocate 16 Examples.weak_heap <> Timeout.
Proof.
  split; [reflexivity|].
  destruct (Allocate_fallback_chain 16 Examples.weak_heap eq_refl)
    as (Hfit & _ & Hfirst & _ & _ & _ & _ & _ & _ & Hfin).
  assert (Hbump : TryAllocate 16 Examples.weak_heap =
                  Ok (1144, with_top Examples.weak_heap 1160))
    by (apply Hfit; [vm_compute; discriminate|reflexivity]).
  split; [exact Hbump|]. split.
  - apply Hfirst; [exact Hbump|discriminate].
  - apply Hfin;
      [exact weak_heap_well_formed|reflexivity|vm_compute; discriminate].
Defined.

(** * Walking to-space: [CountInstances] and [CollectInstances] (C10) *)

(** The header cid the walk reads at a cell. *)
Definition cid_of (c : Cell) : Z :=
  match c with
  | Live o => cid o
  | Corpse _ _ => kForwardingCorpseCid
  | Forwarded _ => kIllegalCid
  end.

(** The addresses among [l], in the order of [l], whose cell carries
    [cid]. *)
Fixpoint instances_of (m : gmap Z Cell) (cid : Z) (l : list Z) : list Z :=
  match l with
  | [] => []
  | x :: l' =>
      if match m !! x with Some c => cid_of c =? cid | None => false end
      then x :: instances_of m cid l'
      else instances_of m cid l'
  end.

(** The array [arr] with [found] stored into its first elements. *)
Definition collected_into (arr : Object) (found : list Z) : Object :=
  set_slots arr ((HeapObject <$> found) ++ drop (length found) (slots arr)).

Definition store_instances (h : Heap) (array : Z) (arr : Object)
    (found : list Z) : Heap :=
  with_to_cells h
    (<[array := Live (collected_into arr found)]> (cells (to_ h))).

Lemma bind_run {A B} (m : M A) (k : A -> M B) h a h1 :
  m h = Ok (a, h1) -> bind m k h = k a h1.
Proof. unfold bind. intros ->. done. Qed.

Lemma bind_Trap {A B} (m : M A) (k : A -> M B) h :
  m h = Trap -> bind m k h = Trap.
Proof. unfold bind. intros ->. done. Qed.

Lemma with_to_cells_same h : with_to_cells h (cells (to_ h)) = h.
Proof. destruct h as [? ? [? ? ?] ? ? ? ? ? ? ? ? ? ? ? ?]. done. Qed.

Lemma set_slots_same o : set_slots o (slots o) = o.
Proof. by destruct o. Qed.

Lemma store_instances_nil h array arr :
  cells (to_ h) !! array = Some (Live arr) ->
  store_instances h array arr [] = h.
Proof.
  intros Ha. unfold store_instances, collected_into. simpl.
  rewrite drop_0, set_slots_same, insert_id by done.
  apply with_to_cells_same.
Qed.

Lemma Tiled_length m a l b :
  Tiled m a l b -> Z.of_nat (length l) <= b - a.
Proof.
  revert a. induction l as [|x l IH]; simpl; intros a.
  - intros ->. lia.
  - intros (-> & c & _ & _ & Hpos & Ht). apply IH in Ht. lia.
Qed.

Lemma cell_cid_run c h : not_forwarded c -> cell_cid c h = Ok (cid_of c, h).
Proof. by destruct c. Qed.

Lemma HeapSize_run c h :
  not_forwarded c -> HeapSize c h = Ok (cell_heap_size c, h).
Proof. by destruct c. Qed.

Lemma CountInstances_loop_spec h cid : forall l fuel scan k,
  Tiled (cells (to_ h)) scan l (top_ h) -> (length l <= fuel)%nat ->
  CountInstances_loop fuel cid k scan h =
  Ok (k + Z.of_nat (length (instances_of (cells (to_ h)) cid l)), h).
Proof.
  induction l as [|x l IH]; intros fuel scan k Ht Hfuel; simpl in Ht.
  - subst scan. destruct fuel; simpl; unfold bind, get;
      rewrite Z.ltb_irrefl; unfold ret; do 2 f_equal; lia.
  - destruct Ht as (-> & c & Hc & Hnf & Hpos & Ht).
    destruct fuel as [|fuel]; [simpl in Hfuel; lia|].
    pose proof (Tiled_le _ _ _ _ Ht) as Hle.
    cbn [CountInstances_loop]. rewrite (bind_run get _ h h h) by done.
    rewrite (proj2 (Z.ltb_lt _ _)) by lia.
    rewrite (bind_run (read_to scan) _ h c h)
      by (unfold read_to; rewrite Hc; done).
    rewrite (bind_run (cell_cid c) _ h _ h (cell_cid_run _ _ Hnf)).
    rewrite (bind_run (HeapSize c) _ h _ h (HeapSize_run _ _ Hnf)).
    rewrite (IH _ _ _ Ht) by (simpl in Hfuel; lia).
    cbn [instances_of]. rewrite Hc.
    destruct (cid_of c =? cid); simpl length; do 2 f_equal; lia.
Qed.

Lemma set_element_run h array o i v :
  cells (to_ h) !! array = Some (Live o) ->
  set_element array (Z.of_nat i) v h =
  if decide (i < length (slots o))%nat
  then Ok (tt, with_to_cells h
                 (<[array := Live (set_slots o (<[i := v]> (slots o)))]>
                    (cells (to_ h))))
  else Trap.
Proof.
  intros Ho. unfold set_element.
  rewrite (bind_run (read_object array) _ h o h)
    by (by apply read_object_Live).
  rewrite (bind_run (ASSERT _) _ h tt h)
    by (rewrite (proj2 (Z.leb_le _ _)) by lia; done).
  case_decide as Hi.
  - rewrite (bind_run (ASSERT _) _ h tt h)
      by (rewrite (proj2 (Z.ltb_lt _ _)) by lia; done).
    unfold write_to, modify. rewrite Nat2Z.id. done.
  - apply bind_Trap. rewrite (proj2 (Z.ltb_ge _ _)) by lia. done.
Qed.

Lemma collected_into_snoc arr pre x :
  (length pre < length (slots arr))%nat ->
  set_slots (collected_into arr pre)
    (<[length pre := HeapObject x]> (slots (collected_into arr pre)))
  = collected_into arr (pre ++ [x]).
Proof.
  intros Hlt. unfold collected_into, set_slots. simpl. f_equal.
  rewrite length_app, fmap_app. simpl. rewrite <- app_assoc. simpl.
  destruct (lookup_lt_is_Some_2 (slots arr) (length pre) Hlt) as [y Hy].
  rewrite (drop_S _ y _ Hy).
  rewrite insert_app_r_alt by (rewrite length_fmap; lia).
  rewrite length_fmap, Nat.sub_diag. simpl.
  rewrite Nat.add_1_r. done.
Qed.

Lemma store_instances_lookup h array arr pre x c :
  cells (to_ h) !! array = Some (Live arr) ->
  cells (to_ h) !! x = Some c ->
  exists c', cells (to_ (store_instances h array arr pre)) !! x = Some c' /\
    cid_of c' = cid_of c /\ cell_heap_size c' = cell_heap_size c /\
    (not_forwarded c -> not_forwarded c').
Proof.
  intros Ha Hc. unfold store_instances. simpl.
  destruct (decide (x = array)) as [->|Hne].
  - rewrite lookup_insert_eq. rewrite Ha in Hc. injection Hc as <-.
    eexists. split; [done|]. done.
  - rewrite lookup_insert_ne by done. eauto.
Qed.

Lemma CollectInstances_loop_spec h cid array arr :
  cells (to_ h) !! array = Some (Live arr) ->
  forall l fuel scan pre,
  Tiled (cells (to_ h)) scan l (top_ h) -> (length l <= fuel)%nat ->
  (length pre <= length (slots arr))%nat ->
  CollectInstances_loop fuel cid array (Z.of_nat (length pre)) scan
    (store_instances h array arr pre) =
  if decide (length pre + length (instances_of (cells (to_ h)) cid l)
             <= length (slots arr))%nat
  then Ok (Z.of_nat (length pre
                     + length (instances_of (cells (to_ h)) cid l)),
           store_instances h array arr
             (pre ++ instances_of (cells (to_ h)) cid l))
  else Trap.
Proof.
  intros Ha.
  induction l as [|x l IH]; intros fuel scan pre Ht Hfuel Hpre; simpl in Ht.
  - subst scan. simpl instances_of. simpl length.
    rewrite decide_True by lia. rewrite app_nil_r, Nat.add_0_r.
    destruct fuel; simpl; unfold bind, get; simpl;
      rewrite Z.ltb_irrefl; done.
  - destruct Ht as (-> & c & Hc & Hnf & Hpos & Ht).
    destruct fuel as [|fuel]; [simpl in Hfuel; lia|].
    pose proof (Tiled_le _ _ _ _ Ht) as Hle.
    set (hk := store_instances h array arr pre).
    destruct (store_instances_lookup h array arr pre scan c Ha Hc)
      as (c' & Hc' & Hcid' & Hsz' & Hnf'). specialize (Hnf' Hnf).
    fold hk in Hc'.
    cbn [CollectInstances_loop]. rewrite (bind_run get _ hk hk hk) by done.
    replace (top_ hk) with (top_ h) by done.
    rewrite (proj2 (Z.ltb_lt _ _)) by lia.
    rewrite (bind_run (read_to scan) _ hk c' hk)
      by (unfold read_to; rewrite Hc'; done).
    rewrite (bind_run (cell_cid c') _ hk _ hk (cell_cid_run _ _ Hnf')).
    rewrite Hcid'. cbn [instances_of]. rewrite Hc.
    destruct (cid_of c =? cid) eqn:Hmatch.
    + assert (Harr : cells (to_ hk) !! array
                     = Some (Live (collected_into arr pre))).
      { unfold hk, store_instances. simpl. by rewrite lookup_insert_eq. }
      pose proof (set_element_run hk array _ (length pre) (HeapObject scan)
                    Harr) as Hset.
      assert (Hlen : length (slots (collected_into arr pre))
                     = length (slots arr)).
      { unfold collected_into. simpl.
        rewrite length_app, length_fmap, length_drop. lia. }
      rewrite Hlen in Hset. simpl length.
      destruct (decide (length pre < length (slots arr))%nat) as [Hlt|Hge].
      * rewrite (bind_run _ _ hk tt _ Hset).
        rewrite collected_into_snoc by done.
        replace (with_to_cells hk _)
          with (store_instances h array arr (pre ++ [scan]))
          by (unfold hk, store_instances; simpl; by rewrite insert_insert_eq).
        destruct (store_instances_lookup h array arr (pre ++ [scan]) scan c
                    Ha Hc) as (c2 & Hc2 & _ & Hsz2 & Hnf2).
        specialize (Hnf2 Hnf).
        rewrite (bind_run (read_to scan) _ _ c2 _)
          by (unfold read_to; rewrite Hc2; done).
        rewrite (bind_run (HeapSize c2) _ _ _ _ (HeapSize_run _ _ Hnf2)).
        rewrite Hsz2.
        replace (Z.of_nat (length pre) + 1)
          with (Z.of_nat (length (pre ++ [scan])))
          by (rewrite length_app; simpl; lia).
        rewrite (IH _ _ _ Ht) by (rewrite ?length_app; simpl in *; lia).
        rewrite length_app. simpl length. rewrite <- app_assoc. simpl.
        replace (length pre + 1
                 + length (instances_of (cells (to_ h)) cid l))%nat
          with (length pre
                + S (length (instances_of (cells (to_ h)) cid l)))%nat
          by lia.
        done.
      * rewrite (bind_Trap _ _ hk Hset). rewrite decide_False by lia. done.
    + rewrite (bind_run (ret tt) _ hk tt hk) by done.
      rewrite (bind_run (read_to scan) _ hk c' hk)
        by (unfold read_to; rewrite Hc'; done).
      rewrite (bind_run (HeapSize c') _ hk _ hk (HeapSize_run _ _ Hnf')).
      rewrite Hsz'. apply IH; [done|simpl in Hfuel; lia|done].
Qed.

Lemma instances_of_elem m cid l x :
  x ∈ instances_of m cid l <->
  x ∈ l /\ exists c, m !! x = Some c /\ cid_of c = cid.
Proof.
  induction l as [|y l IH]; simpl.
  - rewrite !elem_of_nil. tauto.
  - destruct (m !! y) as [c|] eqn:Hy.
    + destruct (Z.eqb_spec (cid_of c) cid) as [Heq|Hne].
      * rewrite !elem_of_cons, IH. split.
        -- intros [->|[Hx Hc]]; [|by auto]. split; [by left|eauto].
        -- intros [[->|Hx] Hc]; [by left|right; done].
      * rewrite elem_of_cons, IH. split.
        -- intros [Hx Hc]. split; [by right|done].
        -- intros [[->|Hx] (c' & Hc' & Hcid)]; [|eauto].
           rewrite Hy in Hc'. injection Hc' as <-. done.
    + rewrite elem_of_cons, IH. split.
      * intros [Hx Hc]. split; [by right|done].
      * intros [[->|Hx] (c' & Hc' & Hcid)]; [congruence|eauto].
Qed.

Lemma Tiled_instances_sorted m cid a l b :
  Tiled m a l b -> StronglySorted Z.lt (instances_of m cid l).
Proof.
  revert a. induction l as [|x l IH]; simpl; intros a; [constructor|].
  intros (-> & c & Hc & _ & Hpos & Ht). rewrite Hc.
  destruct (cid_of c =? cid); [|eauto].
  constructor; [eauto|]. apply Forall_forall. intros y Hy.
  apply instances_of_elem in Hy as [Hy _].
  pose proof (Tiled_bounds _ _ _ _ _ Ht Hy). lia.
Qed.

(** C10. Over a to-space that tiles from [object_start] to [top_] with the
    cells at [l], [CountInstances cid] returns the number of cells of [l]
    whose header carries [cid] -- every object of to-space, reachable or
    not. [CollectInstances cid array] returns the same number and stores
    those objects into elements [0 .. count-1] of [array] in ascending
    address order, leaving the other elements alone, when [array] has at
    least that many elements; when it has fewer, the store past its last
    element is made without a check, which is undefined ([Trap]). *)
Theorem CollectInstances_CountInstances h l cid array arr :
  Tiled (cells (to_ h)) (object_start (to_ h)) l (top_ h) ->
  cells (to_ h) !! array = Some (Live arr) ->
  let found := instances_of (cells (to_ h)) cid l in
  CountInstances cid h = Ok (Z.of_nat (length found), h) /\
  (forall x, x ∈ found <->
     x ∈ l /\ exists c, cells (to_ h) !! x = Some c /\ cid_of c = cid) /\
  StronglySorted Z.lt found /\
  CollectInstances cid array h =
    if decide (length found <= length (slots arr))%nat
    then Ok (Z.of_nat (length found), store_instances h array arr found)
    else Trap.
Proof.
  intros Ht Ha found.
  assert (Hfuel : (length l <= walk_fuel h)%nat).
  { unfold walk_fuel. pose proof (Tiled_length _ _ _ _ Ht). lia. }
  split; [|split; [|split]].
  - unfold CountInstances. rewrite (bind_run get _ h h h) by done.
    rewrite (CountInstances_loop_spec h cid l _ _ 0 Ht Hfuel). done.
  - intros x. apply instances_of_elem.
  - by eapply Tiled_instances_sorted.
  - unfold CollectInstances. rewrite (bind_run get _ h h h) by done.
    pose proof (CollectInstances_loop_spec h cid array arr Ha l _ _ []
                  Ht Hfuel ltac:(simpl; lia)) as H.
    rewrite store_instances_nil in H by done. exact H.
Qed.

Lemma weak_heap_tiled :
  Tiled (cells (to_ Examples.weak_heap)) (object_start (to_ Examples.weak_heap))
    [1032; 1064; 1080; 1112; 1128] (top_ Examples.weak_heap).
Proof.
  simpl.
  repeat (split; [reflexivity|]; eexists;
          split; [vm_compute; reflexivity|];
          split; [exact I|]; split; [reflexivity|]).
  reflexivity.
Qed.

Lemma CollectInstances_CountInstances_witness :
  Tiled (cells (to_ Examples.weak_heap)) (object_start (to_ Examples.weak_heap))
    [1032; 1064; 1080; 1112; 1128] (top_ Examples.weak_heap) /\
  CountInstances 16 Examples.weak_heap = Ok (3, Examples.weak_heap) /\
  CollectInstances 16 1080 Examples.weak_heap = Trap.
Proof.
  split; [exact weak_heap_tiled|].
  destruct (CollectInstances_CountInstances Examples.weak_heap
              [1032; 1064; 1080; 1112; 1128] 16 1080
              (mkObject kWeakArrayCid 32 0
                 [HeapObject 1112; HeapObject 1128] None [])
              weak_heap_tiled ltac:(vm_compute; reflexivity))
    as (Hcount & _ & _ & Hcollect).
  split; [exact Hcount|exact Hcollect].
Defined.

(** * [BecomeForward]: the forwarding passes *)

(** A reference followed through a forwarding corpse, as [ForwardPointer]
    does. *)
Definition become_fwd (m : gmap Z Cell) (p : ObjectPtr) : ObjectPtr :=
  match p with
  | HeapObject a =>
      match m !! a with Some (Corpse _ t) => t | _ => p end
  | SmallInteger _ => p
  end.

(** [Behavior::id()] of the class at [p]; through a corpse, the id of the
    stale body. *)
Definition id_of (m : gmap Z Cell) (p : ObjectPtr) : option ObjectPtr :=
  match p with
  | HeapObject a =>
      match m !! a with
      | Some (Live o) => slots o !! kBehaviorIdIndex
      | Some (Corpse o _) => slots o !! kBehaviorIdIndex
      | _ => None
      end
  | SmallInteger _ => None
  end.

(** The free list of the class table: from the head [f], through the
    released cids [l], down to [f0]. *)
Inductive FreeChain (t : list ObjectPtr) (f0 : Z) : Z -> list Z -> Prop :=
| FreeChain_nil : FreeChain t f0 f0 []
| FreeChain_cons i f l :
    t !! Z.to_nat i = Some (SmallInteger f) -> FreeChain t f0 f l ->
    FreeChain t f0 i (i :: l).

(** Entry [i] of the class table of [h] is a forwarding corpse whose stale
    body carries [old_id] and whose target [new_class] carries [new_id]. *)
Definition class_corpse (h : Heap) (i : Z) (new_class old_id new_id : ObjectPtr)
    : Prop :=
  exists a stale,
    class_table_ h !! Z.to_nat i = Some (HeapObject a) /\
    cells (to_ h) !! a = Some (Corpse stale new_class) /\
    slots stale !! kBehaviorIdIndex = Some old_id /\
    id_of (cells (to_ h)) new_class = Some new_id.

Lemma IsForwardingCorpse_Ok p h b h' :
  IsForwardingCorpse p h = Ok (b, h') ->
  h' = h /\
  match p with
  | SmallInteger _ => b = false
  | HeapObject a =>
      exists c, cells (to_ h) !! a = Some c /\ not_forwarded c /\
                b = (cid_of c =? kForwardingCorpseCid)
  end.
Proof.
  destruct p as [v|a]; simpl; intros H.
  - apply ret_Ok in H as [-> ->]. done.
  - apply bind_Ok in H as (c & h1 & Hr & H). apply read_to_Ok in Hr as [-> Hc].
    apply bind_Ok in H as (k & h2 & Hk & H). apply ret_Ok in H as [-> ->].
    destruct c as [o|s t|n]; simpl in Hk;
      try (apply ret_Ok in Hk as [-> ->]; split; [done|];
           eexists; split; [done|]; done).
    destruct (trap_Ok _ _ Hk).
Qed.

Lemma corpse_target_Ok p h t h' :
  corpse_target p h = Ok (t, h') ->
  h' = h /\ exists a stale,
    p = HeapObject a /\ cells (to_ h) !! a = Some (Corpse stale t).
Proof.
  destruct p as [v|a]; simpl; intros H; [destruct (trap_Ok _ _ H)|].
  apply bind_Ok in H as (c & h1 & Hr & H). apply read_to_Ok in Hr as [-> Hc].
  destruct c as [o|s t'|n]; try destruct (trap_Ok _ _ H).
  apply ret_Ok in H as [-> ->]. eauto.
Qed.

Lemma Behavior_id_Ok p h x h' :
  Behavior_id p h = Ok (x, h') ->
  h' = h /\ id_of (cells (to_ h)) p = Some x.
Proof.
  destruct p as [v|a]; simpl; intros H; [destruct (trap_Ok _ _ H)|].
  apply bind_Ok in H as (c & h1 & Hr & H). apply read_to_Ok in Hr as [-> Hc].
  rewrite Hc. destruct c as [o|s t'|n]; try destruct (trap_Ok _ _ H);
    apply lift_Ok in H as [Hx ->]; done.
Qed.

Lemma ForwardPointer_Ok p h p' h' :
  ForwardPointer p h = Ok (p', h') ->
  h' = h /\ p' = become_fwd (cells (to_ h)) p.
Proof.
  unfold ForwardPointer. intros H.
  apply bind_Ok in H as (b & h1 & Hb & H).
  apply IsForwardingCorpse_Ok in Hb as [-> Hb].
  destruct b.
  - apply bind_Ok in H as (t & h1 & Ht & H).
    apply corpse_target_Ok in Ht as (-> & a & stale & -> & Ha).
    apply bind_Ok in H as (b2 & h1 & Hb2 & H).
    apply IsForwardingCorpse_Ok in Hb2 as [-> _].
    apply bind_Ok in H as (? & h1 & Has & H). apply ASSERT_Ok in Has as [_ ->].
    apply ret_Ok in H as [-> ->]. split; [done|]. simpl. by rewrite Ha.
  - apply ret_Ok in H as [-> ->]. split; [done|].
    destruct p as [v|a]; [done|]. destruct Hb as (c & Hc & _ & Hcid).
    simpl. rewrite Hc. destruct c; try done.
Qed.

Lemma mapM_ForwardPointer_Ok ps : forall h ps' h',
  mapM ForwardPointer ps h = Ok (ps', h') ->
  h' = h /\ ps' = become_fwd (cells (to_ h)) <$> ps.
Proof.
  induction ps as [|p ps IH]; simpl; intros h ps' h' H.
  - apply ret_Ok in H as [-> ->]. done.
  - apply bind_Ok in H as (p' & h1 & Hp & H).
    apply ForwardPointer_Ok in Hp as [-> ->].
    apply bind_Ok in H as (ps1 & h1 & Hps & H).
    apply IH in Hps as [-> ->]. apply ret_Ok in H as [-> ->]. done.
Qed.

(** What [ForwardClassTable] leaves in entry [j]: an entry that is not a
    forwarding corpse is unchanged; a corpse whose target carries the same
    id is replaced by the target; any other corpse -- the target carries
    [nil] or another id -- is released, [released] being the cids the pass
    pushes onto the free list. *)
Definition entry_forwarded (h h' : Heap) (nil : ObjectPtr) (released : list Z)
    (j : Z) : Prop :=
  (exists p, class_table_ h !! Z.to_nat j = Some p /\
     (forall a stale t,
        p = HeapObject a -> cells (to_ h) !! a <> Some (Corpse stale t)) /\
     class_table_ h' !! Z.to_nat j = Some p /\ j ∉ released) \/
  (exists new_class old_id new_id,
     class_corpse h j new_class old_id new_id /\
     IsSmallInteger old_id = true /\
     (IsSmallInteger new_id = true \/ new_id = nil) /\
     if decide (old_id = new_id)
     then class_table_ h' !! Z.to_nat j = Some new_class /\ j ∉ released
     else (exists f, class_table_ h' !! Z.to_nat j = Some (SmallInteger f)) /\
          j ∈ released).

Lemma FreeChain_app t f0 f1 f2 l1 l2 :
  FreeChain t f1 f2 l2 -> FreeChain t f0 f1 l1 -> FreeChain t f0 f2 (l2 ++ l1).
Proof.
  induction 1 as [|i f l Hi Hc IH]; simpl; [done|].
  intros H1. econstructor; eauto.
Qed.

Lemma entry_forwarded_ext h1 h h' nil rel rel' j :
  class_table_ h1 !! Z.to_nat j = class_table_ h !! Z.to_nat j ->
  cells (to_ h1) = cells (to_ h) ->
  (j ∈ rel -> j ∈ rel') -> (j ∉ rel -> j ∉ rel') ->
  entry_forwarded h1 h' nil rel j -> entry_forwarded h h' nil rel' j.
Proof.
  intros Ht Hm Hin Hout [(p & Hp & Hnc & Hp' & Hj)|(nc & oi & ni & Hcc & H1 & H2 & H3)].
  - left. exists p. rewrite <- Ht, <- Hm. eauto.
  - right. exists nc, oi, ni. split.
    + destruct Hcc as (a & stale & Ha & Hc & Hs & Hid).
      exists a, stale. rewrite <- Ht, <- Hm. done.
    + do 2 (split; [done|]). case_decide.
      * destruct H3. eauto.
      * destruct H3. eauto.
Qed.

Lemma ForwardClassTable_loop_spec nil : forall n i h h',
  0 <= i ->
  ForwardClassTable_loop n nil i h = Ok (tt, h') ->
  h' = with_class_table h (class_table_ h') (class_table_free_ h') /\
  length (class_table_ h') = length (class_table_ h) /\
  (forall j, 0 <= j -> j < i \/ i + Z.of_nat n <= j ->
     class_table_ h' !! Z.to_nat j = class_table_ h !! Z.to_nat j) /\
  exists released,
    FreeChain (class_table_ h') (class_table_free_ h) (class_table_free_ h')
      released /\
    (forall j, j ∈ released -> i <= j < i + Z.of_nat n) /\
    forall j, i <= j < i + Z.of_nat n ->
      entry_forwarded h h' nil released j.
Proof.
  induction n as [|n IH]; intros i h h' Hi H.
  - simpl in H. apply ret_Ok in H as [_ ->].
    split; [apply with_class_table_id|]. split; [done|]. split; [done|].
    exists []. split; [constructor|]. split.
    + intros j Hj. by apply elem_of_nil in Hj.
    + intros j Hj. lia.
  - cbn [ForwardClassTable_loop] in H.
    apply bind_Ok in H as (? & ? & Hg & H). apply get_Ok in Hg as [-> ->].
    apply bind_Ok in H as (old_class & ? & Hl & H).
    apply lift_Ok in Hl as [Hold ->].
    apply bind_Ok in H as (corpse & ? & Hc & H).
    apply IsForwardingCorpse_Ok in Hc as [-> Hc].
    apply bind_Ok in H as ([] & h1 & Hstep & H).
    assert (Hi1 : 0 <= i + 1) by lia.
    destruct (IH _ _ _ Hi1 H) as (Hh' & Hlen & Hframe & rel & Hchain & Hrel & Hent).
    clear IH H.
    assert (Hlt : (Z.to_nat i < length (class_table_ h))%nat)
      by (eapply lookup_lt_Some; eauto).
    destruct corpse; simpl in Hstep.
    + (* a forwarding corpse *)
      apply bind_Ok in Hstep as (new_class & ? & Ht & Hstep).
      apply corpse_target_Ok in Ht as (-> & a & stale & -> & Ha).
      apply bind_Ok in Hstep as (b2 & ? & Hb2 & Hstep).
      apply IsForwardingCorpse_Ok in Hb2 as [-> _].
      apply bind_Ok in Hstep as (? & ? & Has & Hstep).
      apply ASSERT_Ok in Has as [_ ->].
      apply bind_Ok in Hstep as (old_id & ? & Ho & Hstep).
      apply Behavior_id_Ok in Ho as [-> Hoid]. simpl in Hoid.
      rewrite Ha in Hoid.
      apply bind_Ok in Hstep as (new_id & ? & Hn & Hstep).
      apply Behavior_id_Ok in Hn as [-> Hnid].
      apply bind_Ok in Hstep as (? & ? & Has & Hstep).
      apply ASSERT_Ok in Has as [Hsmall ->].
      apply bind_Ok in Hstep as (? & ? & Has & Hstep).
      apply ASSERT_Ok in Has as [Hnew ->].
      assert (Hnew' : IsSmallInteger new_id = true \/ new_id = nil).
      { apply orb_true_iff in Hnew as [?|Hd]; [by left|right].
        by apply bool_decide_eq_true in Hd. }
      assert (Hcc : class_corpse h i new_class old_id new_id).
      { exists a, stale. done. }
      destruct (bool_decide (old_id = new_id)) eqn:Heq;
        apply modify_Ok in Hstep; subst h1; simpl in *.
      * apply bool_decide_eq_true in Heq.
        split; [by rewrite Hh'|]. split; [by rewrite Hlen, length_insert|].
        split.
        { intros j Hj0 Hj. rewrite Hframe by lia.
          apply list_lookup_insert_ne. lia. }
        exists rel. split; [done|]. split; [intros j Hj; apply Hrel in Hj; lia|].
        intros j Hj. destruct (decide (j = i)) as [->|Hne].
        -- right. exists new_class, old_id, new_id. do 3 (split; [done|]).
           rewrite decide_True by done. split.
           ++ rewrite Hframe by lia. by apply list_lookup_insert_eq.
           ++ intros Hin. apply Hrel in Hin. lia.
        -- eapply entry_forwarded_ext; [| | | |apply Hent; lia]; simpl.
           ++ apply list_lookup_insert_ne. lia.
           ++ done.
           ++ done.
           ++ done.
      * apply bool_decide_eq_false in Heq.
        split; [by rewrite Hh'|]. split; [by rewrite Hlen, length_insert|].
        split.
        { intros j Hj0 Hj. rewrite Hframe by lia.
          apply list_lookup_insert_ne. lia. }
        assert (Hti : class_table_ h' !! Z.to_nat i
                      = Some (SmallInteger (class_table_free_ h))).
        { rewrite Hframe by lia. by apply list_lookup_insert_eq. }
        exists (rel ++ [i]). split.
        { eapply FreeChain_app; [exact Hchain|].
          econstructor; [exact Hti|constructor]. }
        split.
        { intros j Hj. apply elem_of_app in Hj as [Hj|Hj].
          - apply Hrel in Hj. lia.
          - apply list_elem_of_singleton in Hj. lia. }
        intros j Hj. destruct (decide (j = i)) as [->|Hne].
        -- right. exists new_class, old_id, new_id. do 3 (split; [done|]).
           rewrite decide_False by done. split; [eauto|].
           apply elem_of_app. right. by apply list_elem_of_singleton.
        -- eapply entry_forwarded_ext; [| | | |apply Hent; lia]; simpl.
           ++ apply list_lookup_insert_ne. lia.
           ++ done.
           ++ intros Hin. apply elem_of_app. by left.
           ++ intros Hout Hin. apply elem_of_app in Hin as [Hin|Hin]; [done|].
              apply list_elem_of_singleton in Hin. done.
    + (* not a corpse *)
      apply ret_Ok in Hstep as [_ ->].
      split; [done|]. split; [done|]. split.
      { intros j Hj0 Hj. apply Hframe; lia. }
      exists rel. split; [done|]. split; [intros j Hj; apply Hrel in Hj; lia|].
      intros j Hj. destruct (decide (j = i)) as [->|Hne]; [|apply Hent; lia].
      left. exists old_class. split; [done|]. split.
      * intros a stale t -> Hcell. destruct Hc as (c & Hc & _ & Hcid).
        rewrite Hcell in Hc. injection Hc as <-. done.
      * split; [rewrite Hframe by lia; done|].
        intros Hin. apply Hrel in Hin. lia.
Qed.

Lemma Behavior_set_id_Ok p id h u h' :
  Behavior_set_id p id h = Ok (u, h') ->
  exists b nb, p = HeapObject b /\ cells (to_ h) !! b = Some (Live nb) /\
    (kBehaviorIdIndex < length (slots nb))%nat /\
    h' = with_to_cells h
           (<[b := Live (set_slots nb (<[kBehaviorIdIndex := id]> (slots nb)))]>
              (cells (to_ h))).
Proof.
  destruct p as [v|b]; simpl; intros H; [destruct (trap_Ok _ _ H)|].
  apply bind_Ok in H as (nb & h1 & Hr & H).
  apply read_object_Ok in Hr as [-> Hb].
  apply bind_Ok in H as (? & h1 & Has & H). apply ASSERT_Ok in Has as [Hlt ->].
  apply modify_Ok in H. apply Nat.ltb_lt in Hlt. eauto 10.
Qed.

(** [ForwardClass], inverted: the class of [object] is not a corpse and
    nothing changes, or it is a corpse and the header of [object] takes the
    id of the target, which first adopts the id of the corpse when its own
    is [nil]. *)
Lemma ForwardClass_Ok object h u h' :
  ForwardClass object h = Ok (u, h') ->
  exists o old_class,
    cells (to_ h) !! object = Some (Live o) /\
    class_table_ h !! Z.to_nat (cid o) = Some old_class /\
    (((forall a stale t, old_class = HeapObject a ->
         cells (to_ h) !! a <> Some (Corpse stale t)) /\ h' = h) \/
     (exists a stale new_class new_id nil h1 v o1,
        old_class = HeapObject a /\
        cells (to_ h) !! a = Some (Corpse stale new_class) /\
        id_of (cells (to_ h)) new_class = Some new_id /\
        nil_obj h = Ok (nil, h) /\
        (if decide (new_id = nil) then
           exists old_id b nb,
             slots stale !! kBehaviorIdIndex = Some old_id /\
             IsSmallInteger old_id = true /\
             new_class = HeapObject b /\
             cells (to_ h) !! b = Some (Live nb) /\
             h1 = with_to_cells h
                    (<[b := Live (set_slots nb
                                    (<[kBehaviorIdIndex := old_id]> (slots nb)))]>
                       (cells (to_ h)))
         else h1 = h) /\
        id_of (cells (to_ h1)) new_class = Some (SmallInteger v) /\
        cells (to_ h1) !! object = Some (Live o1) /\
        h' = with_to_cells h1
               (<[object := Live (set_cid o1 v)]> (cells (to_ h1))))).
Proof.
  unfold ForwardClass. intros H.
  apply bind_Ok in H as (o & ? & Hr & H). apply read_object_Ok in Hr as [-> Ho].
  apply bind_Ok in H as (? & ? & Hg & H). apply get_Ok in Hg as [-> ->].
  apply bind_Ok in H as (? & ? & Has & H). apply ASSERT_Ok in Has as [_ ->].
  apply bind_Ok in H as (? & ? & Has & H). apply ASSERT_Ok in Has as [_ ->].
  apply bind_Ok in H as (old_class & ? & Hl & H).
  apply lift_Ok in Hl as [Hold ->].
  apply bind_Ok in H as (corpse & ? & Hc & H).
  apply IsForwardingCorpse_Ok in Hc as [-> Hc].
  exists o, old_class. do 2 (split; [done|]).
  destruct corpse.
  2:{ apply ret_Ok in H as [_ ->]. left. split; [|done].
      intros a stale t -> Hcell. destruct Hc as (c & Hc & _ & Hcid).
      rewrite Hcell in Hc. injection Hc as <-. done. }
  right.
  apply bind_Ok in H as (new_class & ? & Ht & H).
  apply corpse_target_Ok in Ht as (-> & a & stale & -> & Ha).
  apply bind_Ok in H as (b2 & ? & Hb2 & H).
  apply IsForwardingCorpse_Ok in Hb2 as [-> _].
  apply bind_Ok in H as (? & ? & Has & H). apply ASSERT_Ok in Has as [_ ->].
  apply bind_Ok in H as (new_id & ? & Hn & H).
  apply Behavior_id_Ok in Hn as [-> Hnid].
  apply bind_Ok in H as (nil & ? & Hnil & H).
  pose proof (nil_obj_Ok _ _ _ Hnil) as [-> _].
  apply bind_Ok in H as ([] & h1 & Hadopt & H).
  apply bind_Ok in H as (new_id' & ? & Hn' & H).
  apply Behavior_id_Ok in Hn' as [-> Hnid'].
  destruct new_id' as [v|]; [|destruct (trap_Ok _ _ H)].
  apply bind_Ok in H as (o1 & ? & Hr & H).
  apply read_object_Ok in Hr as [-> Ho1].
  unfold write_to in H. apply modify_Ok in H.
  exists a, stale, new_class, new_id, nil, h1, v, o1.
  do 4 (split; [done|]). split; [|done].
  case_decide as Hd.
  - rewrite bool_decide_eq_true_2 in Hadopt by done.
    apply bind_Ok in Hadopt as (old_id & ? & Ho' & Hadopt).
    apply Behavior_id_Ok in Ho' as [-> Hoid]. simpl in Hoid.
    rewrite Ha in Hoid.
    apply bind_Ok in Hadopt as (? & ? & Has & Hadopt).
    apply ASSERT_Ok in Has as [Hsmall ->].
    apply Behavior_set_id_Ok in Hadopt as (b & nb & -> & Hb & _ & ->).
    exists old_id, b, nb. done.
  - rewrite bool_decide_eq_false_2 in Hadopt by done.
    apply ret_Ok in Hadopt as [_ ->]. done.
Qed.

(** C6 as the claim states it: for an entry whose class is a forwarding
    corpse, the class-table pass adopts the cid when the target's id is
    [nil] -- the target's id becomes the corpse's and the entry becomes the
    target -- and releases the cid when the target carries another id. *)
Definition Class_table_adoption_as_stated (h : Heap) : Prop :=
  forall nil h' i new_class old_id new_id,
    nil_obj h = Ok (nil, h) ->
    ForwardClassTable h = Ok (tt, h') ->
    kFirstLegalCid <= i < class_table_top_ h ->
    class_corpse h i new_class old_id new_id ->
    (new_id = nil ->
       class_table_ h' !! Z.to_nat i = Some new_class /\
       id_of (cells (to_ h')) new_class = Some old_id) /\
    (new_id <> nil -> new_id <> old_id ->
       exists f, class_table_ h' !! Z.to_nat i = Some (SmallInteger f)).

Lemma ForwardClassTable_spec h h' nil :
  nil_obj h = Ok (nil, h) -> ForwardClassTable h = Ok (tt, h') ->
  h' = with_class_table h (class_table_ h') (class_table_free_ h') /\
  length (class_table_ h') = length (class_table_ h) /\
  (forall j, 0 <= j -> j < kFirstLegalCid \/ class_table_top_ h <= j ->
     class_table_ h' !! Z.to_nat j = class_table_ h !! Z.to_nat j) /\
  exists released,
    FreeChain (class_table_ h') (class_table_free_ h) (class_table_free_ h')
      released /\
    forall i, kFirstLegalCid <= i < class_table_top_ h ->
      entry_forwarded h h' nil released i.
Proof.
  intros Hnil H. unfold ForwardClassTable in H.
  apply bind_Ok in H as (nil' & ? & Hnil' & H).
  pose proof (nil_obj_Ok _ _ _ Hnil') as [-> _].
  rewrite Hnil in Hnil'. injection Hnil' as <-.
  apply bind_Ok in H as (? & ? & Hg & H). apply get_Ok in Hg as [-> ->].
  apply ForwardClassTable_loop_spec in H
    as (Hh' & Hlen & Hframe & rel & Hchain & _ & Hent);
    [|unfold kFirstLegalCid; lia].
  split; [done|]. split; [done|]. split.
  - intros j Hj0 Hj. apply Hframe; [done|]. lia.
  - exists rel. split; [done|]. intros i Hi. apply Hent. lia.
Qed.

(** The passes of [BecomeForward] other than the walk over to-space have
    no loop that fuel bounds. *)

Lemma total_IsForwardingCorpse p : total (IsForwardingCorpse p).
Proof. unfold IsForwardingCorpse. total_tac. Qed.
Lemma total_corpse_target p : total (corpse_target p).
Proof. unfold corpse_target. total_tac. Qed.
Lemma total_Behavior_id p : total (Behavior_id p).
Proof. unfold Behavior_id. total_tac. Qed.
Lemma total_Behavior_set_id p id : total (Behavior_set_id p id).
Proof. unfold Behavior_set_id. total_tac. Qed.
#[local] Hint Resolve total_IsForwardingCorpse total_corpse_target
  total_Behavior_id total_Behavior_set_id : total.

Lemma total_ForwardClass object : total (ForwardClass object).
Proof. unfold ForwardClass. total_tac. Qed.
Lemma total_ForwardPointer p : total (ForwardPointer p).
Proof. unfold ForwardPointer. total_tac. Qed.
#[local] Hint Resolve total_ForwardClass total_ForwardPointer : total.

Lemma total_mapM_ForwardPointer ps : total (mapM ForwardPointer ps).
Proof. apply total_mapM. auto with total. Qed.
#[local] Hint Resolve total_mapM_ForwardPointer : total.

Lemma total_ForwardRoots : total ForwardRoots.
Proof. unfold ForwardRoots. total_tac. Qed.

Lemma total_ForwardClassTable_loop nil n : forall i,
  total (ForwardClassTable_loop n nil i).
Proof.
  induction n as [|n IH]; intros i; cbn [ForwardClassTable_loop].
  - auto with total.
  - apply total_bind; [auto with total|]. intros h.
    apply total_bind; [auto with total|]. intros old_class.
    apply total_bind; [auto with total|]. intros corpse.
    apply total_bind; [|intros _; apply IH].
    total_tac.
Qed.

Lemma total_ForwardClassTable : total ForwardClassTable.
Proof.
  unfold ForwardClassTable.
  apply total_bind; [auto with total|]. intros nil.
  apply total_bind; [auto with total|]. intros h.
  apply total_ForwardClassTable_loop.
Qed.

Lemma total_element array i : total (element array i).
Proof. unfold element. total_tac. Qed.
#[local] Hint Resolve total_element : total.

Lemma total_become_install old neu i : total (become_install old neu i).
Proof. unfold become_install. total_tac. Qed.

Lemma total_become_install_loop old neu n : forall i,
  total (become_install_loop old neu n i).
Proof.
  induction n as [|n IH]; intros i; cbn [become_install_loop].
  - auto with total.
  - apply total_bind; [apply total_become_install|]. intros _. apply IH.
Qed.

(** C6, amended. The class-table forwarding pass changes only the class
    table and its free list; it sets no id. For an entry whose class is a
    forwarding corpse it writes the target into the entry when the target
    carries the id of the corpse, and otherwise -- the target carries [nil]
    or another id -- releases the cid onto the free list. The adoption of
    the cid is made before, by [ForwardClass], for a class of which the
    to-space pass visits an instance: when the target's id is [nil] it is
    set to the id of the corpse, and the instance takes that cid; the
    class-table pass then finds equal ids. Neither has a loop that could run
    out of fuel. *)
Theorem Class_table_forwarding :
  (forall h h' nil,
     nil_obj h = Ok (nil, h) -> ForwardClassTable h = Ok (tt, h') ->
     h' = with_class_table h (class_table_ h') (class_table_free_ h') /\
     exists released,
       FreeChain (class_table_ h') (class_table_free_ h)
         (class_table_free_ h') released /\
       forall i, kFirstLegalCid <= i < class_table_top_ h ->
         entry_forwarded h h' nil released i) /\
  (forall h h' nil object o a stale b nb old_id,
     nil_obj h = Ok (nil, h) ->
     cells (to_ h) !! object = Some (Live o) ->
     class_table_ h !! Z.to_nat (cid o) = Some (HeapObject a) ->
     cells (to_ h) !! a = Some (Corpse stale (HeapObject b)) ->
     slots stale !! kBehaviorIdIndex = Some old_id ->
     cells (to_ h) !! b = Some (Live nb) ->
     slots nb !! kBehaviorIdIndex = Some nil ->
     ForwardClass object h = Ok (tt, h') ->
     exists v o',
       old_id = SmallInteger v /\
       id_of (cells (to_ h')) (HeapObject b) = Some old_id /\
       cells (to_ h') !! object = Some (Live o') /\ cid o' = v /\
       cells (to_ h') !! a = Some (Corpse stale (HeapObject b)) /\
       class_table_ h' = class_table_ h) /\
  (forall h, ForwardClassTable h <> Timeout) /\
  (forall object h, ForwardClass object h <> Timeout).
Proof.
  split; [|split; [|split;
    [exact total_ForwardClassTable|exact total_ForwardClass]]].
  - intros h h' nil Hnil H.
    destruct (ForwardClassTable_spec _ _ _ Hnil H) as (Hh' & _ & _ & Hrel).
    done.
  - intros h h' nil object o a stale b nb old_id Hnil Ho Hct Ha Hold Hb Hid H.
    apply ForwardClass_Ok in H
      as (o_ & old_class & Ho_ & Hct_ & [[Hnc _]|Hcorpse]).
    { rewrite Ho in Ho_. injection Ho_ as <-. rewrite Hct in Hct_.
      injection Hct_ as <-. destruct (Hnc _ _ _ eq_refl Ha). }
    destruct Hcorpse as (a_ & stale_ & nc & new_id & nil_ & h1 & v & o1
                         & -> & Ha_ & Hnid & Hnil_ & Hadopt & Hv & Ho1 & ->).
    rewrite Ho in Ho_. injection Ho_ as <-. rewrite Hct in Hct_.
    injection Hct_ as <-. rewrite Ha in Ha_. injection Ha_ as <- <-.
    rewrite Hnil in Hnil_. injection Hnil_ as <-.
    simpl in Hnid. rewrite Hb, Hid in Hnid. injection Hnid as <-.
    rewrite decide_True in Hadopt by done.
    destruct Hadopt as (old_id_ & b_ & nb_ & Hold_ & Hsmall & [= <-] & Hb_ & ->).
    rewrite Hold in Hold_. injection Hold_ as <-.
    rewrite Hb in Hb_. injection Hb_ as <-.
    assert (Hlt : (kBehaviorIdIndex < length (slots nb))%nat)
      by (eapply lookup_lt_Some; eauto).
    simpl in Hv. rewrite lookup_insert_eq in Hv. simpl in Hv.
    rewrite list_lookup_insert_eq in Hv by done. injection Hv as ->.
    assert (Hao : a <> object) by (intros ->; congruence).
    assert (Hab : a <> b) by (intros ->; congruence).
    exists v. simpl in Ho1 |- *.
    eexists. split; [done|]. split; [|split; [by rewrite lookup_insert_eq|]].
    + destruct (decide (b = object)) as [->|Hne].
      * rewrite lookup_insert_eq. rewrite lookup_insert_eq in Ho1.
        injection Ho1 as <-. simpl. by apply list_lookup_insert_eq.
      * rewrite lookup_insert_ne by done. rewrite lookup_insert_eq. simpl.
        by apply list_lookup_insert_eq.
    + split; [done|]. split; [|done].
      rewrite !lookup_insert_ne by done. done.
Qed.

(** ** The to-space pass of [BecomeForward] *)

(** [q] is what [nil_obj] reads during the pass: slot [kNilIndex] of the
    object store, as it was when the pass began or followed through a
    corpse. *)
Definition is_nil (m0 : gmap Z Cell) (store : ObjectPtr) (q : ObjectPtr)
    : Prop :=
  exists os so n0, store = HeapObject os /\ m0 !! os = Some (Live so) /\
    slots so !! kNilIndex = Some n0 /\ (q = n0 \/ q = become_fwd m0 n0).

(** Slot [j] of the object at [n], which held [p] when the pass began, holds
    an adopted cid [p']: [j] is the id slot; [n] is the target of a corpse
    that the class table holds as the class of an object [x]; [p'] is the
    id of the stale body of that corpse, a small integer; and the slot held
    [nil] ([ForwardClass] stores the id only then): [nil] is what the slot
    held when the pass began, or that followed through a corpse. [m0] is
    to-space when the pass begins, [ct] the class table and [store] the
    object store during the pass. *)
Definition adopted (m0 : gmap Z Cell) (ct : list ObjectPtr)
    (store : ObjectPtr) (n : Z) (j : nat) (p p' : ObjectPtr) : Prop :=
  j = kBehaviorIdIndex /\ IsSmallInteger p' = true /\
  (exists x ox a stale,
     m0 !! x = Some (Live ox) /\
     ct !! Z.to_nat (cid ox) = Some (HeapObject a) /\
     m0 !! a = Some (Corpse stale (HeapObject n)) /\
     slots stale !! kBehaviorIdIndex = Some p') /\
  (exists q, (q = p \/ q = become_fwd m0 p) /\ is_nil m0 store q).

Definition keeps (o0 o : Object) : Prop :=
  heap_size o = heap_size o0 /\ identity_hash o = identity_hash o0 /\
  payload o = payload o0 /\ length (slots o) = length (slots o0).

(** Every slot of [o] is the slot of [o0] mapped by [f], or an adopted
    cid ([A]). *)
Definition slot_fwd (A : nat -> ObjectPtr -> ObjectPtr -> Prop)
    (f : ObjectPtr -> ObjectPtr) (o0 o : Object) : Prop :=
  forall j p p', slots o0 !! j = Some p -> slots o !! j = Some p' ->
    p' = f p \/ A j p p'.

Section ToSpacePass.

Variables (ct : list ObjectPtr) (store : ObjectPtr).

(** The cell at [n] during the pass: a corpse is untouched; an object keeps
    size, hash and payload, its slots are forwarded once it is [done], and
    its header cid is unchanged until it is visited ([limbo]). *)
Definition cell_rel (m0 : gmap Z Cell) (done limbo : list Z) (n : Z)
    (c0 c : Cell) : Prop :=
  match c0 with
  | Live o0 =>
      exists o, c = Live o /\ keeps o0 o /\
        if decide (n ∈ done)
        then slot_fwd (adopted m0 ct store n) (become_fwd m0) o0 o
        else slot_fwd (adopted m0 ct store n) id o0 o /\
             (n ∈ limbo \/ cid o = cid o0)
  | _ => c = c0
  end.

Definition cells_rel (m0 m : gmap Z Cell) (done limbo : list Z) : Prop :=
  forall n,
    match m0 !! n with
    | Some c0 => exists c, m !! n = Some c /\ cell_rel m0 done limbo n c0 c
    | None => m !! n = None
    end.

Lemma cells_rel_refl m0 : cells_rel m0 m0 [] [].
Proof.
  intros n. destruct (m0 !! n) as [c0|] eqn:Hn; [|done].
  exists c0. split; [done|]. destruct c0 as [o| |]; unfold cell_rel; try done.
  exists o. split; [done|]. split; [done|].
  rewrite decide_False by apply not_elem_of_nil.
  split; [|by right]. intros j p p' Hp Hp'. left. simpl. congruence.
Qed.

Lemma cells_rel_fwd m0 m done limbo p :
  cells_rel m0 m done limbo -> become_fwd m p = become_fwd m0 p.
Proof.
  intros H. destruct p as [v|a]; [done|]. simpl. specialize (H a).
  destruct (m0 !! a) as [c0|].
  - destruct H as (c & -> & Hc). destruct c0 as [o0|s t|x]; simpl in Hc.
    + destruct Hc as (o & -> & _). done.
    + by subst c.
    + by subst c.
  - by rewrite H.
Qed.

Lemma cells_rel_Live m0 m done limbo n o :
  cells_rel m0 m done limbo -> m !! n = Some (Live o) ->
  exists o0, m0 !! n = Some (Live o0) /\ keeps o0 o /\
    if decide (n ∈ done)
    then slot_fwd (adopted m0 ct store n) (become_fwd m0) o0 o
    else slot_fwd (adopted m0 ct store n) id o0 o /\
         (n ∈ limbo \/ cid o = cid o0).
Proof.
  intros H Hn. specialize (H n). destruct (m0 !! n) as [c0|]; [|congruence].
  destruct H as (c & Hc & Hrel). rewrite Hn in Hc. injection Hc as <-.
  destruct c0 as [o0|s t|x]; simpl in Hrel; try done.
  destruct Hrel as (o' & [= <-] & Hk & Hs). eauto.
Qed.

(** A store into a live cell that keeps size, hash, payload and the number
    of slots, and changes slots only to adopted cids. *)
Lemma cells_rel_update m0 m done limbo n o o' :
  cells_rel m0 m done limbo -> m !! n = Some (Live o) ->
  keeps o o' ->
  (forall o0 j p p', m0 !! n = Some (Live o0) -> slots o0 !! j = Some p ->
     slots o' !! j = Some p' ->
     slots o !! j = Some p' \/ adopted m0 ct store n j p p') ->
  n ∈ done \/ n ∈ limbo \/ cid o' = cid o ->
  cells_rel m0 (<[n := Live o']> m) done limbo.
Proof.
  intros H Hn (Hsz & Hh & Hp & Hlen) Hsl Hcid n'.
  destruct (decide (n' = n)) as [->|Hne].
  2:{ rewrite lookup_insert_ne by done. apply H. }
  rewrite lookup_insert_eq.
  destruct (cells_rel_Live _ _ _ _ _ _ H Hn)
    as (o0 & Ho0 & (Hsz0 & Hh0 & Hp0 & Hlen0) & Hrel).
  rewrite Ho0.
  eexists. split; [done|]. simpl. exists o'. split; [done|].
  split; [repeat split; congruence|].
  assert (Hslot : forall f, slot_fwd (adopted m0 ct store n) f o0 o ->
                    slot_fwd (adopted m0 ct store n) f o0 o').
  { intros f Hf j p p' Hj Hj'.
    destruct (Hsl _ _ _ _ Ho0 Hj Hj') as [Hold|Had]; [|by right].
    eapply Hf; eauto. }
  case_decide.
  - by apply Hslot.
  - destruct Hrel as [Hf Hc]. split; [by apply Hslot|].
    destruct Hcid as [?|[?|Hc']]; [done|by left|].
    destruct Hc as [?|Hc]; [by left|right; congruence].
Qed.

Lemma cells_rel_limbo m0 m done x :
  cells_rel m0 m done [] -> cells_rel m0 m done [x].
Proof.
  intros H n. specialize (H n). destruct (m0 !! n) as [c0|]; [|done].
  destruct H as (c & Hc & Hrel). exists c. split; [done|].
  destruct c0 as [o0|s t|y]; simpl in *; try done.
  destruct Hrel as (o & -> & Hk & Hs). exists o. split; [done|].
  split; [done|]. case_decide; [done|]. destruct Hs as [Hf [Hl|Hcid]].
  - by apply elem_of_nil in Hl.
  - split; [done|by right].
Qed.

Lemma cells_rel_skip m0 m done x c0 :
  cells_rel m0 m done [] -> m0 !! x = Some c0 ->
  (forall o, c0 <> Live o) ->
  cells_rel m0 m (done ++ [x]) [].
Proof.
  intros H Hx Hc0 n. specialize (H n).
  destruct (m0 !! n) as [c|] eqn:Hn; [|done].
  destruct H as (c' & Hc' & Hrel). exists c'. split; [done|].
  destruct c as [o0|s t|y]; simpl in *; try done.
  assert (n <> x) by (intros ->; rewrite Hx in Hn; injection Hn as ->;
                      by destruct (Hc0 o0)).
  destruct Hrel as (o & -> & Hk & Hs). exists o. split; [done|].
  split; [done|]. destruct (decide (n ∈ done)) as [Hd|Hd].
  - rewrite decide_True by (apply elem_of_app; by left). done.
  - rewrite decide_False; [done|].
    intros Hin. apply elem_of_app in Hin as [?|Hin]; [done|].
    by apply list_elem_of_singleton in Hin.
Qed.

(** The visited object has its slots forwarded and becomes [done]. *)
Lemma cells_rel_process m0 m done x o :
  cells_rel m0 m done [x] -> m !! x = Some (Live o) -> x ∉ done ->
  cells_rel m0 (<[x := Live (set_slots o (become_fwd m0 <$> slots o))]> m)
    (done ++ [x]) [].
Proof.
  intros H Hx Hnd n. destruct (decide (n = x)) as [->|Hne].
  - rewrite lookup_insert_eq.
    destruct (cells_rel_Live _ _ _ _ _ _ H Hx)
      as (o0 & -> & (Hsz0 & Hh0 & Hp0 & Hlen0) & Hrel).
    rewrite decide_False in Hrel by done. destruct Hrel as [Hf _].
    eexists. split; [done|]. simpl. eexists. split; [done|]. split.
    + repeat split; simpl; try done. by rewrite length_fmap.
    + rewrite decide_True
        by (apply elem_of_app; right; by apply list_elem_of_singleton).
      intros j p p' Hj Hj'. simpl in Hj'.
      rewrite list_lookup_fmap in Hj'.
      destruct (slots o !! j) as [q|] eqn:Hq; [|done].
      simpl in Hj'. injection Hj' as <-.
      destruct (Hf _ _ _ Hj Hq) as [->|Had]; [by left|].
      right. assert (become_fwd m0 q = q) as ->; [|done].
      destruct Had as (_ & Hsm & _). by destruct q.
  - rewrite lookup_insert_ne by done. specialize (H n).
    destruct (m0 !! n) as [c0|]; [|done].
    destruct H as (c & Hc & Hrel). exists c. split; [done|].
    destruct c0 as [o0|s t|y]; simpl in *; try done.
    destruct Hrel as (o' & -> & Hk & Hs). exists o'. split; [done|].
    split; [done|]. destruct (decide (n ∈ done)) as [Hd|Hd].
    + rewrite decide_True by (apply elem_of_app; by left). done.
    + rewrite decide_False.
      * destruct Hs as [Hf [Hl|Hcid]]; [|by split; [|right]].
        by apply list_elem_of_singleton in Hl.
      * intros Hin. apply elem_of_app in Hin as [?|Hin]; [done|].
        by apply list_elem_of_singleton in Hin.
Qed.

(** A corpse of the pass was there when the pass began. *)
Lemma cells_rel_Corpse m0 m done limbo a stale t :
  cells_rel m0 m done limbo -> m !! a = Some (Corpse stale t) ->
  m0 !! a = Some (Corpse stale t).
Proof.
  intros H Ha. specialize (H a). destruct (m0 !! a) as [c0|]; [|congruence].
  destruct H as (c & Hc & Hrel). rewrite Ha in Hc. injection Hc as <-.
  destruct c0 as [o0|s0 t0|y]; simpl in Hrel.
  - destruct Hrel as (o & [=] & _).
  - by rewrite Hrel.
  - by rewrite Hrel.
Qed.

(** What [nil_obj] reads during the pass. *)
Lemma cells_rel_nil m0 done limbo h nil :
  cells_rel m0 (cells (to_ h)) done limbo -> object_store_ h = store ->
  nil_obj h = Ok (nil, h) -> is_nil m0 store nil.
Proof.
  intros Hrel Hstore Hnil.
  apply nil_obj_Ok in Hnil as (_ & os & so & Hos & Hso & Hn).
  destruct (cells_rel_Live _ _ _ _ _ _ Hrel Hso)
    as (so0 & Hso0 & (_ & _ & _ & Hlen) & Hs).
  destruct (lookup_lt_is_Some_2 (slots so0) kNilIndex) as [n0 Hn0].
  { rewrite <- Hlen. by eapply lookup_lt_Some. }
  exists os, so0, n0. split; [congruence|]. do 2 (split; [done|]).
  case_decide.
  - destruct (Hs _ _ _ Hn0 Hn) as [->|(Hj & _)]; [by right|done].
  - destruct Hs as [Hs _].
    destruct (Hs _ _ _ Hn0 Hn) as [->|(Hj & _)]; [by left|done].
Qed.

Lemma ForwardClass_rel m0 done x h u h' o0 :
  cells_rel m0 (cells (to_ h)) done [x] ->
  class_table_ h = ct -> object_store_ h = store ->
  m0 !! x = Some (Live o0) ->
  (forall o, cells (to_ h) !! x = Some (Live o) -> cid o = cid o0) ->
  ForwardClass x h = Ok (u, h') ->
  h' = with_to_cells h (cells (to_ h')) /\
  cells_rel m0 (cells (to_ h')) done [x].
Proof.
  intros Hrel Hct Hstore Hx0 Hcid0 H.
  apply ForwardClass_Ok in H as (o & old_class & Ho & Hclass & [[_ ->]|Hc]).
  { split; [|done]. symmetry. apply with_to_cells_same. }
  destruct Hc as (a & stale & nc & new_id & nil & h1 & v & o1
                  & -> & Hcorpse & Hnew & Hnil & Hadopt & _ & Ho1 & ->).
  assert (H1 : h1 = with_to_cells h (cells (to_ h1)) /\
               cells_rel m0 (cells (to_ h1)) done [x]).
  { case_decide as Hisnil.
    - destruct Hadopt as (old_id & b & nb & Hold & Hsmall & -> & Hb & ->).
      split; [done|]. simpl.
      eapply cells_rel_update; [done|done| | |].
      + repeat split; simpl; try done. by rewrite length_insert.
      + intros ob j p p' Hob Hp Hj. simpl in Hj.
        destruct (decide (j = kBehaviorIdIndex)) as [->|Hne].
        2:{ rewrite list_lookup_insert_ne in Hj by done. by left. }
        apply list_lookup_insert_Some in Hj as [(_ & <- & _)|[? _]]; [|done].
        right. split; [done|]. split; [done|]. split.
        * exists x, o0, a, stale. split; [done|].
          split; [by rewrite <- (Hcid0 _ Ho), <- Hct|].
          split; [by eapply cells_rel_Corpse|done].
        * simpl in Hnew. rewrite Hb in Hnew.
          pose proof (cells_rel_nil _ _ _ _ _ Hrel Hstore Hnil) as Hn.
          rewrite <- Hisnil in Hn.
          destruct (cells_rel_Live _ _ _ _ _ _ Hrel Hb)
            as (ob' & Hob' & _ & Hs).
          rewrite Hob in Hob'. injection Hob' as <-.
          assert (Hcase : new_id = p \/ new_id = become_fwd m0 p \/
                          adopted m0 ct store b kBehaviorIdIndex p new_id).
          { case_decide.
            - destruct (Hs _ _ _ Hp Hnew) as [->|Had]; auto.
            - destruct Hs as [Hs _].
              destruct (Hs _ _ _ Hp Hnew) as [->|Had]; auto. }
          destruct Hcase as [<-|[<-|(_ & _ & _ & Hheld)]];
            [exists new_id; auto|exists new_id; auto|exact Hheld].
      + right. right. done.
    - subst h1. split; [|done]. symmetry. apply with_to_cells_same. }
  destruct H1 as [Hh1 Hrel1]. split.
  - rewrite Hh1. done.
  - simpl. eapply cells_rel_update; [done|done| | |].
    + done.
    + intros ob j p p' _ _ Hj. by left.
    + right. left. by apply list_elem_of_singleton.
Qed.

Lemma ForwardToSpace_loop_spec m0 top :
  (forall n o, m0 !! n = Some (Live o) -> cid o <> kForwardingCorpseCid) ->
  forall l fuel scan done h h',
  Tiled m0 scan l top -> top_ h = top ->
  class_table_ h = ct -> object_store_ h = store ->
  cells_rel m0 (cells (to_ h)) done [] ->
  (forall y, y ∈ done -> y < scan) ->
  ForwardToSpace_loop fuel scan h = Ok (tt, h') ->
  h' = with_to_cells h (cells (to_ h')) /\
  cells_rel m0 (cells (to_ h')) (done ++ l) [].
Proof.
  intros Hlegal.
  induction l as [|x l IH];
    intros fuel scan done h h' Ht Htop Hct Hstore Hrel Hdone H; simpl in Ht.
  - subst scan. rewrite app_nil_r.
    assert (H' : ret tt h = Ok (tt, h')).
    { destruct fuel; cbn [ForwardToSpace_loop] in H;
        unfold bind at 1, get in H;
        rewrite Htop, Z.ltb_irrefl in H; exact H. }
    apply ret_Ok in H' as [_ ->]. split; [|done].
    symmetry. apply with_to_cells_same.
  - destruct Ht as (-> & c0 & Hc0 & Hnf & Hpos & Ht).
    pose proof (Tiled_le _ _ _ _ Ht) as Hle.
    destruct fuel as [|fuel]; cbn [ForwardToSpace_loop] in H;
      apply bind_Ok in H as (? & ? & Hg & H); apply get_Ok in Hg as [-> ->];
      rewrite Htop, (proj2 (Z.ltb_lt _ _)) in H by lia;
      [destruct (timeout_Ok _ _ H)|].
    apply bind_Ok in H as (corpse & ? & Hc & H).
    apply IsForwardingCorpse_Ok in Hc as [-> (c & Hc & _ & ->)].
    apply bind_Ok in H as ([] & h2 & Hstep & H).
    apply bind_Ok in H as (c2 & ? & Hr & H).
    apply read_to_Ok in Hr as [-> Hc2].
    apply bind_Ok in H as (sz & ? & Hsz & H).
    apply HeapSize_Ok in Hsz as (-> & -> & Hnf2).
    assert (Hnd : scan ∉ done) by (intros Hin; apply Hdone in Hin; lia).
    pose proof (Hrel scan) as Hscan. rewrite Hc0 in Hscan.
    destruct Hscan as (c' & Hc' & Hcell). rewrite Hc in Hc'.
    injection Hc' as <-.
    assert (Hstep' : h2 = with_to_cells h (cells (to_ h2)) /\
                     cells_rel m0 (cells (to_ h2)) (done ++ [scan]) [] /\
                     cell_heap_size c2 = cell_heap_size c0).
    { destruct c0 as [o0|s t|y]; simpl in Hcell.
      - destruct Hcell as (o & -> & Hk & Hs).
        rewrite decide_False in Hs by done.
        destruct Hs as [Hf [Hl|Hcid]]; [by apply elem_of_nil in Hl|].
        cbn [cid_of] in Hstep.
        rewrite (proj2 (Z.eqb_neq _ _)) in Hstep
          by (rewrite Hcid; eauto).
        apply bind_Ok in Hstep as ([] & h1 & Hfc & Hstep).
        apply (ForwardClass_rel m0 done scan _ _ _ o0) in Hfc
          as [Hh1 Hrel1];
          [|by apply cells_rel_limbo|done|done|done
           |intros o' Ho'; rewrite Hc in Ho'; by injection Ho' as <-].
        apply bind_Ok in Hstep as (o2 & ? & Hr & Hstep).
        apply read_object_Ok in Hr as [-> Ho2].
        apply bind_Ok in Hstep as (new_slots & ? & Hm & Hstep).
        apply mapM_ForwardPointer_Ok in Hm as [-> ->].
        unfold write_to in Hstep. apply modify_Ok in Hstep. subst h2.
        simpl in Hc2 |- *. rewrite lookup_insert_eq in Hc2.
        injection Hc2 as <-.
        split; [by rewrite Hh1|]. split.
        + replace (become_fwd (cells (to_ h1)) <$> slots o2)
            with (become_fwd m0 <$> slots o2).
          * by apply cells_rel_process.
          * apply list_fmap_ext. intros i p _. symmetry.
            by eapply cells_rel_fwd.
        + destruct (cells_rel_Live _ _ _ _ _ _ Hrel1 Ho2)
            as (o0' & Ho0' & (Hsz' & _) & _).
          rewrite Hc0 in Ho0'. injection Ho0' as <-. done.
      - subst c. cbn [cid_of] in Hstep. rewrite Z.eqb_refl in Hstep.
        apply ret_Ok in Hstep as [_ ->].
        rewrite Hc in Hc2. injection Hc2 as <-.
        split; [symmetry; apply with_to_cells_same|]. split; [|done].
        eapply cells_rel_skip; [exact Hrel|exact Hc0|done].
      - destruct Hnf. }
    destruct Hstep' as (Hh2 & Hrel2 & Hsz2). rewrite Hsz2 in H.
    eapply IH in H;
      [|exact Ht|by rewrite Hh2|by rewrite Hh2|by rewrite Hh2|exact Hrel2|].
    + destruct H as [Hh' Hrel']. split.
      * rewrite Hh' at 1. rewrite Hh2. done.
      * by rewrite <- app_assoc in Hrel'.
    + intros y Hy. apply elem_of_app in Hy as [Hy|Hy].
      * apply Hdone in Hy. lia.
      * apply list_elem_of_singleton in Hy. lia.
Qed.

End ToSpacePass.

(** ** The installation of the forwarding corpses *)

Definition same_but_hash (o0 o : Object) : Prop :=
  cid o = cid o0 /\ heap_size o = heap_size o0 /\ slots o = slots o0 /\
  payload o = payload o0.

(** The identity hash in the header at [b], of an object or of the stale
    body of a corpse. *)
Definition hash_at (m : gmap Z Cell) (b : Z) (x : Z) : Prop :=
  match m !! b with
  | Some (Live o) => identity_hash o = x
  | Some (Corpse o _) => identity_hash o = x
  | _ => False
  end.

(** [installed m olds neus k mk]: [mk] is [m] after the first [k] pairs of
    [olds] and [neus] have been processed by the second loop of
    [BecomeForward]. *)
Record installed (m : gmap Z Cell) (olds neus : list ObjectPtr) (k : nat)
    (mk : gmap Z Cell) : Prop := {
  ins_corpse : forall i a, (i < k)%nat -> olds !! i = Some (HeapObject a) ->
    exists o0 s nu, m !! a = Some (Live o0) /\ neus !! i = Some nu /\
      mk !! a = Some (Corpse s nu) /\ same_but_hash o0 s;
  ins_other : forall n, HeapObject n ∉ take k olds ->
    match m !! n with
    | Some (Live o0) =>
        exists o, mk !! n = Some (Live o) /\ same_but_hash o0 o /\
          (HeapObject n ∉ take k neus -> o = o0)
    | other => mk !! n = other
    end;
  ins_hash : forall i a b oa, (i < k)%nat ->
    olds !! i = Some (HeapObject a) -> neus !! i = Some (HeapObject b) ->
    m !! a = Some (Live oa) ->
    (forall j, neus !! j = Some (HeapObject b) -> j = i) ->
    HeapObject a ∉ neus ->
    hash_at mk b (identity_hash oa)
}.

Lemma same_but_hash_refl o : same_but_hash o o.
Proof. done. Qed.

Lemma same_but_hash_trans o1 o2 o3 :
  same_but_hash o1 o2 -> same_but_hash o2 o3 -> same_but_hash o1 o3.
Proof. unfold same_but_hash. intros (?&?&?&?) (?&?&?&?). repeat split; congruence. Qed.

Lemma installed_init m olds neus : installed m olds neus 0 m.
Proof.
  split.
  - intros i a Hi. lia.
  - intros n _. destruct (m !! n) as [[o| |]|]; try done.
    exists o. done.
  - intros i a b oa Hi. lia.
Qed.

(** A cell that still holds an object has not been made a corpse. *)
Lemma installed_Live m olds neus k mk n o :
  installed m olds neus k mk -> mk !! n = Some (Live o) ->
  (HeapObject n ∉ take k olds) /\
  exists o0, m !! n = Some (Live o0) /\ same_but_hash o0 o /\
    (HeapObject n ∉ take k neus -> o = o0).
Proof.
  intros HI Hn.
  assert (Hnot : HeapObject n ∉ take k olds).
  { intros Hin. apply elem_of_take in Hin as (i & Hi & Hlt).
    destruct (ins_corpse _ _ _ _ _ HI _ _ Hlt Hi) as (? & ? & ? & _ & _ & Hc & _).
    congruence. }
  split; [done|]. pose proof (ins_other _ _ _ _ _ HI n Hnot) as H.
  destruct (m !! n) as [[o0| |]|]; try congruence.
  destruct H as (o' & Ho' & Hs & He). rewrite Hn in Ho'. injection Ho' as <-.
  eauto.
Qed.

Lemma element_Ok array i h p h' :
  element array i h = Ok (p, h') ->
  h' = h /\ exists o, cells (to_ h) !! array = Some (Live o) /\
                      slots o !! i = Some p.
Proof.
  unfold element. intros H. apply bind_Ok in H as (o & ? & Hr & H).
  apply read_object_Ok in Hr as [-> Ho]. apply lift_Ok in H as [Hp ->].
  eauto.
Qed.

Lemma become_install_Ok old neu i h u h' :
  become_install old neu i h = Ok (u, h') ->
  exists oo no a b fo bo fo',
    cells (to_ h) !! old = Some (Live oo) /\
    cells (to_ h) !! neu = Some (Live no) /\
    slots oo !! i = Some (HeapObject a) /\
    slots no !! i = Some (HeapObject b) /\
    cells (to_ h) !! a = Some (Live fo) /\
    cells (to_ h) !! b = Some (Live bo) /\
    fo' = (if decide (a = b)
           then set_identity_hash bo (identity_hash fo) else fo) /\
    h' = with_to_cells h
           (<[a := Corpse fo' (HeapObject b)]>
              (<[b := Live (set_identity_hash bo (identity_hash fo))]>
                 (cells (to_ h)))).
Proof.
  unfold become_install. intros H.
  apply bind_Ok in H as (forwarder & ? & He & H).
  apply element_Ok in He as (-> & oo & Hoo & Hf).
  apply bind_Ok in H as (forwardee & ? & He & H).
  apply element_Ok in He as (-> & no & Hno & Hn).
  apply bind_Ok in H as (c1 & ? & Hc & H).
  apply IsForwardingCorpse_Ok in Hc as [-> _].
  apply bind_Ok in H as (? & ? & Has & H). apply ASSERT_Ok in Has as [_ ->].
  apply bind_Ok in H as (c2 & ? & Hc & H).
  apply IsForwardingCorpse_Ok in Hc as [-> _].
  apply bind_Ok in H as (? & ? & Has & H). apply ASSERT_Ok in Has as [_ ->].
  destruct forwarder as [?|a]; [destruct (trap_Ok _ _ H)|].
  destruct forwardee as [?|b]; [destruct (trap_Ok _ _ H)|].
  apply bind_Ok in H as (fo & ? & Hr & H).
  apply read_object_Ok in Hr as [-> Hfo].
  apply bind_Ok in H as (bo & ? & Hr & H).
  apply read_object_Ok in Hr as [-> Hbo].
  apply bind_Ok in H as (? & h1 & Hw & H).
  unfold write_to in Hw. apply modify_Ok in Hw. subst h1.
  apply bind_Ok in H as (fo' & ? & Hr & H).
  apply read_object_Ok in Hr as [-> Hfo'].
  unfold write_to in H. apply modify_Ok in H. subst h'.
  exists oo, no, a, b, fo, bo, fo'. do 6 (split; [done|]).
  split; [|done]. simpl in Hfo'. case_decide as Hab.
  - subst b. rewrite lookup_insert_eq in Hfo'. congruence.
  - rewrite lookup_insert_ne in Hfo' by done. congruence.
Qed.

Lemma installed_step m olds neus k mk a b fo bo :
  installed m olds neus k mk ->
  length olds = length neus ->
  olds !! k = Some (HeapObject a) -> neus !! k = Some (HeapObject b) ->
  mk !! a = Some (Live fo) -> mk !! b = Some (Live bo) ->
  installed m olds neus (S k)
    (<[a := Corpse (if decide (a = b)
                    then set_identity_hash bo (identity_hash fo) else fo)
                   (HeapObject b)]>
       (<[b := Live (set_identity_hash bo (identity_hash fo))]> mk)).
Proof.
  intros HI Hlen Hoa Hnb Hfo Hbo.
  destruct (installed_Live _ _ _ _ _ _ _ HI Hfo) as (Hao & oa0 & Hma & Hsa & Hea).
  destruct (installed_Live _ _ _ _ _ _ _ HI Hbo) as (Hbo' & ob0 & Hmb & Hsb & Heb).
  set (bo' := set_identity_hash bo (identity_hash fo)).
  set (fo' := if decide (a = b) then bo' else fo).
  assert (Hsbo : same_but_hash ob0 bo').
  { eapply same_but_hash_trans; [exact Hsb|]. done. }
  assert (Hsfo : same_but_hash oa0 fo').
  { unfold fo'. case_decide as Hab; [|done]. subst b.
    rewrite Hma in Hmb. injection Hmb as <-. done. }
  assert (Htake_o : forall n, HeapObject n ∈ take (S k) olds <->
                      HeapObject n ∈ take k olds \/ n = a).
  { intros n. rewrite (take_S_r _ _ _ Hoa), elem_of_app,
      list_elem_of_singleton. split; intros [?|?]; auto.
    - right. congruence.
    - right. congruence. }
  assert (Htake_n : forall n, HeapObject n ∈ take (S k) neus <->
                      HeapObject n ∈ take k neus \/ n = b).
  { intros n. rewrite (take_S_r _ _ _ Hnb), elem_of_app,
      list_elem_of_singleton. split; intros [?|?]; auto.
    - right. congruence.
    - right. congruence. }
  split.
  - intros i a' Hi Ha'. destruct (decide (i = k)) as [->|Hne].
    + rewrite Hoa in Ha'. injection Ha' as <-.
      exists oa0, fo', (HeapObject b). rewrite lookup_insert_eq. done.
    + destruct (ins_corpse _ _ _ _ _ HI i a' ltac:(lia) Ha')
        as (o0 & s & nu & Hm & Hnu & Hc & Hs).
      exists o0, s, nu. do 2 (split; [done|]). split; [|done].
      rewrite !lookup_insert_ne; [done| |]; intros <-; congruence.
  - intros n Hn. rewrite Htake_o in Hn.
    assert (Hna : n <> a) by (intros ->; apply Hn; by right).
    assert (Hno : HeapObject n ∉ take k olds) by (intros ?; apply Hn; by left).
    rewrite lookup_insert_ne by done.
    destruct (decide (n = b)) as [->|Hnb'].
    + rewrite lookup_insert_eq, Hmb. exists bo'. do 2 (split; [done|]).
      intros Hout. destruct Hout. apply Htake_n. by right.
    + rewrite lookup_insert_ne by done.
      pose proof (ins_other _ _ _ _ _ HI n Hno) as H.
      destruct (m !! n) as [[o0| |]|]; try done.
      destruct H as (o & Ho & Hs & He). exists o. do 2 (split; [done|]).
      intros Hout. apply He. intros Hin. apply Hout. apply Htake_n. by left.
  - intros i a' b' oa Hi Ha' Hb' Hoa' Huniq Hnotin.
    unfold hash_at. destruct (decide (i = k)) as [->|Hne].
    + rewrite Hoa in Ha'. injection Ha' as <-.
      rewrite Hnb in Hb'. injection Hb' as <-.
      assert (Hab : a <> b).
      { intros ->. apply Hnotin. by eapply list_elem_of_lookup_2. }
      rewrite lookup_insert_ne, lookup_insert_eq by done. simpl.
      rewrite Hma in Hoa'. injection Hoa' as <-.
      rewrite Hea; [done|]. intros Hin. apply Hnotin.
      apply elem_of_take in Hin as (j & Hj & _).
      by eapply list_elem_of_lookup_2.
    + pose proof (ins_hash _ _ _ _ _ HI i a' b' oa ltac:(lia) Ha' Hb' Hoa'
                    Huniq Hnotin) as Hh.
      unfold hash_at in Hh.
      assert (Hbb : b' <> b).
      { intros ->. apply Hne. symmetry. by apply Huniq. }
      destruct (decide (b' = a)) as [->|Hba].
      * rewrite lookup_insert_eq. rewrite Hfo in Hh.
        unfold fo'. rewrite decide_False by done. done.
      * rewrite !lookup_insert_ne by done. done.
Qed.

Lemma become_install_loop_spec m olds neus old neu oo no :
  m !! old = Some (Live oo) -> m !! neu = Some (Live no) ->
  olds = slots oo -> neus = slots no -> length olds = length neus ->
  forall n k h h',
  installed m olds neus k (cells (to_ h)) ->
  (k + n = length olds)%nat ->
  become_install_loop old neu n k h = Ok (tt, h') ->
  h' = with_to_cells h (cells (to_ h')) /\
  installed m olds neus (length olds) (cells (to_ h')) /\
  Forall (fun p => IsImmediateObject p = false) (drop k olds).
Proof.
  intros Hold Hneu -> -> Hlen.
  induction n as [|n IH]; intros k h h' HI Hk H; simpl in H.
  - apply ret_Ok in H as [_ ->]. replace k with (length (slots oo)) in * by lia.
    split; [symmetry; apply with_to_cells_same|]. split; [done|].
    rewrite drop_all. constructor.
  - apply bind_Ok in H as ([] & h1 & Hstep & H).
    apply become_install_Ok in Hstep
      as (oo' & no' & a & b & fo & bo & fo' & Hoo & Hno & Hoa & Hnb & Hfo & Hbo
          & -> & ->).
    destruct (installed_Live _ _ _ _ _ _ _ HI Hoo) as (_ & oo0 & Hoo0 & (_ & _ & Hso & _) & _).
    destruct (installed_Live _ _ _ _ _ _ _ HI Hno) as (_ & no0 & Hno0 & (_ & _ & Hsn & _) & _).
    rewrite Hold in Hoo0. injection Hoo0 as <-.
    rewrite Hneu in Hno0. injection Hno0 as <-.
    rewrite Hso in Hoa. rewrite Hsn in Hnb.
    pose proof (installed_step _ _ _ _ _ _ _ _ _ HI Hlen Hoa Hnb Hfo Hbo) as HI'.
    eapply IH in H; [|exact HI'|lia].
    destruct H as (Hh' & HI'' & Hrest). split; [|split; [done|]].
    + rewrite Hh' at 1. done.
    + rewrite (drop_S _ _ _ Hoa). constructor; done.
Qed.

Lemma installed_size m olds neus k mk x c :
  installed m olds neus k mk -> m !! x = Some c -> not_forwarded c ->
  exists c', mk !! x = Some c' /\ not_forwarded c' /\
             cell_heap_size c' = cell_heap_size c.
Proof.
  intros HI Hc Hnf.
  destruct (decide (HeapObject x ∈ take k olds)) as [Hin|Hout].
  - apply elem_of_take in Hin as (i & Hi & Hlt).
    destruct (ins_corpse _ _ _ _ _ HI _ _ Hlt Hi)
      as (o0 & s & nu & Hm & _ & Hk & (_ & Hsz & _)).
    rewrite Hc in Hm. injection Hm as ->. eexists. split; [done|]. done.
  - pose proof (ins_other _ _ _ _ _ HI x Hout) as H. rewrite Hc in H.
    destruct c as [o0|s t|y].
    + destruct H as (o & Ho & (_ & Hsz & _) & _). eexists. split; [done|].
      done.
    + eexists. split; [done|]. done.
    + destruct Hnf.
Qed.

Lemma cells_rel_hash ct store m0 m done limbo b x :
  cells_rel ct store m0 m done limbo -> hash_at m0 b x -> hash_at m b x.
Proof.
  intros H Hh. unfold hash_at in *. specialize (H b).
  destruct (m0 !! b) as [c0|]; [|done].
  destruct H as (c & -> & Hc). destruct c0 as [o0|s t|y]; simpl in Hc.
  - destruct Hc as (o & -> & (_ & Hhash & _) & _). congruence.
  - by subst c.
  - done.
Qed.

Lemma ForwardRoots_Ok h u h' :
  ForwardRoots h = Ok (u, h') ->
  h' = with_roots h (become_fwd (cells (to_ h)) (object_store_ h))
         (become_fwd (cells (to_ h)) (current_activation_ h))
         (become_fwd (cells (to_ h)) <$> handles_ h).
Proof.
  unfold ForwardRoots. intros H.
  apply bind_Ok in H as (? & ? & Hg & H). apply get_Ok in Hg as [-> ->].
  apply bind_Ok in H as (os & ? & Hp & H).
  apply ForwardPointer_Ok in Hp as [-> ->].
  apply bind_Ok in H as (act & ? & Hp & H).
  apply ForwardPointer_Ok in Hp as [-> ->].
  apply bind_Ok in H as (hs & ? & Hp & H).
  apply mapM_ForwardPointer_Ok in Hp as [-> ->].
  by apply modify_Ok in H.
Qed.

Lemma ForwardClassTable_Ok h h' :
  ForwardClassTable h = Ok (tt, h') ->
  exists nil, nil_obj h = Ok (nil, h) /\
  h' = with_class_table h (class_table_ h') (class_table_free_ h') /\
  exists released,
    FreeChain (class_table_ h') (class_table_free_ h) (class_table_free_ h')
      released /\
    forall i, kFirstLegalCid <= i < class_table_top_ h ->
      entry_forwarded h h' nil released i.
Proof.
  intros H. pose proof H as H'. unfold ForwardClassTable in H'.
  apply bind_Ok in H' as (nil & ? & Hnil & _).
  pose proof (nil_obj_Ok _ _ _ Hnil) as [-> _].
  exists nil. split; [done|].
  destruct (ForwardClassTable_spec _ _ _ Hnil H) as (Hh' & _ & _ & Hrel).
  done.
Qed.

(** The run of [BecomeForward] that returns [true], phase by phase. *)
Lemma BecomeForward_phases old neu h h' :
  BecomeForward old neu h = Ok (true, h') ->
  exists oo no h1 h2 h3 h4,
    cells (to_ h) !! old = Some (Live oo) /\
    cells (to_ h) !! neu = Some (Live no) /\
    length (slots oo) = length (slots no) /\
    become_install_loop old neu (length (slots oo)) 0 h = Ok (tt, h1) /\
    ForwardRoots h1 = Ok (tt, h2) /\
    ForwardToSpace h2 = Ok (tt, h3) /\
    ForwardClassTable h3 = Ok (tt, h4) /\
    h' = with_caches h4 None [].
Proof.
  unfold BecomeForward. intros H.
  apply bind_Ok in H as (oo & ? & Hr & H).
  apply read_object_Ok in Hr as [-> Hoo].
  apply bind_Ok in H as (no & ? & Hr & H).
  apply read_object_Ok in Hr as [-> Hno].
  destruct (Nat.eqb_spec (length (slots oo)) (length (slots no))) as [Hlen|];
    simpl in H; [|discriminate].
  destruct (has_immediate _ _); [discriminate|].
  apply bind_Ok in H as ([] & h1 & H1 & H).
  apply bind_Ok in H as ([] & h2 & H2 & H).
  apply bind_Ok in H as ([] & h3 & H3 & H).
  apply bind_Ok in H as ([] & h4 & H4 & H).
  apply bind_Ok in H as ([] & h5 & H5 & H).
  apply ret_Ok in H as [_ ->]. unfold ClearCaches in H5.
  apply modify_Ok in H5. subst h5.
  exists oo, no, h1, h2, h3, h4. done.
Qed.

(** ** The walk of [BecomeForward] ends *)

(** The passes of [BecomeForward] store over objects without changing a
    size: what tiled to-space before a pass tiles it after. *)
Definition same_sizes (m m' : gmap Z Cell) : Prop :=
  forall x c, m !! x = Some c -> not_forwarded c ->
    exists c', m' !! x = Some c' /\ not_forwarded c' /\
               cell_heap_size c' = cell_heap_size c.

Lemma same_sizes_refl m : same_sizes m m.
Proof. intros x c Hc Hnf. eauto. Qed.

Lemma same_sizes_trans m1 m2 m3 :
  same_sizes m1 m2 -> same_sizes m2 m3 -> same_sizes m1 m3.
Proof.
  intros H12 H23 x c Hc Hnf.
  destruct (H12 _ _ Hc Hnf) as (c2 & Hc2 & Hnf2 & Hs2).
  destruct (H23 _ _ Hc2 Hnf2) as (c3 & Hc3 & Hnf3 & Hs3).
  exists c3. split; [done|]. split; [done|congruence].
Qed.

Lemma same_sizes_insert m x c c' :
  m !! x = Some c -> not_forwarded c' ->
  cell_heap_size c' = cell_heap_size c ->
  same_sizes m (<[x := c']> m).
Proof.
  intros Hx Hnf Hsz y cy Hy Hnfy. destruct (decide (y = x)) as [->|Hne].
  - rewrite lookup_insert_eq. rewrite Hx in Hy. injection Hy as <-. eauto.
  - rewrite lookup_insert_ne by done. eauto.
Qed.

Definition steady (h h' : Heap) : Prop :=
  top_ h' = top_ h /\ object_start (to_ h') = object_start (to_ h) /\
  same_sizes (cells (to_ h)) (cells (to_ h')).

Lemma steady_refl h : steady h h.
Proof. split; [done|]. split; [done|apply same_sizes_refl]. Qed.

Lemma steady_trans h1 h2 h3 : steady h1 h2 -> steady h2 h3 -> steady h1 h3.
Proof.
  intros (T1 & S1 & M1) (T2 & S2 & M2).
  split; [congruence|]. split; [congruence|by eapply same_sizes_trans].
Qed.

Lemma steady_write h x c c' :
  cells (to_ h) !! x = Some c -> not_forwarded c' ->
  cell_heap_size c' = cell_heap_size c ->
  steady h (with_to_cells h (<[x := c']> (cells (to_ h)))).
Proof.
  intros Hx Hnf Hsz. split; [done|]. split; [done|].
  simpl. by eapply same_sizes_insert.
Qed.

Lemma steady_Tiled h h' a l :
  steady h h' -> Tiled (cells (to_ h)) a l (top_ h) ->
  Tiled (cells (to_ h')) a l (top_ h').
Proof.
  intros (-> & _ & Hm) Ht. eapply Tiled_ext; [|exact Ht].
  intros x c Hx Hc. apply (Hm _ _ Hc).
  destruct (Tiled_lookup _ _ _ _ _ Ht Hx) as (c2 & Hc2 & ? & _). congruence.
Qed.

Lemma ForwardClass_steady x h u h' :
  ForwardClass x h = Ok (u, h') -> steady h h'.
Proof.
  intros H.
  apply ForwardClass_Ok in H as (o & old_class & Ho & _ & [[_ ->]|Hc]);
    [apply steady_refl|].
  destruct Hc as (a & stale & nc & new_id & nil & h1 & v & o1
                  & _ & _ & _ & _ & Hadopt & _ & Ho1 & ->).
  assert (H1 : steady h h1).
  { case_decide.
    - destruct Hadopt as (old_id & b & nb & _ & _ & _ & Hb & ->).
      by apply (steady_write h b (Live nb)).
    - subst h1. apply steady_refl. }
  eapply steady_trans; [exact H1|].
  by apply (steady_write h1 x (Live o1)).
Qed.

Lemma become_install_steady old neu i h u h' :
  become_install old neu i h = Ok (u, h') -> steady h h'.
Proof.
  intros H.
  apply become_install_Ok in H
    as (oo & no & a & b & fo & bo & fo' & _ & _ & _ & _ & Hfo & Hbo & Hfo' & ->).
  split; [done|]. split; [done|]. simpl.
  eapply same_sizes_trans.
  - by apply (same_sizes_insert _ b (Live bo)
                (Live (set_identity_hash bo (identity_hash fo)))).
  - destruct (decide (a = b)) as [->|Hne].
    + eapply same_sizes_insert; [by rewrite lookup_insert_eq|done|].
      subst fo'. done.
    + eapply same_sizes_insert;
        [by rewrite lookup_insert_ne|done|]. subst fo'. done.
Qed.

Lemma become_install_loop_steady old neu n : forall i h h',
  become_install_loop old neu n i h = Ok (tt, h') -> steady h h'.
Proof.
  induction n as [|n IH]; intros i h h' H; cbn [become_install_loop] in H.
  - apply ret_Ok in H as [_ ->]. apply steady_refl.
  - apply bind_Ok in H as ([] & h1 & H1 & H).
    apply become_install_steady in H1. apply IH in H.
    by eapply steady_trans.
Qed.

Lemma ForwardToSpace_loop_finishes : forall l fuel scan h,
  Tiled (cells (to_ h)) scan l (top_ h) ->
  top_ h - scan <= Z.of_nat fuel ->
  finishes (ForwardToSpace_loop fuel scan h).
Proof.
  induction l as [|x l IH]; intros fuel scan h Ht Hf; simpl in Ht.
  - subst scan.
    destruct fuel; cbn [ForwardToSpace_loop]; unfold bind at 1, get;
      rewrite Z.ltb_irrefl; done.
  - destruct Ht as (-> & c & Hc & Hnf & Hpos & Ht).
    pose proof (Tiled_le _ _ _ _ Ht) as Hle.
    destruct fuel as [|fuel]; [lia|].
    cbn [ForwardToSpace_loop]. unfold bind at 1, get.
    rewrite (proj2 (Z.ltb_lt _ _)) by lia.
    apply bind_finishes; [apply total_IsForwardingCorpse|].
    intros corpse ? Hco. apply IsForwardingCorpse_Ok in Hco as [-> _].
    apply bind_finishes.
    { destruct corpse; [done|].
      apply total_bind; [apply total_ForwardClass|]. intros _.
      apply total_bind; [apply total_read_object|]. intros o.
      apply total_bind; [apply total_mapM_ForwardPointer|]. intros sl.
      apply total_write_to. }
    intros [] h2 H2.
    assert (Hst : steady h h2).
    { destruct corpse; [apply ret_Ok in H2 as [_ ->]; apply steady_refl|].
      apply bind_Ok in H2 as ([] & h1 & H1 & H2).
      apply ForwardClass_steady in H1.
      apply bind_Ok in H2 as (o & ? & Hr & H2).
      apply read_object_Ok in Hr as [-> Ho].
      apply bind_Ok in H2 as (sl & ? & Hm & H2).
      apply mapM_ForwardPointer_Ok in Hm as [-> _].
      unfold write_to in H2. apply modify_Ok in H2 as ->.
      eapply steady_trans; [exact H1|].
      by apply (steady_write h1 scan (Live o)). }
    apply bind_finishes; [apply total_read_to|]. intros obj ? Hr.
    apply read_to_Ok in Hr as [-> Hobj].
    apply bind_finishes; [apply total_HeapSize|]. intros sz ? Hsz.
    apply HeapSize_Ok in Hsz as (-> & -> & _).
    pose proof Hst as (Htop & _ & Hm).
    destruct (Hm _ _ Hc Hnf) as (c' & Hc' & _ & Hsz).
    rewrite Hobj in Hc'. injection Hc' as <-. rewrite Hsz.
    apply (IH fuel _ h2).
    + by apply (steady_Tiled h h2).
    + lia.
Qed.

(** [BecomeForward] on a to-space that tiles does not run out of fuel. *)
Lemma BecomeForward_finishes old neu h l :
  Tiled (cells (to_ h)) (object_start (to_ h)) l (top_ h) ->
  BecomeForward old neu h <> Timeout.
Proof.
  intros Ht. unfold BecomeForward.
  apply bind_finishes; [apply total_read_object|]. intros oo ? Hr.
  apply read_object_Ok in Hr as [-> _].
  apply bind_finishes; [apply total_read_object|]. intros no ? Hr.
  apply read_object_Ok in Hr as [-> _].
  destruct (negb _); [done|]. destruct (has_immediate _ _); [done|].
  apply bind_finishes; [apply total_become_install_loop|]. intros [] h1 H1.
  apply become_install_loop_steady in H1.
  apply bind_finishes; [apply total_ForwardRoots|]. intros [] h2 H2.
  apply ForwardRoots_Ok in H2.
  assert (Hst : steady h h2).
  { eapply steady_trans; [exact H1|]. subst h2.
    split; [done|]. split; [done|apply same_sizes_refl]. }
  apply bind_finishes.
  { unfold ForwardToSpace.
    apply bind_finishes; [apply total_get|]. intros ? ? Hg.
    apply get_Ok in Hg as [-> ->].
    apply (ForwardToSpace_loop_finishes l).
    - pose proof Hst as (_ & Hstart & _). rewrite Hstart.
      by apply (steady_Tiled h h2).
    - unfold walk_fuel. lia. }
  intros [] h3 _.
  apply bind_finishes; [apply total_ForwardClassTable|]. intros [] h4 _.
  apply bind_finishes; [apply total_ClearCaches|]. intros [] h5 _.
  done.
Qed.

(** Slot [j] of the object at [n], which held [p] in [h], holds in [h'] a
    cid [p'] that the object adopted as a replacement class: [j] is the id
    slot; [n] is the target of the corpse that has replaced a class [a] of
    the class table, the class of an object [x] of [h]; [p'] is the id of
    that class, a small integer; and the slot held [nil] when the cid was
    stored: what it held in [h], or that followed through a corpse, was
    slot [kNilIndex] of the object store, as it was in [h] or followed
    through a corpse. *)
Definition adopted_cid (h h' : Heap) (n : Z) (j : nat) (p p' : ObjectPtr)
    : Prop :=
  let m' := cells (to_ h') in
  j = kBehaviorIdIndex /\ IsSmallInteger p' = true /\
  (exists x ox a stale,
     cells (to_ h) !! x = Some (Live ox) /\
     class_table_ h !! Z.to_nat (cid ox) = Some (HeapObject a) /\
     m' !! a = Some (Corpse stale (HeapObject n)) /\
     slots stale !! kBehaviorIdIndex = Some p') /\
  (exists q os so n0,
     (q = p \/ q = become_fwd m' p) /\
     object_store_ h' = HeapObject os /\
     cells (to_ h) !! os = Some (Live so) /\
     slots so !! kNilIndex = Some n0 /\
     (q = n0 \/ q = become_fwd m' n0)).


(** ** The example heap of [BecomeForward] *)

(** C5 as the claim states it, clause by clause: after [BecomeForward]
    returns [true], what referred to [old[i]] in a root or in a slot refers
    to [neu[i]]; so does a class-table entry; and [neu[i]] carries the
    identity hash [old[i]] had. *)
Definition Become_slots_as_stated (h : Heap) (old neu : Z) : Prop :=
  forall h' oo no,
    cells (to_ h) !! old = Some (Live oo) ->
    cells (to_ h) !! neu = Some (Live no) ->
    BecomeForward old neu h = Ok (true, h') ->
    forall i a b,
      slots oo !! i = Some (HeapObject a) ->
      slots no !! i = Some (HeapObject b) ->
      (object_store_ h = HeapObject a -> object_store_ h' = HeapObject b) /\
      (current_activation_ h = HeapObject a ->
       current_activation_ h' = HeapObject b) /\
      (forall j, handles_ h !! j = Some (HeapObject a) ->
                 handles_ h' !! j = Some (HeapObject b)) /\
      (forall n o o' j,
         cells (to_ h) !! n = Some (Live o) ->
         cells (to_ h') !! n = Some (Live o') ->
         slots o !! j = Some (HeapObject a) ->
         slots o' !! j = Some (HeapObject b)).

Definition Become_class_table_as_stated (h : Heap) (old neu : Z) : Prop :=
  forall h' oo no,
    cells (to_ h) !! old = Some (Live oo) ->
    cells (to_ h) !! neu = Some (Live no) ->
    BecomeForward old neu h = Ok (true, h') ->
    forall i a b,
      slots oo !! i = Some (HeapObject a) ->
      slots no !! i = Some (HeapObject b) ->
      forall j, class_table_ h !! j = Some (HeapObject a) ->
                class_table_ h' !! j = Some (HeapObject b).

Definition Become_hash_as_stated (h : Heap) (old neu : Z) : Prop :=
  forall h' oo no,
    cells (to_ h) !! old = Some (Live oo) ->
    cells (to_ h) !! neu = Some (Live no) ->
    BecomeForward old neu h = Ok (true, h') ->
    forall i a b oa,
      slots oo !! i = Some (HeapObject a) ->
      slots no !! i = Some (HeapObject b) ->
      cells (to_ h) !! a = Some (Live oa) ->
      hash_at (cells (to_ h')) b (identity_hash oa).

Lemma become_heap_tiled :
  Tiled (cells (to_ Examples.become_heap))
    (object_start (to_ Examples.become_heap))
    Examples.become_tiling (top_ Examples.become_heap).
Proof.
  unfold Examples.become_tiling. simpl.
  repeat (split; [reflexivity|]; eexists;
          split; [vm_compute; reflexivity|];
          split; [exact I|]; split; [reflexivity|]).
  reflexivity.
Qed.

Lemma become_heap_legal : legal_cids Examples.become_heap.
Proof.
  refine (proj2 (cells_ok_wf _ _)).
  apply (proj1 (bool_decide_eq_true (map_Forall _ _))).
  vm_compute. reflexivity.
Qed.

Lemma become_heap_run :
  BecomeForward 1096 1128 Examples.become_heap
  = Ok (true, Examples.become_heap_after).
Proof. vm_compute. reflexivity. Qed.



Lemma become_heap_forwarded_nil :
  nil_obj Examples.become_heap_forwarded
  = Ok (HeapObject 1080, Examples.become_heap_forwarded).
Proof. vm_compute. reflexivity. Qed.

Lemma become_heap_forwarded_run :
  ForwardClassTable Examples.become_heap_forwarded
  = Ok (tt, Examples.become_heap_after).
Proof. vm_compute. reflexivity. Qed.

Lemma Class_table_adoption_counterexample :
  ~ Class_table_adoption_as_stated Examples.become_heap_forwarded.
Proof.
  intros H.
  destruct (H (HeapObject 1080) Examples.become_heap_after 16
              (HeapObject 1240) (SmallInteger 16) (HeapObject 1080)
              become_heap_forwarded_nil become_heap_forwarded_run
              ltac:(vm_compute; split; congruence)) as [Hadopt _].
  - exists 1176, (mkObject 19 32 31
                    [HeapObject 1080; HeapObject 1080; SmallInteger 16]
                    None []).
    repeat split; vm_compute; reflexivity.
  - destruct (Hadopt eq_refl) as [Hct _]. vm_compute in Hct. discriminate.
Qed.

Lemma Class_table_forwarding_witness :
  nil_obj Examples.become_heap_forwarded
  = Ok (HeapObject 1080, Examples.become_heap_forwarded) /\
  ForwardClassTable Examples.become_heap_forwarded
  = Ok (tt, Examples.become_heap_after) /\
  ForwardClass 1160 Examples.become_heap_installed
  = Ok (tt, Examples.become_heap_adopted) /\
  id_of (cells (to_ Examples.become_heap_adopted)) (HeapObject 1272)
  = Some (SmallInteger 18) /\
  exists released,
    FreeChain (class_table_ Examples.become_heap_after)
      (class_table_free_ Examples.become_heap_forwarded)
      (class_table_free_ Examples.become_heap_after) released /\
    forall i,
      kFirstLegalCid <= i < class_table_top_ Examples.become_heap_forwarded ->
      entry_forwarded Examples.become_heap_forwarded
        Examples.become_heap_after (HeapObject 1080) released i.
Proof.
  split; [exact become_heap_forwarded_nil|].
  split; [exact become_heap_forwarded_run|].
  assert (Hrun : ForwardClass 1160 Examples.become_heap_installed
                 = Ok (tt, Examples.become_heap_adopted))
    by (vm_compute; reflexivity).
  split; [exact Hrun|]. split.
  - destruct (proj1 (proj2 Class_table_forwarding)
                Examples.become_heap_installed
                Examples.become_heap_adopted (HeapObject 1080) 1160
                (mkObject 18 16 100 [HeapObject 1176] None [])
                1208
                (mkObject 19 32 32
                   [HeapObject 1080; HeapObject 1080; SmallInteger 18]
                   None [])
                1272
                (mkObject 19 32 32
                   [HeapObject 1080; HeapObject 1080; HeapObject 1080]
                   None [])
                (SmallInteger 18)
                ltac:(vm_compute; reflexivity) ltac:(vm_compute; reflexivity)
                ltac:(vm_compute; reflexivity) ltac:(vm_compute; reflexivity)
                eq_refl ltac:(vm_compute; reflexivity) eq_refl Hrun)
      as (v & o' & _ & Hid & _).
    exact Hid.
  - exact (proj2 (proj1 Class_table_forwarding _ _ _
                    become_heap_forwarded_nil become_heap_forwarded_run)).
Defined.

(** * Further properties of the heap *)

(** ** The bump allocator *)

Lemma mapM_TryAllocate_spec sizes : forall h rs h',
  mapM TryAllocate sizes h = Ok (rs, h') ->
  Forall (fun s => 0 <= s) sizes ->
  length rs = length sizes /\
  top_ h <= top_ h' /\ end_ h' = end_ h /\
  forall j rj sj, rs !! j = Some rj -> sizes !! j = Some sj -> rj <> 0 ->
    top_ h <= rj /\ rj + sj <= top_ h' /\ rj + sj <= end_ h /\
    Z.land rj kObjectAlignmentMask = kNewObjectAlignmentOffset.
Proof.
  induction sizes as [|s sizes IH]; intros h rs h' H Hpos; simpl in H.
  - apply ret_Ok in H as [-> ->]. repeat split; try done; try lia.
  - apply bind_Ok in H as (r & h1 & H1 & H).
    apply bind_Ok in H as (rs1 & h2 & H2 & H).
    apply ret_Ok in H as [-> ->].
    apply Forall_cons in Hpos as [Hs Hpos].
    destruct (IH _ _ _ H2 Hpos) as (Hlen & Htop & Hend & Hrest).
    apply TryAllocate_Ok in H1
      as [_ [(Hfull & -> & ->)|(Hfit & -> & Hal & ->)]].
    + split; [simpl; lia|]. split; [done|]. split; [done|].
      intros [|j] rj sj Hr Hsj Hne; simpl in *.
      * injection Hr as <-. done.
      * eauto.
    + simpl in *. split; [lia|]. split; [lia|]. split; [done|].
      intros [|j] rj sj Hr Hsj Hne; simpl in *.
      * injection Hr as <-. injection Hsj as <-.
        split; [lia|]. split; [lia|]. split; [lia|]. exact Hal.
      * destruct (Hrest j rj sj Hr Hsj Hne) as (? & ? & ? & ?).
        split; [lia|]. done.
Qed.

(** X1. Bump order: in a run of bump attempts with no collection in
    between, every block handed out starts at the old [top_] or above, ends
    at [end_] or below and carries the new-space alignment, and a block
    handed out later starts where an earlier one ends or above: the blocks
    do not overlap and their addresses strictly increase. An attempt that
    fails (0) moves nothing. *)
Theorem TryAllocate_bump_order sizes h rs h' :
  mapM TryAllocate sizes h = Ok (rs, h') ->
  Forall (fun s => 0 < s) sizes ->
  length rs = length sizes /\
  (forall i ri si, rs !! i = Some ri -> sizes !! i = Some si -> ri <> 0 ->
     top_ h <= ri /\ ri + si <= end_ h /\
     Z.land ri kObjectAlignmentMask = kNewObjectAlignmentOffset) /\
  (forall i j ri rj si, (i < j)%nat ->
     rs !! i = Some ri -> rs !! j = Some rj -> sizes !! i = Some si ->
     ri <> 0 -> rj <> 0 -> ri < ri + si <= rj).
Proof.
  intros H Hpos.
  assert (Hnn : forall l, Forall (fun s => 0 < s) l ->
                          Forall (fun s : Z => 0 <= s) l).
  { intros l Hl. eapply Forall_impl; [exact Hl|]. simpl. intros. lia. }
  destruct (mapM_TryAllocate_spec _ _ _ _ H (Hnn _ Hpos))
    as (Hlen & _ & _ & Hall).
  split; [done|]. split.
  { intros i ri si Hr Hs Hne.
    destruct (Hall i ri si Hr Hs Hne) as (? & ? & ? & ?). done. }
  clear Hall Hlen. revert h rs h' H Hpos.
  induction sizes as [|s sizes IH]; intros h rs h' H Hpos i j ri rj si Hij
    Hri Hrj Hsi Hnei Hnej; simpl in H.
  - apply ret_Ok in H as [-> ->]. done.
  - apply bind_Ok in H as (r & h1 & H1 & H).
    apply bind_Ok in H as (rs1 & h2 & H2 & H).
    apply ret_Ok in H as [-> ->].
    apply Forall_cons in Hpos as [Hs Hpos].
    destruct j as [|j]; [lia|]. simpl in Hrj.
    destruct i as [|i]; simpl in Hri, Hsi.
    + injection Hri as <-. injection Hsi as <-.
      apply TryAllocate_Ok in H1
        as [_ [(_ & -> & _)|(Hfit & -> & Hal & ->)]]; [done|].
      destruct (lookup_lt_is_Some_2 sizes j) as [sj Hsj].
      { destruct (mapM_TryAllocate_spec _ _ _ _ H2 (Hnn _ Hpos)) as [Hl _].
        rewrite <- Hl. eapply lookup_lt_Some. exact Hrj. }
      destruct (mapM_TryAllocate_spec _ _ _ _ H2 (Hnn _ Hpos))
        as (_ & _ & _ & Hall).
      destruct (Hall j rj sj Hrj Hsj Hnej) as (Hge & _). simpl in Hge. lia.
    + eapply (IH h1 rs1 h2 H2 Hpos i j); eauto. lia.
Qed.

Lemma TryAllocate_bump_order_witness :
  mapM TryAllocate [16; 32] Examples.weak_heap
  = Ok ([1144; 1160], with_top Examples.weak_heap 1192) /\
  1144 < 1144 + 16 <= 1160.
Proof.
  split; [vm_compute; reflexivity|].
  destruct (TryAllocate_bump_order [16; 32] Examples.weak_heap [1144; 1160]
              (with_top Examples.weak_heap 1192)
              ltac:(vm_compute; reflexivity) ltac:(repeat constructor))
    as (_ & _ & Hord).
  apply (Hord 0%nat 1%nat 1144 1160 16);
    [lia|reflexivity|reflexivity|reflexivity|lia|lia].
Defined.

(** ** What a collection leaves besides the objects *)

(** The three ways [MournClassTable] leaves an entry. *)
Lemma MournClassTable_entry_Ok i h u h' :
  MournClassTable_entry i h = Ok (u, h') ->
  exists p, class_table_ h !! Z.to_nat i = Some p /\
    ((ptr_target p = None /\ h' = h) \/
     (exists a n, ptr_target p = Some a /\
        cells (from_ h) !! a = Some (Forwarded n) /\
        h' = with_class_table h
               (<[Z.to_nat i := HeapObject n]> (class_table_ h))
               (class_table_free_ h)) \/
     (exists a, ptr_target p = Some a /\
        (forall n, cells (from_ h) !! a <> Some (Forwarded n)) /\
        h' = with_class_table h
               (<[Z.to_nat i := SmallInteger (class_table_free_ h)]>
                  (class_table_ h))
               i)).
Proof.
  intros H. unfold MournClassTable_entry in H.
  apply bind_Ok in H as (? & ? & H1 & H). apply get_Ok in H1 as [-> ->].
  apply bind_Ok in H as (p & ? & H1 & H). apply lift_Ok in H1 as [Hp ->].
  exists p. split; [done|].
  destruct p as [v|a].
  { left. simpl in H. apply ret_Ok in H as [_ ->]. done. }
  change (ptr_target (HeapObject a)) with
    (if IsImmediateOrOldObject (HeapObject a) then None else Some a).
  destruct (IsImmediateOrOldObject (HeapObject a)).
  { left. apply ret_Ok in H as [_ ->]. done. }
  right. apply bind_Ok in H as (c & ? & H1 & H).
  apply read_from_Ok in H1 as (-> & Hc & _).
  destruct c as [o|s t|n].
  - right. exists a. apply modify_Ok in H. split; [done|].
    split; [congruence|done].
  - right. exists a. apply modify_Ok in H. split; [done|].
    split; [congruence|done].
  - left. exists a, n.
    apply bind_Ok in H as ([] & ? & H1 & H).
    apply ASSERT_InToSpace_Ok in H1 as [-> _]. apply modify_Ok in H. done.
Qed.

(** An entry of the class table whose class did not survive. *)
Definition dead_entry (t : list ObjectPtr) (F : gmap Z Cell) (j : Z) : Prop :=
  exists p a, t !! Z.to_nat j = Some p /\ ptr_target p = Some a /\
    forall n, F !! a <> Some (Forwarded n).

Lemma FreeChain_ext t t' f0 f l :
  (forall j, j ∈ l -> t' !! Z.to_nat j = t !! Z.to_nat j) ->
  FreeChain t f0 f l -> FreeChain t' f0 f l.
Proof.
  intros Hext H. induction H as [|i f l Hi Hc IH]; [constructor|].
  econstructor.
  - rewrite Hext; [exact Hi|by left].
  - apply IH. intros j Hj. apply Hext. by right.
Qed.

Lemma FreeChain_head t f0 f i l : FreeChain t f0 f (i :: l) -> f = i.
Proof. by inversion 1. Qed.

Lemma FreeChain_nil_inv t f0 f : FreeChain t f0 f [] -> f = f0.
Proof. by inversion 1. Qed.

Lemma StronglySorted_snoc {A} (R : A -> A -> Prop) l y :
  StronglySorted R l -> Forall (fun x => R x y) l ->
  StronglySorted R (l ++ [y]).
Proof.
  induction 1 as [|x l Hs IH Hx]; intros Hy; simpl.
  - repeat constructor.
  - apply Forall_cons in Hy as [Hxy Hy]. constructor; [by apply IH|].
    apply Forall_app. split; [done|]. by constructor.
Qed.

Lemma MournClassTable_loop_chain n : forall i h h',
  0 <= i -> MournClassTable_loop n i h = Ok (tt, h') ->
  (exists CT' free', h' = with_class_table h CT' free') /\
  (forall j, 0 <= j -> j < i \/ i + Z.of_nat n <= j ->
     class_table_ h' !! Z.to_nat j = class_table_ h !! Z.to_nat j) /\
  exists released,
    FreeChain (class_table_ h') (class_table_free_ h) (class_table_free_ h')
      released /\
    StronglySorted Z.gt released /\
    forall j, j ∈ released <->
      i <= j < i + Z.of_nat n /\
      dead_entry (class_table_ h) (cells (from_ h)) j.
Proof.
  induction n as [|n IH]; intros i h h' Hi H; simpl in H.
  - apply ret_Ok in H as [_ ->]. split.
    { exists (class_table_ h), (class_table_free_ h).
      apply with_class_table_id. }
    split; [done|]. exists []. split; [constructor|]. split; [constructor|].
    intros j. rewrite elem_of_nil. split; [done|]. lia.
  - apply bind_Ok in H as ([] & h1 & H1 & H).
    apply MournClassTable_entry_Ok in H1 as (p & Hp & Hcase).
    apply IH in H as ((CT' & free' & ->) & Hout & rel & Hchain & Hsort & Hrel);
      [|lia].
    assert (Hfrom1 : from_ h1 = from_ h /\
              exists CT1 free1, h1 = with_class_table h CT1 free1 /\
                forall j, 0 <= j -> j <> i ->
                  CT1 !! Z.to_nat j = class_table_ h !! Z.to_nat j).
    { destruct Hcase as [[_ ->]|[(a & m & _ & _ & ->)|(a & _ & _ & ->)]].
      - split; [done|]. exists (class_table_ h), (class_table_free_ h).
        split; [apply with_class_table_id|done].
      - split; [done|]. eexists _, _. split; [done|].
        intros j Hj Hne. apply list_lookup_insert_ne. lia.
      - split; [done|]. eexists _, _. split; [done|].
        intros j Hj Hne. apply list_lookup_insert_ne. lia. }
    destruct Hfrom1 as (Hfrom1 & CT1 & free1 & Hh1 & Hother).
    split.
    { rewrite Hh1. eexists _, _. done. }
    assert (Hct1 : class_table_ h1 = CT1) by (by rewrite Hh1).
    split.
    { intros j Hj0 Hj. rewrite Hout by lia. rewrite Hct1.
      apply Hother; lia. }
    assert (Hdead : forall j, i < j ->
              dead_entry (class_table_ h1) (cells (from_ h1)) j <->
              dead_entry (class_table_ h) (cells (from_ h)) j).
    { intros j Hj. unfold dead_entry. rewrite Hfrom1, Hct1.
      rewrite Hother by lia. done. }
    simpl in Hchain, Hout.
    destruct Hcase as [[Hnone ->]|[(a & m & Ha & Hf & ->)|(a & Ha & Hnf & ->)]].
    + exists rel. split; [done|]. split; [done|].
      intros j. rewrite Hrel. split.
      * intros [Hj Hd]. split; [lia|]. apply Hdead; [lia|done].
      * intros [Hj Hd]. destruct (decide (j = i)) as [->|Hne].
        { destruct Hd as (p' & a & Hp' & Ha & _). congruence. }
        split; [lia|]. apply Hdead; [lia|done].
    + exists rel. split; [done|]. split; [done|].
      intros j. rewrite Hrel. split.
      * intros [Hj Hd]. split; [lia|]. apply Hdead; [lia|done].
      * intros [Hj Hd]. destruct (decide (j = i)) as [->|Hne].
        { destruct Hd as (p' & a' & Hp' & Ha' & Hnf).
          rewrite Hp in Hp'. injection Hp' as <-. rewrite Ha in Ha'.
          injection Ha' as <-. by destruct (Hnf m). }
        split; [lia|]. apply Hdead; [lia|done].
    + simpl in Hchain. exists (rel ++ [i]). split.
      { eapply FreeChain_app; [exact Hchain|].
        econstructor; [|constructor].
        rewrite Hout by lia. simpl.
        apply list_lookup_insert_eq. eapply lookup_lt_Some. exact Hp. }
      split.
      { apply StronglySorted_snoc; [done|]. apply Forall_forall.
        intros x Hx. apply Hrel in Hx. lia. }
      intros j. rewrite elem_of_app, list_elem_of_singleton, Hrel. split.
      * intros [[Hj Hd]| ->].
        -- split; [lia|]. apply Hdead; [lia|done].
        -- split; [lia|]. exists p, a. done.
      * intros [Hj Hd]. destruct (decide (j = i)) as [->|Hne]; [by right|].
        left. split; [lia|]. apply Hdead; [lia|done].
Qed.

Lemma Scavenge_collect_frame h0 h' :
  at_rest h0 -> store_is_array h0 ->
  Scavenge_collect h0 = Ok (tt, h') ->
  end_ h' = limit (to_ h') /\
  recycle_list_ h' = None /\ lookup_cache_ h' = [] /\
  exists released,
    FreeChain (class_table_ h') (class_table_free_ h0) (class_table_free_ h')
      released /\
    StronglySorted Z.gt released /\
    forall j, j ∈ released <->
      kFirstLegalCid <= j < class_table_top_ h0 /\
      exists p a, class_table_ h0 !! Z.to_nat j = Some p /\
        ptr_target p = Some a /\ ~ Reach h0 a.
Proof.
  intros Hrest Harr H. pose proof Hrest as (_ & _ & _ & Hwf).
  unfold Scavenge_collect in H.
  apply bind_Ok in H as (? & ? & H1 & H). apply get_Ok in H1 as [-> ->].
  apply bind_Ok in H as ([] & h1 & H1 & H).
  apply bind_Ok in H as ([] & h2 & H2 & H).
  apply bind_Ok in H as (? & ? & Hg & H). apply get_Ok in Hg as [-> ->].
  apply bind_Ok in H as ([] & h3 & H3 & H).
  apply bind_Ok in H as ([] & h4 & H4 & H).
  apply bind_Ok in H as ([] & h5 & H5 & H).
  apply bind_Ok in H as ([] & h6 & H6 & H).
  apply bind_Ok in H as ([] & h7 & H7 & H).
  apply modify_Ok in H7. apply modify_Ok in H.
  apply FlipSpaces_spec in H1
    as (HG1 & Htop1 & Hend1 & Hroots1 & Hctt1 & Hctf1 & _); [|done].
  destruct HG1 as (HI1 & HE1 & HW1 & _). simpl in HE1, HW1.
  eapply ProcessRoots_spec in H2 as (HI2 & L2 & I2 & M2 & T2 & Rs & Ra & Rh);
    eauto.
  unfold lists in I2. injection I2 as IE2 IW2. rewrite HE1 in IE2.
  rewrite HW1 in IW2.
  assert (HG2 : GInv h0 h2 (object_start (to_ h2)) [] []).
  { rewrite (layout_start _ _ L2), <- Htop1.
    split; [done|]. rewrite IE2, IW2.
    split; [done|]. split; [done|].
    split; [constructor|]. split; [constructor|].
    intros x Hx. by apply elem_of_nil in Hx. }
  eapply Scavenge_loop_spec in H3 as (E & W & HG3 & Hs3 & Hpend); eauto.
  2:{ intros _ e He. by apply elem_of_nil in He. }
  destruct HG3 as (HI3 & HE3 & HW3 & HndE & HndW & Hdis).
  destruct Hs3 as [L3 R3 M3 T3].
  unfold roots in R3. injection R3 as Ros3 Ract3 Rhs3.
  assert (Rs3 : reloc (cells (from_ h3)) (object_store_ h0) (object_store_ h3)).
  { rewrite Ros3. by eapply reloc_mono. }
  assert (Ra3 : reloc (cells (from_ h3)) (current_activation_ h0)
                  (current_activation_ h3)).
  { rewrite Ract3. by eapply reloc_mono. }
  assert (Rh3 : Forall2 (reloc (cells (from_ h3))) (handles_ h0) (handles_ h3)).
  { rewrite Rhs3. by eapply Forall2_reloc_mono. }
  eapply MournEphemeronList_spec in H4
    as (nil & T4 & Hnil3 & -> & HE4out & HE4in); eauto.
  destruct (nil_obj_Ok _ _ _ Hnil3) as (_ & os & oos & Hos3 & Hoos3 & Hnilslot).
  assert (Hcos : cid oos = kArrayCid).
  { eapply scanned_store; eauto. by rewrite <- Hos3. }
  assert (HosE : os ∉ E).
  { intros Hin. destruct (HE4in _ Hin) as (o & ? & ? & ? & ? & Ho & Hc & _).
    rewrite Hoos3 in Ho. injection Ho as <-.
    rewrite Hcos in Hc. discriminate. }
  eapply (MournWeakList_spec _ _ W nil os oos) in H5
    as (T5 & -> & HW5out & HW5in); eauto.
  2:{ simpl. eapply Chain_ext; [|exact HW3].
      intros x Hx. apply HE4out. intros Hin. by apply (Hdis x). }
  2:{ simpl. by rewrite HE4out. }
  2:{ rewrite Hcos. discriminate. }
  unfold MournClassTable in H6.
  apply bind_Ok in H6 as (? & ? & Hg & H6). apply get_Ok in Hg as [-> ->].
  apply MournClassTable_loop_chain in H6
    as ((CT' & free' & ->) & _ & rel & Hchain & Hsort & Hrel); [|done].
  simpl in Hchain, Hrel.
  destruct (layout_inv _ _ L2) as (Le2 & Lb2 & Ls2 & _ & _ & _ & _ & Lf2 & _).
  destruct (layout_inv _ _ L3) as (Le3 & Lb3 & Ls3 & _ & _ & _ & _ & Lf3 & _).
  pose proof HI3 as [[Hct3 Htt3] HI3'].
  subst h7 h'. simpl.
  split.
  { unfold limit in *. simpl. rewrite Le3, Le2, Hend1. lia. }
  split; [done|]. split; [done|].
  exists rel. split.
  { rewrite Lf3, Lf2, Hctf1 in Hchain. exact Hchain. }
  split; [done|].
  intros j. rewrite Hrel. rewrite Htt3, Hct3.
  replace (kFirstLegalCid + Z.of_nat (Z.to_nat (class_table_top_ h0 - kFirstLegalCid)))
    with (Z.max kFirstLegalCid (class_table_top_ h0)) by lia.
  assert (Hreach : forall a,
            Reach h0 a <-> exists n, cells (from_ h3) !! a = Some (Forwarded n)).
  { intros a. split.
    - eapply scan_complete; eauto.
    - intros [n Hn]. by eapply inv_sound. }
  unfold dead_entry. split.
  - intros [Hj (p & a & Hp & Ha & Hnf)]. split; [lia|].
    exists p, a. split; [done|]. split; [done|].
    intros Hr. apply Hreach in Hr as [n Hn]. by destruct (Hnf n).
  - intros [Hj (p & a & Hp & Ha & Hnr)]. split; [lia|].
    exists p, a. split; [done|]. split; [done|].
    intros n Hn. apply Hnr. apply Hreach. eauto.
Qed.

(** [Grow] as [Scavenge_rec] calls it: the size is doubled once. *)
Lemma Grow_with_double scavenge h u h' :
  Grow_with scavenge (size (to_ h)) h = Ok (u, h') ->
  size (to_ h) * 2 <= kMaxSemispaceSize /\
  scavenge (Grow_realloc h (size (to_ h) * 2)) = Ok (u, h').
Proof.
  unfold Grow_with. intros H.
  apply bind_Ok in H as (? & ? & Hg & H). apply get_Ok in Hg as [-> ->].
  apply bind_Ok in H as (? & ? & Ha & H). apply ASSERT_Ok in Ha as [_ ->].
  assert (Hn : Grow_new_size 64 (size (to_ h)) (size (to_ h))
                 (size (to_ h) * 2) = Ok (size (to_ h) * 2)).
  { cbn [Grow_new_size].
    destruct (Z.ltb_spec (size (to_ h) * 2 - size (to_ h)) (size (to_ h)));
      [lia|done]. }
  rewrite Hn in H.
  destruct (Z.gtb_spec (size (to_ h) * 2) kMaxSemispaceSize);
    [destruct (fatal_Ok _ _ H)|].
  apply bind_Ok in H as (? & ? & Hm & H). apply modify_Ok in Hm as ->.
  done.
Qed.

(** One level of [Scavenge]: the collection, and the growth when to-space
    is left more than seven eighths full. *)
Lemma Scavenge_rec_Ok depth h0 h' :
  Scavenge_rec depth h0 = Ok (tt, h') ->
  exists h1, Scavenge_collect h0 = Ok (tt, h1) /\
    ((used h1 <= 7 * size (to_ h1) / 8 /\ h' = h1) \/
     (7 * size (to_ h1) / 8 < used h1 /\
      exists d, depth = S d /\
        size (to_ h1) * 2 <= kMaxSemispaceSize /\
        Scavenge_rec d (Grow_realloc h1 (size (to_ h1) * 2)) = Ok (tt, h'))).
Proof.
  intros H. destruct depth as [|d]; simpl in H;
    apply bind_Ok in H as ([] & h1 & Hc & H);
    apply bind_Ok in H as (? & ? & Hg & H); apply get_Ok in Hg as [-> ->];
    exists h1; (split; [done|]);
    destruct (Z.gtb_spec (used h1) (7 * size (to_ h1) / 8)).
  - destruct (timeout_Ok _ _ H).
  - left. apply ret_Ok in H as [_ <-]. done.
  - right. split; [lia|]. exists d. split; [done|].
    by apply Grow_with_double.
  - left. apply ret_Ok in H as [_ <-]. done.
Qed.

Lemma Scavenge_rec_frame depth : forall h0 h',
  well_formed h0 -> Scavenge_rec depth h0 = Ok (tt, h') ->
  end_ h' = limit (to_ h') /\
  recycle_list_ h' = None /\ lookup_cache_ h' = [] /\
  used h' <= 7 * size (to_ h') / 8 /\
  used h' <= Z.max (size (to_ h') - kNewObjectAlignmentOffset) 0 /\
  size (from_ h0) <= size (to_ h').
Proof.
  induction depth as [|d IH]; intros h0 h' Hwf H;
    apply Scavenge_rec_Ok in H as (h1 & Hc & Hcase);
    pose proof Hwf as (Hrest & Harr & _);
    destruct (Scavenge_collect_frame _ _ Hrest Harr Hc) as (He & Hr & Hl & _);
    pose proof (Scavenge_collect_used _ _ Hrest Harr Hc) as Hu;
    destruct (Scavenge_collect_spec _ _ Hrest Harr Hc) as (F & nil1 & HC);
    assert (Hfrom : size (from_ h0) <= size (to_ h1))
      by (destruct (col_to _ _ _ _ HC) as [(_ & -> & _)|(_ & -> & _ & ?)];
          lia);
    destruct Hcase as [[Hle ->]|(Hgt & d' & Hd & _ & Hrec)]; try done.
  injection Hd as <-.
  pose proof (Collected_Moved _ _ _ _ HC) as HM1.
  pose proof (Moved_well_formed _ _ _ _ HM1 Hwf) as Hwf1.
  pose proof (Grow_realloc_well_formed _ (size (to_ h1) * 2) Hwf1) as Hwf2.
  destruct (IH _ _ Hwf2 Hrec) as (? & ? & ? & ? & ? & ?).
  pose proof (Scavenge_rec_size _ _ _ Hwf2 Hrec) as Hsz. simpl in Hsz.
  repeat split; try done. lia.
Qed.

(** ** [Allocate] *)

(** The heap on which the bump attempt of [Allocate] succeeds: the heap as
    it is, as a scavenge leaves it, or as a scavenge and a growth leave
    it. *)
Lemma Allocate_Ok sz h raw h' :
  Allocate sz h = Ok (raw, h') ->
  raw <> 0 /\
  exists g, TryAllocate sz g = Ok (raw, h') /\
    (g = h \/ Scavenge h = Ok (tt, g) \/
     exists h1, Scavenge h = Ok (tt, h1) /\ Grow sz h1 = Ok (tt, g)).
Proof.
  intros H. unfold Allocate in H.
  apply bind_Ok in H as ([] & ? & Ha & H). apply ASSERT_Ok in Ha as [_ ->].
  apply bind_Ok in H as (r0 & h0 & H0 & H).
  destruct (Z.eqb_spec r0 0) as [->|Hne].
  2:{ apply ret_Ok in H as [-> ->]. split; [done|]. exists h. eauto. }
  apply TryAllocate_zero in H0 as ->.
  apply bind_Ok in H as ([] & h1 & H1 & H).
  apply bind_Ok in H as (r1 & h2 & H2 & H).
  destruct (Z.eqb_spec r1 0) as [->|Hne].
  2:{ apply ret_Ok in H as [-> ->]. split; [done|]. exists h1. eauto. }
  apply TryAllocate_zero in H2 as ->.
  apply bind_Ok in H as ([] & h3 & H3 & H).
  apply bind_Ok in H as (r3 & h4 & H4 & H).
  destruct (Z.eqb_spec r3 0) as [->|Hne]; [destruct (fatal_Ok _ _ H)|].
  apply ret_Ok in H as [-> ->]. split; [done|]. exists h3. eauto 10.
Qed.

(** X2. The block [Allocate] returns: its address carries the new-space
    alignment (so it is not 0), its size is a multiple of the object
    alignment, it ends at the new [top_], and the new [top_] is at or below
    [end_]. *)
Theorem Allocate_block sz h raw h' :
  Allocate sz h = Ok (raw, h') ->
  sz mod kObjectAlignment = 0 /\
  Z.land raw kObjectAlignmentMask = kNewObjectAlignmentOffset /\
  top_ h' = raw + sz /\ raw + sz <= end_ h'.
Proof.
  intros H. apply Allocate_Ok in H as (Hne & g & Hg & _).
  apply TryAllocate_Ok in Hg as [Hmod [(_ & -> & _)|(Hfit & -> & Hal & ->)]];
    [done|].
  split; [done|]. split; [exact Hal|]. simpl. split; [done|lia].
Qed.

Lemma Allocate_block_witness :
  Allocate 16 Examples.weak_heap
  = Ok (1144, with_top Examples.weak_heap 1160) /\
  top_ (with_top Examples.weak_heap 1160) = 1144 + 16.
Proof.
  assert (H : Allocate 16 Examples.weak_heap
              = Ok (1144, with_top Examples.weak_heap 1160))
    by (vm_compute; reflexivity).
  split; [exact H|].
  exact (proj1 (proj2 (proj2 (Allocate_block _ _ _ _ H)))).
Defined.

Lemma Scavenge_below_top h g :
  well_formed h -> Scavenge h = Ok (tt, g) ->
  forall n, is_Some (cells (to_ g) !! n) ->
    object_start (to_ g) <= n < top_ g.
Proof.
  intros Hwf H n Hn.
  destruct (Scavenge_spec _ _ Hwf H) as [(φ & nil & HM) _].
  destruct (mv_tiled _ _ _ _ HM) as (l & Ht & _ & Hdom).
  apply Hdom in Hn. exact (Tiled_bounds _ _ _ _ _ Ht Hn).
Qed.

Lemma Grow_well_formed req h g :
  well_formed h -> 0 <= size (to_ h) -> Grow req h = Ok (tt, g) ->
  exists n, Scavenge (Grow_realloc h n) = Ok (tt, g) /\
    well_formed (Grow_realloc h n) /\ size (to_ h) * 2 <= n /\
    req <= n - size (to_ h).
Proof.
  intros Hwf Hsz H. unfold Grow, Grow_with in H.
  apply bind_Ok in H as (? & ? & Hg & H). apply get_Ok in Hg as [-> ->].
  apply bind_Ok in H as (? & ? & Ha & H). apply ASSERT_Ok in Ha as [_ ->].
  destruct (Grow_new_size 64 _ _ _) as [n| | |] eqn:Hn;
    try (by destruct (fatal_Ok _ _ H)); try (by destruct (trap_Ok _ _ H));
    try (by destruct (timeout_Ok _ _ H)).
  destruct (n >? kMaxSemispaceSize); [by destruct (fatal_Ok _ _ H)|].
  apply bind_Ok in H as (? & ? & Hm & H). apply modify_Ok in Hm as ->.
  exists n. split; [exact H|]. split; [by apply Grow_realloc_well_formed|].
  apply Grow_new_size_Ok in Hn as (j & -> & Hreq & _).
  split; [|done].
  assert (1 <= 2 ^ Z.of_nat j) by (apply (Z.pow_le_mono_r 2 0); lia).
  nia.
Qed.

(** X3. [Allocate] hands out memory no object lies in: on a well-formed heap
    whose objects lie below [top_], no object of the resulting heap lies at
    or above the address returned, whether the block was carved from the heap
    as it was or after a scavenge or a growth. *)
Theorem Allocate_fresh sz h raw h' :
  well_formed h -> 0 <= size (to_ h) ->
  (forall n, is_Some (cells (to_ h) !! n) -> n < top_ h) ->
  Allocate sz h = Ok (raw, h') ->
  forall n, is_Some (cells (to_ h') !! n) -> n < raw.
Proof.
  intros Hwf Hsz Hbelow H n Hn.
  apply Allocate_Ok in H as (Hne & g & Hg & Hcase).
  apply TryAllocate_Ok in Hg as [_ [(_ & -> & _)|(_ & -> & _ & ->)]];
    [done|].
  simpl in Hn.
  destruct Hcase as [->|[Hs|(h1 & Hs & Hgrow)]].
  - by apply Hbelow.
  - by apply (Scavenge_below_top _ _ Hwf Hs).
  - destruct (Scavenge_spec _ _ Hwf Hs) as [(φ & nil & HM) _].
    pose proof (Moved_well_formed _ _ _ _ HM Hwf) as Hwf1.
    pose proof (Scavenge_rec_size _ _ _ Hwf Hs) as Hsz1.
    destruct (Grow_well_formed _ _ _ Hwf1 ltac:(lia) Hgrow)
      as (m & Hs2 & Hwf2 & _).
    by apply (Scavenge_below_top _ _ Hwf2 Hs2).
Qed.

Lemma Allocate_fresh_witness :
  Allocate 16 Examples.weak_heap
  = Ok (1144, with_top Examples.weak_heap 1160) /\
  forall n, is_Some (cells (to_ (with_top Examples.weak_heap 1160)) !! n) ->
    n < 1144.
Proof.
  assert (H : Allocate 16 Examples.weak_heap
              = Ok (1144, with_top Examples.weak_heap 1160))
    by (vm_compute; reflexivity).
  split; [exact H|].
  apply (Allocate_fresh 16 Examples.weak_heap 1144 _ weak_heap_well_formed);
    [vm_compute; discriminate| |exact H].
  intros n Hn.
  apply (Tiled_bounds _ _ _ _ _ weak_heap_tiled).
  destruct (decide (n ∈ [1032; 1064; 1080; 1112; 1128])) as [Hin|Hout];
    [done|].
  exfalso. destruct Hn as [c Hc]. simpl in Hc.
  unfold Examples.weak_cells in Hc. simpl in Hc.
  repeat (apply lookup_insert_Some in Hc as [[<- _]|[_ Hc]];
          [apply Hout; set_solver|]).
  done.
Defined.

Lemma TryAllocate_not_Fatal sz h : TryAllocate sz h <> Fatal.
Proof.
  unfold TryAllocate, bind, get, ASSERT, ret, trap, modify.
  destruct (IsAligned sz kObjectAlignment); [|done].
  destruct (end_ h - top_ h <? sz); [done|].
  destruct (Z.land (top_ h) kObjectAlignmentMask =? kNewObjectAlignmentOffset);
    done.
Qed.

(** After the scavenge and the growth of [Allocate], the request fits. *)
Lemma Grow_makes_room sz h h1 h3 :
  well_formed h -> kNewObjectAlignmentOffset <= size (to_ h) ->
  Scavenge h = Ok (tt, h1) -> Grow sz h1 = Ok (tt, h3) ->
  sz <= end_ h3 - top_ h3.
Proof.
  intros Hwf Hsz Hs Hg.
  destruct (Scavenge_spec _ _ Hwf Hs) as [(φ1 & nil1 & HM1) _].
  pose proof (Moved_well_formed _ _ _ _ HM1 Hwf) as Hwf1.
  destruct (Scavenge_rec_frame _ _ _ Hwf Hs) as (He1 & _ & _ & _ & Hu1 & _).
  pose proof (Scavenge_rec_size _ _ _ Hwf Hs) as Hsz1.
  unfold kNewObjectAlignmentOffset, kWordSize in *.
  destruct (Grow_well_formed _ _ _ Hwf1 ltac:(lia) Hg)
    as (n & Hs2 & Hwf2 & Hn & Hreq).
  destruct (Scavenge_spec _ _ Hwf2 Hs2) as [(φ2 & nil2 & HM2) _].
  apply (Moved_ext h1) in HM2; [|done..].
  destruct Hwf as (_ & _ & Hlegal & _).
  pose proof (second_used _ _ _ _ _ _ _ HM1 HM2 Hlegal) as Hu.
  destruct (Scavenge_rec_frame _ _ _ Hwf2 Hs2) as (He3 & _ & _ & _ & _ & Hf3).
  simpl in Hf3. unfold used, limit, object_start in *.
  unfold kNewObjectAlignmentOffset, kWordSize in *. lia.
Qed.

(** X4. The last exit of [Allocate] is never taken: on a well-formed heap
    whose to-space holds at least the alignment offset, when the scavenge
    and the growth return, the third bump attempt finds room. [Allocate] is
    [Fatal] only when its scavenge is, or when its growth is -- the size
    chosen exceeds the maximum semispace size. *)
Theorem Allocate_fatal_only_by_growth sz h :
  well_formed h -> kNewObjectAlignmentOffset <= size (to_ h) ->
  Allocate sz h = Fatal ->
  Scavenge h = Fatal \/
  exists h1, Scavenge h = Ok (tt, h1) /\ Grow sz h1 = Fatal.
Proof.
  intros Hwf Hsz H. unfold Allocate in H. unfold bind at 1 in H.
  destruct (ASSERT _ h) as [[[] h0]| | |] eqn:Ha; try done.
  2:{ unfold ASSERT in Ha. destruct (_ =? _); discriminate. }
  apply ASSERT_Ok in Ha as [_ ->]. unfold bind at 1 in H.
  pose proof (TryAllocate_not_Fatal sz h) as Hnf0.
  destruct (TryAllocate sz h) as [[r0 h0]| | |] eqn:H0; try done.
  destruct (Z.eqb_spec r0 0) as [->|]; [|done].
  apply TryAllocate_zero in H0 as ->. unfold bind at 1 in H.
  destruct (Scavenge h) as [[[] h1]| | |] eqn:H1; try done; [|by left].
  right. exists h1. split; [done|]. unfold bind at 1 in H.
  pose proof (TryAllocate_not_Fatal sz h1) as Hnf1.
  destruct (TryAllocate sz h1) as [[r1 h2]| | |] eqn:H2; try done.
  destruct (Z.eqb_spec r1 0) as [->|]; [|done].
  apply TryAllocate_zero in H2 as ->. unfold bind at 1 in H.
  destruct (Grow sz h1) as [[[] h3]| | |] eqn:H3; try done.
  exfalso. unfold bind at 1 in H.
  pose proof (TryAllocate_not_Fatal sz h3) as Hnf3.
  destruct (TryAllocate sz h3) as [[r3 h4]| | |] eqn:H4; try done.
  destruct (Z.eqb_spec r3 0) as [->|]; [|done].
  pose proof (Grow_makes_room _ _ _ _ Hwf Hsz H1 H3) as Hroom.
  apply TryAllocate_Ok in H4 as [_ [(Hfull & _)|(_ & Htop & Hal & _)]];
    [lia|].
  unfold aligned_top in Hal. rewrite <- Htop in Hal. discriminate.
Qed.

Lemma Allocate_fatal_only_by_growth_witness :
  Allocate 1073741824 Examples.weak_heap = Fatal /\
  (Scavenge Examples.weak_heap = Fatal \/
   exists h1, Scavenge Examples.weak_heap = Ok (tt, h1) /\
     Grow 1073741824 h1 = Fatal).
Proof.
  assert (H : Allocate 1073741824 Examples.weak_heap = Fatal)
    by (vm_compute; reflexivity).
  split; [exact H|].
  apply (Allocate_fatal_only_by_growth _ _ weak_heap_well_formed);
    [vm_compute; discriminate|exact H].
Defined.

(** ** The state a scavenge leaves *)

(** X5. A scavenge that returns leaves the heap at rest: from-space is
    empty, both intrusive lists and both caches are cleared, [end_] is the
    limit of to-space, to-space tiles from [object_start] to [top_] with
    every object it holds, and the heap is again well formed, so that it can
    be scavenged again; the class table keeps its length and its top, and
    as many handles are registered as before. When to-space holds at least
    the alignment offset, [top_] is at or below [end_]. *)
Theorem Scavenge_resting_state h0 h' :
  well_formed h0 -> Scavenge h0 = Ok (tt, h') ->
  well_formed h' /\
  cells (from_ h') = ∅ /\
  ephemeron_list_ h' = None /\ weak_list_ h' = None /\
  recycle_list_ h' = None /\ lookup_cache_ h' = [] /\
  end_ h' = limit (to_ h') /\
  (exists l, Tiled (cells (to_ h')) (object_start (to_ h')) l (top_ h') /\
     forall n, is_Some (cells (to_ h') !! n) <-> n ∈ l) /\
  class_table_top_ h' = class_table_top_ h0 /\
  length (class_table_ h') = length (class_table_ h0) /\
  length (handles_ h') = length (handles_ h0) /\
  (kNewObjectAlignmentOffset <= size (to_ h0) ->
   object_start (to_ h') <= top_ h' <= end_ h').
Proof.
  intros Hwf H.
  destruct (Scavenge_spec _ _ Hwf H) as [(φ & nil & HM) _].
  pose proof (Moved_well_formed _ _ _ _ HM Hwf) as Hwf'.
  destruct (Scavenge_rec_frame _ _ _ Hwf H) as (He & Hr & Hl & _ & Hu & _).
  pose proof (Scavenge_rec_size _ _ _ Hwf H) as Hsz.
  split; [done|].
  destruct (mv_rest _ _ _ _ HM) as (Hfrom & Hel & Hwl & _).
  do 6 (split; [done|]).
  destruct (mv_tiled _ _ _ _ HM) as (l & Ht & _ & Hdom).
  split; [eauto|].
  split; [exact (mv_class_top _ _ _ _ HM)|].
  split; [exact (proj1 (mv_class_table _ _ _ _ HM))|].
  split; [symmetry; exact (Forall2_length _ _ _ (mv_handles _ _ _ _ HM))|].
  intros H8. pose proof (Tiled_le _ _ _ _ Ht).
  unfold used, limit, object_start in *.
  unfold kNewObjectAlignmentOffset, kWordSize in *. lia.
Qed.

Lemma Scavenge_resting_state_witness :
  well_formed Examples.weak_heap /\
  Scavenge Examples.weak_heap = Ok (tt, Examples.weak_heap_after) /\
  well_formed Examples.weak_heap_after.
Proof.
  split; [exact weak_heap_well_formed|]. split; [exact weak_heap_Scavenge|].
  exact (proj1 (Scavenge_resting_state _ _ weak_heap_well_formed
                  weak_heap_Scavenge)).
Defined.

(** X6. The early-growth heuristic: whenever [Scavenge] returns, no more
    than seven eighths of to-space are in use. *)
Theorem Scavenge_leaves_room h0 h' :
  Scavenge h0 = Ok (tt, h') -> used h' <= 7 * Capacity h' / 8.
Proof.
  unfold Scavenge, Capacity. generalize 64%nat. intros depth. revert h0.
  induction depth as [|d IH]; intros h0 H;
    apply Scavenge_rec_Ok in H
      as (h1 & _ & [[Hle ->]|(_ & d' & Hd & _ & Hrec)]); try done.
  injection Hd as <-. eauto.
Qed.

Lemma Scavenge_leaves_room_witness :
  Scavenge Examples.weak_heap = Ok (tt, Examples.weak_heap_after) /\
  used Examples.weak_heap_after <= 7 * Capacity Examples.weak_heap_after / 8.
Proof.
  split; [exact weak_heap_Scavenge|].
  exact (Scavenge_leaves_room _ _ weak_heap_Scavenge).
Defined.

(** The collection that follows an early growth is the last. *)
Lemma Scavenge_rec_after_growth_Ok d h0 h1 φ nil h' :
  well_formed h0 -> Moved h0 h1 φ nil ->
  0 <= size (to_ h1) -> used h1 <= size (to_ h1) ->
  Scavenge_rec d (Grow_realloc h1 (size (to_ h1) * 2)) = Ok (tt, h') ->
  Scavenge_collect (Grow_realloc h1 (size (to_ h1) * 2)) = Ok (tt, h') /\
  used h' = used h1 /\ size (to_ h') = size (to_ h1) * 2.
Proof.
  intros Hwf HM1 Hsz Hused H.
  pose proof (Moved_well_formed _ _ _ _ HM1 Hwf) as Hwf1.
  pose proof (Grow_realloc_well_formed _ (size (to_ h1) * 2) Hwf1)
    as (Hrest & Harr & _).
  apply Scavenge_rec_Ok in H as (h2 & Hc & Hcase).
  destruct (Scavenge_collect_spec _ _ Hrest Harr Hc) as (F & nil2 & HC).
  pose proof (Collected_Moved _ _ _ _ HC) as HM2.
  apply (Moved_ext h1) in HM2; [|done..].
  destruct Hwf as (_ & _ & Hlegal0 & _).
  pose proof (second_used _ _ _ _ _ _ _ HM1 HM2 Hlegal0) as Hu.
  assert (Hs2 : size (to_ h2) = size (to_ h1) * 2).
  { destruct (col_to _ _ _ _ HC) as [(_ & Hs2 & _)|(_ & _ & _ & Hlt)];
      simpl in *; [done|lia]. }
  destruct Hcase as [[_ ->]|(Hgt & _)]; [done|].
  exfalso. rewrite Hs2 in Hgt.
  assert (size (to_ h1) <= 7 * (size (to_ h1) * 2) / 8)
    by (apply Z.div_le_lower_bound; lia).
  lia.
Qed.

(** X7. The capacity a scavenge leaves. With [m] the larger of the two
    semispace sizes, to-space has size [m] afterwards, or, when more than
    seven eighths of [m] were still in use, size [2 * m]: the growth is made
    once and not repeated. The capacity never shrinks. *)
Theorem Scavenge_capacity h0 h' :
  well_formed h0 -> 0 <= size (to_ h0) -> 0 <= size (from_ h0) ->
  Scavenge h0 = Ok (tt, h') ->
  let m := Z.max (size (to_ h0)) (size (from_ h0)) in
  Capacity h0 <= Capacity h' /\
  ((Capacity h' = m /\ used h' <= 7 * m / 8) \/
   (Capacity h' = 2 * m /\ 7 * m / 8 < used h' /\
    2 * m <= kMaxSemispaceSize)).
Proof.
  intros Hwf Hto Hfrom H m.
  split; [exact (Scavenge_rec_size _ _ _ Hwf H)|].
  unfold Scavenge in H. apply Scavenge_rec_Ok in H as (h1 & Hc & Hcase).
  pose proof Hwf as (Hrest & Harr & _).
  destruct (Scavenge_collect_spec _ _ Hrest Harr Hc) as (F & nil1 & HC).
  pose proof (Collected_Moved _ _ _ _ HC) as HM1.
  pose proof (Scavenge_collect_used _ _ Hrest Harr Hc) as Hu.
  assert (Hm : size (to_ h1) = m).
  { unfold m.
    destruct (col_to _ _ _ _ HC) as [(_ & -> & _ & ?)|(_ & -> & _ & ?)]; lia. }
  unfold Capacity.
  destruct Hcase as [[Hle ->]|(Hgt & d & _ & Hmax & Hrec)].
  - left. rewrite Hm in Hle. done.
  - right.
    destruct (Scavenge_rec_after_growth_Ok d h0 h1 _ _ h' Hwf HM1
                ltac:(lia)
                ltac:(unfold kNewObjectAlignmentOffset, kWordSize in Hu; lia)
                Hrec) as (_ & Hu' & Hs').
    rewrite Hs', Hu', Hm in *. split; [lia|]. split; [done|lia].
Qed.

Lemma Scavenge_capacity_witness :
  Scavenge Examples.weak_heap = Ok (tt, Examples.weak_heap_after) /\
  Capacity Examples.weak_heap <= Capacity Examples.weak_heap_after.
Proof.
  split; [exact weak_heap_Scavenge|].
  apply (Scavenge_capacity _ _ weak_heap_well_formed);
    [vm_compute; discriminate|vm_compute; discriminate
    |exact weak_heap_Scavenge].
Defined.

(** [closed h]: no reference of [h] dangles. Every root, every slot of every
    object and every entry of the class table in use is an immediate, a
    reference out of new space, or the address of an object of to-space. *)
Definition closed (h : Heap) : Prop :=
  retained h (object_store_ h) /\
  retained h (current_activation_ h) /\
  Forall (retained h) (handles_ h) /\
  (forall n o p, cells (to_ h) !! n = Some (Live o) -> p ∈ slots o ->
     retained h p) /\
  (forall j p, kFirstLegalCid <= j < class_table_top_ h ->
     class_table_ h !! Z.to_nat j = Some p -> retained h p).

(** Only the key, the value and the finalizer of an ephemeron refer to new
    space: what follows them is padding. *)
Definition ephemeron_padding (h : Heap) : Prop :=
  forall a o k v f rest, cells (to_ h) !! a = Some (Live o) ->
    cid o = kEphemeronCid -> slots o = k :: v :: f :: rest ->
    Forall (fun p => ptr_target p = None) rest.

Lemma retained_immediate h p : ptr_target p = None -> retained h p.
Proof. unfold retained. by intros ->. Qed.

Lemma Moved_nil_retained h0 h' φ nil :
  Moved h0 h' φ nil -> store_is_array h0 -> retained h' nil.
Proof.
  intros HM Harr. unfold retained.
  destruct (ptr_target nil) as [b|] eqn:Hb; [|done].
  destruct (Moved_nil_cell _ _ _ _ _ HM Harr Hb) as [c Hc].
  destruct (mv_cells _ _ _ _ HM _ _ Hc) as (_ & _ & _ & _ & _ & (o & -> & _)).
  eauto.
Qed.

Lemma weak_ptr_retained h0 h' φ nil p p' :
  Moved h0 h' φ nil -> store_is_array h0 ->
  weak_ptr φ h' nil p p' -> retained h' p'.
Proof.
  intros HM Harr Hw. unfold weak_ptr in Hw.
  destruct (ptr_target p) as [a|] eqn:Ha.
  - destruct Hw as [[(n & Hn & ->)|[_ ->]] _].
    + apply (rel_ptr_retained _ _ _ _ p _ HM). unfold rel_ptr. rewrite Ha.
      eauto.
    + by eapply Moved_nil_retained.
  - subst p'. by apply retained_immediate.
Qed.

(** X8. No reference dangles after a scavenge: every root, every slot of
    every object of to-space and every entry of the class table in use is an
    immediate, a reference out of new space, or the address of an object of
    to-space; every cell of to-space is an object, not a forwarding header.
    When the semispaces do not overlap, no object lies in from-space. *)
Theorem Scavenge_closed h0 h' :
  well_formed h0 -> ephemeron_padding h0 ->
  Scavenge h0 = Ok (tt, h') ->
  closed h' /\
  (forall n c, cells (to_ h') !! n = Some c -> exists o, c = Live o) /\
  (spaces_apart h0 -> kNewObjectAlignmentOffset <= size (to_ h0) ->
   forall n, is_Some (cells (to_ h') !! n) ->
     InToSpace h' n = true /\ InFromSpace h' n = false).
Proof.
  intros Hwf Hpad H.
  destruct (Scavenge_spec _ _ Hwf H) as [(φ & nil & HM) Hsp].
  pose proof Hwf as (_ & Harr & _).
  split; [|split].
  - split; [exact (rel_ptr_retained _ _ _ _ _ _ HM (mv_store _ _ _ _ HM))|].
    split; [exact (rel_ptr_retained _ _ _ _ _ _ HM (mv_activation _ _ _ _ HM))|].
    split.
    { apply Forall_forall. intros p' Hp'.
      apply list_elem_of_lookup in Hp' as [i Hi].
      destruct (Forall2_lookup_r _ _ _ _ _ (mv_handles _ _ _ _ HM) Hi)
        as (p & _ & Hr).
      exact (rel_ptr_retained _ _ _ _ _ _ HM Hr). }
    split.
    + intros n o' p' Ho' Hp'.
      destruct (mv_cells _ _ _ _ HM _ _ Ho')
        as (a & o0 & Ha & Ho0 & _ & (o2 & [= <-] & Hcid & _ & _ & _ & Hsl)).
      apply list_elem_of_lookup in Hp' as [i Hi].
      destruct (decide (cid o0 = kWeakArrayCid)).
      { destruct (Forall2_lookup_r _ _ _ _ _ Hsl Hi) as (p & _ & Hw).
        by eapply weak_ptr_retained. }
      destruct (decide (cid o0 = kEphemeronCid)) as [Heph|].
      { destruct Hsl as (k & v & f & rest & Hslots
                         & [(k' & v' & f' & Hslots' & Hk & Hv & Hf)
                           |(ka & Hka & Hnone & Hslots')]);
          rewrite Hslots' in Hi;
          pose proof (Hpad _ _ _ _ _ _ Ho0 Heph Hslots) as Hrest;
          destruct i as [|[|[|i]]]; simpl in Hi;
          try (injection Hi as <-);
          try (by eapply rel_ptr_retained);
          try (by eapply Moved_nil_retained);
          apply retained_immediate;
          exact (proj1 (Forall_lookup _ _) Hrest _ _ Hi). }
      destruct (Forall2_lookup_r _ _ _ _ _ Hsl Hi) as (p & _ & Hr).
      by eapply rel_ptr_retained.
    + intros j p' Hj Hp'.
      destruct (mv_class_table _ _ _ _ HM) as [Hlen Hct].
      rewrite (mv_class_top _ _ _ _ HM) in Hj.
      destruct (lookup_lt_is_Some_2 (class_table_ h0) (Z.to_nat j)) as [p Hp].
      { rewrite <- Hlen. eapply lookup_lt_Some. exact Hp'. }
      destruct (Hct _ _ Hp) as (p2 & Hp2 & Hcase).
      rewrite Hp' in Hp2. injection Hp2 as <-.
      rewrite decide_True in Hcase by (unfold kFirstLegalCid in *; lia).
      unfold class_ptr in Hcase.
      destruct (ptr_target p) as [a|] eqn:Ha.
      * destruct Hcase as [(n & Hn & ->)|(_ & f & ->)]; [|done].
        apply (rel_ptr_retained _ _ _ _ p _ HM). unfold rel_ptr.
        rewrite Ha. eauto.
      * subst p'. by apply retained_immediate.
  - intros n c Hc.
    destruct (mv_cells _ _ _ _ HM _ _ Hc) as (_ & _ & _ & _ & _ & (o & -> & _)).
    eauto.
  - intros Hsp0 H8 n Hn. specialize (Hsp Hsp0).
    destruct (Scavenge_below_top _ _ Hwf H n Hn) as [Hlo Hhi].
    destruct (Scavenge_rec_frame _ _ _ Hwf H) as (He & _ & _ & _ & Hu & _).
    pose proof (Scavenge_rec_size _ _ _ Hwf H) as Hsz.
    assert (Hin : InToSpace h' n = true).
    { unfold InToSpace, used, limit, object_start in *.
      unfold kNewObjectAlignmentOffset, kWordSize in *.
      apply andb_true_intro. split; [apply Z.leb_le|apply Z.ltb_lt]; lia. }
    split; [done|]. by apply spaces_apart_to_not_from.
Qed.

Definition padding_ok (c : Cell) : bool :=
  match c with
  | Live o =>
      if cid o =? kEphemeronCid then
        forallb IsImmediateOrOldObject (drop 3 (slots o))
      else true
  | _ => true
  end.

Lemma padding_ok_padding h :
  bool_decide (map_Forall (fun _ c => padding_ok c = true) (cells (to_ h)))
    = true ->
  ephemeron_padding h.
Proof.
  intros H. apply bool_decide_eq_true in H.
  intros a o k v f rest Ho Hcid Hsl. specialize (H _ _ Ho). simpl in H.
  rewrite Hcid, Z.eqb_refl, Hsl in H. simpl in H.
  apply Forall_forall. intros p Hp.
  rewrite forallb_forall in H. specialize (H p).
  destruct p as [x|b]; [done|].
  change (ptr_target (HeapObject b)) with
    (if IsImmediateOrOldObject (HeapObject b) then None else Some b).
  rewrite H; [done|]. by apply list_elem_of_In.
Qed.

Lemma Scavenge_closed_witness :
  well_formed Examples.eph_heap /\ ephemeron_padding Examples.eph_heap /\
  Scavenge Examples.eph_heap = Ok (tt, Examples.eph_heap_after) /\
  closed Examples.eph_heap_after.
Proof.
  assert (Hpad : ephemeron_padding Examples.eph_heap)
    by (apply padding_ok_padding; vm_compute; reflexivity).
  split; [exact eph_heap_well_formed|]. split; [exact Hpad|].
  split; [exact eph_heap_Scavenge|].
  exact (proj1 (Scavenge_closed _ _ eph_heap_well_formed Hpad
                  eph_heap_Scavenge)).
Defined.

(** ** What a scavenge reclaims *)

Lemma total_size_submseteq m l l0 :
  l ⊆+ l0 -> (forall x, x ∈ l0 -> 0 <= size_at m x) ->
  total_size m l <= total_size m l0.
Proof.
  unfold total_size.
  induction 1 as [|x l1 l2 Hs IH|x y l1|x l1 l2 Hs IH|l1 l2 l3 H1 IH1 H2 IH2];
    intros Hpos; simpl.
  - lia.
  - specialize (IH ltac:(intros z Hz; apply Hpos; by right)). lia.
  - lia.
  - specialize (IH ltac:(intros z Hz; apply Hpos; by right)).
    specialize (Hpos x ltac:(by left)). lia.
  - specialize (IH2 Hpos).
    assert (forall x, x ∈ l2 -> 0 <= size_at m x).
    { intros x Hx. apply Hpos. by eapply elem_of_submseteq. }
    specialize (IH1 ltac:(done)). lia.
Qed.

Lemma preimages (φ : Z -> option Z) (l' : list Z) :
  (forall n, n ∈ l' -> exists a, φ a = Some n) ->
  exists l, Forall2 (fun a n => φ a = Some n) l l'.
Proof.
  induction l' as [|n l' IH]; intros H.
  - exists []. constructor.
  - destruct (H n ltac:(by left)) as [a Ha].
    destruct IH as [l Hl]; [intros m Hm; apply H; by right|].
    exists (a :: l). by constructor.
Qed.

Lemma preimages_NoDup (φ : Z -> option Z) l l' :
  Forall2 (fun a n => φ a = Some n) l l' -> NoDup l' -> NoDup l.
Proof.
  induction 1 as [|a n l l' Ha Hl IH]; intros Hnd'; [constructor|].
  apply NoDup_cons in Hnd' as [Hn Hnd']. apply NoDup_cons.
  split; [|by apply IH]. intros Hin.
  apply list_elem_of_lookup in Hin as [i Hi].
  destruct (Forall2_lookup_l _ _ _ _ _ Hl Hi) as (n' & Hn' & Hφ).
  rewrite Ha in Hφ. injection Hφ as <-.
  apply Hn. eapply list_elem_of_lookup_2. exact Hn'.
Qed.

Lemma preimages_elem (φ : Z -> option Z) l l' :
  (forall a a' n, φ a = Some n -> φ a' = Some n -> a = a') ->
  Forall2 (fun a n => φ a = Some n) l l' ->
  forall a, a ∈ l <-> exists n, n ∈ l' /\ φ a = Some n.
Proof.
  intros Hinj Hl a. split.
  - intros Ha. apply list_elem_of_lookup in Ha as [i Hi].
    destruct (Forall2_lookup_l _ _ _ _ _ Hl Hi) as (n & Hn & Hφ).
    exists n. split; [|done]. eapply list_elem_of_lookup_2. exact Hn.
  - intros (n & Hn & Hφ). apply list_elem_of_lookup in Hn as [i Hi].
    destruct (Forall2_lookup_r _ _ _ _ _ Hl Hi) as (a' & Ha' & Hφ').
    assert (a' = a) as -> by exact (Hinj _ _ _ Hφ' Hφ).
    eapply list_elem_of_lookup_2. exact Ha'.
Qed.

Lemma Scavenge_reached_sizes h0 h' :
  well_formed h0 -> Scavenge h0 = Ok (tt, h') ->
  exists l, NoDup l /\ (forall a, a ∈ l <-> Reach h0 a) /\
    (forall a, a ∈ l -> is_Some (cells (to_ h0) !! a)) /\
    used h' = total_size (cells (to_ h0)) l.
Proof.
  intros Hwf H.
  destruct (Scavenge_spec _ _ Hwf H) as [(φ & nil & HM) _].
  destruct (Moved_used _ _ _ _ HM) as (l' & Hnd' & Hdom' & Hu).
  destruct (preimages φ l') as [l Hl].
  { intros n Hn. apply Hdom' in Hn as [c Hc].
    destruct (mv_cells _ _ _ _ HM _ _ Hc) as (a & _ & Ha & _). eauto. }
  assert (Hsize : forall a n, φ a = Some n ->
            size_at (cells (to_ h')) n = size_at (cells (to_ h0)) a /\
            is_Some (cells (to_ h0) !! a)).
  { intros a n Ha. destruct (mv_range _ _ _ _ HM _ _ Ha) as [c Hc].
    destruct (mv_cells _ _ _ _ HM _ _ Hc)
      as (a' & o0 & Ha' & Ho0 & _ & (o' & -> & _ & Hsz & _)).
    assert (a' = a) as -> by exact (mv_inj _ _ _ _ HM _ _ _ Ha' Ha).
    unfold size_at. rewrite Hc, Ho0. split; [done|eauto]. }
  assert (Hmem : forall a, a ∈ l <-> is_Some (φ a)).
  { intros a. rewrite (preimages_elem φ l l' (mv_inj _ _ _ _ HM) Hl). split.
    - intros (n & _ & Hn). eauto.
    - intros [n Hn]. exists n. split; [|done].
      apply Hdom'. exact (mv_range _ _ _ _ HM _ _ Hn). }
  exists l. split; [by eapply preimages_NoDup|]. split; [|split].
  - intros a. rewrite Hmem. symmetry. apply (mv_reach _ _ _ _ HM).
  - intros a Ha. apply Hmem in Ha as [n Hn]. by apply (Hsize a n).
  - rewrite Hu. clear Hmem Hu Hdom' Hnd'. unfold total_size.
    induction Hl as [|a n l l' Ha Hl IH]; [done|].
    simpl. rewrite (proj1 (Hsize _ _ Ha)), IH. done.
Qed.

Lemma total_size_tiled h l l0 :
  NoDup l -> (forall a, a ∈ l -> is_Some (cells (to_ h) !! a)) ->
  Tiled (cells (to_ h)) (object_start (to_ h)) l0 (top_ h) ->
  (forall n, is_Some (cells (to_ h) !! n) -> n ∈ l0) ->
  total_size (cells (to_ h)) l <= used h.
Proof.
  intros Hnd Hl Ht Hdom.
  pose proof (Tiled_total _ _ _ _ Ht) as Hu.
  unfold used. rewrite Hu. apply total_size_submseteq.
  - apply NoDup_submseteq; [done|]. intros a Ha. by apply Hdom, Hl.
  - intros x Hx. destruct (Tiled_lookup _ _ _ _ _ Ht Hx) as (c & Hc & _ & ?).
    unfold size_at. rewrite Hc. lia.
Qed.

(** X9. What a scavenge reclaims: the bytes in use afterwards are the sizes
    of the objects that were reachable, each counted once -- garbage,
    cycles of garbage included, takes no space. When to-space was tiled by
    its objects before, the bytes in use do not increase. *)
Theorem Scavenge_used h0 h' :
  well_formed h0 -> Scavenge h0 = Ok (tt, h') ->
  (exists l, NoDup l /\ (forall a, a ∈ l <-> Reach h0 a) /\
     used h' = total_size (cells (to_ h0)) l) /\
  (forall l0, Tiled (cells (to_ h0)) (object_start (to_ h0)) l0 (top_ h0) ->
     (forall n, is_Some (cells (to_ h0) !! n) -> n ∈ l0) ->
     used h' <= used h0).
Proof.
  intros Hwf H.
  destruct (Scavenge_reached_sizes _ _ Hwf H) as (l & Hnd & Hmem & Hin & Hu).
  split.
  - exists l. split; [done|]. split; [done|]. exact Hu.
  - intros l0 Ht Hdom. rewrite Hu.
    by apply (total_size_tiled h0 l l0).
Qed.

Lemma Scavenge_used_witness :
  Scavenge Examples.weak_heap = Ok (tt, Examples.weak_heap_after) /\
  exists l, NoDup l /\ (forall a, a ∈ l <-> Reach Examples.weak_heap a) /\
    used Examples.weak_heap_after
    = total_size (cells (to_ Examples.weak_heap)) l.
Proof.
  split; [exact weak_heap_Scavenge|].
  exact (proj1 (Scavenge_used _ _ weak_heap_well_formed weak_heap_Scavenge)).
Defined.

(** ** The class table across a scavenge *)

Lemma FreeChain_links t f0 f l :
  FreeChain t f0 f l ->
  forall j, j ∈ l -> exists v, t !! Z.to_nat j = Some (SmallInteger v).
Proof.
  induction 1 as [|i f l Hi Hc IH]; intros j Hj.
  - by apply elem_of_nil in Hj.
  - apply elem_of_cons in Hj as [->|Hj]; eauto.
Qed.

(** The cids a scavenge of [h0] releases: those of the entries in use that
    refer to a class of new space the scavenge did not reach. *)
Definition released_by (h0 : Heap) (j : Z) : Prop :=
  kFirstLegalCid <= j < class_table_top_ h0 /\
  exists p a, class_table_ h0 !! Z.to_nat j = Some p /\
    ptr_target p = Some a /\ ~ Reach h0 a.

Lemma Scavenge_rec_released depth : forall h0 h',
  well_formed h0 -> Scavenge_rec depth h0 = Ok (tt, h') ->
  exists released,
    FreeChain (class_table_ h') (class_table_free_ h0) (class_table_free_ h')
      released /\
    StronglySorted Z.gt released /\
    forall j, j ∈ released <-> released_by h0 j.
Proof.
  induction depth as [|d IH]; intros h0 h' Hwf H;
    apply Scavenge_rec_Ok in H as (h1 & Hc & Hcase);
    pose proof Hwf as (Hrest & Harr & Hlegal & _);
    destruct (Scavenge_collect_frame _ _ Hrest Harr Hc)
      as (_ & _ & _ & rel1 & Hch1 & Hso1 & Hrel1);
    destruct Hcase as [[Hle ->]|(Hgt & d' & Hd & _ & Hrec)]; try done;
    try (by exists rel1).
  injection Hd as <-.
  destruct (Scavenge_collect_spec _ _ Hrest Harr Hc) as (F & nil1 & HC).
  pose proof (Collected_Moved _ _ _ _ HC) as HM1.
  pose proof (Moved_well_formed _ _ _ _ HM1 Hwf) as Hwf1.
  pose proof (Grow_realloc_well_formed _ (size (to_ h1) * 2) Hwf1) as Hwf2.
  destruct (IH _ _ Hwf2 Hrec) as (rel2 & Hch2 & _ & Hrel2).
  destruct (Scavenge_rec_spec _ _ _ Hwf2 Hrec) as [(φ2 & nil2 & HM2) _].
  simpl in Hch2.
  assert (rel2 = []) as ->.
  { destruct rel2 as [|j rel2]; [done|]. exfalso.
    destruct (proj1 (Hrel2 j) ltac:(by left)) as (Hj & p & a & Hp & Ha & Hnr).
    simpl in Hj, Hp. rewrite (mv_class_top _ _ _ _ HM1) in Hj.
    destruct (mv_class_table _ _ _ _ HM1) as [Hlen Hct].
    destruct (lookup_lt_is_Some_2 (class_table_ h0) (Z.to_nat j)) as [p0 Hp0].
    { rewrite <- Hlen. eapply lookup_lt_Some. exact Hp. }
    destruct (Hct _ _ Hp0) as (p' & Hp' & Hcase).
    rewrite Hp in Hp'. injection Hp' as <-.
    rewrite decide_True in Hcase by (unfold kFirstLegalCid in *; lia).
    unfold class_ptr in Hcase.
    destruct (ptr_target p0) as [a0|] eqn:Ha0.
    - destruct Hcase as [(n & Hn & ->)|(_ & f & ->)]; [|done].
      apply Hnr.
      assert (a = n) as ->.
      { rewrite (Moved_new _ _ _ _ HM1 _ _ Hn) in Ha. congruence. }
      apply (Reach_ext h1); [done..|].
      apply (Moved_no_garbage _ _ _ _ HM1 Hlegal).
      exact (mv_range _ _ _ _ HM1 _ _ Hn).
    - subst p0. congruence. }
  apply FreeChain_nil_inv in Hch2.
  exists rel1. split; [|done].
  rewrite Hch2. eapply FreeChain_ext; [|exact Hch1].
  intros j Hj. destruct (FreeChain_links _ _ _ _ Hch1 j Hj) as [v Hv].
  destruct (mv_class_table _ _ _ _ HM2) as [_ Hct2].
  destruct (Hct2 _ _ Hv) as (p' & Hp' & Hcase).
  rewrite Hp', Hv. f_equal. case_decide; [|done].
  exact Hcase.
Qed.

(** X10. Class reclamation. A scavenge releases exactly the cids of the
    entries in use whose class lay in new space and was not reached. They
    are pushed on the free list of the class table in ascending order, so
    that the list runs from the largest cid released down to the old head,
    each entry holding the next cid as a small integer. The cid of an object
    that survives is never released, and an entry that does not refer to
    new space is left as it is. *)
Theorem Scavenge_class_reclamation h0 h' :
  well_formed h0 -> Scavenge h0 = Ok (tt, h') ->
  exists released,
    FreeChain (class_table_ h') (class_table_free_ h0) (class_table_free_ h')
      released /\
    StronglySorted Z.gt released /\
    (forall j, j ∈ released <-> released_by h0 j) /\
    (forall n o, cells (to_ h') !! n = Some (Live o) -> cid o ∉ released) /\
    (forall j p, class_table_ h0 !! j = Some p -> ptr_target p = None ->
       class_table_ h' !! j = Some p).
Proof.
  intros Hwf H.
  destruct (Scavenge_rec_released _ _ _ Hwf H) as (rel & Hch & Hso & Hrel).
  destruct (Scavenge_spec _ _ Hwf H) as [(φ & nil & HM) _].
  exists rel. do 3 (split; [done|]). split.
  - intros n o' Ho' Hin. apply Hrel in Hin as (Hj & p & a & Hp & Ha & Hnr).
    destruct (mv_cells _ _ _ _ HM _ _ Ho')
      as (a0 & o0 & Ha0 & Ho0 & _ & (o2 & [= <-] & Hcid & _)).
    apply Hnr. rewrite Hcid in Hp, Hj.
    eapply (Reach_class h0 a0 o0 p a); eauto.
    + apply (mv_reach _ _ _ _ HM). eauto.
    + unfold kFirstLegalCid in Hj. lia.
  - intros j p Hp Hnone.
    destruct (mv_class_table _ _ _ _ HM) as [_ Hct].
    destruct (Hct _ _ Hp) as (p' & Hp' & Hcase).
    rewrite Hp'. f_equal. unfold class_ptr in Hcase. rewrite Hnone in Hcase.
    case_decide; done.
Qed.

(** ** Class ids

    [kUninitializedWord] of [vm/heap.h] (64-bit). Cast to an [Object*] it
    carries the heap-object tag and is not aligned as a new-space object:
    the scavenger leaves it alone. *)

Definition kUninitializedWord : Z := 0xcbcbcbcbcbcbcbcb.
Definition uninitialized : ObjectPtr := HeapObject (kUninitializedWord - 1).

Definition with_class_table_top (h : Heap) (t : Z) : Heap :=
  mkHeap (top_ h) (end_ h) (to_ h) (from_ h) (ephemeron_list_ h)
    (weak_list_ h) (class_table_ h) t (class_table_free_ h)
    (object_store_ h) (current_activation_ h) (handles_ h)
    (recycle_list_ h) (lookup_cache_ h) (vm_brk h).

(** Modelled from the spec: [SmallInteger::value()] of [vm/object.h]
    asserts [IsSmallInteger()]. *)
Definition SmallInteger_value (p : ObjectPtr) : M Z :=
  match p with
  | SmallInteger v => ret v
  | HeapObject _ => trap
  end.

(** [class_table_[cid]], read and written; an index outside the array is
    the outcome [Trap]. *)
Definition class_table_at (cid : Z) : M ObjectPtr :=
  let* h := get in
  ASSERT (0 <=? cid) ;;;
  lift (class_table_ h !! Z.to_nat cid).

Definition class_table_put (cid : Z) (p : ObjectPtr) : M unit :=
  let* h := get in
  ASSERT ((0 <=? cid) && (cid <? Z.of_nat (length (class_table_ h)))) ;;;
  modify (fun h =>
    with_class_table h (<[Z.to_nat cid := p]> (class_table_ h))
      (class_table_free_ h)).

(** [cid = class_table_free_; class_table_free_ = class_table_[cid]->value()] *)
Definition take_free_cid : M Z :=
  let* h := get in
  let cid := class_table_free_ h in
  let* e := class_table_at cid in
  let* v := SmallInteger_value e in
  modify (fun h => with_class_table h (class_table_ h) v) ;;;
  ret cid.

(** [Heap::AllocateClassId], with the store of the DEBUG build at its end.
    Incrementing [class_table_top_] past the range of [intptr_t] is
    undefined. *)
Definition AllocateClassId : M Z :=
  let* h := get in
  let* cid :=
    if negb (class_table_free_ h =? 0) then take_free_cid
    else if class_table_top_ h =? Z.of_nat (length (class_table_ h)) then
      Scavenge ;;;
      let* h := get in
      if negb (class_table_free_ h =? 0) then take_free_cid
      else fatal
    else
      ASSERT (class_table_top_ h <? kIntptrMax) ;;;
      modify (fun h => with_class_table_top h (class_table_top_ h + 1)) ;;;
      ret (class_table_top_ h) in
  class_table_put cid uninitialized ;;;
  ret cid.

(** The heap after [cid] has been taken from the head of the free list,
    whose next link is [f]. *)
Definition cid_taken (h : Heap) (cid f : Z) : Heap :=
  with_class_table h (<[Z.to_nat cid := uninitialized]> (class_table_ h)) f.

Lemma AllocateClassId_take h cid f :
  class_table_free_ h = cid -> cid <> 0 -> 0 <= cid ->
  class_table_ h !! Z.to_nat cid = Some (SmallInteger f) ->
  AllocateClassId h = Ok (cid, cid_taken h cid f).
Proof.
  intros Hf Hnz Hpos He.
  unfold AllocateClassId, bind at 1, get. simpl.
  rewrite Hf. destruct (Z.eqb_spec cid 0) as [|_]; [done|]. simpl.
  unfold bind at 1. unfold take_free_cid, bind at 1, get. simpl.
  unfold class_table_at, bind at 1, get. simpl. rewrite Hf.
  unfold bind at 1, bind at 1, ASSERT.
  destruct (Z.leb_spec 0 cid) as [_|]; [|lia]. simpl.
  unfold lift. rewrite He. simpl.
  unfold class_table_put, bind, get, ASSERT, modify, ret. simpl.
  destruct (Z.leb_spec 0 cid) as [_|]; [|lia]. simpl.
  apply lookup_lt_Some in He.
  destruct (Z.ltb_spec cid (Z.of_nat (length (class_table_ h)))) as [_|]; [|lia].
  done.
Qed.

Lemma FreeChain_det t l : forall f l',
  FreeChain t 0 f l -> FreeChain t 0 f l' -> 0 ∉ l -> 0 ∉ l' -> l = l'.
Proof.
  induction l as [|i l IH]; intros f l' H H' Hl Hl'.
  - inversion H; subst. inversion H'; subst; [done|].
    exfalso. apply Hl'. by left.
  - inversion H as [|i1 f1 l1 Hi1 Hc1]; subst.
    inversion H' as [|i2 f2 l2 Hi2 Hc2]; subst.
    + exfalso. apply Hl. by left.
    + f_equal. rewrite Hi1 in Hi2. injection Hi2 as <-.
      eapply IH; eauto.
      * intros ?. apply Hl. by right.
      * intros ?. apply Hl'. by right.
Qed.

Lemma FreeChain_suffix t f0 l1 : forall f l2 i,
  FreeChain t f0 f (l1 ++ i :: l2) -> exists f', FreeChain t f0 i (i :: l2) /\
    f' = f.
Proof.
  induction l1 as [|j l1 IH]; intros f l2 i H; simpl in H.
  - inversion H; subst. eauto.
  - inversion H as [|i1 f1 l1' Hi1 Hc1]; subst.
    destruct (IH _ _ _ Hc1) as (? & ? & _). eauto.
Qed.

Lemma FreeChain_NoDup t l : forall f,
  FreeChain t 0 f l -> 0 ∉ l -> NoDup l.
Proof.
  induction l as [|i l IH]; intros f H Hl; [constructor|].
  inversion H as [|i1 f1 l1' Hi1 Hc1]; subst. constructor.
  - intros Hin. apply list_elem_of_split in Hin as (l1 & l2 & ->).
    destruct (FreeChain_suffix _ _ _ _ _ _ Hc1) as (_ & Hs & _).
    assert (i :: l1 ++ i :: l2 = i :: l2) as Heq.
    { eapply FreeChain_det; eauto.
      intros Hz. apply Hl. apply elem_of_cons in Hz as [<-|Hz]; [by left|].
      right. apply elem_of_app. right. by right. }
    apply (f_equal length) in Heq. simpl in Heq. rewrite length_app in Heq.
    simpl in Heq. lia.
  - eapply IH; eauto. intros ?. apply Hl. by right.
Qed.

(** X11. The free list of the class table is handed out last-released
    first. When the list runs from its head through the cids [l] down to
    [0], the next [length l] calls of [AllocateClassId] return exactly [l],
    in order, without collecting; afterwards the list is empty, every cid
    handed out holds [kUninitializedWord], and nothing but these entries
    and the head of the list has changed. *)
Theorem AllocateClassId_free_list l : forall h,
  FreeChain (class_table_ h) 0 (class_table_free_ h) l ->
  Forall (fun j => 0 < j) l ->
  exists h',
    mapM (fun _ : unit => AllocateClassId) (replicate (length l) tt) h
      = Ok (l, h') /\
    class_table_free_ h' = 0 /\
    length (class_table_ h') = length (class_table_ h) /\
    (forall j, j ∈ l -> class_table_ h' !! Z.to_nat j = Some uninitialized) /\
    (forall j, 0 <= j -> j ∉ l ->
       class_table_ h' !! Z.to_nat j = class_table_ h !! Z.to_nat j) /\
    h' = with_class_table h (class_table_ h') 0.
Proof.
  induction l as [|i l IH]; intros h Hch Hpos.
  - inversion Hch as [Hf|]; subst. exists h. simpl.
    split; [done|]. split; [done|]. split; [done|].
    split; [intros j Hj; by apply elem_of_nil in Hj|].
    split; [done|]. destruct h; simpl in *. unfold with_class_table. simpl.
    by rewrite <- Hf.
  - assert (0 ∉ i :: l) as H0.
    { intros Hin. rewrite Forall_forall in Hpos. apply Hpos in Hin. lia. }
    pose proof (FreeChain_NoDup _ _ _ Hch H0) as Hnd.
    apply NoDup_cons in Hnd as [Hni _].
    assert (exists f, class_table_free_ h = i /\
              class_table_ h !! Z.to_nat i = Some (SmallInteger f) /\
              FreeChain (class_table_ h) 0 f l) as (f & Hfree & Hi & Hc).
    { inversion Hch; eauto. }
    apply Forall_cons in Hpos as [Hi0 Hpos].
    pose proof (AllocateClassId_take h i f Hfree ltac:(lia)
                  ltac:(lia) Hi) as Hrun.
    destruct (IH (cid_taken h i f)) as (h' & Hm & Hf' & Hlen & Hin & Hout & Hh');
      [|done|].
    { simpl. eapply FreeChain_ext; [|exact Hc].
      intros j Hj. rewrite list_lookup_insert_ne; [done|].
      intros Heq. apply Hni. apply Z2Nat.inj in Heq; [by subst| lia|].
      rewrite Forall_forall in Hpos. apply Hpos in Hj. lia. }
    exists h'. simpl replicate. simpl mapM.
    unfold bind at 1. rewrite Hrun. unfold bind at 1. rewrite Hm.
    simpl in Hlen. rewrite length_insert in Hlen.
    split; [done|]. split; [done|]. split; [done|]. split; [|split].
    + intros j Hj. apply elem_of_cons in Hj as [->|Hj]; [|by apply Hin].
      rewrite Hout by (done || lia). simpl.
      apply list_lookup_insert_eq. by eapply lookup_lt_Some.
    + intros j Hj Hnot. rewrite Hout; [|done|].
      * simpl. rewrite list_lookup_insert_ne; [done|].
        intros Heq. apply Hnot. apply Z2Nat.inj in Heq; [|lia..].
        subst. by left.
      * intros ?. apply Hnot. by right.
    + rewrite Hh'. by destruct h.
Qed.

Module ClassExamples.

(** [Examples.weak_heap] with a full class table: entry 16 is the class
    [x], which the object store holds; entries 17 and 18 are the class [y],
    which only the weak array refers to. *)
Definition class_table : list ObjectPtr :=
  <[18%nat := HeapObject 1128]>
    (<[17%nat := HeapObject 1128]>
       (<[16%nat := HeapObject 1064]> (replicate 20 (SmallInteger 0)))).

Definition class_heap : Heap :=
  with_class_table Examples.weak_heap class_table 0.

Definition class_heap_after : Heap :=
  Eval vm_compute in
    match Scavenge class_heap with Ok (_, h) => h | _ => class_heap end.

(** [Examples.weak_heap] with the free list 7, 5 in its class table. *)
Definition free_heap : Heap :=
  with_class_table Examples.weak_heap
    (<[7%nat := SmallInteger 5]> (replicate 20 (SmallInteger 0))) 7.

End ClassExamples.

Lemma class_heap_well_formed : well_formed ClassExamples.class_heap.
Proof.
  eapply (example_well_formed _ 1032 _ (HeapObject 1064));
    try reflexivity; vm_compute; congruence.
Qed.

Lemma class_heap_Scavenge :
  Scavenge ClassExamples.class_heap = Ok (tt, ClassExamples.class_heap_after).
Proof. vm_compute. reflexivity. Qed.

Lemma AllocateClassId_free_list_witness :
  exists h',
    mapM (fun _ : unit => AllocateClassId) [tt; tt] ClassExamples.free_heap
      = Ok ([7; 5], h') /\
    class_table_free_ h' = 0.
Proof.
  destruct (AllocateClassId_free_list [7; 5] ClassExamples.free_heap)
    as (h' & Hm & Hf & _).
  - apply (FreeChain_cons _ _ 7 5); [reflexivity|].
    apply (FreeChain_cons _ _ 5 0); [reflexivity|]. constructor.
  - repeat constructor.
  - exists h'. split; [exact Hm|exact Hf].
Defined.

Lemma AllocateClassId_full h h1 :
  class_table_free_ h = 0 ->
  class_table_top_ h = Z.of_nat (length (class_table_ h)) ->
  Scavenge h = Ok (tt, h1) ->
  AllocateClassId h
    = if class_table_free_ h1 =? 0 then Fatal else AllocateClassId h1.
Proof.
  intros Hf Ht HS. unfold AllocateClassId, bind, get.
  rewrite Hf, Ht, !Z.eqb_refl. change (negb true) with false. cbv beta iota.
  rewrite HS.
  destruct (class_table_free_ h1 =? 0); reflexivity.
Qed.

Lemma Scavenge_free_head h h1 :
  well_formed h -> Scavenge h = Ok (tt, h1) ->
  ((forall j, ~ released_by h j) ->
     class_table_free_ h1 = class_table_free_ h) /\
  (forall j, released_by h j -> (forall j', released_by h j' -> j' <= j) ->
     class_table_free_ h1 = j /\
     exists f, class_table_ h1 !! Z.to_nat j = Some (SmallInteger f) /\
       (f = class_table_free_ h \/ released_by h f /\ f < j)).
Proof.
  intros Hwf HS.
  destruct (Scavenge_rec_released _ _ _ Hwf HS) as (rel & Hch & Hso & Hrel).
  split.
  - intros Hnone. destruct rel as [|j rel].
    + by apply FreeChain_nil_inv in Hch.
    + exfalso. apply (Hnone j), Hrel. by left.
  - intros j Hj Hmax. destruct rel as [|j0 rel].
    + apply Hrel in Hj. by apply elem_of_nil in Hj.
    + apply StronglySorted_inv in Hso as [Hso Hall].
      rewrite Forall_forall in Hall.
      assert (j0 = j) as ->.
      { apply Hrel, elem_of_cons in Hj as [->|Hj]; [done|].
        apply Hall in Hj. specialize (Hmax j0 (proj1 (Hrel j0) ltac:(by left))).
        lia. }
      assert (exists f, class_table_free_ h1 = j /\
                class_table_ h1 !! Z.to_nat j = Some (SmallInteger f) /\
                FreeChain (class_table_ h1) (class_table_free_ h) f rel)
        as (f & Hfree & Hf & Hc) by (inversion Hch; eauto).
      split; [done|]. exists f. split; [done|].
      destruct rel as [|j1 rel].
      * left. by apply FreeChain_nil_inv in Hc.
      * right. assert (f = j1) as -> by (inversion Hc; done).
        split; [apply Hrel; right; by left|].
        specialize (Hall j1 ltac:(by left)). lia.
Qed.

(** X12. The cid of a dead class is recycled. After a scavenge the largest
    cid released is the head of the free list, and [AllocateClassId] returns
    it without collecting again. When the class table is full and its free
    list empty, [AllocateClassId] scavenges first: it returns the largest
    cid the scavenge released, and is fatal when the scavenge released none;
    the table is never enlarged. *)
Theorem AllocateClassId_recycles h h1 :
  well_formed h -> Scavenge h = Ok (tt, h1) ->
  (forall j, released_by h j -> (forall j', released_by h j' -> j' <= j) ->
     exists f,
       AllocateClassId h1 = Ok (j, cid_taken h1 j f) /\
       (f = class_table_free_ h \/ released_by h f /\ f < j) /\
       (class_table_free_ h = 0 ->
        class_table_top_ h = Z.of_nat (length (class_table_ h)) ->
        AllocateClassId h = Ok (j, cid_taken h1 j f))) /\
  ((forall j, ~ released_by h j) ->
   class_table_free_ h = 0 ->
   class_table_top_ h = Z.of_nat (length (class_table_ h)) ->
   AllocateClassId h = Fatal).
Proof.
  intros Hwf HS.
  destruct (Scavenge_free_head _ _ Hwf HS) as [Hnone Hsome]. split.
  - intros j Hj Hmax. destruct (Hsome j Hj Hmax) as (Hfree & f & Hf & Hnext).
    destruct Hj as [Hj _]. unfold kFirstLegalCid in Hj.
    assert (AllocateClassId h1 = Ok (j, cid_taken h1 j f)) as Hrun
      by (apply AllocateClassId_take; (done || lia)).
    exists f. split; [done|]. split; [done|]. intros Hf0 Hfull.
    rewrite (AllocateClassId_full _ _ Hf0 Hfull HS), Hfree.
    destruct (Z.eqb_spec j 0); [lia|done].
  - intros Hno Hf0 Hfull.
    rewrite (AllocateClassId_full _ _ Hf0 Hfull HS), (Hnone Hno), Hf0.
    reflexivity.
Qed.

Lemma class_heap_released j :
  released_by ClassExamples.class_heap j -> j = 17 \/ j = 18.
Proof.
  intros ((Hlo & Hhi) & p & a & Hp & Ha & Hnr).
  unfold kFirstLegalCid in Hlo. simpl in Hhi.
  assert (exists n, j = Z.of_nat n /\ (n < 20)%nat) as (n & -> & Hn)
    by (exists (Z.to_nat j); lia).
  rewrite Nat2Z.id in Hp.
  destruct (decide (n = 16%nat)) as [->|Hne].
  { exfalso. vm_compute in Hp. injection Hp as <-.
    vm_compute in Ha. injection Ha as <-. apply Hnr.
    eapply (Reach_slot _ 1032 _ (HeapObject 1064));
      [apply Reach_store; reflexivity|reflexivity| | | |reflexivity].
    - vm_compute. congruence.
    - vm_compute. congruence.
    - by left. }
  do 20 (destruct n as [|n]; [vm_compute in Hp; injection Hp as <-;
                              vm_compute in Ha;
                              first [discriminate|lia|done]|]).
  lia.
Qed.

Lemma class_heap_released_18 : released_by ClassExamples.class_heap 18.
Proof.
  split; [vm_compute; split; congruence|].
  exists (HeapObject 1128), 1128. split; [reflexivity|].
  split; [reflexivity|].
  intros Hr.
  destruct (Scavenge_spec _ _ class_heap_well_formed class_heap_Scavenge)
    as [(φ & nil & HM) _].
  destruct (proj1 (mv_reach _ _ _ _ HM 1128) Hr) as (n & Hn).
  destruct (mv_range _ _ _ _ HM _ _ Hn) as [c Hc].
  destruct (mv_cells _ _ _ _ HM _ _ Hc)
    as (a1 & o1 & Ha1 & Ho1 & _ & (o2 & -> & _ & _ & Hh & _)).
  pose proof (mv_inj _ _ _ _ HM _ _ _ Ha1 Hn) as ->.
  vm_compute in Ho1. injection Ho1 as <-. simpl in Hh.
  assert (Hall : map_Forall (fun _ c => hash_is 6 c = false)
                   (cells (to_ ClassExamples.class_heap_after))).
  { apply (proj1 (bool_decide_eq_true
             (map_Forall (fun _ c => hash_is 6 c = false)
                (cells (to_ ClassExamples.class_heap_after))))).
    vm_compute. reflexivity. }
  specialize (Hall _ _ Hc). simpl in Hall. lia.
Qed.

Lemma Scavenge_class_reclamation_witness :
  Scavenge ClassExamples.class_heap = Ok (tt, ClassExamples.class_heap_after) /\
  exists released,
    FreeChain (class_table_ ClassExamples.class_heap_after)
      (class_table_free_ ClassExamples.class_heap)
      (class_table_free_ ClassExamples.class_heap_after) released /\
    18 ∈ released.
Proof.
  split; [exact class_heap_Scavenge|].
  destruct (Scavenge_class_reclamation _ _ class_heap_well_formed
              class_heap_Scavenge) as (rel & Hch & _ & Hrel & _).
  exists rel. split; [exact Hch|].
  apply Hrel. exact class_heap_released_18.
Defined.

Lemma AllocateClassId_recycles_witness :
  exists f,
    AllocateClassId ClassExamples.class_heap
      = Ok (18, cid_taken ClassExamples.class_heap_after 18 f).
Proof.
  destruct (AllocateClassId_recycles _ _ class_heap_well_formed
              class_heap_Scavenge) as [H _].
  destruct (H 18) as (f & _ & _ & Hrun).
  - exact class_heap_released_18.
  - intros j' Hj'. apply class_heap_released in Hj' as [->| ->]; lia.
  - exists f. apply Hrun; reflexivity.
Defined.

(** ** Counting instances after a scavenge *)

Lemma instances_of_NoDup m c l : NoDup l -> NoDup (instances_of m c l).
Proof.
  induction 1 as [|x l Hx Hnd IH]; simpl; [constructor|].
  destruct (match m !! x with Some c0 => cid_of c0 =? c | None => false end);
    [|done].
  constructor; [|done]. intros Hin. apply instances_of_elem in Hin as [? _].
  done.
Qed.

(** X13. After a scavenge [CountInstances cid] counts the instances that
    were reachable: its result is the number of objects of the heap before
    the scavenge that carried [cid] and were reached, each counted once.
    The walk leaves the heap as it is. *)
Theorem Scavenge_CountInstances h0 h' c :
  well_formed h0 -> Scavenge h0 = Ok (tt, h') ->
  exists live,
    NoDup live /\
    (forall a, a ∈ live <->
       Reach h0 a /\
       exists o, cells (to_ h0) !! a = Some (Live o) /\ cid o = c) /\
    CountInstances c h' = Ok (Z.of_nat (length live), h').
Proof.
  intros Hwf H.
  destruct (Scavenge_spec _ _ Hwf H) as [(φ & nil & HM) _].
  destruct (mv_tiled _ _ _ _ HM) as (l' & Ht & Hnd' & Hdom').
  set (found := instances_of (cells (to_ h')) c l').
  destruct (preimages φ found) as [live Hl].
  { intros n Hn. apply instances_of_elem in Hn as (_ & c0 & Hc0 & _).
    destruct (mv_cells _ _ _ _ HM _ _ Hc0) as (a & _ & Ha & _). eauto. }
  exists live. split; [|split].
  - eapply preimages_NoDup; [exact Hl|]. by apply instances_of_NoDup.
  - intros a.
    rewrite (preimages_elem φ live found (mv_inj _ _ _ _ HM) Hl). split.
    + intros (n & Hn & Hφ).
      apply instances_of_elem in Hn as (_ & c0 & Hc0 & Hcid).
      split; [apply (mv_reach _ _ _ _ HM); eauto|].
      destruct (mv_cells _ _ _ _ HM _ _ Hc0)
        as (a' & o0 & Ha' & Ho0 & _ & (o' & -> & Hcid' & _)).
      assert (a' = a) as -> by exact (mv_inj _ _ _ _ HM _ _ _ Ha' Hφ).
      exists o0. split; [done|]. simpl in Hcid. congruence.
    + intros (Hr & o & Ho & Hcid).
      apply (mv_reach _ _ _ _ HM) in Hr as [n Hn].
      exists n. split; [|done].
      destruct (mv_range _ _ _ _ HM _ _ Hn) as [c0 Hc0].
      apply instances_of_elem. split; [apply Hdom'; eauto|].
      exists c0. split; [done|].
      destruct (mv_cells _ _ _ _ HM _ _ Hc0)
        as (a' & o0 & Ha' & Ho0 & _ & (o' & -> & Hcid' & _)).
      assert (a' = a) as -> by exact (mv_inj _ _ _ _ HM _ _ _ Ha' Hn).
      rewrite Ho in Ho0. injection Ho0 as <-. simpl. congruence.
  - assert (Hfuel : (length l' <= walk_fuel h')%nat).
    { unfold walk_fuel. pose proof (Tiled_length _ _ _ _ Ht). lia. }
    unfold CountInstances. rewrite (bind_run get _ h' h' h') by done.
    rewrite (CountInstances_loop_spec h' c l' _ _ 0 Ht Hfuel).
    apply Forall2_length in Hl. unfold found in Hl. rewrite Hl. done.
Qed.

Lemma Scavenge_CountInstances_witness :
  exists live : list Z,
    NoDup live /\
    CountInstances 16 Examples.weak_heap_after
      = Ok (Z.of_nat (length live), Examples.weak_heap_after) /\
    CountInstances 16 Examples.weak_heap = Ok (3, Examples.weak_heap) /\
    CountInstances 16 Examples.weak_heap_after
      = Ok (2, Examples.weak_heap_after).
Proof.
  destruct (Scavenge_CountInstances _ _ 16 weak_heap_well_formed
              weak_heap_Scavenge) as (live & Hnd & _ & Hrun).
  exists live. split; [exact Hnd|]. split; [exact Hrun|].
  split; vm_compute; reflexivity.
Defined.

(** ** [BecomeForward] works in place *)

(** [h'] is [h] with stores over to-space objects that were there: no cell
    is added or removed and none changes its size. *)
Definition in_place (h h' : Heap) : Prop :=
  h' = with_to_cells h (cells (to_ h')) /\
  (forall x, is_Some (cells (to_ h') !! x) <-> is_Some (cells (to_ h) !! x)) /\
  same_sizes (cells (to_ h)) (cells (to_ h')).

Lemma in_place_refl h : in_place h h.
Proof.
  split; [by destruct h as [? ? [] ? ? ? ? ? ? ? ? ? ? ? ?]|].
  split; [done|apply same_sizes_refl].
Qed.

Lemma in_place_trans h1 h2 h3 :
  in_place h1 h2 -> in_place h2 h3 -> in_place h1 h3.
Proof.
  intros (E1 & D1 & S1) (E2 & D2 & S2). split; [|split].
  - rewrite E2. rewrite E1 at 1. reflexivity.
  - intros x. rewrite D2. apply D1.
  - by eapply same_sizes_trans.
Qed.

Lemma in_place_write h x c c' :
  cells (to_ h) !! x = Some c -> not_forwarded c' ->
  cell_heap_size c' = cell_heap_size c ->
  in_place h (with_to_cells h (<[x := c']> (cells (to_ h)))).
Proof.
  intros Hx Hnf Hsz. split; [done|]. split.
  - intros y. simpl. destruct (decide (x = y)) as [->|Hne].
    + rewrite lookup_insert_eq, Hx. split; eauto.
    + by rewrite lookup_insert_ne.
  - simpl. by eapply same_sizes_insert.
Qed.

Lemma ForwardClass_in_place x h u h' :
  ForwardClass x h = Ok (u, h') -> in_place h h'.
Proof.
  intros H.
  apply ForwardClass_Ok in H as (o & old_class & Ho & _ & [[_ ->]|Hc]);
    [apply in_place_refl|].
  destruct Hc as (a & stale & nc & new_id & nil & h1 & v & o1
                  & _ & _ & _ & _ & Hadopt & _ & Ho1 & ->).
  assert (H1 : in_place h h1).
  { case_decide.
    - destruct Hadopt as (old_id & b & nb & _ & _ & _ & Hb & ->).
      by apply (in_place_write h b (Live nb)).
    - subst h1. apply in_place_refl. }
  eapply in_place_trans; [exact H1|].
  by apply (in_place_write h1 x (Live o1)).
Qed.

Lemma become_install_in_place old neu i h u h' :
  become_install old neu i h = Ok (u, h') -> in_place h h'.
Proof.
  intros H.
  apply become_install_Ok in H
    as (oo & no & a & b & fo & bo & fo' & _ & _ & _ & _ & Hfo & Hbo & Hfo' & ->).
  eapply (in_place_trans _
            (with_to_cells h
               (<[b := Live (set_identity_hash bo (identity_hash fo))]>
                  (cells (to_ h))))).
  - by apply (in_place_write h b (Live bo)).
  - set (h1 := with_to_cells h
                 (<[b := Live (set_identity_hash bo (identity_hash fo))]>
                    (cells (to_ h)))).
    change (in_place h1
              (with_to_cells h1
                 (<[a := Corpse fo' (HeapObject b)]> (cells (to_ h1))))).
    destruct (decide (a = b)) as [->|Hne].
    + eapply (in_place_write h1 b); [simpl; by rewrite lookup_insert_eq|done|].
      subst fo'. done.
    + eapply (in_place_write h1 a); [simpl; by rewrite lookup_insert_ne|done|].
      subst fo'. done.
Qed.

Lemma become_install_loop_in_place old neu n : forall i h h',
  become_install_loop old neu n i h = Ok (tt, h') -> in_place h h'.
Proof.
  induction n as [|n IH]; intros i h h' H; cbn [become_install_loop] in H.
  - apply ret_Ok in H as [_ ->]. apply in_place_refl.
  - apply bind_Ok in H as ([] & h1 & H1 & H).
    apply become_install_in_place in H1. apply IH in H.
    by eapply in_place_trans.
Qed.

Lemma ForwardToSpace_loop_in_place : forall fuel scan h h',
  ForwardToSpace_loop fuel scan h = Ok (tt, h') -> in_place h h'.
Proof.
  induction fuel as [|fuel IH]; intros scan h h' H;
    cbn [ForwardToSpace_loop] in H;
    apply bind_Ok in H as (? & ? & Hg & H); apply get_Ok in Hg as [-> ->];
    (destruct (scan <? top_ h);
     [|apply ret_Ok in H as [_ ->]; apply in_place_refl]);
    [discriminate|].
  apply bind_Ok in H as (corpse & ? & Hco & H).
  apply IsForwardingCorpse_Ok in Hco as [-> _].
  apply bind_Ok in H as ([] & h2 & H2 & H).
  assert (Hst : in_place h h2).
  { destruct corpse; [apply ret_Ok in H2 as [_ ->]; apply in_place_refl|].
    apply bind_Ok in H2 as ([] & h1 & H1 & H2).
    apply ForwardClass_in_place in H1.
    apply bind_Ok in H2 as (o & ? & Hr & H2).
    apply read_object_Ok in Hr as [-> Ho].
    apply bind_Ok in H2 as (sl & ? & Hm & H2).
    apply mapM_ForwardPointer_Ok in Hm as [-> _].
    unfold write_to in H2. apply modify_Ok in H2 as ->.
    eapply in_place_trans; [exact H1|].
    by apply (in_place_write h1 scan (Live o)). }
  apply bind_Ok in H as (obj & ? & Hr & H).
  apply read_to_Ok in Hr as [-> _].
  apply bind_Ok in H as (sz & ? & Hsz & H).
  apply HeapSize_Ok in Hsz as (-> & _ & _).
  apply IH in H. by eapply in_place_trans.
Qed.

(** What [h'] shares with [h] when nothing was allocated, moved or freed
    in between. *)
Definition unmoved (h h' : Heap) : Prop :=
  top_ h' = top_ h /\ end_ h' = end_ h /\
  base (to_ h') = base (to_ h) /\ size (to_ h') = size (to_ h) /\
  from_ h' = from_ h /\
  ephemeron_list_ h' = ephemeron_list_ h /\ weak_list_ h' = weak_list_ h /\
  class_table_top_ h' = class_table_top_ h /\
  length (class_table_ h') = length (class_table_ h) /\
  length (handles_ h') = length (handles_ h) /\
  vm_brk h' = vm_brk h /\
  (forall x, is_Some (cells (to_ h') !! x) <-> is_Some (cells (to_ h) !! x)) /\
  same_sizes (cells (to_ h)) (cells (to_ h')).

Lemma unmoved_refl h : unmoved h h.
Proof. repeat (split; [done|]). apply same_sizes_refl. Qed.

Lemma unmoved_trans h1 h2 h3 : unmoved h1 h2 -> unmoved h2 h3 -> unmoved h1 h3.
Proof.
  intros (A1 & A2 & A3 & A4 & A5 & A6 & A7 & A8 & A9 & A10 & A11 & AD & AS)
         (B1 & B2 & B3 & B4 & B5 & B6 & B7 & B8 & B9 & B10 & B11 & BD & BS).
  repeat (split; [congruence|]). split.
  - intros x. rewrite BD. apply AD.
  - by eapply same_sizes_trans.
Qed.

Lemma in_place_unmoved h h' : in_place h h' -> unmoved h h'.
Proof. intros (-> & D & S). repeat (split; [done|]). done. Qed.

Lemma unmoved_with_roots h os act hs :
  length hs = length (handles_ h) -> unmoved h (with_roots h os act hs).
Proof.
  intros Hlen. unfold unmoved. simpl.
  repeat split; first [done|apply same_sizes_refl].
Qed.

Lemma unmoved_with_class_table h t f :
  length t = length (class_table_ h) -> unmoved h (with_class_table h t f).
Proof.
  intros Hlen. unfold unmoved. simpl.
  repeat split; first [done|apply same_sizes_refl].
Qed.

Lemma unmoved_with_caches h r c : unmoved h (with_caches h r c).
Proof.
  unfold unmoved. simpl. repeat split; first [done|apply same_sizes_refl].
Qed.

(** X14. [BecomeForward] works in place. Whatever it returns, it allocates
    nothing and moves nothing: [top_], [end_], both semispaces' bounds,
    from-space, the lists of the scavenger and the sizes of the class table
    and of the handles are as before; to-space holds a cell at the same
    addresses, each of the size it had, so that a to-space that tiled still
    tiles and the bytes in use are the same. After [true] the caches are
    cleared; after [false] the heap is the one before the call. *)
Theorem BecomeForward_in_place old neu h b h' :
  BecomeForward old neu h = Ok (b, h') ->
  unmoved h h' /\
  (forall l, Tiled (cells (to_ h)) (object_start (to_ h)) l (top_ h) ->
     Tiled (cells (to_ h')) (object_start (to_ h')) l (top_ h')) /\
  used h' = used h /\
  (b = true -> recycle_list_ h' = None /\ lookup_cache_ h' = []) /\
  (b = false -> h' = h).
Proof.
  intros H.
  assert (Hb : (b = false /\ h' = h) \/ (b = true /\ unmoved h h' /\
                 recycle_list_ h' = None /\ lookup_cache_ h' = [])).
  { destruct b.
    - right. split; [done|].
      apply BecomeForward_phases in H
        as (oo & no & h1 & h2 & h3 & h4 & _ & _ & _ & H1 & H2 & H3 & H4 & ->).
      split; [|done].
      apply become_install_loop_in_place, in_place_unmoved in H1.
      apply ForwardRoots_Ok in H2.
      unfold ForwardToSpace in H3.
      apply bind_Ok in H3 as (? & ? & Hg & H3).
      apply get_Ok in Hg as [-> ->].
      apply ForwardToSpace_loop_in_place, in_place_unmoved in H3.
      destruct (ForwardClassTable_Ok _ _ H4) as (nil & Hnil & Hh4 & _).
      destruct (ForwardClassTable_spec _ _ _ Hnil H4) as (_ & Hlen & _).
      eapply unmoved_trans; [exact H1|].
      eapply (unmoved_trans _ h2).
      { rewrite H2. apply unmoved_with_roots. by rewrite length_fmap. }
      eapply unmoved_trans; [exact H3|].
      eapply (unmoved_trans _ h4); [|apply unmoved_with_caches].
      pose proof (unmoved_with_class_table h3 (class_table_ h4)
                    (class_table_free_ h4) Hlen) as Hx.
      by rewrite <- Hh4 in Hx.
    - left. split; [done|]. unfold BecomeForward in H.
      apply bind_Ok in H as (oo & ? & Hr & H).
      apply read_object_Ok in Hr as [-> _].
      apply bind_Ok in H as (no & ? & Hr & H).
      apply read_object_Ok in Hr as [-> _].
      destruct (negb _); [by apply ret_Ok in H as [_ ->]|].
      destruct (has_immediate _ _); [by apply ret_Ok in H as [_ ->]|].
      apply bind_Ok in H as ([] & ? & _ & H).
      apply bind_Ok in H as ([] & ? & _ & H).
      apply bind_Ok in H as ([] & ? & _ & H).
      apply bind_Ok in H as ([] & ? & _ & H).
      apply bind_Ok in H as ([] & ? & _ & H).
      apply ret_Ok in H as [? _]. done. }
  assert (Hun : unmoved h h').
  { destruct Hb as [[_ ->]|(_ & Hun & _)]; [apply unmoved_refl|done]. }
  split; [done|].
  pose proof Hun as (Ht & _ & Hbase & _ & _ & _ & _ & _ & _ & _ & _ & _ & Hs).
  assert (Hstart : object_start (to_ h') = object_start (to_ h))
    by (unfold object_start; congruence).
  split; [|split; [|split]].
  - intros l Hl. rewrite Hstart. apply (steady_Tiled h h'); [|done]. done.
  - unfold used. congruence.
  - intros ->. destruct Hb as [[? _]|(_ & _ & ?)]; done.
  - intros ->. destruct Hb as [[_ ?]|(? & _)]; done.
Qed.

Lemma BecomeForward_in_place_witness :
  BecomeForward 1096 1128 Examples.become_heap
    = Ok (true, Examples.become_heap_after) /\
  used Examples.become_heap_after = used Examples.become_heap.
Proof.
  split; [exact become_heap_run|].
  destruct (BecomeForward_in_place _ _ _ _ _ become_heap_run)
    as (_ & _ & Hu & _).
  exact Hu.
Defined.

(** ** Fresh class ids *)

(** The heap after the cid [class_table_top_] has been handed out. *)
Definition cid_fresh (h : Heap) : Heap :=
  with_class_table (with_class_table_top h (class_table_top_ h + 1))
    (<[Z.to_nat (class_table_top_ h) := uninitialized]> (class_table_ h))
    (class_table_free_ h).

Lemma AllocateClassId_next h :
  class_table_free_ h = 0 -> 0 <= class_table_top_ h ->
  class_table_top_ h < Z.of_nat (length (class_table_ h)) ->
  class_table_top_ h < kIntptrMax ->
  AllocateClassId h = Ok (class_table_top_ h, cid_fresh h).
Proof.
  intros Hf H0 Hlt Hmax. unfold AllocateClassId, bind, get.
  rewrite Hf. change (negb (0 =? 0)) with false. cbv beta iota.
  destruct (Z.eqb_spec (class_table_top_ h)
              (Z.of_nat (length (class_table_ h)))) as [|_]; [lia|].
  unfold ASSERT. destruct (Z.ltb_spec (class_table_top_ h) kIntptrMax);
    [|lia].
  unfold ret, modify, class_table_put, bind, get, ASSERT. simpl.
  destruct (Z.leb_spec 0 (class_table_top_ h)); [|lia].
  destruct (Z.ltb_spec (class_table_top_ h)
              (Z.of_nat (length (class_table_ h)))); [|lia].
  simpl. unfold cid_fresh. by rewrite Hf.
Qed.

(** X15. Fresh class ids. While the free list of the class table is empty
    and the table has room, [AllocateClassId] hands out [class_table_top_],
    [class_table_top_ + 1], ... in order, without collecting: each call
    advances [class_table_top_] by one and marks the entry with
    [kUninitializedWord]; no other entry and nothing else of the heap
    changes. *)
Theorem AllocateClassId_fresh n : forall h,
  class_table_free_ h = 0 -> 0 <= class_table_top_ h ->
  class_table_top_ h + Z.of_nat n <= Z.of_nat (length (class_table_ h)) ->
  Z.of_nat (length (class_table_ h)) <= kIntptrMax ->
  exists h',
    mapM (fun _ : unit => AllocateClassId) (replicate n tt) h
      = Ok (seqZ (class_table_top_ h) (Z.of_nat n), h') /\
    class_table_top_ h' = class_table_top_ h + Z.of_nat n /\
    class_table_free_ h' = 0 /\
    length (class_table_ h') = length (class_table_ h) /\
    (forall j, class_table_top_ h <= j < class_table_top_ h + Z.of_nat n ->
       class_table_ h' !! Z.to_nat j = Some uninitialized) /\
    (forall j, 0 <= j ->
       ~ class_table_top_ h <= j < class_table_top_ h + Z.of_nat n ->
       class_table_ h' !! Z.to_nat j = class_table_ h !! Z.to_nat j) /\
    h' = with_class_table_top (with_class_table h (class_table_ h') 0)
           (class_table_top_ h + Z.of_nat n).
Proof.
  induction n as [|n IH]; intros h Hf H0 Hroom Hmax.
  - exists h. simpl. rewrite Z.add_0_r.
    split; [done|]. split; [done|]. split; [done|]. split; [done|].
    split; [intros; lia|]. split; [done|].
    destruct h; simpl in *. unfold with_class_table_top, with_class_table.
    simpl. by rewrite Hf.
  - pose proof (AllocateClassId_next h Hf H0 ltac:(lia) ltac:(lia)) as Hrun.
    destruct (IH (cid_fresh h)) as (h' & Hm & Ht & Hf' & Hlen & Hin & Hout & Hh');
      [done|simpl; lia|simpl; rewrite length_insert; lia
      |simpl; rewrite length_insert; lia|].
    simpl in Ht, Hlen, Hin, Hout, Hm. rewrite length_insert in Hlen.
    exists h'. simpl replicate. simpl mapM.
    unfold bind at 1. rewrite Hrun. unfold bind at 1. rewrite Hm.
    split.
    { unfold ret. rewrite (seqZ_cons (class_table_top_ h)) by lia.
      replace (Z.succ (class_table_top_ h)) with (class_table_top_ h + 1)
        by lia.
      replace (Z.pred (Z.of_nat (S n))) with (Z.of_nat n) by lia. done. }
    split; [lia|]. split; [done|]. split; [done|]. split; [|split].
    + intros j Hj.
      destruct (decide (j = class_table_top_ h)) as [->|Hne].
      * rewrite Hout by lia.
        apply list_lookup_insert_eq. lia.
      * apply Hin. lia.
    + intros j Hj Hnot. rewrite Hout by lia.
      apply list_lookup_insert_ne. lia.
    + rewrite Hh'. destruct h. unfold with_class_table_top, with_class_table.
      simpl. f_equal. lia.
Qed.

Lemma AllocateClassId_fresh_run n : forall h,
  class_table_free_ h = 0 -> 0 <= class_table_top_ h ->
  class_table_top_ h + Z.of_nat n <= Z.of_nat (length (class_table_ h)) ->
  Z.of_nat (length (class_table_ h)) <= kIntptrMax ->
  exists h',
    mapM (fun _ : unit => AllocateClassId) (replicate n tt) h
      = Ok (seqZ (class_table_top_ h) (Z.of_nat n), h').
Proof.
  induction n as [|n IH]; intros h Hf H0 Hroom Hmax.
  - by exists h.
  - pose proof (AllocateClassId_next h Hf H0 ltac:(lia) ltac:(lia)) as Hrun.
    destruct (IH (cid_fresh h)) as (h' & Hm);
      [done|simpl; lia|simpl; rewrite length_insert; lia
      |simpl; rewrite length_insert; lia|].
    simpl in Hm. exists h'. simpl replicate. simpl mapM.
    unfold bind at 1. rewrite Hrun. unfold bind at 1. rewrite Hm.
    unfold ret. rewrite (seqZ_cons (class_table_top_ h)) by lia.
    replace (Z.succ (class_table_top_ h)) with (class_table_top_ h + 1)
      by lia.
    replace (Z.pred (Z.of_nat (S n))) with (Z.of_nat n) by lia. done.
Qed.

(** ** A new heap

    [Heap::Heap] (heap.cc). [brk] is where [VirtualMemory] places the first
    mapping; [Semispace::Allocate] asserts that a mapping is aligned. [NULL]
    is the word 0, which reads as the small integer 0. [kUnallocatedWord]
    is, like [kUninitializedWord], tagged as a heap object and not aligned
    as a new-space object. *)

Definition kUnallocatedWord : Z := 0xabababababababab.
Definition unallocated : ObjectPtr := HeapObject (kUnallocatedWord - 1).

Definition Heap_new (brk : Z) : Outcome Heap :=
  let '(to, brk1) := Semispace_Allocate kInitialSemispaceSize brk in
  if negb (IsAligned (base to) kObjectAlignment) then Trap
  else
    let '(from, brk2) := Semispace_Allocate kInitialSemispaceSize brk1 in
    if negb (IsAligned (base from) kObjectAlignment) then Trap
    else
      Ok (mkHeap (object_start to) (limit to) to from None None
            (replicate (Z.to_nat kFirstRegularObjectCid) uninitialized ++
             replicate (Z.to_nat (1024 - kFirstRegularObjectCid)) unallocated)
            kFirstRegularObjectCid 0
            (SmallInteger 0) (SmallInteger 0) [] None [] brk2).

Lemma Allocate_fits sz h :
  sz mod kObjectAlignment = 0 -> aligned_top h -> top_ h <> 0 ->
  sz <= end_ h - top_ h ->
  Allocate sz h = Ok (top_ h, with_top h (top_ h + sz)).
Proof.
  intros Hs Ha Hnz Hfit. unfold Allocate.
  rewrite land_mask_mod, Hs. simpl ASSERT.
  unfold bind at 1. unfold ret at 1. cbv beta iota.
  unfold bind at 1. rewrite (TryAllocate_fits _ _ Hs Ha Hfit).
  destruct (Z.eqb_spec (top_ h) 0); done.
Qed.

(** X16. A new heap. When the two mappings are aligned, [Heap::Heap] gives
    a heap that is well formed and at rest, whose semispaces have
    [kInitialSemispaceSize] bytes each and do not overlap, with nothing in
    use. Its class table has 1024 entries, none free, the first
    [kFirstRegularObjectCid] of them reserved: the first class ids handed
    out are [kFirstRegularObjectCid], the next one, and so on up to 1023,
    without a collection. An aligned request that fits the semispace is
    served at [object_start] without a collection. *)
Theorem Heap_new_state brk h :
  0 <= brk -> Heap_new brk = Ok h ->
  brk mod kObjectAlignment = 0 /\
  well_formed h /\ spaces_apart h /\
  used h = 0 /\ Capacity h = kInitialSemispaceSize /\
  end_ h = limit (to_ h) /\
  size (from_ h) = kInitialSemispaceSize /\
  length (class_table_ h) = 1024%nat /\
  (forall sz, 0 <= sz <= kInitialSemispaceSize - kNewObjectAlignmentOffset ->
     sz mod kObjectAlignment = 0 ->
     Allocate sz h
       = Ok (object_start (to_ h), with_top h (object_start (to_ h) + sz))) /\
  (forall n, (n <= 1024 - Z.to_nat kFirstRegularObjectCid)%nat ->
     exists h', mapM (fun _ : unit => AllocateClassId) (replicate n tt) h
                = Ok (seqZ kFirstRegularObjectCid (Z.of_nat n), h')).
Proof.
  intros Hbrk H. unfold Heap_new, Semispace_Allocate in H. simpl base in H.
  unfold IsAligned in H.
  destruct (Z.eqb_spec (brk mod kObjectAlignment) 0) as [Hal|]; [|done].
  destruct (Z.eqb_spec ((brk + kInitialSemispaceSize) mod kObjectAlignment) 0)
    as [_|]; [|done].
  simpl in H. injection H as <-.
  split; [done|]. split; [|split].
  - split; [|split; [|split]].
    + split; [done|]. split; [done|]. split; [done|]. simpl.
      intros a c Hc. by rewrite lookup_empty in Hc.
    + intros os o Hos. done.
    + intros a o Ho. simpl in Ho. by rewrite lookup_empty in Ho.
    + intros nil Hnil. done.
  - unfold spaces_apart, limit. simpl.
    unfold kInitialSemispaceSize, kWordSize, MB. lia.
  - split; [unfold used; simpl; lia|]. split; [done|]. split; [done|].
    split; [done|]. split; [by vm_compute|]. split.
    + intros sz Hsz Hmod. apply Allocate_fits; [done| | |].
      * unfold aligned_top. simpl. unfold object_start. simpl.
        rewrite land_mask_mod.
        unfold kNewObjectAlignmentOffset, kObjectAlignment, kWordSize in *.
        rewrite <- Zplus_mod_idemp_l, Hal. done.
      * simpl. unfold object_start, kNewObjectAlignmentOffset, kWordSize.
        simpl. lia.
      * simpl. unfold object_start, limit. simpl. lia.
    + intros n Hn.
      match goal with |- context [mapM _ _ ?g] => set (h := g) end.
      destruct (AllocateClassId_fresh_run n h) as (h' & Hm);
        [done|by vm_compute| |by vm_compute|by exists h'].
      assert (length (class_table_ h) = 1024%nat) as -> by (by vm_compute).
      change (class_table_top_ h) with kFirstRegularObjectCid.
      unfold kFirstRegularObjectCid in *. lia.
Qed.

Module NewExamples.

Definition new_heap : Heap :=
  match Heap_new 4096 with Ok h => h | _ => Examples.weak_heap end.

End NewExamples.

Lemma new_heap_run : Heap_new 4096 = Ok NewExamples.new_heap.
Proof. vm_compute. reflexivity. Qed.

Lemma Heap_new_state_witness :
  Heap_new 4096 = Ok NewExamples.new_heap /\
  Allocate 32 NewExamples.new_heap
    = Ok (4104, with_top NewExamples.new_heap 4136).
Proof.
  split; [exact new_heap_run|].
  destruct (Heap_new_state 4096 NewExamples.new_heap ltac:(lia) new_heap_run)
    as (_ & _ & _ & _ & _ & _ & _ & _ & Halloc & _).
  apply (Halloc 32); [vm_compute; split; congruence|reflexivity].
Defined.

Lemma AllocateClassId_fresh_witness :
  exists h',
    mapM (fun _ : unit => AllocateClassId) [tt; tt; tt] NewExamples.new_heap
      = Ok ([15; 16; 17], h').
Proof.
  destruct (AllocateClassId_fresh 3 NewExamples.new_heap)
    as (h' & Hm & _).
  - reflexivity.
  - vm_compute. congruence.
  - vm_compute. congruence.
  - vm_compute. congruence.
  - exists h'. exact Hm.
Defined.

(** ** What [Grow] gains *)

(** X17. What [Grow] gains. On a well-formed heap whose to-space is tiled
    by its objects and not overfull, when [Grow size_requested] returns, the
    capacity has at least doubled and has grown by at least the request, no
    more bytes are in use than before, and the request fits between [top_]
    and [end_]: the bump attempt that follows finds room. The heap is well
    formed again. *)
Theorem Grow_gains req h g l :
  well_formed h -> 0 < size (to_ h) ->
  Tiled (cells (to_ h)) (object_start (to_ h)) l (top_ h) ->
  (forall n, is_Some (cells (to_ h) !! n) -> n ∈ l) ->
  top_ h <= limit (to_ h) ->
  Grow req h = Ok (tt, g) ->
  well_formed g /\
  2 * Capacity h <= Capacity g /\
  req <= Capacity g - Capacity h /\
  used g <= used h /\
  req <= end_ g - top_ g.
Proof.
  intros Hwf Hsz Ht Hdom Htop Hg.
  destruct (Grow_well_formed _ _ _ Hwf ltac:(lia) Hg)
    as (n & Hs2 & Hwf2 & Hn & Hreq).
  destruct (Scavenge_spec _ _ Hwf2 Hs2) as [(φ & nil & HM) _].
  pose proof (Moved_well_formed _ _ _ _ HM Hwf2) as Hwfg.
  destruct (Scavenge_rec_frame _ _ _ Hwf2 Hs2) as (He & _ & _ & _ & _ & Hf).
  simpl in Hf.
  destruct (Scavenge_reached_sizes _ _ Hwf2 Hs2) as (lr & Hnd & _ & Hin & Hu).
  pose proof (total_size_tiled (Grow_realloc h n) lr l Hnd Hin Ht Hdom) as Hle.
  rewrite <- Hu in Hle. change (used (Grow_realloc h n)) with (used h) in Hle.
  unfold Capacity. split; [done|]. split; [lia|]. split; [lia|].
  split; [done|].
  rewrite He. unfold used, limit, object_start in *.
  unfold kNewObjectAlignmentOffset, kWordSize in *. lia.
Qed.

Module GrowExamples.

Definition grown_heap : Heap :=
  Eval vm_compute in
    match Grow 16 Examples.weak_heap with
    | Ok (_, h) => h
    | _ => Examples.weak_heap
    end.

End GrowExamples.

Lemma weak_heap_Grow :
  Grow 16 Examples.weak_heap = Ok (tt, GrowExamples.grown_heap).
Proof. vm_compute. reflexivity. Qed.

Lemma weak_heap_domain n :
  is_Some (cells (to_ Examples.weak_heap) !! n) ->
  n ∈ [1032; 1064; 1080; 1112; 1128].
Proof.
  assert (H : map_Forall
                (fun n (_ : Cell) =>
                   bool_decide (n ∈ [1032; 1064; 1080; 1112; 1128]) = true)
                (cells (to_ Examples.weak_heap))).
  { apply (proj1 (bool_decide_eq_true
               (map_Forall
                  (fun n (_ : Cell) =>
                     bool_decide (n ∈ [1032; 1064; 1080; 1112; 1128]) = true)
                  (cells (to_ Examples.weak_heap))))).
    vm_compute. reflexivity. }
  intros [c Hc]. specialize (H _ _ Hc). simpl in H.
  by apply bool_decide_eq_true in H.
Qed.

Lemma Grow_gains_witness :
  Grow 16 Examples.weak_heap = Ok (tt, GrowExamples.grown_heap) /\
  2 * Capacity Examples.weak_heap <= Capacity GrowExamples.grown_heap /\
  16 <= end_ GrowExamples.grown_heap - top_ GrowExamples.grown_heap.
Proof.
  split; [exact weak_heap_Grow|].
  destruct (Grow_gains 16 Examples.weak_heap GrowExamples.grown_heap
              [1032; 1064; 1080; 1112; 1128] weak_heap_well_formed
              ltac:(reflexivity) weak_heap_tiled weak_heap_domain
              ltac:(vm_compute; congruence) weak_heap_Grow)
    as (_ & Hcap & _ & _ & Hroom).
  split; [exact Hcap|exact Hroom].
Defined.
